(* ===== verification/_CoqProject ===== *)
-Q . S2P
Prelude.v
Uint.v
Types.v
Scheduler.v
Pool.v
PoolSafety.v
PoolFresh.v
PoolLife.v
MvMemory.v
Storage.v
Rpc.v
VmDb.v
Validation.v
Lazy.v
Chain.v
Vm.v
Soundness.v
Block.v
Snapshot.v
Serial.v
Skipped.v
Machine.v
Fetch.v
