(* ===== verification/Prelude.v ===== *)
(** * pevm, the RISE parallel EVM: a verification development

    pevm executes an Ethereum or RISE (OP stack) block in parallel with
    Block-STM: workers execute transactions optimistically against a shared
    multi-version memory, validate what they read, and re-execute what turns
    out to be stale.  The program is the crate [src/crates/pevm] and the
    binary [src/bins/fetch], which downloads blocks with the state they need.

    ** The parts and the files that model them

    - [Prelude]: the state monad with undefined behaviour ([stm]: [None] is an
      out-of-range unchecked index, a failed [debug_assert!], an overflow or
      an [unwrap] that panics), [result] with its question-mark notation, list
      lemmas, tactics and the hint database [pevm].
    - [Uint]: machine integers as [N] with wrap-around, saturation and
      [abs_diff] written out.
    - [Types] (lib.rs): locations, values, entries, statuses, versions, tasks,
      flags, hashers, and the documented life cycle of an incarnation.
    - [Scheduler] (scheduler.rs): the [Scheduler] record and one definition
      per method, run without interruption.
    - [Pool] (pevm.rs [execute_revm_parallel]'s worker loop, [try_execute],
      [try_validate], scheduler.rs): the same methods cut at every access to
      shared state, as a program counter per worker; [pstep] moves one worker,
      [reachable] closes over all interleavings.  [PoolSafety] proves the
      theorems about reachable pools, [PoolFresh] that none of the
      transactions left is stale, for any environment that says when they
      become so, and [PoolLife] that a version is recorded at most once and
      that nobody touches a transaction between its record and its abort.
    - [MvMemory] (mv_memory.rs): the multi-version memory and its methods.
    - [Storage] (storage.rs, storage/in_memory.rs): the class [Revm] of what
      is used of revm and alloy, accounts and codes with their conversions,
      the [Storage] trait, [InMemoryStorage], [StorageWrapper].
    - [Rpc] (storage/rpc.rs): [RpcStorage], its retries, its caches and its
      snapshots, over a remote node whose answers may vary.
    - [VmDb] (vm.rs): the database the EVM reads through: [set_tx],
      [get_code_hash], [db_basic], [db_storage], [db_code_by_hash],
      [db_block_hash], with their errors and panics.
    - [Validation]: the EVM as a program over the database ([evm_prog]), runs
      that see a different memory at every query, and replay.
    - [Lazy] (vm.rs, pevm.rs): lazy balance updates, evaluated downwards by
      readers and upwards at the end of the block.
    - [Chain] (chain.rs, chain/ethereum.rs, chain/rise.rs, compat.rs): the
      class [PevmChain], the promises [ChainLaws] the executor relies on, the
      two chains.
    - [Vm] (vm.rs): [Vm::execute] with its write set, rewards, flags, errors
      and result slot.
    - [Soundness]: [Vm::execute] and the multi-version memory together.
    - [Block] (pevm.rs): dispatch, result buffer, post-processing, sequential
      executor.
    - [Snapshot]: the plain chain state a memory stands for at an index, and
      EVM programs run on it.
    - [Serial]: the effect of write sets and rewards on chain states, and
      blocks as sequential executions.
    - [Fetch] (src/bins/fetch): the sequential executor as a program over
      [RpcStorage], and [run] as a transformer of the data directory.
    - [Skipped]: the transactions that [Vm::execute] exempts from validation.
    - [Machine] (pevm.rs [execute_revm_parallel]): the pool, the memory, the
      result slots and the databases of the workers together; [mstep] moves
      one worker, the answers of the pool's environment being those of
      [Vm::execute], [validate_read_locations] and
      [convert_writes_to_estimates] on the memory at hand.

    ** What the theorems show

    - Scheduling, for every interleaving of any number of workers and any
      answers of the VM (at most: blocked by a lower transaction, which
      [Soundness.execute_error] discharges): no undefined behaviour, exclusive
      execution, the status life cycle, no lost wake-up, no deadlock, and all
      transactions validated when the workers have left.
    - Memory: what [record], [convert_writes_to_estimates] and
      [validate_read_locations] do; well-formedness along every sequence of
      calls; no estimate left by a transaction that has executed.
    - Correctness of optimism: an execution whose read set passes validation
      against a memory is equal to an uninterrupted execution against that
      memory, and undisturbed executions pass.
    - Serializability ([Serial.block_serializable]): the results of a block in
      which every transaction is accepted by validation are those of running
      the transactions one after the other on plain chain states.  It rests
      on three refinements: replay ([Soundness]), [VmDb] against the plain
      state ([Snapshot.snapshot_refinement]), and the write set against the
      commit of the EVM's final state ([Serial.write_set_effect]).
    - The whole ([Machine.parallel_serializable]): in every run of the
      executor that ends without giving up, the collected results are those of
      the sequential run.  It composes the scheduler (all validated, nobody
      stale) with the memory (versions written once, entries kept while a
      transaction lives) and [Serial].  Lazily updated transactions, which
      the scheduler does not validate, are assumed to pass;
      [Skipped.deployment_missed] shows that they need not.
    - Skipped validation: the first transaction would always be accepted; a
      lazily updated transfer need not be, when its recipient is deployed
      meanwhile ([Skipped.deployment_missed]).
    - Lazy updates: both evaluations agree, and the post-processing gives each
      transaction the account after its own update.
    - Chains and block: estimates are rewarded, forks follow the header,
      cumulative gas, dispatch and errors, round trips of codes.
    - RPC: requests are retried at most eight times, the caches of
      [RpcStorage] are transparent, and a snapshot replays in memory; what
      [pevm-fetch] leaves on disk, also when it fails, and that the block
      executed from disk gives the results it gave over the node.

    ** Modelling choices and bounds

    Mutexes are taken and released as in the code; a step that needs a lock
    waits for it.  Atomics are sequentially consistent (the code uses
    [Relaxed]; their values only steer scheduling).  Counters are [N] modulo
    2^64; block sizes are assumed below 2^64 where the counters could wrap.
    Addresses, words and hashes are [N].  [HashMap] iteration is the order of
    [map_to_list]; the orders only permute write sets and the addresses of the
    post-processing.  The debug profile is modelled: a failed [debug_assert!]
    or an arithmetic overflow is stuck.  Fuel: [Scheduler.next_task] takes it
    as an argument and [next_task_terminates] says how much is enough;
    [MvMemory.drop_stale] takes the length of the old write list, which
    [drop_stale_spec] shows to be enough.  In [Machine] the queries of an
    execution see any earlier memories in order, a superset of what the code
    can see; the writes of an execution, a validation and a conversion to
    estimates are one step each.

    Parameters: revm's and alloy's types and functions (class [Revm], class
    [Alloy], [SpecOrder]), the EVM (an [evm_prog] depending on configuration,
    block and transaction), [CacheDB], RLP and the receipt trie, FxHash.
    Nothing is assumed of them except the hypotheses stated in the theorems:
    [BytecodeLaws], [chronological], that location hashes do not collide (or
    only that hashes of different kinds of locations differ), and, for
    serializability, what [Serial.state_ok] and [Serial.transfer_ok] say of
    the states the EVM answers.

    ** Not modelled

    The command line of the [fetch] binary, [RpcStorage::block_on] (the
    runtime that drives a future), [AsyncDropper] (freeing memory on another thread), the mocks for tests,
    weak-memory behaviour of the atomics, and interleavings inside [record],
    [validate_read_locations] and [convert_writes_to_estimates] (each runs as
    one step).

    ** Plan

    Interleavings inside validation, [record] and
    [convert_writes_to_estimates] in the machine; refinement of the scheduler
    methods by the pool steps; the post-processing of lazy addresses on the
    sequential side of [Machine.parallel_serializable], and its independence
    from the order of the addresses. *)

From stdpp Require Export prelude fin_maps gmap list_numbers strings.
From Stdlib Require Export NArith Lia.

(** ** A small state monad with undefined behaviour

    The methods of the scheduler and of the multi-version memory take [&self]
    and mutate shared state through mutexes and atomics.  A method is a
    function from the shared state to a result and the next state; [None] is
    an execution that leaves defined behaviour: an out-of-range
    [get_unchecked], a failed [debug_assert!], an arithmetic underflow that
    panics. *)

Definition stm (S A : Type) : Type := S → option (A * S).

#[export] Instance stm_ret S : MRet (stm S) := λ A a s, Some (a, s).
#[export] Instance stm_bind S : MBind (stm S) := λ A B k m s,
  match m s with
  | Some (a, s') => k a s'
  | None => None
  end.

Definition stm_get {S} : stm S S := λ s, Some (s, s).
Definition stm_gets {S A} (f : S → A) : stm S A := λ s, Some (f s, s).
Definition stm_modify {S} (f : S → S) : stm S unit := λ s, Some (tt, f s).
Definition stm_stuck {S A} : stm S A := λ _, None.
Definition stm_assert {S} (b : bool) : stm S unit :=
  if b then mret tt else stm_stuck.

Fixpoint stm_iter {S A} (f : A → stm S unit) (l : list A) : stm S unit :=
  match l with
  | [] => mret tt
  | x :: l' => f x ;; stm_iter f l'
  end.

(** Unfold the monad one layer everywhere. *)
Ltac stm_unfold :=
  unfold stm_assert in *;
  unfold mbind, mret, stm_bind, stm_ret, stm_get, stm_gets, stm_modify,
    stm_stuck in *; simpl in *.

(** Case analysis on the first stuck [match] or [if] of a hypothesis. *)
Ltac case_hyp H :=
  match type of H with
  | context [match ?x with _ => _ end] => destruct x eqn:?; simplify_eq/=
  end.
Ltac case_hyps H := repeat case_hyp H.

Section stm_laws.
Context {S : Type}.

Lemma stm_bind_Some {A B} (m : stm S A) (k : A → stm S B) s b s' :
  (m ≫= k) s = Some (b, s') ↔ ∃ a s1, m s = Some (a, s1) ∧ k a s1 = Some (b, s').
Proof.
  unfold mbind, stm_bind. destruct (m s) as [[a s1]|]; naive_solver.
Qed.

(** Partial-correctness rule for a loop over a list: an assertion indexed
    by the elements still to do. *)
Lemma stm_iter_ind {A} (f : A → stm S unit) (P : list A → S → Prop) l s :
  P l s →
  (∀ x l' s0, P (x :: l') s0 → ∃ s1, f x s0 = Some (tt, s1) ∧ P l' s1) →
  ∃ s', stm_iter f l s = Some (tt, s') ∧ P [] s'.
Proof.
  intros HP Hstep. revert s HP. induction l as [|x l IH]; intros s HP.
  - exists s. done.
  - destruct (Hstep _ _ _ HP) as (s1 & Hf & HP1).
    destruct (IH _ HP1) as (s' & Hl & HP').
    exists s'. simpl. split; [|done].
    apply stm_bind_Some. eauto.
Qed.
End stm_laws.

(** ** Results

    Rust's [Result]; the error type comes first so that the monad is over the
    value. *)

Inductive result (E A : Type) : Type :=
  | Ok (a : A)
  | Err (e : E).
Arguments Ok {E A} a.
Arguments Err {E A} e.

Definition and_then {E A B} (r : result E A) (k : A → result E B) : result E B :=
  match r with Ok a => k a | Err e => Err e end.

(** The question-mark operator. *)
Notation "'let?' x := r 'in' k" := (and_then r (λ x, k))
  (at level 10, x binder, r at level 100, k at level 200).

(** The same for methods that may fail and keep state. *)
Definition try_bind {S E A B} (m : stm S (result E A)) (k : A → stm S (result E B))
    : stm S (result E B) := λ s,
  match m s with
  | Some (Ok a, s') => k a s'
  | Some (Err e, s') => Some (Err e, s')
  | None => None
  end.
Notation "'try?' x := m 'in' k" := (try_bind m (λ x, k))
  (at level 10, x binder, m at level 100, k at level 200).
Definition try_ret {S E A} (a : A) : stm S (result E A) := λ s, Some (Ok a, s).
Definition throw {S E A} (e : E) : stm S (result E A) := λ s, Some (Err e, s).

Lemma try_bind_Ok {S E A B} (m : stm S (result E A)) (k : A → stm S (result E B)) s b s' :
  try_bind m k s = Some (Ok b, s') ↔ ∃ a s1, m s = Some (Ok a, s1) ∧ k a s1 = Some (Ok b, s').
Proof. unfold try_bind. destruct (m s) as [[[a|e] s1]|]; naive_solver. Qed.

Definition map_err {E F A} (f : E → F) (r : result E A) : result F A :=
  match r with Ok a => Ok a | Err e => Err (f e) end.

#[export] Instance result_eq_dec {E A} `{EqDecision E, EqDecision A} : EqDecision (result E A).
Proof. solve_decision. Defined.

(** ** Lists *)

(** One choice for each index. *)
Lemma list_of_choices {A} (n : nat) (P : nat → A → Prop) :
  (∀ i, i < n → ∃ x, P i x) → ∃ xs : list A, length xs = n ∧ ∀ i x, xs !! i = Some x → P i x.
Proof.
  induction n as [|n IH]; intros HP; [by exists []|].
  destruct IH as (xs & Hlen & Hxs); [auto with lia|]. destruct (HP n) as [x Hx]; [lia|].
  exists (xs ++ [x]). rewrite length_app. split; [simpl; lia|].
  intros i y [?|[? [Hi <-]%list_lookup_singleton_Some]]%lookup_app_Some; [by apply Hxs|].
  by replace i with n by lia.
Qed.

Section lists.
Context {A : Type}.
Implicit Types (l : list A).

Lemma sum_list_with_insert (f : A → nat) l i x y :
  l !! i = Some x →
  sum_list_with f (<[i := y]> l) + f x = sum_list_with f l + f y.
Proof.
  revert i. induction l as [|z l IH]; intros [|i] Hi; simplify_eq/=.
  - lia.
  - specialize (IH _ Hi). lia.
Qed.

Lemma sum_list_with_le_elem (f : A → nat) l i x :
  l !! i = Some x → f x ≤ sum_list_with f l.
Proof.
  revert i. induction l as [|z l IH]; intros [|i] Hi; simplify_eq/=; [lia|].
  specialize (IH _ Hi). lia.
Qed.

Lemma sum_list_with_two (f : A → nat) l i j x y :
  i ≠ j → l !! i = Some x → l !! j = Some y →
  f x + f y ≤ sum_list_with f l.
Proof.
  revert i j. induction l as [|z l IH]; intros [|i] [|j] Hne Hi Hj; simplify_eq/=.
  - pose proof (sum_list_with_le_elem f _ _ _ Hj). lia.
  - pose proof (sum_list_with_le_elem f _ _ _ Hi). lia.
  - assert (i ≠ j) as Hij by congruence. specialize (IH _ _ Hij Hi Hj). lia.
Qed.

Lemma sum_list_with_pos (f : A → nat) l :
  0 < sum_list_with f l → ∃ i x, l !! i = Some x ∧ 0 < f x.
Proof.
  induction l as [|z l IH]; simpl; [lia|]. intros Hs.
  destruct (decide (0 < f z)); [by exists 0, z|].
  destruct IH as (i & x & Hi & Hx); [lia|]. by exists (S i), x.
Qed.

Lemma sum_list_with_zero (f : A → nat) l :
  (∀ i x, l !! i = Some x → f x = 0) → sum_list_with f l = 0.
Proof.
  intros H. destruct (decide (0 < sum_list_with f l)) as [Hp|]; [|lia].
  apply sum_list_with_pos in Hp as (i & x & Hi & Hx).
  rewrite (H _ _ Hi) in Hx. lia.
Qed.

Lemma lookup_insert_Some_inv l i x j y :
  <[i := x]> l !! j = Some y →
  (i = j ∧ y = x ∧ i < length l) ∨ (i ≠ j ∧ l !! j = Some y).
Proof. rewrite list_lookup_insert_Some. naive_solver. Qed.
End lists.

(** Occurrences of an index in a list of indexes. *)
Definition occurs (i : nat) (l : list nat) : nat :=
  sum_list_with (λ j, if decide (i = j) then 1 else 0) l.

Lemma occurs_nil i : occurs i [] = 0.
Proof. done. Qed.

Lemma occurs_cons i j l :
  occurs i (j :: l) = (if decide (i = j) then 1 else 0) + occurs i l.
Proof. done. Qed.

Lemma occurs_app i l1 l2 : occurs i (l1 ++ l2) = occurs i l1 + occurs i l2.
Proof. apply sum_list_with_app. Qed.

Lemma occurs_pos i l : 0 < occurs i l ↔ i ∈ l.
Proof.
  induction l as [|j l IH]; [rewrite occurs_nil, elem_of_nil; lia|].
  rewrite occurs_cons, elem_of_cons. case_decide; intuition lia.
Qed.

(** Resolve the list-update lookups in the context. *)
Ltac lookup_simpl :=
  repeat match goal with
  | H : context [length (<[_ := _]> _)] |- _ => rewrite length_insert in H
  | |- context [length (<[_ := _]> _)] => rewrite length_insert
  | H : <[_ := _]> _ !! _ = Some _ |- _ =>
      apply lookup_insert_Some_inv in H as [(? & ? & ?)|(? & ?)]; simplify_eq/=
  end.

Create HintDb pevm discriminated.
Create Rewrite HintDb pevm.
#[export] Hint Resolve list_lookup_insert_eq list_lookup_insert_ne lookup_lt_Some : pevm.
#[export] Hint Rewrite @length_insert @length_replicate : pevm.
