(* ===== verification/Uint.v ===== *)
(** * Machine integers

    [usize], [u64], [u128] and [U256] values are numbers of [N] below a power
    of two.  Wrap-around ([AtomicUsize::fetch_add]/[fetch_sub]) and saturation
    ([saturating_add], ...) are written out. *)

From S2P Require Import Prelude.

Open Scope N_scope.

Definition usize_mod : N := 2 ^ 64.
Definition u64_max : N := 2 ^ 64 - 1.
Definition u128_max : N := 2 ^ 128 - 1.
Definition U256_MAX : N := 2 ^ 256 - 1.

(** [AtomicUsize::fetch_add] and [fetch_sub] wrap around on overflow. *)
Definition wrapping_add (a b : N) : N := (a + b) mod usize_mod.
Definition wrapping_sub (a b : N) : N := (a + (usize_mod - b mod usize_mod)) mod usize_mod.

(** Saturating arithmetic at the width whose greatest value is [m]. *)
Definition saturating_add (m a b : N) : N := N.min (a + b) m.
Definition saturating_sub (a b : N) : N := a - b.
Definition saturating_mul (m a b : N) : N := N.min (a * b) m.
Definition abs_diff (a b : N) : N := if a <=? b then b - a else a - b.

Definition u256_add := saturating_add U256_MAX.
Definition u256_mul := saturating_mul U256_MAX.

Lemma wrapping_add_small a b : a + b < usize_mod → wrapping_add a b = a + b.
Proof. apply N.mod_small. Qed.

Lemma wrapping_sub_small a b : b ≤ a → a < usize_mod → wrapping_sub a b = a - b.
Proof.
  intros Hb Ha. unfold wrapping_sub. rewrite (N.mod_small b) by lia.
  replace (a + (usize_mod - b)) with ((a - b) + 1 * usize_mod) by lia.
  rewrite N.Div0.mod_add. apply N.mod_small. lia.
Qed.

Lemma wrapping_add_lt a b : wrapping_add a b < usize_mod.
Proof. apply N.mod_lt. discriminate. Qed.

(** A wrapped increment is either the successor or zero: it never skips an
    index. *)
Lemma wrapping_incr_le a i : a ≤ i → wrapping_add a 1 ≤ i ∨ a = i ∨ wrapping_add a 1 = a + 1.
Proof.
  intros Hle. destruct (N.lt_ge_cases (a + 1) usize_mod) as [H|H].
  - right; right. by apply wrapping_add_small.
  - destruct (decide (a = i)) as [|Hne]; [by right; left|]. left.
    unfold wrapping_add. etransitivity; [apply N.Div0.mod_le|]. lia.
Qed.

Lemma wrapping_incr_bound a i : a < i → wrapping_add a 1 ≤ i.
Proof.
  intros Hlt. unfold wrapping_add. etransitivity; [apply N.Div0.mod_le|]. lia.
Qed.

Lemma u256_add_le a b : u256_add a b ≤ U256_MAX.
Proof. apply N.le_min_r. Qed.

Lemma u256_add_exact a b : a + b ≤ U256_MAX → u256_add a b = a + b.
Proof. apply N.min_l. Qed.

Lemma u256_mul_exact a b : a * b ≤ U256_MAX → u256_mul a b = a * b.
Proof. apply N.min_l. Qed.

Lemma saturating_add_comm m a b : saturating_add m a b = saturating_add m b a.
Proof. unfold saturating_add. f_equal. lia. Qed.

(** Saturating addition is associative: the order in which amounts are added
    up does not matter, even when the sum saturates. *)
Lemma saturating_add_assoc m a b c :
  saturating_add m (saturating_add m a b) c = saturating_add m a (saturating_add m b c).
Proof. unfold saturating_add. lia. Qed.

Lemma saturating_add_mono m a b : a ≤ m → a ≤ saturating_add m a b.
Proof. unfold saturating_add. lia. Qed.

#[export] Hint Resolve u256_add_le wrapping_add_lt : pevm.
Global Opaque usize_mod.
Close Scope N_scope.
