(* ===== verification/Types.v ===== *)
(** * The shared data types (src/crates/pevm/src/lib.rs)

    Memory locations and values, the entries of the multi-version memory, the
    transaction statuses and versions, tasks, flags and the two hashers. *)

From S2P Require Import Prelude Uint.

(** Addresses (20 bytes), 256-bit words, code hashes and block hashes are
    numbers of [N]; the library only compares and stores them. *)
Abbreviation Address := N (only parsing).
Abbreviation U256 := N (only parsing).
Abbreviation B256 := N (only parsing).

(** [TxIdx] and [TxIncarnation] are [usize]; they index vectors of the block
    size and count re-executions. *)
Abbreviation TxIdx := nat (only parsing).
Abbreviation TxIncarnation := nat (only parsing).

Inductive MemoryLocation : Type :=
  | LocBasic (address : Address)
  | LocCodeHash (address : Address)
  | LocStorage (address : Address) (slot : U256).

Abbreviation MemoryLocationHash := N (only parsing).

#[export] Instance MemoryLocation_eq_dec : EqDecision MemoryLocation.
Proof. solve_decision. Defined.

(** AccountBasic (storage.rs) *)
Record AccountBasic : Type := mkAccountBasic {
  ab_balance : U256;
  ab_nonce : N;
}.

Definition AccountBasic_default : AccountBasic := mkAccountBasic 0 0.

#[export] Instance AccountBasic_eq_dec : EqDecision AccountBasic.
Proof. solve_decision. Defined.

Inductive MemoryValue : Type :=
  | ValBasic (basic : AccountBasic)
  | ValCodeHash (code_hash : B256)
  | ValStorage (value : U256)
  (** explicit balance addition *)
  | LazyRecipient (addition : U256)
  (** explicit balance subtraction and implicit nonce increment *)
  | LazySender (subtraction : U256)
  | SelfDestructed.

#[export] Instance MemoryValue_eq_dec : EqDecision MemoryValue.
Proof. solve_decision. Defined.

Inductive MemoryEntry : Type :=
  | Data (incarnation : TxIncarnation) (value : MemoryValue)
  | Estimate.

#[export] Instance MemoryEntry_eq_dec : EqDecision MemoryEntry.
Proof. solve_decision. Defined.

Inductive IncarnationStatus : Type :=
  | ReadyToExecute
  | Executing
  | Executed
  | Validated
  | Aborting.

#[export] Instance IncarnationStatus_eq_dec : EqDecision IncarnationStatus.
Proof. solve_decision. Defined.

Record TxStatus : Type := mkTxStatus {
  incarnation : TxIncarnation;
  status : IncarnationStatus;
}.

#[export] Instance TxStatus_eq_dec : EqDecision TxStatus.
Proof. solve_decision. Defined.

Record TxVersion : Type := mkTxVersion {
  tx_idx : TxIdx;
  tx_incarnation : TxIncarnation;
}.

#[export] Instance TxVersion_eq_dec : EqDecision TxVersion.
Proof. solve_decision. Defined.

Inductive ReadOrigin : Type :=
  | FromMvMemory (version : TxVersion)
  | FromStorage.

#[export] Instance ReadOrigin_eq_dec : EqDecision ReadOrigin.
Proof. solve_decision. Defined.

Abbreviation ReadOrigins := (list ReadOrigin) (only parsing).
Abbreviation ReadSet := (gmap N (list ReadOrigin)) (only parsing).
Abbreviation WriteSet := (list (N * MemoryValue)) (only parsing).

Inductive Task : Type :=
  | Execution (version : TxVersion)
  | Validation (version : TxVersion).

#[export] Instance Task_eq_dec : EqDecision Task.
Proof. solve_decision. Defined.

(** The version a task carries. *)
Definition task_version (t : Task) : TxVersion :=
  match t with Execution v | Validation v => v end.

(** ** bitflags FinishExecFlags: u8 *)

Definition FinishExecFlags : Type := N.
Definition NeedValidation : FinishExecFlags := 1%N.
Definition WroteNewLocation : FinishExecFlags := 2%N.
Definition flags_empty : FinishExecFlags := 0%N.
Definition flags_contains (flags f : FinishExecFlags) : bool := (N.land flags f =? f)%N.
Definition flags_union (flags f : FinishExecFlags) : FinishExecFlags := N.lor flags f.

Lemma contains_union_other flags :
  flags_contains (flags_union flags WroteNewLocation) NeedValidation
  = flags_contains flags NeedValidation.
Proof.
  unfold flags_contains, flags_union, NeedValidation, WroteNewLocation.
  rewrite N.land_lor_distr_l. simpl. by rewrite N.lor_0_r.
Qed.

Lemma contains_union_self flags f : flags_contains (flags_union flags f) f = true.
Proof.
  unfold flags_contains, flags_union. apply N.eqb_eq. apply N.bits_inj. intros n.
  rewrite N.land_spec, N.lor_spec. destruct (N.testbit flags n), (N.testbit f n); done.
Qed.

(** ** The documented life cycle of an incarnation (comment of
    [IncarnationStatus])

    Every write a scheduler method makes to a transaction status is one of
    these arrows. *)
Inductive status_arrow : TxStatus → TxStatus → Prop :=
  | arrow_try_incarnate i :
      status_arrow (mkTxStatus i ReadyToExecute) (mkTxStatus i Executing)
  | arrow_finish_execution i :
      status_arrow (mkTxStatus i Executing) (mkTxStatus i Executed)
  (** transactions that need no validation are [Validated] directly *)
  | arrow_finish_execution_lazy i :
      status_arrow (mkTxStatus i Executing) (mkTxStatus i Validated)
  | arrow_finish_validation i :
      status_arrow (mkTxStatus i Executed) (mkTxStatus i Validated)
  | arrow_abort_executed i :
      status_arrow (mkTxStatus i Executed) (mkTxStatus i Aborting)
  | arrow_abort_validated i :
      status_arrow (mkTxStatus i Validated) (mkTxStatus i Aborting)
  | arrow_resume i :
      status_arrow (mkTxStatus i Aborting) (mkTxStatus (S i) ReadyToExecute)
  | arrow_add_dependency i :
      status_arrow (mkTxStatus i Executing) (mkTxStatus i Aborting).

#[export] Hint Constructors status_arrow : pevm.

(** Incarnation numbers never decrease along the life cycle. *)
Lemma status_arrow_incarnation t t' :
  status_arrow t t' → incarnation t ≤ incarnation t'.
Proof. destruct 1; simpl; lia. Qed.

(** ** Hashers *)

(** [SuffixHasher::write]: the last eight bytes, big endian.  Slicing
    [bytes[len - 8 ..]] panics on shorter input. *)
Definition be_u64 (bytes : list N) : N :=
  foldl (λ acc b, (acc * 256 + b)%N) 0%N bytes.

Definition suffix_hash (bytes : list N) : option N :=
  if decide (8 ≤ length bytes) then Some (be_u64 (drop (length bytes - 8) bytes))
  else None.

(** [IdentityHasher::write_u64] / [write_usize]. *)
Definition identity_hash (id : N) : N := id.
