(* ===== verification/Scheduler.v ===== *)
(** * The collaborative scheduler (src/crates/pevm/src/scheduler.rs)

    The state of [Scheduler], one definition per method, and what each method
    does on every branch.  The definitions of this file run a method without
    interruption; [Pool.v] interleaves the atomic accesses of several workers
    and relates the two. *)

From S2P Require Import Prelude Uint Types.

(** ** State *)

Record Scheduler : Type := mkScheduler {
  block_size : nat;
  transactions_status : list TxStatus;
  transactions_dependents : list (list TxIdx);
  (** the four atomics are [AtomicUsize] *)
  execution_idx : N;
  validation_idx : N;
  min_validation_idx : N;
  num_validated : N;
  aborted : bool;
}.

Definition set_transactions_status x s := mkScheduler s.(block_size) x
  s.(transactions_dependents) s.(execution_idx) s.(validation_idx)
  s.(min_validation_idx) s.(num_validated) s.(aborted).
Definition set_transactions_dependents x s := mkScheduler s.(block_size)
  s.(transactions_status) x s.(execution_idx) s.(validation_idx)
  s.(min_validation_idx) s.(num_validated) s.(aborted).
Definition set_execution_idx x s := mkScheduler s.(block_size)
  s.(transactions_status) s.(transactions_dependents) x s.(validation_idx)
  s.(min_validation_idx) s.(num_validated) s.(aborted).
Definition set_validation_idx x s := mkScheduler s.(block_size)
  s.(transactions_status) s.(transactions_dependents) s.(execution_idx) x
  s.(min_validation_idx) s.(num_validated) s.(aborted).
Definition set_min_validation_idx x s := mkScheduler s.(block_size)
  s.(transactions_status) s.(transactions_dependents) s.(execution_idx)
  s.(validation_idx) x s.(num_validated) s.(aborted).
Definition set_num_validated x s := mkScheduler s.(block_size)
  s.(transactions_status) s.(transactions_dependents) s.(execution_idx)
  s.(validation_idx) s.(min_validation_idx) x s.(aborted).
Definition set_aborted x s := mkScheduler s.(block_size)
  s.(transactions_status) s.(transactions_dependents) s.(execution_idx)
  s.(validation_idx) s.(min_validation_idx) s.(num_validated) x.

Abbreviation Sched := (stm Scheduler).

(** [Scheduler::new] *)
Definition new (block_size : nat) : Scheduler := {|
  block_size := block_size;
  transactions_status := replicate block_size (mkTxStatus 0 ReadyToExecute);
  transactions_dependents := replicate block_size [];
  execution_idx := 0;
  validation_idx := N.of_nat block_size;
  min_validation_idx := N.of_nat block_size;
  num_validated := 0;
  aborted := false;
|}.

(** ** Shared accesses *)

(** [index_mutex!(self.transactions_status, i)]: an unchecked index, so an
    index past the end is undefined behaviour. *)
Definition lock_status (i : TxIdx) : Sched TxStatus := λ s,
  match s.(transactions_status) !! i with Some t => Some (t, s) | None => None end.
Definition put_status (i : TxIdx) (t : TxStatus) : Sched unit :=
  stm_modify (λ s, set_transactions_status (<[i := t]> s.(transactions_status)) s).

Definition lock_dependents (i : TxIdx) : Sched (list TxIdx) := λ s,
  match s.(transactions_dependents) !! i with Some d => Some (d, s) | None => None end.
Definition put_dependents (i : TxIdx) (d : list TxIdx) : Sched unit :=
  stm_modify (λ s, set_transactions_dependents (<[i := d]> s.(transactions_dependents)) s).

(** The atomics: each returns the previous value. *)
Definition fetch_add_execution_idx : Sched N := λ s,
  Some (s.(execution_idx), set_execution_idx (wrapping_add s.(execution_idx) 1) s).
Definition fetch_add_validation_idx : Sched N := λ s,
  Some (s.(validation_idx), set_validation_idx (wrapping_add s.(validation_idx) 1) s).
Definition fetch_min_execution_idx (i : N) : Sched unit :=
  stm_modify (λ s, set_execution_idx (N.min s.(execution_idx) i) s).
Definition fetch_min_validation_idx (i : N) : Sched unit :=
  stm_modify (λ s, set_validation_idx (N.min s.(validation_idx) i) s).
Definition fetch_min_min_validation_idx (i : N) : Sched N := λ s,
  Some (s.(min_validation_idx), set_min_validation_idx (N.min s.(min_validation_idx) i) s).
Definition fetch_add_num_validated : Sched unit :=
  stm_modify (λ s, set_num_validated (wrapping_add s.(num_validated) 1) s).
Definition fetch_sub_num_validated : Sched unit :=
  stm_modify (λ s, set_num_validated (wrapping_sub s.(num_validated) 1) s).

(** ** Methods *)

Definition abort : Sched unit := stm_modify (set_aborted true).

Definition try_execute (idx : N) : Sched (option TxVersion) :=
  bs ← stm_gets block_size;
  if (idx <? N.of_nat bs)%N then
    let i := N.to_nat idx in
    tx ← lock_status i;
    if decide (tx.(status) = ReadyToExecute) then
      put_status i (mkTxStatus tx.(incarnation) Executing) ;;
      mret (Some (mkTxVersion i tx.(incarnation)))
    else mret None
  else mret None.

(** One iteration of the [while] loop of [next_task]: fall through to the
    next iteration, leave the loop, or return a task.  [Spin] is the
    [thread::yield_now(); continue] path. *)
Inductive loop_ctl : Type :=
  | Continue
  | Spin
  | Break
  | Return (task : Task).

(** The body of [if tx_idx < self.block_size] on the validation path:
    [Some ctl] leaves the iteration, [None] falls back to an execution job. *)
Definition next_task_validate (i : TxIdx) : Sched (option loop_ctl) :=
  tx ← lock_status i;
  match tx.(status) with
  | ReadyToExecute =>
      put_status i (mkTxStatus tx.(incarnation) Executing) ;;
      mret (Some (Return (Execution (mkTxVersion i tx.(incarnation)))))
  | Executed | Validated =>
      mret (Some (Return (Validation (mkTxVersion i tx.(incarnation)))))
  | Aborting => mret (Some Continue)
  | Executing => mret None
  end.

Definition next_task_execute : Sched loop_ctl :=
  idx ← fetch_add_execution_idx;
  r ← try_execute idx;
  match r with
  | Some v => mret (Return (Execution v))
  | None => mret Continue
  end.

Definition next_task_iter : Sched loop_ctl :=
  ab ← stm_gets aborted;
  if ab : bool then mret Break else
  e ← stm_gets execution_idx;
  v ← stm_gets validation_idx;
  bs ← stm_gets block_size;
  if ((N.of_nat bs <=? e) && (N.of_nat bs <=? v))%N then
    n ← stm_gets num_validated;
    m ← stm_gets min_validation_idx;
    (* [self.block_size - self.min_validation_idx] panics on underflow *)
    stm_assert (m <=? N.of_nat bs)%N ;;
    if (N.of_nat bs - m <=? n)%N then mret Break else mret Spin
  else if (v <? e)%N then
    idx ← fetch_add_validation_idx;
    if (idx <? N.of_nat bs)%N then
      r ← next_task_validate (N.to_nat idx);
      match r with
      | Some ctl => mret ctl
      | None => next_task_execute
      end
    else next_task_execute
  else next_task_execute.

(** What a call of [next_task] comes to when no other thread interferes. *)
Inductive next_task_result : Type :=
  | GotTask (task : Task)
  | NoTask
  | Spinning
  | OutOfFuel.

Fixpoint next_task (fuel : nat) : Sched next_task_result :=
  match fuel with
  | O => mret OutOfFuel
  | S fuel' =>
      ctl ← next_task_iter;
      match ctl with
      | Continue => next_task fuel'
      | Spin => mret Spinning
      | Break => mret NoTask
      | Return t => mret (GotTask t)
      end
  end.

Definition is_done (st : IncarnationStatus) : bool :=
  match st with Executed | Validated => true | _ => false end.

Definition add_dependency (i blocking : TxIdx) : Sched bool :=
  btx ← lock_status blocking;
  if is_done btx.(status) then mret false else
  tx ← lock_status i;
  stm_assert (bool_decide (tx.(status) = Executing)) ;;
  put_status i (mkTxStatus tx.(incarnation) Aborting) ;;
  d ← lock_dependents blocking;
  put_dependents blocking (d ++ [i]) ;;
  mret true.

Definition set_ready_status (i : TxIdx) : Sched unit :=
  tx ← lock_status i;
  stm_assert (bool_decide (tx.(status) = Aborting)) ;;
  put_status i (mkTxStatus (S tx.(incarnation)) ReadyToExecute).

(** [for tx_idx in dependents.drain(..)] *)
Definition resume_dependent (i : TxIdx) : Sched unit :=
  set_ready_status i ;; fetch_min_execution_idx (N.of_nat i).

(** The closing [if]: [Executed] or [Validated] and counted. *)
Definition finish_status (i : TxIdx) (inc : TxIncarnation) (flags : FinishExecFlags)
    : Sched unit :=
  if flags_contains flags NeedValidation then
    put_status i (mkTxStatus inc Executed)
  else
    put_status i (mkTxStatus inc Validated) ;;
    fetch_add_num_validated.

Definition finish_execution (v : TxVersion) (flags : FinishExecFlags) : Sched (option Task) :=
  let i := v.(tx_idx) in
  tx ← lock_status i;
  stm_assert (bool_decide (tx.(status) = Executing)) ;;
  stm_assert (bool_decide (tx.(incarnation) = v.(tx_incarnation))) ;;
  ds ← lock_dependents i;
  put_dependents i [] ;;
  stm_iter resume_dependent ds ;;
  m ← (if flags_contains flags NeedValidation then
         old ← fetch_min_min_validation_idx (N.of_nat i);
         mret (N.min old (N.of_nat i))
       else stm_gets min_validation_idx);
  bs ← stm_gets block_size;
  if (m <? N.of_nat bs)%N then
    if (N.of_nat i <? m)%N then
      (if flags_contains flags WroteNewLocation
       then fetch_min_validation_idx m else mret tt) ;;
      finish_status i tx.(incarnation) flags ;; mret None
    else
      vi ← stm_gets validation_idx;
      if (N.of_nat i <? vi)%N then
        (if flags_contains flags WroteNewLocation
         then fetch_min_validation_idx (N.of_nat i + 1) else mret tt) ;;
        if flags_contains flags NeedValidation then
          put_status i (mkTxStatus tx.(incarnation) Executed) ;;
          mret (Some (Validation v))
        else
          put_status i (mkTxStatus tx.(incarnation) Validated) ;;
          fetch_add_num_validated ;;
          finish_status i tx.(incarnation) flags ;; mret None
      else finish_status i tx.(incarnation) flags ;; mret None
  else finish_status i tx.(incarnation) flags ;; mret None.

Definition try_validation_abort (v : TxVersion) : Sched bool :=
  tx ← lock_status v.(tx_idx);
  (if decide (tx.(status) = Validated) then fetch_sub_num_validated else mret tt) ;;
  if is_done tx.(status) then
    put_status v.(tx_idx) (mkTxStatus tx.(incarnation) Aborting) ;; mret true
  else mret false.

Definition finish_validation (v : TxVersion) (was_aborted : bool) : Sched (option Task) :=
  let i := v.(tx_idx) in
  if was_aborted then
    set_ready_status i ;;
    fetch_min_validation_idx (N.of_nat i + 1) ;;
    e ← stm_gets execution_idx;
    if (N.of_nat i <? e)%N then
      r ← try_execute (N.of_nat i);
      mret (Execution <$> r)
    else mret None
  else
    tx ← lock_status i;
    (if decide (tx.(status) = Executed) then
       put_status i (mkTxStatus tx.(incarnation) Validated) ;;
       fetch_add_num_validated
     else mret tt) ;;
    mret None.

(** Unfold every method and shared access. *)
Ltac sched_unfold :=
  unfold next_task_execute, resume_dependent, finish_validation in *;
  unfold next_task_validate, try_execute, add_dependency,
    set_ready_status, try_validation_abort, finish_status, lock_status, put_status, lock_dependents, put_dependents,
    fetch_add_validation_idx, fetch_add_execution_idx, fetch_min_execution_idx,
    fetch_min_validation_idx, fetch_min_min_validation_idx, fetch_add_num_validated,
    fetch_sub_num_validated, abort in *; stm_unfold.

(** ** [next_task] terminates, hands out a task, or spins *)

(** What [Scheduler::new] establishes and every method keeps. *)
Record wf (s : Scheduler) : Prop := {
  wf_status : length s.(transactions_status) = s.(block_size);
  wf_dependents : length s.(transactions_dependents) = s.(block_size);
  wf_min : (s.(min_validation_idx) ≤ N.of_nat s.(block_size))%N;
  wf_size : (N.of_nat s.(block_size) < usize_mod)%N;
}.

Lemma wf_new bs : (N.of_nat bs < usize_mod)%N → wf (new bs).
Proof. intros H. split; simpl; rewrite ?length_replicate; done || lia. Qed.

(** Transactions still ahead of the two indexes. *)
Definition ahead (s : Scheduler) : nat :=
  (s.(block_size) - N.to_nat s.(execution_idx))
  + (s.(block_size) - N.to_nat s.(validation_idx)).

Lemma try_execute_wf idx s :
  wf s → ∃ r s', try_execute idx s = Some (r, s') ∧ wf s' ∧
    s'.(execution_idx) = s.(execution_idx) ∧ s'.(validation_idx) = s.(validation_idx) ∧
    s'.(block_size) = s.(block_size).
Proof.
  intros Hwf. sched_unfold. destruct (N.ltb_spec idx (N.of_nat (block_size s))) as [Hlt|]; [|eauto 10].
  destruct (lookup_lt_is_Some_2 (transactions_status s) (N.to_nat idx)) as [t Ht].
  { rewrite (wf_status _ Hwf). lia. }
  rewrite Ht. case_decide; [|eauto 10]. do 2 eexists. split; [done|]. simpl.
  split; [|done]. destruct Hwf. split; simpl; rewrite ?length_insert; done.
Qed.

Lemma wf_put_status i t s :
  wf s → wf (set_transactions_status (<[i := t]> s.(transactions_status)) s).
Proof. intros []. split; simpl; rewrite ?length_insert; done. Qed.

(** The indexes stay below the wrap-around for as long as there are
    transactions ahead. *)
Definition no_wrap (s : Scheduler) : Prop :=
  (s.(execution_idx) + N.of_nat (ahead s) < usize_mod)%N.

(** An iteration that falls through has moved one of the indexes forward. *)
Definition moved (s s' : Scheduler) (ctl : loop_ctl) : Prop :=
  ctl = Continue → ahead s' < ahead s ∧ no_wrap s'.

Lemma next_task_execute_progress s s1 :
  wf s1 → no_wrap s → s1.(block_size) = s.(block_size) →
  s1.(execution_idx) = s.(execution_idx) →
  (s.(execution_idx) < N.of_nat s.(block_size) ∧ s1.(validation_idx) = s.(validation_idx) ∨
   s.(validation_idx) < N.of_nat s.(block_size) ∧
     s1.(validation_idx) = s.(validation_idx) + 1)%N →
  ∃ ctl s', next_task_execute s1 = Some (ctl, s') ∧ wf s' ∧ moved s s' ctl.
Proof.
  intros Hwf Hnw Hbs He Hv. unfold next_task_execute, fetch_add_execution_idx. stm_unfold.
  set (s2 := set_execution_idx _ s1).
  assert (wf s2) as Hwf2 by (destruct Hwf; by split).
  destruct (try_execute_wf (execution_idx s1) s2 Hwf2) as (r & s' & -> & Hwf' & He' & Hv' & Hbs').
  destruct r; do 2 eexists; (split; [done|]); (split; [done|]); [done|]. intros _.
  unfold no_wrap, ahead in *. rewrite He', Hv', Hbs'. subst s2. simpl. rewrite Hbs, He.
  rewrite wrapping_add_small by lia. lia.
Qed.

Ltac settle := do 2 eexists; (split; [reflexivity|]); (split; [done|]).

Lemma next_task_iter_progress s :
  wf s → no_wrap s →
  ∃ ctl s', next_task_iter s = Some (ctl, s') ∧ wf s' ∧ moved s s' ctl.
Proof.
  intros Hwf Hnw. pose proof (wf_size _ Hwf) as Hsz. pose proof (wf_min _ Hwf) as Hmin.
  unfold next_task_iter. stm_unfold. destruct (aborted s); [by settle|].
  destruct (N.leb_spec (N.of_nat (block_size s)) (execution_idx s)) as [He|He],
    (N.leb_spec (N.of_nat (block_size s)) (validation_idx s)) as [Hv|Hv]; simpl.
  { rewrite (proj2 (N.leb_le _ _) Hmin). case_match; by settle. }
  all: destruct (N.ltb_spec (validation_idx s) (execution_idx s)); try lia.
  2, 4: apply next_task_execute_progress; auto.
  all: unfold fetch_add_validation_idx; rewrite (proj2 (N.ltb_lt _ _) Hv).
  all: set (s1 := set_validation_idx _ s); assert (wf s1) as Hwf1 by (destruct Hwf; by split).
  all: assert (s1.(validation_idx) = s.(validation_idx) + 1)%N as Hv1
    by (subst s1; apply wrapping_add_small; unfold no_wrap, ahead in *; lia).
  all: unfold next_task_validate, lock_status, put_status; stm_unfold.
  all: destruct (lookup_lt_is_Some_2 (transactions_status s) (N.to_nat (validation_idx s)))
    as [t Ht]; [rewrite (wf_status _ Hwf); lia|].
  all: change (transactions_status s1) with (transactions_status s); rewrite Ht.
  all: destruct (status t); try (by settle); try (apply next_task_execute_progress; auto).
  1, 3: do 2 eexists; (split; [reflexivity|]); (split; [by apply wf_put_status|done]).
  all: settle; intros _; unfold no_wrap, ahead in *; subst s1; simpl; rewrite Hv1; lia.
Qed.



(** ** The validation counter *)

Lemma resume_dependents_counters ds s u s' :
  stm_iter resume_dependent ds s = Some (u, s') →
  s'.(num_validated) = s.(num_validated) ∧ s'.(min_validation_idx) = s.(min_validation_idx) ∧
  s'.(validation_idx) = s.(validation_idx) ∧ s'.(block_size) = s.(block_size).
Proof.
  revert s. induction ds as [|d ds IH]; intros s H; simpl in H; [stm_unfold; by simplify_eq|].
  apply stm_bind_Some in H as (? & s1 & H1 & H2). apply IH in H2 as (-> & -> & -> & ->).
  sched_unfold. repeat case_match; by simplify_eq/=.
Qed.

(** The index from which transactions are validated after [flags]. *)
Definition min_after (s : Scheduler) (i : N) (flags : FinishExecFlags) : N :=
  if flags_contains flags NeedValidation then N.min s.(min_validation_idx) i
  else s.(min_validation_idx).

(** The counters after [finish_execution], and the task it hands out. *)
Lemma finish_execution_effect v flags s r s' :
  finish_execution v flags s = Some (r, s') →
  let i := N.of_nat v.(tx_idx) in
  let m := min_after s i flags in
  let active := (m <? N.of_nat s.(block_size))%N in
  s'.(num_validated) =
    (if flags_contains flags NeedValidation then s.(num_validated)
     else if active && (m <=? i)%N && (i <? s.(validation_idx))%N
     then wrapping_add (wrapping_add s.(num_validated) 1) 1
     else wrapping_add s.(num_validated) 1) ∧
  s'.(min_validation_idx) = m ∧
  s'.(validation_idx) =
    (if active && flags_contains flags WroteNewLocation then
       if (i <? m)%N then N.min s.(validation_idx) m
       else if (i <? s.(validation_idx))%N then N.min s.(validation_idx) (i + 1)
       else s.(validation_idx)
     else s.(validation_idx)) ∧
  r = (if active && flags_contains flags NeedValidation && (i <? s.(validation_idx))%N
       then Some (Validation v) else None).
Proof.
  intros H. unfold finish_execution in H. unfold min_after.
  apply stm_bind_Some in H as (tx & s1 & Hl & H). unfold lock_status in Hl.
  destruct (transactions_status s !! _) in Hl; simplify_eq/=.
  do 2 (apply stm_bind_Some in H as ([] & ? & Ha & H); unfold stm_assert in Ha;
    destruct (bool_decide _) in Ha; [|done]; unfold mret, stm_ret in Ha; simplify_eq/=).
  apply stm_bind_Some in H as (ds & s2 & Hd & H). unfold lock_dependents in Hd.
  destruct (transactions_dependents _ !! _) in Hd; simplify_eq/=.
  apply stm_bind_Some in H as ([] & s3 & Hp & H).
  unfold put_dependents, stm_modify in Hp. simplify_eq/=.
  apply stm_bind_Some in H as ([] & s4 & Hit & H).
  apply resume_dependents_counters in Hit as (Hn & Hm & Hv & Hb); simpl in *.
  rewrite <-Hn, <-Hm, <-Hv, <-Hb. clear Hn Hm Hv Hb. sched_unfold. rewrite ?N.leb_antisym.
  destruct (flags_contains flags NeedValidation) eqn:Hneed; simpl in *.
  - destruct (N.ltb_spec (N.of_nat (tx_idx v)) (N.min (min_validation_idx s4) (N.of_nat (tx_idx v))));
      [lia|]. repeat case_match; simplify_eq/=; try done; congruence.
  - rewrite andb_false_r. repeat case_match; simplify_eq/=; try done; congruence.
Qed.

(** C29. What [finish_execution] adds to [num_validated].  A transaction that
    needs validation is not counted; one that does not is counted once,
    except on the branch [min_validation_idx <= tx_idx < validation_idx],
    where it is counted twice: the branch increments the counter and falls
    through to the closing [if], which increments it again. *)
Theorem finish_execution_counter v flags s r s' :
  finish_execution v flags s = Some (r, s') →
  let i := N.of_nat v.(tx_idx) in
  s'.(num_validated) =
    if flags_contains flags NeedValidation then s.(num_validated)
    else if (s.(min_validation_idx) <? N.of_nat s.(block_size))%N
            && (s.(min_validation_idx) <=? i)%N && (i <? s.(validation_idx))%N
    then wrapping_add (wrapping_add s.(num_validated) 1) 1
    else wrapping_add s.(num_validated) 1.
Proof. intros (Hn & _)%finish_execution_effect. unfold min_after in Hn. by destruct (flags_contains _ _). Qed.

(** C30. Where validation restarts after [finish_execution].  A transaction
    that needs validation lowers [min_validation_idx] to itself; new
    locations move [validation_idx] back, to the next transaction or, for a
    transaction below [min_validation_idx], to [min_validation_idx];
    [validation_idx] never falls below [min_validation_idx], so that the
    transactions below it, which asked for no validation, are not validated
    later either; and a validation task is handed out exactly when the
    transaction needs one and validation has already passed it. *)
Theorem finish_execution_revalidation v flags s r s' :
  finish_execution v flags s = Some (r, s') →
  let i := N.of_nat v.(tx_idx) in
  let m := min_after s i flags in
  (s.(min_validation_idx) ≤ s.(validation_idx))%N →
  s'.(min_validation_idx) = m ∧ (m ≤ s'.(validation_idx) ≤ s.(validation_idx))%N ∧
  (flags_contains flags WroteNewLocation = true → (m < N.of_nat s.(block_size))%N →
    (s'.(validation_idx) ≤ N.max m (i + 1))%N) ∧
  (flags_contains flags WroteNewLocation = false → s'.(validation_idx) = s.(validation_idx)) ∧
  (r = Some (Validation v) ↔ flags_contains flags NeedValidation = true ∧
    (m < N.of_nat s.(block_size))%N ∧ (i < s.(validation_idx))%N).
Proof.
  intros (_ & Hm & Hv & Hr)%finish_execution_effect i m Hle. subst i.
  set (i := N.of_nat (tx_idx v)) in *. fold m in Hm, Hv, Hr. rewrite Hm, Hv, Hr. clear Hm Hv Hr.
  assert (m ≤ s.(validation_idx) ∧ (flags_contains flags NeedValidation = true → m ≤ i))%N as [Hms Hmi].
  { subst m. unfold min_after. destruct (flags_contains _ _); split; try done; lia. }
  destruct (N.ltb_spec m (N.of_nat s.(block_size))), (N.ltb_spec i m), (N.ltb_spec i s.(validation_idx)),
    (flags_contains flags WroteNewLocation), (flags_contains flags NeedValidation); simpl;
    split_and!; try done; try lia; (split; [intros ?; simplify_eq; done || lia|]);
    intros (? & ? & ?); done || lia.
Qed.

(** A lazy transaction (no validation needed) finishing between
    [min_validation_idx] and [validation_idx]: counted twice. *)
Definition demo_double : Scheduler :=
  set_min_validation_idx 1 (set_validation_idx 3
    (set_transactions_status
      [mkTxStatus 0 Validated; mkTxStatus 0 Executed; mkTxStatus 0 Executing]
      (set_num_validated 1 (new 3)))).

Lemma finish_execution_counter_witness :
  ∃ s', finish_execution (mkTxVersion 2 0) flags_empty demo_double = Some (None, s') ∧
    s'.(num_validated) = 3%N ∧
    length (filter (λ t, t.(status) = Validated) s'.(transactions_status)) = 2.
Proof.
  eexists. split; [vm_compute; reflexivity|]. split; [|vm_compute; reflexivity].
  refine (eq_trans (finish_execution_counter (mkTxVersion 2 0) flags_empty demo_double None _ _) _).
  - vm_compute. reflexivity.
  - vm_compute. reflexivity.
Defined.

(** Transaction 1 needs validation and wrote a new location; validation had
    passed it. *)
Definition demo_passed : Scheduler :=
  set_min_validation_idx 2 (set_validation_idx 3
    (set_transactions_status
      [mkTxStatus 0 Validated; mkTxStatus 0 Executing; mkTxStatus 0 Executed] (new 3))).

Lemma finish_execution_revalidation_witness :
  ∃ s', finish_execution (mkTxVersion 1 0) (flags_union NeedValidation WroteNewLocation) demo_passed
      = Some (Some (Validation (mkTxVersion 1 0)), s') ∧
    s'.(min_validation_idx) = 1%N ∧ (1 ≤ s'.(validation_idx) ≤ 3)%N.
Proof.
  eexists. split; [vm_compute; reflexivity|].
  refine (let H := finish_execution_revalidation (mkTxVersion 1 0)
    (flags_union NeedValidation WroteNewLocation) demo_passed
    (Some (Validation (mkTxVersion 1 0))) _ _ _ in conj (proj1 H) (proj1 (proj2 H))).
  - vm_compute. reflexivity.
  - vm_compute. discriminate.
Defined.
