(* ===== verification/Pool.v ===== *)
(** * The worker pool: interleaved scheduler steps

    [Pevm::execute_revm_parallel] spawns workers that share one [Scheduler].
    A worker is a program counter over the shared accesses of its loop
    (pevm.rs), of [Pevm::try_execute], of [try_validate] and of the scheduler
    methods; one step of the pool is one shared access of one worker, or one
    critical section that contains at most one atomic access.  Locks held
    across several accesses ([finish_execution] keeps the status and the
    dependents of its transaction locked until it returns) disable the steps
    of the other workers that need them.

    What [Vm::execute] and [MvMemory::validate_read_locations] answer is a
    choice of the environment here: the theorems hold for every answer that
    respects [vm_outcome_ok]. *)

From S2P Require Import Prelude Uint Types Scheduler.

(** ** What a worker calls *)

Inductive AbortReason : Type :=
  | FallbackToSequential
  | ExecutionErrorReason.

(** The result of [Vm::execute], as [Pevm::try_execute] distinguishes it. *)
Inductive vm_outcome : Type :=
  | VmOk (flags : FinishExecFlags)
  | VmRetry
  | VmFallbackToSequential
  | VmBlocking (blocking : TxIdx)
  | VmExecutionError.

(** What the scheduler relies on: a transaction is only ever blocked by a
    lower one. *)
Definition vm_outcome_ok (v : TxVersion) (o : vm_outcome) : bool :=
  match o with
  | VmBlocking b => bool_decide (b < v.(tx_idx))
  | _ => true
  end.

(** ** Program counters *)

Inductive pc : Type :=
  (** [Scheduler::next_task] *)
  | NextTask
  | NT_load_e
  | NT_load_v (e : N)
  | NT_load_n
  | NT_load_m (n : N)
  | NT_add_v
  | NT_lock_v (i : TxIdx)
  | NT_add_e
  | NT_lock_e (i : TxIdx)
  (** [Pevm::try_execute] *)
  | Exec (v : TxVersion)
  | Retry (v : TxVersion)
  | AddDep (v : TxVersion) (b : TxIdx)
  | AddDepFailed (v : TxVersion)
  | Fatal (v : TxVersion) (r : AbortReason)
  | FatalInit (v : TxVersion) (r : AbortReason)
  (** [Scheduler::finish_execution]; from [FE_ready] on the worker holds the
      locks of its transaction *)
  | FE_lock (v : TxVersion) (f : FinishExecFlags)
  | FE_ready (v : TxVersion) (f : FinishExecFlags) (d : TxIdx) (ds : list TxIdx)
  | FE_min_e (v : TxVersion) (f : FinishExecFlags) (d : TxIdx) (ds : list TxIdx)
  | FE_min (v : TxVersion) (f : FinishExecFlags)
  | FE_below (v : TxVersion) (f : FinishExecFlags) (m : N)
  | FE_load_v (v : TxVersion) (f : FinishExecFlags)
  | FE_above (v : TxVersion) (f : FinishExecFlags)
  | FE_inner (v : TxVersion) (f : FinishExecFlags)
  | FE_done (v : TxVersion) (f : FinishExecFlags)
  (** [try_validate] and [Scheduler::finish_validation] *)
  | Validate (v : TxVersion)
  | TryAbort (v : TxVersion)
  | Convert (v : TxVersion)
  | FV_ready (v : TxVersion)
  | FV_min_v (v : TxVersion)
  | FV_load_e (v : TxVersion)
  | FV_lock (v : TxVersion)
  | FV_ok (v : TxVersion)
  (** the worker loop after a task; [lost] is an execution given up after an
      abort *)
  | Post (next : option Task) (lost : option TxVersion)
  | Exit (lost : option TxVersion).

Record Pool : Type := mkPool {
  sched : Scheduler;
  abort_reason : option AbortReason;
  workers : list pc;
}.

(** The environment's answer at a step. *)
Inductive choice : Type :=
  | Tau
  | VmAnswer (o : vm_outcome)
  | ReadSetValid (b : bool).

Inductive outcome (A : Type) : Type :=
  | Disabled
  | Stuck
  | Next (a : A).
Arguments Disabled {A}.
Arguments Stuck {A}.
Arguments Next {A} a.

(** ** Locks *)

(** The transaction whose status and dependents locks a worker holds. *)
Definition holds_lock (p : pc) : option TxIdx :=
  match p with
  | FE_ready v _ _ _ | FE_min_e v _ _ _ | FE_min v _ | FE_below v _ _
  | FE_load_v v _ | FE_above v _ | FE_inner v _ | FE_done v _ => Some v.(tx_idx)
  | _ => None
  end.

(** The status locks the next step of a worker takes. *)
Definition needs_locks (p : pc) : list TxIdx :=
  match p with
  | NT_lock_v i | NT_lock_e i => [i]
  | AddDep v b => [b; v.(tx_idx)]
  | FE_lock v _ | TryAbort v | FV_ready v | FV_lock v | FV_ok v => [v.(tx_idx)]
  | FE_ready _ _ d _ => [d]
  | _ => []
  end.

Definition locked (ws : list pc) (i : TxIdx) : bool :=
  existsb (λ p, bool_decide (holds_lock p = Some i)) ws.

(** ** One step of a worker *)

Definition task_pc (t : Task) : pc :=
  match t with Execution v => Exec v | Validation v => Validate v end.

(** Run a scheduler method and go on to the program counter it selects. *)
Definition after {A} (m : Sched A) (k : A → pc) (s : Scheduler)
    (ar : option AbortReason) : outcome (pc * Scheduler * option AbortReason) :=
  match m s with
  | Some (a, s') => Next (k a, s', ar)
  | None => Stuck
  end.

Definition resume_pc (v : TxVersion) (f : FinishExecFlags) (ds : list TxIdx) : pc :=
  match ds with
  | [] => FE_min v f
  | d :: ds' => FE_ready v f d ds'
  end.

(** The branches of [finish_execution] after [min_validation_idx] is known. *)
Definition fe_branch (v : TxVersion) (f : FinishExecFlags) (bs : nat) (m : N) : pc :=
  if (m <? N.of_nat bs)%N then
    if (N.of_nat v.(tx_idx) <? m)%N then
      if flags_contains f WroteNewLocation then FE_below v f m else FE_done v f
    else FE_load_v v f
  else FE_done v f.

Definition wstep (c : choice) (p : pc) (s : Scheduler) (ar : option AbortReason)
    : outcome (pc * Scheduler * option AbortReason) :=
  let bs := s.(block_size) in
  match p with
  | NextTask =>
      if s.(aborted) then Next (Exit None, s, ar) else Next (NT_load_e, s, ar)
  | NT_load_e => Next (NT_load_v s.(execution_idx), s, ar)
  | NT_load_v e =>
      let v := s.(validation_idx) in
      if ((N.of_nat bs <=? e) && (N.of_nat bs <=? v))%N then Next (NT_load_n, s, ar)
      else if (v <? e)%N then Next (NT_add_v, s, ar)
      else Next (NT_add_e, s, ar)
  | NT_load_n => Next (NT_load_m s.(num_validated), s, ar)
  | NT_load_m n =>
      let m := s.(min_validation_idx) in
      if (m <=? N.of_nat bs)%N then
        if (N.of_nat bs - m <=? n)%N then Next (Exit None, s, ar)
        else Next (NextTask, s, ar)
      else Stuck
  | NT_add_v =>
      after fetch_add_validation_idx
        (λ i, if (i <? N.of_nat bs)%N then NT_lock_v (N.to_nat i) else NT_add_e) s ar
  | NT_lock_v i =>
      after (next_task_validate i)
        (λ r, match r with
              | Some (Return t) => task_pc t
              | Some _ => NextTask
              | None => NT_add_e
              end) s ar
  | NT_add_e =>
      after fetch_add_execution_idx
        (λ i, if (i <? N.of_nat bs)%N then NT_lock_e (N.to_nat i) else NextTask) s ar
  | NT_lock_e i =>
      after (try_execute (N.of_nat i))
        (λ r, match r with Some v => Exec v | None => NextTask end) s ar
  | Exec v =>
      match c with
      | VmAnswer o =>
          if vm_outcome_ok v o then
            Next (match o with
                  | VmOk f => FE_lock v f
                  | VmRetry => Retry v
                  | VmFallbackToSequential => Fatal v FallbackToSequential
                  | VmBlocking b => AddDep v b
                  | VmExecutionError => Fatal v ExecutionErrorReason
                  end, s, ar)
          else Disabled
      | _ => Disabled
      end
  | Retry v | AddDepFailed v =>
      match ar with
      | None => Next (Exec v, s, ar)
      | Some _ => Next (Post None (Some v), s, ar)
      end
  | AddDep v b =>
      after (add_dependency v.(tx_idx) b)
        (λ added : bool, if added then Post None None else AddDepFailed v) s ar
  | Fatal v r => after abort (λ _, FatalInit v r) s ar
  | FatalInit v r =>
      Next (Post None (Some v), s, match ar with Some r' => Some r' | None => Some r end)
  | FE_lock v f =>
      after (tx ← lock_status v.(tx_idx);
             stm_assert (bool_decide (tx.(status) = Executing)) ;;
             stm_assert (bool_decide (tx.(incarnation) = v.(tx_incarnation))) ;;
             ds ← lock_dependents v.(tx_idx);
             put_dependents v.(tx_idx) [] ;; mret ds)
        (resume_pc v f) s ar
  | FE_ready v f d ds => after (set_ready_status d) (λ _, FE_min_e v f d ds) s ar
  | FE_min_e v f d ds =>
      after (fetch_min_execution_idx (N.of_nat d)) (λ _, resume_pc v f ds) s ar
  | FE_min v f =>
      after (if flags_contains f NeedValidation then
               old ← fetch_min_min_validation_idx (N.of_nat v.(tx_idx));
               mret (N.min old (N.of_nat v.(tx_idx)))
             else stm_gets min_validation_idx)
        (fe_branch v f bs) s ar
  | FE_below v f m => after (fetch_min_validation_idx m) (λ _, FE_done v f) s ar
  | FE_load_v v f =>
      if (N.of_nat v.(tx_idx) <? s.(validation_idx))%N then
        Next (if flags_contains f WroteNewLocation then FE_above v f else FE_inner v f, s, ar)
      else Next (FE_done v f, s, ar)
  | FE_above v f =>
      after (fetch_min_validation_idx (N.of_nat v.(tx_idx) + 1)) (λ _, FE_inner v f) s ar
  | FE_inner v f =>
      if flags_contains f NeedValidation then
        after (put_status v.(tx_idx) (mkTxStatus v.(tx_incarnation) Executed))
          (λ _, Post (Some (Validation v)) None) s ar
      else
        (* the status is still locked, so only the counter is visible *)
        after fetch_add_num_validated (λ _, FE_done v f) s ar
  | FE_done v f =>
      after (finish_status v.(tx_idx) v.(tx_incarnation) f) (λ _, Post None None) s ar
  | Validate v =>
      match c with
      | ReadSetValid true => Next (FV_ok v, s, ar)
      | ReadSetValid false => Next (TryAbort v, s, ar)
      | _ => Disabled
      end
  | TryAbort v =>
      after (try_validation_abort v) (λ a : bool, if a then Convert v else FV_ok v) s ar
  | Convert v => Next (FV_ready v, s, ar)
  | FV_ready v => after (set_ready_status v.(tx_idx)) (λ _, FV_min_v v) s ar
  | FV_min_v v =>
      after (fetch_min_validation_idx (N.of_nat v.(tx_idx) + 1)) (λ _, FV_load_e v) s ar
  | FV_load_e v =>
      if (N.of_nat v.(tx_idx) <? s.(execution_idx))%N then Next (FV_lock v, s, ar)
      else Next (Post None None, s, ar)
  | FV_lock v =>
      after (try_execute (N.of_nat v.(tx_idx)))
        (λ r, Post (Execution <$> r) None) s ar
  | FV_ok v => after (finish_validation v false) (λ t, Post t None) s ar
  | Post next lost =>
      match ar with
      | Some _ =>
          Next (Exit (match next with Some (Execution v) => Some v | _ => lost end), s, ar)
      | None =>
          Next (match next with Some t => task_pc t | None => NextTask end, s, ar)
      end
  | Exit _ => Disabled
  end.

(** The cases of a worker's step. *)
Ltac step_cases :=
  match goal with
  | Hstep : wstep _ ?p _ _ = Next _ |- _ =>
      destruct p; simpl in Hstep; unfold after, fe_branch, resume_pc in Hstep; sched_unfold;
      repeat case_match; simplify_eq/=
  end.

Definition pstep (w : nat) (c : choice) (P : Pool) : outcome Pool :=
  match P.(workers) !! w with
  | None => Disabled
  | Some p =>
      if existsb (locked P.(workers)) (needs_locks p) then Disabled else
      match wstep c p P.(sched) P.(abort_reason) with
      | Disabled => Disabled
      | Stuck => Stuck
      | Next (p', s', ar') => Next (mkPool s' ar' (<[w := p']> P.(workers)))
      end
  end.

(** ** Runs *)

Definition init (bs : nat) (concurrency_level : nat) : Pool :=
  mkPool (new bs) None (replicate concurrency_level NextTask).

Inductive pool_step (P P' : Pool) : Prop :=
  | pool_step_intro w c : pstep w c P = Next P' → pool_step P P'.

Definition reachable (bs n : nat) (P : Pool) : Prop := rtc pool_step (init bs n) P.

(** Execute a schedule: the worker that moves and the environment's answer. *)
Fixpoint run (l : list (nat * choice)) (P : Pool) : outcome Pool :=
  match l with
  | [] => Next P
  | (w, c) :: l' =>
      match pstep w c P with
      | Next P' => run l' P'
      | o => o
      end
  end.

Lemma run_reachable l P P' : run l P = Next P' → rtc pool_step P P'.
Proof.
  revert P. induction l as [|[w c] l IH]; intros P H; simplify_eq/=; [done|].
  destruct (pstep w c P) as [| |P1] eqn:E; try done.
  eapply rtc_l; [by econstructor|]. by apply IH.
Qed.

(** A schedule that runs to the end, for concrete runs. *)
Definition run_ok (l : list (nat * choice)) (P : Pool) : bool :=
  match run l P with Next _ => true | _ => false end.
Definition run_to (l : list (nat * choice)) (P : Pool) : Pool :=
  match run l P with Next P' => P' | _ => P end.

Lemma run_to_reachable bs n l : run_ok l (init bs n) = true → reachable bs n (run_to l (init bs n)).
Proof.
  unfold run_ok, run_to, reachable. destruct (run l (init bs n)) eqn:E; try done.
  intros _. by eapply run_reachable.
Qed.

(** [k] steps of worker [w] that need no answer. *)
Definition taus (k w : nat) : list (nat * choice) := replicate k (w, Tau).

(** ** Ownership

    [held p] is the execution a worker is responsible for, [aborting p] are
    the aborting transactions it still has to make ready. *)

Definition held (p : pc) : option TxVersion :=
  match p with
  | Exec v | Retry v | AddDep v _ | AddDepFailed v | Fatal v _ | FatalInit v _
  | FE_lock v _ | FE_ready v _ _ _ | FE_min_e v _ _ _ | FE_min v _ | FE_below v _ _
  | FE_load_v v _ | FE_above v _ | FE_inner v _ | FE_done v _ => Some v
  | Post (Some (Execution v)) _ => Some v
  | Post _ lost | Exit lost => lost
  | _ => None
  end.

Definition aborting (p : pc) : list TxIdx :=
  match p with
  | Convert v | FV_ready v => [v.(tx_idx)]
  | FE_ready _ _ d ds => d :: ds
  | FE_min_e _ _ _ ds => ds
  | _ => []
  end.

Definition holds (i : TxIdx) (p : pc) : nat :=
  match held p with
  | Some v => if decide (v.(tx_idx) = i) then 1 else 0
  | None => 0
  end.

(** All indexes of a program counter are indexes of the block. *)
Definition pc_ok (bs : nat) (p : pc) : Prop :=
  match p with
  | NT_lock_v i | NT_lock_e i => i < bs
  | AddDep v b => b < v.(tx_idx) < bs
  | Validate v | TryAbort v | Convert v | FV_ready v | FV_min_v v | FV_load_e v
  | FV_lock v | FV_ok v => v.(tx_idx) < bs
  | Post (Some (Validation v)) _ => v.(tx_idx) < bs
  | FE_below _ f m => (m ≤ N.of_nat bs)%N ∧ flags_contains f NeedValidation = false
  | _ => True
  end.

Definition is_status (st : IncarnationStatus) (t : TxStatus) : nat :=
  if decide (t.(status) = st) then 1 else 0.

(** An execution is only given up after an abort. *)
Definition lost_of (p : pc) : option TxVersion :=
  match p with Post _ lost | Exit lost => lost | _ => None end.

Record Inv (s : Scheduler) (ar : option AbortReason) (ws : list pc) : Prop := {
  inv_len_status : length s.(transactions_status) = s.(block_size);
  inv_len_deps : length s.(transactions_dependents) = s.(block_size);
  inv_min : (s.(min_validation_idx) ≤ N.of_nat s.(block_size))%N;
  inv_pc : ∀ w p, ws !! w = Some p → pc_ok s.(block_size) p;
  (** a transaction is [Executing] exactly when one worker executes it *)
  inv_exec : ∀ i t, s.(transactions_status) !! i = Some t →
    sum_list_with (holds i) ws = is_status Executing t;
  inv_version : ∀ w p, ws !! w = Some p → ∀ v, held p = Some v →
    s.(transactions_status) !! v.(tx_idx) = Some (mkTxStatus v.(tx_incarnation) Executing);
  (** a transaction is [Aborting] exactly when one party will make it ready:
      a worker, or the transaction it depends on *)
  inv_abort : ∀ i t, s.(transactions_status) !! i = Some t →
    sum_list_with (λ p, occurs i (aborting p)) ws
    + sum_list_with (occurs i) s.(transactions_dependents) = is_status Aborting t;
  inv_bound : ∀ w p, ws !! w = Some p → ∀ i, i ∈ aborting p → i < s.(block_size);
  inv_deps : ∀ b ds i, s.(transactions_dependents) !! b = Some ds → i ∈ ds →
    b < i < s.(block_size) ∧
    ∃ t, s.(transactions_status) !! b = Some t ∧ is_done t.(status) = false;
  inv_drained : ∀ w p, ws !! w = Some p → ∀ i, holds_lock p = Some i →
    s.(transactions_dependents) !! i = Some [];
  inv_lost : ∀ w p, ws !! w = Some p → is_Some (lost_of p) → is_Some ar;
}.

Lemma Inv_init bs n : Inv (new bs) None (replicate n NextTask).
Proof.
  split; simpl; try done.
  - by rewrite length_replicate.
  - by rewrite length_replicate.
  - intros w p [-> _]%lookup_replicate_1. done.
  - intros i t [-> _]%lookup_replicate_1. unfold is_status; simpl.
    apply sum_list_with_zero. by intros ? ? [-> _]%lookup_replicate_1.
  - by intros w p [-> _]%lookup_replicate_1.
  - intros i t [-> _]%lookup_replicate_1. unfold is_status; simpl.
    rewrite !sum_list_with_zero; [done| |]; by intros ? ? [-> _]%lookup_replicate_1.
  - by intros w p [-> _]%lookup_replicate_1 i ?%elem_of_nil.
  - by intros b ds i [-> _]%lookup_replicate_1 ?%elem_of_nil.
  - by intros w p [-> _]%lookup_replicate_1.
  - by intros w p [-> _]%lookup_replicate_1 [? ?].
Qed.

(** No other worker executes the transaction this one executes. *)
Lemma held_unique s ar ws w p v w0 p0 v0 :
  Inv s ar ws → ws !! w = Some p → held p = Some v →
  ws !! w0 = Some p0 → w0 ≠ w → held p0 = Some v0 →
  v0.(tx_idx) ≠ v.(tx_idx).
Proof.
  intros HI Hw Hv H0 Hne Hv0 Heq.
  pose proof (inv_version _ _ _ HI _ _ Hw _ Hv) as Hst.
  pose proof (inv_exec _ _ _ HI _ _ Hst) as Hsum.
  pose proof (sum_list_with_two (holds v.(tx_idx)) _ _ _ _ _ Hne H0 Hw) as H2.
  unfold holds, is_status in *. rewrite Hv, Hv0 in H2. simpl in *.
  repeat case_decide; simplify_eq; lia.
Qed.

Section preservation.
Context (s s' : Scheduler) (ar ar' : option AbortReason) (ws : list pc).
Context (w : nat) (p p' : pc).
Hypothesis HI : Inv s ar ws.
Hypothesis Hw : ws !! w = Some p.
Hypothesis Hbs : s'.(block_size) = s.(block_size).
Hypothesis Hmin : (s'.(min_validation_idx) ≤ N.of_nat s.(block_size))%N.
Hypothesis Hpc : pc_ok s.(block_size) p'.
Hypothesis Har : is_Some ar → is_Some ar'.
Hypothesis Hlost : is_Some (lost_of p') → is_Some ar'.

(** The sums over the workers move by the difference of the two program
    counters. *)
Lemma sum_workers_update (f : pc → nat) :
  sum_list_with f (<[w := p']> ws) + f p = sum_list_with f ws + f p'.
Proof. by apply sum_list_with_insert. Qed.

(** A property of every worker survives when it holds of the new program
    counter. *)
Lemma workers_update (Q : nat → pc → Prop) :
  (∀ w0 p0, ws !! w0 = Some p0 → w0 ≠ w → Q w0 p0) → Q w p' →
  ∀ w0 p0, <[w := p']> ws !! w0 = Some p0 → Q w0 p0.
Proof.
  intros Hold Hnew w0 p0 H.
  apply lookup_insert_Some_inv in H as [(-> & -> & _)|(Hne & H)]; eauto.
Qed.

(** Steps that change no status and no dependents. *)
Lemma Inv_frame :
  s'.(transactions_status) = s.(transactions_status) →
  s'.(transactions_dependents) = s.(transactions_dependents) →
  held p' = held p →
  aborting p' = aborting p →
  (∀ i, holds_lock p' = Some i → holds_lock p = Some i) →
  Inv s' ar' (<[w := p']> ws).
Proof.
  intros Hst Hdp Hh Ha Hl. split; rewrite ?Hst, ?Hdp, ?Hbs.
  - apply (inv_len_status _ _ _ HI).
  - apply (inv_len_deps _ _ _ HI).
  - done.
  - apply (workers_update (λ _ p0, pc_ok _ p0)); eauto using inv_pc.
  - intros i t Ht. pose proof (inv_exec _ _ _ HI _ _ Ht) as E.
    pose proof (sum_workers_update (holds i)) as U. unfold holds in *. rewrite Hh in U. lia.
  - apply (workers_update (λ _ p0, ∀ v, held p0 = Some v → _)); [eauto using inv_version|].
    rewrite Hh. eauto using inv_version.
  - intros i t Ht. pose proof (inv_abort _ _ _ HI _ _ Ht) as E.
    pose proof (sum_workers_update (λ p, occurs i (aborting p))) as U. simpl in U.
    rewrite Ha in U. lia.
  - apply (workers_update (λ _ p0, ∀ i, i ∈ aborting p0 → _)); [eauto using inv_bound|].
    rewrite Ha. eauto using inv_bound.
  - apply (inv_deps _ _ _ HI).
  - apply (workers_update (λ _ p0, ∀ i, holds_lock p0 = Some i → _)); eauto using inv_drained.
  - apply (workers_update (λ _ p0, is_Some (lost_of p0) → _)); eauto using inv_lost.
Qed.

(** A step that changes the status of transaction [i] from [t] to [t'] and
    the dependents of transaction [b] from [ds] to [ds'].  [Hex] and [Hab]
    balance the books of the step: who executes, who aborts. *)
Section update.
Context (i : TxIdx) (t t' : TxStatus) (b : TxIdx) (ds ds' : list TxIdx).
Hypothesis Hst : s'.(transactions_status) = <[i := t']> s.(transactions_status).
Hypothesis Hdp : s'.(transactions_dependents) = <[b := ds']> s.(transactions_dependents).
Hypothesis Hi : s.(transactions_status) !! i = Some t.
Hypothesis Hb : s.(transactions_dependents) !! b = Some ds.
Hypothesis Hex : ∀ j, holds j p' + (if decide (j = i) then is_status Executing t else 0)
  = holds j p + (if decide (j = i) then is_status Executing t' else 0).
Hypothesis Hab : ∀ j, occurs j (aborting p') + occurs j ds'
    + (if decide (j = i) then is_status Aborting t else 0)
  = occurs j (aborting p) + occurs j ds
    + (if decide (j = i) then is_status Aborting t' else 0).
Hypothesis Howner : t.(status) = Executing → ∃ v, held p = Some v ∧ v.(tx_idx) = i.
Hypothesis Hver : ∀ v, held p' = Some v →
  v.(tx_idx) = i ∧ t' = mkTxStatus v.(tx_incarnation) Executing ∨ held p = Some v ∧ v.(tx_idx) ≠ i.
Hypothesis Hdone : is_done t'.(status) = true →
  is_done t.(status) = true ∨ (holds_lock p = Some i ∧ b = i ∧ ds' = []).
Hypothesis Hds : ∀ j, j ∈ ds' → j ∈ ds ∨ b < j < s.(block_size) ∧
  ∃ tb, s'.(transactions_status) !! b = Some tb ∧ is_done tb.(status) = false.
Hypothesis Hlock : ∀ k, holds_lock p' = Some k → s'.(transactions_dependents) !! k = Some [].
Hypothesis Hothers : ∀ w0 p0, ws !! w0 = Some p0 → w0 ≠ w → holds_lock p0 = Some b → ds' = [].

Lemma status_bound : i < length s.(transactions_status).
Proof. eauto using lookup_lt_Some. Qed.
Lemma dependents_bound : b < length s.(transactions_dependents).
Proof. eauto using lookup_lt_Some. Qed.

Lemma update_exec j tj :
  s'.(transactions_status) !! j = Some tj →
  sum_list_with (holds j) (<[w := p']> ws) = is_status Executing tj.
Proof.
  rewrite Hst. intros Hj. pose proof (sum_workers_update (holds j)) as U. specialize (Hex j).
  apply lookup_insert_Some_inv in Hj as [(-> & -> & _)|(Hne & Hj)].
  - rewrite !decide_True in Hex by done. pose proof (inv_exec _ _ _ HI _ _ Hi). lia.
  - rewrite !decide_False in Hex by done. pose proof (inv_exec _ _ _ HI _ _ Hj). lia.
Qed.

Lemma update_version w0 p0 :
  <[w := p']> ws !! w0 = Some p0 → ∀ v, held p0 = Some v →
  s'.(transactions_status) !! v.(tx_idx) = Some (mkTxStatus v.(tx_incarnation) Executing).
Proof.
  pose proof status_bound. rewrite Hst. revert w0 p0.
  apply (workers_update (λ _ p0, ∀ v, held p0 = Some v → _)).
  - intros w0 p0 H0 Hne v Hv. rewrite list_lookup_insert_ne; [eauto using inv_version|].
    intros ->. pose proof (inv_version _ _ _ HI _ _ H0 _ Hv) as Hst0.
    rewrite Hi in Hst0. injection Hst0 as ->. destruct (Howner eq_refl) as (v0 & Hv0 & Hi0).
    by apply (held_unique _ _ _ _ _ _ _ _ _ HI Hw Hv0 H0 Hne Hv).
  - intros v Hv. destruct (Hver _ Hv) as [[<- ->]|[Hpv Hne]].
    + by apply list_lookup_insert_eq.
    + rewrite list_lookup_insert_ne by done. eauto using inv_version.
Qed.

Lemma update_abort j tj :
  s'.(transactions_status) !! j = Some tj →
  sum_list_with (λ p, occurs j (aborting p)) (<[w := p']> ws)
    + sum_list_with (occurs j) s'.(transactions_dependents) = is_status Aborting tj.
Proof.
  intros Hj. pose proof (sum_workers_update (λ p, occurs j (aborting p))) as U. simpl in U.
  pose proof (sum_list_with_insert (occurs j) _ _ _ ds' Hb) as Hdeps. rewrite <-Hdp in Hdeps.
  specialize (Hab j). rewrite Hst in Hj.
  apply lookup_insert_Some_inv in Hj as [(-> & -> & _)|(Hne & Hj)].
  - rewrite !decide_True in Hab by done. pose proof (inv_abort _ _ _ HI _ _ Hi). lia.
  - rewrite !decide_False in Hab by done. pose proof (inv_abort _ _ _ HI _ _ Hj). lia.
Qed.

Lemma update_bound w0 p0 :
  <[w := p']> ws !! w0 = Some p0 → ∀ j, j ∈ aborting p0 → j < s.(block_size).
Proof.
  revert w0 p0. apply (workers_update (λ _ p0, ∀ j, j ∈ aborting p0 → _)); [eauto using inv_bound|].
  intros j Hj%occurs_pos. specialize (Hab j). case_decide; subst.
  { rewrite <-(inv_len_status _ _ _ HI). apply status_bound. }
  destruct (decide (j ∈ ds)) as [Hjd|Hjd]; [eapply inv_deps; eauto|].
  eapply inv_bound; [done..|]. apply occurs_pos. rewrite <-occurs_pos in Hjd. lia.
Qed.

(** An old dependent of [b0] waits for a transaction that is still not done,
    unless its list was drained. *)
Lemma update_old_dependents b0 ds0 j :
  s'.(transactions_dependents) !! b0 = Some ds0 → j ∈ ds0 →
  (∃ ds1, s.(transactions_dependents) !! b0 = Some ds1 ∧ j ∈ ds1) →
  b0 < j < s.(block_size) ∧ ∃ tb, s'.(transactions_status) !! b0 = Some tb ∧ is_done tb.(status) = false.
Proof.
  intros Hb0 Hj (ds1 & H1 & Hj1). destruct (inv_deps _ _ _ HI _ _ _ H1 Hj1) as (? & tb & Htb & Hnd).
  split; [done|]. rewrite Hst. destruct (decide (b0 = i)) as [->|Hne].
  2: { exists tb. by rewrite list_lookup_insert_ne. }
  exists t'. split; [apply list_lookup_insert_eq, status_bound|].
  rewrite Hi in Htb. injection Htb as <-. destruct (is_done (status t')) eqn:E; [|done].
  destruct (Hdone eq_refl) as [|(_ & Hbi & Hnil)]; [congruence|].
  rewrite Hdp, Hbi, list_lookup_insert_eq in Hb0 by (rewrite <-Hbi; apply dependents_bound).
  rewrite Hnil in Hb0. injection Hb0 as <-. by apply elem_of_nil in Hj.
Qed.

Lemma update_deps b0 ds0 j :
  s'.(transactions_dependents) !! b0 = Some ds0 → j ∈ ds0 →
  b0 < j < s.(block_size) ∧ ∃ tb, s'.(transactions_status) !! b0 = Some tb ∧ is_done tb.(status) = false.
Proof.
  intros Hb0 Hj. pose proof Hb0 as Hb0'. rewrite Hdp in Hb0'.
  apply lookup_insert_Some_inv in Hb0' as [(<- & -> & _)|(Hne & Hb1)].
  - destruct (Hds _ Hj) as [Hj1|?]; [|done]. eapply update_old_dependents; eauto.
  - eapply update_old_dependents; eauto.
Qed.

Lemma update_drained w0 p0 :
  <[w := p']> ws !! w0 = Some p0 → ∀ k, holds_lock p0 = Some k →
  s'.(transactions_dependents) !! k = Some [].
Proof.
  revert w0 p0. apply (workers_update (λ _ p0, ∀ k, holds_lock p0 = Some k → _)); [|exact Hlock].
  intros w0 p0 H0 Hne k Hk. rewrite Hdp. destruct (decide (b = k)) as [<-|Hbk].
  - rewrite list_lookup_insert_eq by apply dependents_bound. f_equal. eauto.
  - rewrite list_lookup_insert_ne by done. eauto using inv_drained.
Qed.

Lemma Inv_update : Inv s' ar' (<[w := p']> ws).
Proof.
  split; rewrite ?Hbs.
  - rewrite Hst, length_insert. apply (inv_len_status _ _ _ HI).
  - rewrite Hdp, length_insert. apply (inv_len_deps _ _ _ HI).
  - exact Hmin.
  - apply (workers_update (λ _ p0, pc_ok _ p0)); eauto using inv_pc.
  - exact update_exec.
  - exact update_version.
  - exact update_abort.
  - exact update_bound.
  - exact update_deps.
  - exact update_drained.
  - apply (workers_update (λ _ p0, is_Some (lost_of p0) → _)); eauto using inv_lost.
Qed.
End update.

(** Steps that change the status of one transaction and no dependents. *)
Lemma Inv_status i t t' :
  s'.(transactions_status) = <[i := t']> s.(transactions_status) →
  s'.(transactions_dependents) = s.(transactions_dependents) →
  s.(transactions_status) !! i = Some t →
  (∀ j, holds j p' + (if decide (j = i) then is_status Executing t else 0)
        = holds j p + (if decide (j = i) then is_status Executing t' else 0)) →
  (∀ j, occurs j (aborting p') + (if decide (j = i) then is_status Aborting t else 0)
        = occurs j (aborting p) + (if decide (j = i) then is_status Aborting t' else 0)) →
  (t.(status) = Executing → ∃ v, held p = Some v ∧ v.(tx_idx) = i) →
  (∀ v, held p' = Some v → v.(tx_idx) = i ∧ t' = mkTxStatus v.(tx_incarnation) Executing
        ∨ held p = Some v ∧ v.(tx_idx) ≠ i) →
  (is_done t'.(status) = true → is_done t.(status) = true ∨ holds_lock p = Some i) →
  (∀ k, holds_lock p' = Some k → holds_lock p = Some k) →
  Inv s' ar' (<[w := p']> ws).
Proof.
  intros Hst Hdp Hi Hex Hab Howner Hver Hdone Hlock.
  destruct (lookup_lt_is_Some_2 s.(transactions_dependents) i) as [ds Hds].
  { rewrite (inv_len_deps _ _ _ HI), <-(inv_len_status _ _ _ HI).
    eauto using lookup_lt_Some. }
  apply (Inv_update i t t' i ds ds); auto.
  - rewrite Hdp. by rewrite list_insert_id.
  - intros j. specialize (Hab j). lia.
  - intros Hd. destruct (Hdone Hd) as [|Hl]; [by left|]. right.
    pose proof (inv_drained _ _ _ HI _ _ Hw _ Hl). by simplify_eq.
  - intros k Hk. rewrite Hdp. eauto using inv_drained.
  - intros w0 p0 H0 _ Hl. pose proof (inv_drained _ _ _ HI _ _ H0 _ Hl). by simplify_eq.
Qed.
End preservation.

(** ** Every step preserves the invariant and no step is stuck *)

Definition ok_next (ws : list pc) (w : nat)
    (o : outcome (pc * Scheduler * option AbortReason)) : Prop :=
  match o with
  | Next (p', s', ar') => Inv s' ar' (<[w := p']> ws)
  | Stuck => False
  | Disabled => True
  end.

(** The side conditions of [Inv_frame] for a concrete step. *)
Ltac frame_step HI Hw :=
  eapply (Inv_frame _ _ _ _ _ _ _ _ HI Hw); simpl;
  try done; try (by intros [? ?]); try (by eauto using inv_min); try (by eauto).

Section steps.
Context (s : Scheduler) (ar : option AbortReason) (ws : list pc) (w : nat).
Hypothesis HI : Inv s ar ws.

Lemma status_at i : i < s.(block_size) → ∃ t, s.(transactions_status) !! i = Some t.
Proof. rewrite <-(inv_len_status _ _ _ HI). apply lookup_lt_is_Some_2. Qed.

Lemma held_bound p v : ws !! w = Some p → held p = Some v → v.(tx_idx) < s.(block_size).
Proof.
  intros Hw Hv. rewrite <-(inv_len_status _ _ _ HI).
  eapply lookup_lt_Some, inv_version; eauto.
Qed.

(** The transactions a worker has to make ready are [Aborting]. *)
Lemma aborting_status p i :
  ws !! w = Some p → i ∈ aborting p →
  ∃ inc, s.(transactions_status) !! i = Some (mkTxStatus inc Aborting).
Proof.
  intros Hw Hi. destruct (status_at i) as [[inc st] Ht]; [by eapply inv_bound|].
  pose proof (inv_abort _ _ _ HI _ _ Ht) as E.
  pose proof (sum_list_with_le_elem (λ p, occurs i (aborting p)) _ _ _ Hw) as L.
  apply occurs_pos in Hi. unfold is_status in E. simpl in *.
  case_decide; [subst; eauto|lia].
Qed.

(** The steps that leave statuses and dependents alone. *)
Definition quiet (p : pc) : bool :=
  match p with
  | NT_lock_v _ | NT_lock_e _ | AddDep _ _ | FE_lock _ _ | FE_ready _ _ _ _
  | FE_inner _ _ | FE_done _ _ | TryAbort _ | FV_ready _ | FV_lock _ | FV_ok _ => false
  | _ => true
  end.

Lemma step_quiet c p :
  ws !! w = Some p → quiet p = true → ok_next ws w (wstep c p s ar).
Proof.
  intros Hw Hp. pose proof (inv_min _ _ _ HI) as Hm.
  pose proof (inv_pc _ _ _ HI _ _ Hw) as Hpc.
  pose proof (inv_lost _ _ _ HI _ _ Hw) as Hlost.
  pose proof (λ v, held_bound p v Hw) as Hh.
  destruct p; try discriminate; simpl in *.
  all: unfold fe_branch, resume_pc, after; stm_unfold.
  all: repeat case_match; simplify_eq/=.
  all: try done.
  all: rewrite ?N.ltb_lt, ?N.leb_le, ?N.leb_gt, ?bool_decide_eq_true in *.
  all: try match goal with |- False => lia end.
  all: try by frame_step HI Hw.
  all: try (by frame_step HI Hw; lia).
  - destruct lost; [by destruct Hlost|]. frame_step HI Hw.
  - destruct lost; [by destruct Hlost|]. frame_step HI Hw.
Qed.

(** Taking a ready transaction. *)
Lemma step_take p p' i inc :
  ws !! w = Some p → held p = None → aborting p = [] → holds_lock p = None →
  held p' = Some (mkTxVersion i inc) → aborting p' = [] → holds_lock p' = None →
  lost_of p' = None → pc_ok s.(block_size) p' →
  s.(transactions_status) !! i = Some (mkTxStatus inc ReadyToExecute) →
  Inv (set_transactions_status (<[i := mkTxStatus inc Executing]> s.(transactions_status)) s)
    ar (<[w := p']> ws).
Proof.
  intros Hw Hh Ha Hl Hh' Ha' Hl' Hlo Hpc Hi.
  eapply (Inv_status _ _ _ _ _ _ _ _ HI Hw); simpl; try done; eauto using inv_min.
  - rewrite Hlo. by intros [? ?].
  - intros j. unfold holds. rewrite Hh, Hh'. unfold is_status. simpl.
    destruct (decide (i = j)), (decide (j = i)); simplify_eq; done.
  - intros j. rewrite Ha, Ha'. unfold is_status. by simpl.
  - intros v Hv. rewrite Hh' in Hv. simplify_eq. by left.
  - intros k. by rewrite Hl'.
Qed.

Lemma step_locks c p :
  ws !! w = Some p →
  (∃ i, p = NT_lock_v i ∨ p = NT_lock_e i ∨ ∃ inc, p = FV_lock (mkTxVersion i inc)) →
  ok_next ws w (wstep c p s ar).
Proof.
  intros Hw [i Hp]. pose proof (inv_pc _ _ _ HI _ _ Hw) as Hpc.
  assert (i < s.(block_size)) as Hlt by (destruct Hp as [->|[->|[? ->]]]; done).
  destruct (status_at i Hlt) as [[inc0 st] Ht].
  pose proof (inv_min _ _ _ HI) as Hm.
  destruct Hp as [->|[->|[inc ->]]]; simpl.
  all: unfold after; sched_unfold.
  all: try (replace (N.of_nat i <? N.of_nat (block_size s))%N with true by
    (symmetry; apply N.ltb_lt; lia)); rewrite ?Nat2N.id, Ht; simpl.
  all: destruct st; simpl; try (by frame_step HI Hw).
  all: by eapply step_take.
Qed.

(** Making an aborting transaction ready. *)
Lemma step_make_ready p p' i inc :
  ws !! w = Some p → held p' = held p → aborting p = i :: aborting p' →
  holds_lock p' = holds_lock p → lost_of p' = None → pc_ok s.(block_size) p' →
  s.(transactions_status) !! i = Some (mkTxStatus inc Aborting) →
  Inv (set_transactions_status (<[i := mkTxStatus (S inc) ReadyToExecute]> s.(transactions_status)) s)
    ar (<[w := p']> ws).
Proof.
  intros Hw Hh Ha Hl Hlo Hpc Hi.
  eapply (Inv_status _ _ _ _ _ _ _ _ HI Hw); simpl; try done; eauto using inv_min.
  - rewrite Hlo. by intros [? ?].
  - intros j. unfold holds. rewrite Hh. unfold is_status. simpl. by case_decide.
  - intros j. rewrite Ha, occurs_cons. unfold is_status. simpl. case_decide; lia.
  - intros v Hv. right. rewrite Hh in Hv. split; [done|]. intros <-.
    pose proof (inv_version _ _ _ HI _ _ Hw _ Hv). simplify_eq.
  - intros k. by rewrite Hl.
Qed.

Lemma step_readies c p :
  ws !! w = Some p →
  (∃ v f d ds, p = FE_ready v f d ds) ∨ (∃ v, p = FV_ready v) →
  ok_next ws w (wstep c p s ar).
Proof.
  intros Hw Hp. pose proof (inv_pc _ _ _ HI _ _ Hw) as Hpc.
  destruct Hp as [(v & f & d & ds & ->)|(v & ->)]; simpl.
  - destruct (aborting_status _ d Hw) as [inc Hd]; [simpl; set_solver|].
    unfold after; sched_unfold. rewrite Hd. simpl.
    by eapply step_make_ready.
  - destruct (aborting_status _ v.(tx_idx) Hw) as [inc Hd]; [simpl; set_solver|].
    unfold after; sched_unfold. rewrite Hd. simpl.
    by eapply step_make_ready.
Qed.

(** Giving back an executed transaction under its lock. *)
Lemma step_give_back s' p p' v st :
  ws !! w = Some p → held p = Some v → aborting p = [] →
  holds_lock p = Some v.(tx_idx) →
  held p' = None → aborting p' = [] → holds_lock p' = None → lost_of p' = None →
  pc_ok s.(block_size) p' → is_done st = true →
  s'.(block_size) = s.(block_size) →
  s'.(min_validation_idx) = s.(min_validation_idx) →
  s'.(transactions_dependents) = s.(transactions_dependents) →
  s'.(transactions_status) =
    <[v.(tx_idx) := mkTxStatus v.(tx_incarnation) st]> s.(transactions_status) →
  Inv s' ar (<[w := p']> ws).
Proof.
  intros Hw Hh Ha Hl Hh' Ha' Hl' Hlo Hpc Hst Hbs Hmin Hdp Hs.
  pose proof (inv_version _ _ _ HI _ _ Hw _ Hh) as Hi.
  eapply (Inv_status _ s' _ ar _ _ _ _ HI Hw); simpl; try done; eauto.
  - rewrite Hmin. eauto using inv_min.
  - rewrite Hlo. by intros [? ?].
  - intros j. unfold holds. rewrite Hh, Hh'. unfold is_status. simpl.
    destruct (decide (v.(tx_idx) = j)), (decide (j = v.(tx_idx))); simplify_eq;
      by destruct st.
  - intros j. rewrite Ha, Ha'. unfold is_status. simpl.
    case_decide; by destruct st.
  - intros v0. by rewrite Hh'.
  - intros k. by rewrite Hl'.
Qed.

Lemma step_finishes c p :
  ws !! w = Some p →
  (∃ v f, p = FE_inner v f ∨ p = FE_done v f) → ok_next ws w (wstep c p s ar).
Proof.
  intros Hw (v & f & Hp).
  assert (v.(tx_idx) < s.(block_size)) as Hb.
  { destruct Hp as [->| ->]; by eapply held_bound. }
  destruct Hp as [->| ->]; simpl.
  all: unfold after; sched_unfold.
  all: destruct (flags_contains f NeedValidation); simpl.
  2: by frame_step HI Hw.
  1,2: by eapply (step_give_back _ _ _ _ Executed).
  by eapply (step_give_back _ _ _ _ Validated).
Qed.

(** Validation outcomes: [try_validation_abort] and the successful end of
    [finish_validation]. *)
Lemma step_validations c p :
  ws !! w = Some p →
  (∃ v, p = TryAbort v ∨ p = FV_ok v) → ok_next ws w (wstep c p s ar).
Proof.
  intros Hw (v & Hp). pose proof (inv_min _ _ _ HI) as Hm.
  pose proof (inv_pc _ _ _ HI _ _ Hw) as Hpc.
  assert (v.(tx_idx) < s.(block_size)) as Hb by (destruct Hp as [->| ->]; done).
  destruct (status_at _ Hb) as [[inc st] Ht].
  destruct Hp as [->| ->]; simpl.
  all: unfold after; sched_unfold; rewrite Ht; simpl.
  all: destruct st; simpl; try (by frame_step HI Hw).
  all: eapply (Inv_status _ _ _ _ _ _ _ _ HI Hw);
    [done|exact Hm|done|done|by intros [? ?]|reflexivity|reflexivity|exact Ht|..];
    simpl; try done.
  1,2: intros j; unfold is_status; simpl; by case_decide.
  by left.
Qed.

(** Registering a dependency: nobody holds the lock of the blocking
    transaction, so nobody is draining its dependents. *)
Lemma step_add_dependency c v b :
  ws !! w = Some (AddDep v b) → locked ws b = false →
  ok_next ws w (wstep c (AddDep v b) s ar).
Proof.
  intros Hw Hfree. pose proof (inv_min _ _ _ HI) as Hm.
  destruct (inv_pc _ _ _ HI _ _ Hw) as [Hbv Hv].
  pose proof (inv_version _ _ _ HI _ _ Hw v eq_refl) as Hst.
  destruct (status_at b) as [[inc st] Hb]; [lia|].
  destruct (lookup_lt_is_Some_2 s.(transactions_dependents) b) as [ds Hds].
  { rewrite (inv_len_deps _ _ _ HI). lia. }
  simpl. unfold after; sched_unfold. rewrite Hb; simpl.
  destruct (is_done st) eqn:Hdone; [by frame_step HI Hw|].
  rewrite Hst; simpl. rewrite Hds; simpl.
  eapply (Inv_update _ _ _ _ _ _ _ _ HI Hw);
    [done|exact Hm|done|done|by intros [? ?]|reflexivity|reflexivity|exact Hst|exact Hds|..];
    simpl; try done.
  - intros j. unfold holds, is_status. simpl.
    destruct (decide (v.(tx_idx) = j)), (decide (j = v.(tx_idx))); by simplify_eq.
  - intros j. rewrite occurs_app, occurs_cons, !occurs_nil. unfold is_status. simpl.
    case_decide; lia.
  - intros _. by exists v.
  - intros j [Hj| ->%list_elem_of_singleton]%elem_of_app; [by left|]. right.
    split; [lia|]. rewrite list_lookup_insert_ne by lia. by exists (mkTxStatus inc st).
  - intros w0 p0 H0 Hne Hl. exfalso. unfold locked in Hfree.
    assert (existsb (λ p, bool_decide (holds_lock p = Some b)) ws = true) as E; [|congruence].
    apply existsb_exists. exists p0. rewrite <-list_elem_of_In, bool_decide_eq_true.
    eauto using list_elem_of_lookup_2.
Qed.

(** [finish_execution] takes its locks and drains the dependents. *)
Lemma step_finish_lock c v f :
  ws !! w = Some (FE_lock v f) → ok_next ws w (wstep c (FE_lock v f) s ar).
Proof.
  intros Hw. pose proof (inv_min _ _ _ HI) as Hm.
  pose proof (inv_version _ _ _ HI _ _ Hw v eq_refl) as Hst.
  destruct (lookup_lt_is_Some_2 s.(transactions_dependents) v.(tx_idx)) as [ds Hds].
  { rewrite (inv_len_deps _ _ _ HI). by eapply held_bound. }
  simpl. unfold after; sched_unfold.
  rewrite Hst; simpl. rewrite bool_decide_eq_true_2 by done. simpl. rewrite Hds; simpl.
  assert (held (resume_pc v f ds) = Some v ∧ aborting (resume_pc v f ds) = ds ∧
    lost_of (resume_pc v f ds) = None ∧ pc_ok (block_size s) (resume_pc v f ds) ∧
    holds_lock (resume_pc v f ds) = Some v.(tx_idx)) as (Hh & Ha & Hlo & Hpc & Hl)
    by by destruct ds.
  eapply (Inv_update _ _ _ _ _ _ _ _ HI Hw);
    [done|exact Hm|done|done|rewrite Hlo; by intros [? ?]
    |simpl; symmetry; by apply list_insert_id|reflexivity|exact Hst|exact Hds|..];
    simpl; try done.
  - intros j. unfold holds. by rewrite Hh.
  - intros j. rewrite Ha. lia.
  - intros _. by exists v.
  - intros v0 Hv0. rewrite Hh in Hv0. simplify_eq. by left.
  - by intros j ?%elem_of_nil.
  - intros k Hk. rewrite Hl in Hk. simplify_eq. apply list_lookup_insert_eq.
    eauto using lookup_lt_Some.
Qed.

Lemma wstep_ok c p :
  ws !! w = Some p → existsb (locked ws) (needs_locks p) = false →
  ok_next ws w (wstep c p s ar).
Proof.
  intros Hw Hfree. destruct (quiet p) eqn:Hq; [by apply step_quiet|].
  destruct p; try discriminate.
  - apply step_locks; eauto.
  - apply step_locks; eauto.
  - apply step_add_dependency; [done|]. simpl in Hfree. by apply orb_false_iff in Hfree as [? _].
  - by apply step_finish_lock.
  - apply step_readies; eauto 10.
  - apply step_finishes; eauto.
  - apply step_finishes; eauto.
  - apply step_validations; eauto.
  - apply step_readies; eauto 10.
  - destruct v. apply step_locks; eauto.
  - apply step_validations; eauto.
Qed.
End steps.

(** ** Reachable pools *)

Lemma pstep_Next w c P P' :
  pstep w c P = Next P' →
  ∃ p p', P.(workers) !! w = Some p ∧
    existsb (locked P.(workers)) (needs_locks p) = false ∧
    wstep c p P.(sched) P.(abort_reason) = Next (p', P'.(sched), P'.(abort_reason)) ∧
    P'.(workers) = <[w := p']> P.(workers).
Proof.
  unfold pstep. intros H. destruct (workers P !! w) as [p|] eqn:Hw; [|done].
  destruct (existsb _ _) eqn:Hl; [done|].
  destruct (wstep c p (sched P) (abort_reason P)) as [| |[[p' s'] ar']] eqn:E;
    simplify_eq. naive_solver.
Qed.

Definition PInv (P : Pool) : Prop := Inv P.(sched) P.(abort_reason) P.(workers).

Lemma PInv_step P P' : pool_step P P' → PInv P → PInv P'.
Proof.
  intros [w c (p & p' & Hw & Hl & Hs & Hws)%pstep_Next] HI.
  pose proof (wstep_ok _ _ _ _ HI c p Hw Hl) as Hok. rewrite Hs in Hok.
  unfold PInv. by rewrite Hws.
Qed.

Lemma PInv_reachable bs n P : reachable bs n P → PInv P.
Proof.
  unfold reachable. intros H. remember (init bs n) as P0.
  assert (PInv P0) as H0 by (subst; apply Inv_init). clear HeqP0.
  induction H; eauto using PInv_step.
Qed.

(** No step of a scheduler method changes the block size. *)
Lemma wstep_block_size c p s ar p' s' ar' :
  wstep c p s ar = Next (p', s', ar') → s'.(block_size) = s.(block_size).
Proof.
  intros H. destruct p; simpl in H; unfold after in H; sched_unfold.
  all: repeat case_match; by simplify_eq/=.
Qed.

Lemma reachable_block_size bs n P : reachable bs n P → P.(sched).(block_size) = bs.
Proof.
  unfold reachable. intros H. remember (init bs n) as P0.
  assert (P0.(sched).(block_size) = bs) as H0 by by subst. clear HeqP0.
  induction H as [|P1 P2 P3 [w c (p & p' & _ & _ & Hs & _)%pstep_Next] _ IH]; [done|].
  apply IH. apply wstep_block_size in Hs. congruence.
Qed.
