(* ===== verification/PoolSafety.v ===== *)
(** * Safety and quiescence of the worker pool

    What every interleaving of the workers guarantees: memory safety of the
    unchecked accesses, exclusive execution, the documented life cycle, no
    lost wake-up, and that a pool whose workers have all left without an abort
    has validated every transaction. *)

From S2P Require Import Prelude Uint Types Scheduler Pool.

(** ** Life cycle of the statuses *)

Lemma wstep_status c p w s ar ws p' s' ar' :
  Inv s ar ws → ws !! w = Some p → wstep c p s ar = Next (p', s', ar') →
  ∀ i t t', s.(transactions_status) !! i = Some t →
    s'.(transactions_status) !! i = Some t' → t = t' ∨ status_arrow t t'.
Proof.
  intros HI Hw H i t t' Ht Ht'.
  pose proof (inv_version _ _ _ HI _ _ Hw) as Hv.
  destruct p; simpl in H; unfold after in H; sched_unfold;
    try specialize (Hv _ eq_refl).
  all: repeat case_match; simplify_eq/=; try (by left).
  all: try (by rewrite Ht in Ht'; simplify_eq; left).
  all: lookup_simpl; try (by left).
  all: repeat match goal with
    | H : bool_decide _ = true |- _ => apply bool_decide_eq_true in H
    | t : TxStatus |- _ => destruct t; simplify_eq/=
    end; right; auto with pevm.
  match goal with st : IncarnationStatus |- _ => destruct st end; try done; auto with pevm.
Qed.

(** ** Who picks up ready and executed transactions *)

(** The worker is about to execute [i], or about to lower the execution index
    to [i]. *)
Definition will_take (i : TxIdx) (p : pc) : bool :=
  match p with
  | FE_min_e _ _ d _ => bool_decide (d = i)
  | FV_min_v v | FV_load_e v | FV_lock v => bool_decide (v.(tx_idx) = i)
  | NT_lock_e j => bool_decide (j = i)
  | _ => false
  end.

(** The worker is about to validate [i]. *)
Definition will_validate (i : TxIdx) (p : pc) : bool :=
  match p with
  | NT_lock_v j => bool_decide (j = i)
  | Validate v | TryAbort v | FV_ok v | Post (Some (Validation v)) _ =>
      bool_decide (v.(tx_idx) = i)
  | _ => false
  end.

(** The worker is about to mark [i] as executed and in need of validation. *)
Definition will_need_validation (i : TxIdx) (p : pc) : bool :=
  match p with
  | FE_done v f => flags_contains f NeedValidation && bool_decide (v.(tx_idx) = i)
  | _ => false
  end.

(** The worker has seen the execution (validation) index past the block and
    leaves unless it starts over. *)
Definition seen_e (bs : nat) (p : pc) : bool :=
  match p with
  | NT_load_v e => (N.of_nat bs <=? e)%N
  | NT_load_n | NT_load_m _ | Exit _ => true
  | _ => false
  end.

Definition seen_v (p : pc) : bool :=
  match p with
  | NT_load_n | NT_load_m _ | Exit _ => true
  | _ => false
  end.

Definition some_worker (ws : list pc) (Q : pc → bool) : Prop :=
  ∃ w p, ws !! w = Some p ∧ Q p = true.

Lemma some_worker_update ws w p p' (Q : pc → bool) (R : Prop) :
  ws !! w = Some p →
  some_worker ws Q →
  (Q p = true → Q p' = true ∨ R) →
  some_worker (<[w := p']> ws) Q ∨ R.
Proof.
  intros Hw (w0 & p0 & H0 & HQ) Hstep. destruct (decide (w = w0)) as [->|Hne].
  - simplify_eq. destruct (Hstep HQ) as [HQ'|HR]; [left|by right].
    exists w0, p'. split; [|done]. apply list_lookup_insert_eq. eauto using lookup_lt_Some.
  - left. exists w0, p0. by rewrite list_lookup_insert_ne.
Qed.

Lemma some_worker_self ws w p p' (Q : pc → bool) :
  ws !! w = Some p → Q p' = true → some_worker (<[w := p']> ws) Q.
Proof.
  intros Hw HQ. exists w, p'. split; [|done].
  apply list_lookup_insert_eq. eauto using lookup_lt_Some.
Qed.

Record Live (s : Scheduler) (ar : option AbortReason) (ws : list pc) : Prop := {
  live_reason : ar = None;
  live_fatal : ∀ w v r, ws !! w ≠ Some (FatalInit v r);
  live_ready : ∀ i inc,
    s.(transactions_status) !! i = Some (mkTxStatus inc ReadyToExecute) →
    some_worker ws (will_take i) ∨ (s.(execution_idx) ≤ N.of_nat i)%N;
  live_scan_e :
    some_worker ws (λ p, negb (seen_e s.(block_size) p)) ∨
    (N.of_nat s.(block_size) ≤ s.(execution_idx))%N;
  live_executed : ∀ i,
    (∃ inc, s.(transactions_status) !! i = Some (mkTxStatus inc Executed)) ∨
      some_worker ws (will_need_validation i) →
    some_worker ws (will_validate i) ∨ (s.(validation_idx) ≤ N.of_nat i)%N;
  live_scan_v :
    some_worker ws (λ p, negb (seen_v p)) ∨
    (N.of_nat s.(block_size) ≤ s.(validation_idx))%N;
}.

(** As long as the scheduler is not aborted, the pool is live. *)
Definition PLive (P : Pool) : Prop :=
  P.(sched).(aborted) = false → Live P.(sched) P.(abort_reason) P.(workers).

Lemma PLive_init bs n : 0 < n → PLive (init bs n).
Proof.
  intros Hn _. split; simpl; try done.
  - by intros w v r [? _]%lookup_replicate_1.
  - intros i inc [? Hi]%lookup_replicate_1. right. lia.
  - left. exists 0, NextTask. by rewrite lookup_replicate_2.
  - intros i [[inc [? _]%lookup_replicate_1]|(w & p & [-> _]%lookup_replicate_1 & ?)]; done.
  - right. lia.
Qed.

(** The local conditions under which one worker's step keeps the pool live. *)
Section live.
Context (s s' : Scheduler) (ar ar' : option AbortReason) (ws : list pc).
Context (c : choice) (w : nat) (p p' : pc).
Hypothesis HI : Inv s ar ws.
Hypothesis Hw : ws !! w = Some p.
Hypothesis Hfree : existsb (locked ws) (needs_locks p) = false.
Hypothesis Hstep : wstep c p s ar = Next (p', s', ar').
Hypothesis Hab : s'.(aborted) = false.
Hypothesis HL : Live s ar ws.

Lemma live_reason_step : ar' = None ∧ ∀ v r, p' ≠ FatalInit v r.
Proof.
  pose proof (live_reason _ _ _ HL) as Har. pose proof (live_fatal _ _ _ HL) as Hf.
  clear HL. step_cases; try (by exfalso; eapply Hf).
  all: split; [done|]; intros ? ?; repeat match goal with t : Task |- _ => destruct t end; done.
Qed.

Lemma status_bound' i t : s'.(transactions_status) !! i = Some t → i < s.(block_size).
Proof.
  intros Hi%lookup_lt_Some. pose proof (wstep_ok _ _ _ _ HI c p Hw Hfree) as HI'.
  rewrite Hstep in HI'. simpl in HI'. rewrite (inv_len_status _ _ _ HI') in Hi.
  by apply wstep_block_size in Hstep as <-.
Qed.

Lemma live_ready_local i inc :
  s'.(transactions_status) !! i = Some (mkTxStatus inc ReadyToExecute) →
  will_take i p' = true ∨
  ∃ inc0, s.(transactions_status) !! i = Some (mkTxStatus inc0 ReadyToExecute) ∧
    (will_take i p = true → will_take i p' = true ∨ (s'.(execution_idx) ≤ N.of_nat i)%N) ∧
    ((s.(execution_idx) ≤ N.of_nat i)%N →
      will_take i p' = true ∨ (s'.(execution_idx) ≤ N.of_nat i)%N).
Proof.
  intros Hi. pose proof (status_bound' _ _ Hi) as Hb. clear HL.
  step_cases; lookup_simpl; rewrite ?bool_decide_eq_true.
  all: try (by left).
  all: right; eexists; (split; [eassumption|]); split; intros.
  all: try done; try (by auto); try (right; lia).
  all: rewrite ?bool_decide_eq_true, ?N.ltb_lt, ?N.ltb_ge, ?Nat2N.id in *;
    simplify_eq/=; try done; try lia.
  destruct (decide (execution_idx s = N.of_nat i)) as [->|]; [left; lia|].
  right. apply wrapping_incr_bound. lia.
Qed.

(** Only [finish_execution] makes a transaction need validation, and only
    after the validation index was seen at or below it. *)
Lemma live_executed_new i :
  (∃ inc, s'.(transactions_status) !! i = Some (mkTxStatus inc Executed)) ∨
    will_need_validation i p' = true →
  (∃ inc, s.(transactions_status) !! i = Some (mkTxStatus inc Executed)) ∨
    will_need_validation i p = true ∨
  will_validate i p' = true ∨ (s'.(validation_idx) ≤ N.of_nat i)%N.
Proof.
  intros Hi. pose proof (inv_pc _ _ _ HI _ _ Hw) as Hpc.
  pose proof (λ v, held_bound _ _ _ _ HI p v Hw) as Hhb. clear HL.
  step_cases; try (by left; destruct Hi).
  all: destruct Hi as [[inc Hi]|Hi]; try done; try (left; by exists inc).
  all: lookup_simpl; try (by left; exists inc).
  all: rewrite ?andb_true_iff, ?bool_decide_eq_true, ?N.ltb_lt, ?N.ltb_ge in *;
    destruct_and?; simplify_eq/=; auto 10.
  all: exfalso; specialize (Hhb _ eq_refl); first [congruence|lia].
Qed.

Lemma live_validate_keep i :
  will_validate i p = true →
  will_validate i p' = true ∨
  (locked ws i = false ∧ will_need_validation i p' = false ∧
   ∀ inc, s'.(transactions_status) !! i ≠ Some (mkTxStatus inc Executed)).
Proof.
  intros Hi. pose proof (live_reason _ _ _ HL) as Har.
  pose proof (inv_len_status _ _ _ HI) as Hlen. clear HL.
  step_cases; try done; try (by left); rewrite ?orb_false_r in *.
  all: apply bool_decide_eq_true in Hi; subst; right; (split; [done|]); (split; [done|]).
  all: intros inc Hi; lookup_simpl; by simplify_eq/=.
Qed.

Lemma live_validation_idx_keep i :
  i < s.(block_size) → (s.(validation_idx) ≤ N.of_nat i)%N →
  will_validate i p' = true ∨ (s'.(validation_idx) ≤ N.of_nat i)%N.
Proof.
  intros Hb Hi. clear HL. step_cases; auto; rewrite ?bool_decide_eq_true, ?N.ltb_ge in *;
    try lia; try (right; lia).
  destruct (decide (validation_idx s = N.of_nat i)) as [->|]; [left; lia|].
  right. apply wrapping_incr_bound. lia.
Qed.

(** A worker about to mark [i] as executed holds the lock of [i]. *)
Lemma no_need_when_unlocked i :
  locked ws i = false → will_need_validation i p' = false →
  ¬ some_worker (<[w := p']> ws) (will_need_validation i).
Proof.
  intros Hfr Hn (w0 & p0 & [(? & -> & ?)|(? & H0)]%lookup_insert_Some_inv & Hq); [congruence|].
  assert (locked ws i = true); [|congruence].
  apply existsb_exists. exists p0. rewrite <-list_elem_of_In, bool_decide_eq_true.
  split; [eauto using list_elem_of_lookup_2|].
  destruct p0; try done. simpl in *. apply andb_true_iff in Hq as [_ Hq].
  by apply bool_decide_eq_true in Hq as ->.
Qed.

Lemma need_bound i :
  (∃ inc, s.(transactions_status) !! i = Some (mkTxStatus inc Executed)) ∨
    some_worker ws (will_need_validation i) → i < s.(block_size).
Proof.
  intros [[inc Hi]|(w0 & p0 & H0 & Hq)].
  - rewrite <-(inv_len_status _ _ _ HI). eauto using lookup_lt_Some.
  - destruct p0; try done. simpl in Hq. apply andb_true_iff in Hq as [_ Hq].
    apply bool_decide_eq_true in Hq as <-. by eapply held_bound.
Qed.

Lemma live_scan_e_local :
  negb (seen_e s.(block_size) p) = true ∨ (N.of_nat s.(block_size) ≤ s.(execution_idx))%N →
  negb (seen_e s.(block_size) p') = true ∨ (N.of_nat s.(block_size) ≤ s'.(execution_idx))%N.
Proof.
  intros Hs. pose proof (live_reason _ _ _ HL) as Har. clear HL.
  step_cases; auto; rewrite ?andb_true_iff, ?negb_true_iff, ?N.leb_le, ?N.leb_gt in *; try lia.
  all: destruct_and?; destruct Hs; try done; try lia; auto.
  all: try congruence; left; by destruct t.
Qed.

Lemma live_scan_v_local :
  negb (seen_v p) = true ∨ (N.of_nat s.(block_size) ≤ s.(validation_idx))%N →
  negb (seen_v p') = true ∨ (N.of_nat s.(block_size) ≤ s'.(validation_idx))%N.
Proof.
  intros Hs. pose proof (live_reason _ _ _ HL) as Har. clear HL.
  step_cases; auto; rewrite ?andb_true_iff, ?N.leb_le in *; destruct_and?; try lia.
  all: destruct Hs; try done; try lia; auto.
  all: try congruence; left; by destruct t.
Qed.

Lemma Live_step : Live s' ar' (<[w := p']> ws).
Proof.
  destruct live_reason_step as [Har Hf].
  pose proof (wstep_block_size _ _ _ _ _ _ _ Hstep) as Hbs.
  split; [done|..].
  - intros w0 v r H0. apply lookup_insert_Some_inv in H0 as [(? & ? & ?)|(? & ?)].
    + by eapply Hf.
    + by eapply (live_fatal _ _ _ HL).
  - intros i inc Hi. destruct (live_ready_local _ _ Hi) as [Ht|(inc0 & Hi0 & Htk & Hex)].
    { left. by eapply some_worker_self. }
    destruct (live_ready _ _ _ HL _ _ Hi0) as [Hsome|Hle].
    + by apply some_worker_update with p.
    + destruct (Hex Hle); [left; by eapply some_worker_self|by right].
  - rewrite Hbs. destruct (live_scan_e _ _ _ HL) as [Hsome|Hle].
    + apply some_worker_update with p; [done..|]. auto using live_scan_e_local.
    + destruct live_scan_e_local as [|]; [by right|left; by eapply some_worker_self|by right].
  - intros i Hi.
    destruct (decide (will_validate i p' = true)) as [|Hnv]; [left; by eapply some_worker_self|].
    assert (((∃ inc, s.(transactions_status) !! i = Some (mkTxStatus inc Executed)) ∨
      some_worker ws (will_need_validation i)) ∨ (s'.(validation_idx) ≤ N.of_nat i)%N)
      as [Hold|Hle]; [|..|by right].
    { destruct Hi as [Hi|(w0 & p0 & [(? & -> & ?)|(? & ?)]%lookup_insert_Some_inv & Hq)].
      1,2: destruct (live_executed_new i) as [|[?|[?|?]]]; auto; left; right; by exists w, p.
      left; right. by exists w0, p0. }
    destruct (live_executed _ _ _ HL _ Hold) as [Hsome|Hle].
    + apply some_worker_update with p; [done..|]. intros Hv.
      destruct (live_validate_keep _ Hv) as [|(Hfr & Hn & Hne)]; [by left|].
      exfalso. destruct Hi as [[inc Hi]|Hi]; [by eapply Hne|].
      by apply (no_need_when_unlocked i Hfr Hn).
    + destruct (live_validation_idx_keep i); [|done|done|by right].
      eauto using need_bound.
  - rewrite Hbs. destruct (live_scan_v _ _ _ HL) as [Hsome|Hle].
    + apply some_worker_update with p; [done..|]. auto using live_scan_v_local.
    + destruct live_scan_v_local as [|]; [by right|left; by eapply some_worker_self|by right].
Qed.
End live.

Lemma wstep_aborted c p s ar p' s' ar' :
  wstep c p s ar = Next (p', s', ar') → s'.(aborted) = false → s.(aborted) = false.
Proof.
  intros H Hab. destruct p; simpl in H; unfold after in H; sched_unfold.
  all: repeat case_match; simplify_eq/=; congruence.
Qed.

Lemma PLive_reachable bs n P : 0 < n → reachable bs n P → PInv P ∧ PLive P.
Proof.
  unfold reachable. intros Hn H. remember (init bs n) as P0.
  assert (PInv P0 ∧ PLive P0) as H0 by (subst; split; [apply Inv_init|by apply PLive_init]).
  clear HeqP0. induction H as [|P1 P2 P3 Hst _ IH]; [done|]. apply IH.
  destruct H0 as [HI HL]. split; [by eapply PInv_step|].
  destruct Hst as [w c (p & p' & Hw & Hl & Hs & Hws)%pstep_Next]. intros Hab. rewrite Hws.
  eapply Live_step; eauto using wstep_aborted.
Qed.

(** ** The guarantees *)

(** C8. In every interleaving of any number of workers, whatever the virtual
    machine answers, no step leaves defined behaviour: every unchecked
    [index_mutex!] access is in bounds, every [debug_assert!] of the scheduler
    holds, and [block_size - min_validation_idx] does not underflow. *)
Theorem pool_no_undefined_behaviour bs n P w c :
  reachable bs n P → pstep w c P ≠ Stuck.
Proof.
  intros HI%PInv_reachable. unfold pstep.
  destruct (workers P !! w) as [p|] eqn:Hw; [|done].
  destruct (existsb _ _) eqn:Hl; [done|].
  pose proof (wstep_ok _ _ _ _ HI c p Hw Hl) as Hok.
  destruct (wstep _ _ _ _) as [| |[[p' s'] ar']]; done.
Qed.

(** C6. The scheduler hands out executions exclusively: two workers never
    execute the same transaction at the same time, and the version a worker
    executes is the current incarnation with status [Executing].  This is what
    makes the unsynchronised [ExecutionResults] slots race free. *)
Theorem pool_exclusive_execution bs n P w1 w2 p1 p2 v1 v2 :
  reachable bs n P → w1 ≠ w2 →
  P.(workers) !! w1 = Some p1 → P.(workers) !! w2 = Some p2 →
  held p1 = Some v1 → held p2 = Some v2 →
  v1.(tx_idx) ≠ v2.(tx_idx) ∧
  P.(sched).(transactions_status) !! v1.(tx_idx)
    = Some (mkTxStatus v1.(tx_incarnation) Executing).
Proof.
  intros HI%PInv_reachable Hne H1 H2 Hv1 Hv2. split.
  - by eapply (held_unique _ _ _ _ _ _ _ _ _ HI H2 Hv2 H1 Hne).
  - exact (inv_version _ _ _ HI _ _ H1 _ Hv1).
Qed.


(** C9. No lost wake-up: an aborting transaction is owned by exactly one
    party.  Either one worker is about to make it ready again, or it is
    registered once with one lower transaction that has not finished. *)
Theorem pool_no_lost_wakeup bs n P i inc :
  reachable bs n P →
  P.(sched).(transactions_status) !! i = Some (mkTxStatus inc Aborting) →
  sum_list_with (λ p, occurs i (aborting p)) P.(workers)
    + sum_list_with (occurs i) P.(sched).(transactions_dependents) = 1 ∧
  ((∃ w p, P.(workers) !! w = Some p ∧ i ∈ aborting p) ∨
   (∃ b ds t, P.(sched).(transactions_dependents) !! b = Some ds ∧ i ∈ ds ∧ b < i ∧
      P.(sched).(transactions_status) !! b = Some t ∧ is_done t.(status) = false)).
Proof.
  intros HI%PInv_reachable Hi. pose proof (inv_abort _ _ _ HI _ _ Hi) as Hsum.
  split; [done|]. unfold is_status in Hsum. simpl in Hsum.
  destruct (decide (0 < sum_list_with (λ p, occurs i (aborting p)) (workers P))) as [Hp|Hp].
  - left. apply sum_list_with_pos in Hp as (w & p & Hw & Hp). apply occurs_pos in Hp. eauto.
  - right. assert (0 < sum_list_with (occurs i) (transactions_dependents (sched P))) as Hd by lia.
    apply sum_list_with_pos in Hd as (b & ds & Hb & Hd). apply occurs_pos in Hd.
    destruct (inv_deps _ _ _ HI _ _ _ Hb Hd) as ([? ?] & t & ? & ?). eauto 10.
Qed.

Definition all_exited (P : Pool) : Prop :=
  ∀ w p, P.(workers) !! w = Some p → ∃ lost, p = Exit lost.

Definition is_exit (p : pc) : bool := match p with Exit _ => true | _ => false end.

Lemma all_exited_true P : forallb is_exit P.(workers) = true → all_exited P.
Proof.
  intros H w p Hw%list_elem_of_lookup_2. rewrite forallb_forall in H.
  specialize (H p). rewrite <-list_elem_of_In in H. specialize (H Hw).
  destruct p; try done. eauto.
Qed.

Lemma quiescent_validated bs n P :
  0 < n → reachable bs n P → all_exited P → P.(sched).(aborted) = false →
  ∀ i, i < bs → ∃ inc,
    P.(sched).(transactions_status) !! i = Some (mkTxStatus inc Validated).
Proof.
  intros Hn Hr Hex Hab. pose proof (reachable_block_size _ _ _ Hr) as Hbs.
  apply PLive_reachable in Hr as [HI HL]; [|done]. specialize (HL Hab).
  assert (∀ Q : pc → bool, some_worker (workers P) Q → (∀ l, Q (Exit l) = false) → False) as Hno.
  { intros Q (w & p & Hw & Hq) HQ. destruct (Hex _ _ Hw) as [l ->]. by rewrite HQ in Hq. }
  intros i. induction i as [i IH] using lt_wf_ind. intros Hi.
  destruct (status_at _ _ _ HI i) as [[inc st] Ht]; [lia|]. exists inc. rewrite Ht.
  do 2 f_equal. destruct st; [exfalso..|done|exfalso].
  - destruct (live_scan_e _ _ _ HL) as [Hs|Hs]; [by apply (Hno _ Hs)|].
    destruct (live_ready _ _ _ HL _ _ Ht) as [Hs'|Hs']; [by apply (Hno _ Hs')|]. lia.
  - pose proof (inv_exec _ _ _ HI _ _ Ht) as Hsum. rewrite sum_list_with_zero in Hsum; [done|].
    intros w p Hw. destruct (Hex _ _ Hw) as [l ->]. unfold holds. simpl.
    destruct l; [|done]. exfalso.
    destruct (inv_lost _ _ _ HI _ _ Hw) as [r Hr]; [by eexists|].
    by rewrite (live_reason _ _ _ HL) in Hr.
  - destruct (live_scan_v _ _ _ HL) as [Hs|Hs]; [by apply (Hno _ Hs)|].
    destruct (live_executed _ _ _ HL i) as [Hs'|Hs']; [by eauto|by apply (Hno _ Hs')|]. lia.
  - pose proof (inv_abort _ _ _ HI _ _ Ht) as Hsum. rewrite sum_list_with_zero in Hsum.
    + assert (0 < sum_list_with (occurs i) (transactions_dependents (sched P))) as Hd
        by (unfold is_status in Hsum; simpl in Hsum; lia).
      apply sum_list_with_pos in Hd as (b & ds & Hb & Hd). apply occurs_pos in Hd.
      destruct (inv_deps _ _ _ HI _ _ _ Hb Hd) as ([? ?] & t & Htb & Hnd).
      destruct (IH b) as [inc' Hb']; [lia..|]. by simplify_eq/=.
    + intros w p Hw. by destruct (Hex _ _ Hw) as [l ->].
Qed.

(** C4. When every worker has left and the scheduler was not aborted, every
    transaction of the block is [Validated]: all results are present when the
    block is collected ([take_slot] unwraps unchecked) although the workers
    leave on racy reads of the indexes and of the validation counter. *)
Theorem pool_quiescent_validated bs n P :
  0 < n → reachable bs n P → all_exited P → P.(sched).(aborted) = false →
  ∀ i, i < bs → ∃ inc,
    P.(sched).(transactions_status) !! i = Some (mkTxStatus inc Validated).
Proof. apply quiescent_validated. Qed.

(** ** Deadlock freedom *)

Lemma lock_holder_held p i : holds_lock p = Some i → ∃ v, held p = Some v ∧ v.(tx_idx) = i.
Proof. destruct p; simpl; intros; simplify_eq; eauto. Qed.

(** The environment's answer that lets a worker move. *)
Definition some_answer (p : pc) : choice :=
  match p with
  | Exec _ => VmAnswer VmRetry
  | Validate _ => ReadSetValid true
  | _ => Tau
  end.

Lemma wstep_enabled p s ar :
  (∀ lost, p ≠ Exit lost) → wstep (some_answer p) p s ar ≠ Disabled.
Proof.
  intros Hne. destruct p; simpl; unfold after; repeat case_match; try done.
  by destruct (Hne lost).
Qed.

Lemma locked_inv ws i : locked ws i = true → ∃ w p, ws !! w = Some p ∧ holds_lock p = Some i.
Proof.
  intros (p & Hp & Hl)%existsb_exists. rewrite <-list_elem_of_In in Hp.
  apply list_elem_of_lookup in Hp as [w Hw]. apply bool_decide_eq_true in Hl. eauto.
Qed.

(** A worker that holds locks never waits for another one. *)
Lemma lock_holder_free s ar ws w p i :
  Inv s ar ws → ws !! w = Some p → holds_lock p = Some i →
  existsb (locked ws) (needs_locks p) = false.
Proof.
  intros HI Hw Hl. destruct p; simplify_eq/=; try done.
  rewrite orb_false_r. apply not_true_iff_false. intros (w' & p' & Hw' & Hl')%locked_inv.
  destruct (aborting_status _ _ _ _ HI _ d Hw) as [inc Hd]; [simpl; set_solver|].
  destruct (lock_holder_held _ _ Hl') as (v' & Hv' & <-).
  pose proof (inv_version _ _ _ HI _ _ Hw' _ Hv'). simplify_eq.
Qed.

(** C10. The pool never deadlocks: as long as some worker has not left, some
    worker can take a step. *)
Theorem pool_deadlock_free bs n P w p :
  reachable bs n P → P.(workers) !! w = Some p → (∀ lost, p ≠ Exit lost) →
  ∃ w' c P', pstep w' c P = Next P'.
Proof.
  intros Hr Hw Hne. pose proof (PInv_reachable _ _ _ Hr) as HI.
  assert (∃ w0 p0, workers P !! w0 = Some p0 ∧ (∀ lost, p0 ≠ Exit lost) ∧
    existsb (locked (workers P)) (needs_locks p0) = false) as (w0 & p0 & H0 & Hne0 & Hl0).
  { destruct (existsb (locked (workers P)) (needs_locks p)) eqn:E; [|by eauto].
    apply existsb_exists in E as (i & _ & (w0 & p0 & H0 & Hl0)%locked_inv).
    exists w0, p0. split; [done|]. split; [by intros l ->|by eapply lock_holder_free]. }
  exists w0, (some_answer p0). unfold pstep. rewrite H0, Hl0.
  pose proof (wstep_ok _ _ _ _ HI (some_answer p0) p0 H0 Hl0) as Hok.
  pose proof (wstep_enabled p0 (sched P) (abort_reason P) Hne0) as Hen.
  destruct (wstep _ _ _ _) as [| |[[p' s'] ar']]; [done..|]. eauto.
Qed.

(** ** Concrete runs: two workers on a block of two transactions *)

(** Both workers have taken a transaction. *)
Definition demo_taken : list (nat * choice) := taus 5 0 ++ taus 5 1.

(** Transaction 1 is blocked by transaction 0. *)
Definition demo_blocked : list (nat * choice) :=
  demo_taken ++ [(1, VmAnswer (VmBlocking 0)); (1, Tau)].

(** Transaction 0 needs no validation, transaction 1 is validated, both
    workers leave. *)
Definition demo_finished : list (nat * choice) :=
  demo_taken
  ++ (0, VmAnswer (VmOk flags_empty)) :: taus 4 0
  ++ (1, VmAnswer (VmOk NeedValidation)) :: taus 5 1
  ++ [(1, ReadSetValid true)] ++ taus 2 1
  ++ taus 5 0 ++ taus 5 1.

Lemma pool_no_undefined_behaviour_witness :
  reachable 2 2 (run_to demo_blocked (init 2 2)) ∧
  pstep 0 Tau (run_to demo_blocked (init 2 2)) ≠ Stuck.
Proof.
  assert (H : reachable 2 2 (run_to demo_blocked (init 2 2)))
    by (apply run_to_reachable; vm_compute; reflexivity).
  split; [exact H|]. exact (pool_no_undefined_behaviour 2 2 _ 0 Tau H).
Defined.

Lemma pool_exclusive_execution_witness :
  let P := run_to demo_taken (init 2 2) in
  P.(workers) = [Exec (mkTxVersion 0 0); Exec (mkTxVersion 1 0)] ∧ 0 ≠ 1 ∧
  P.(sched).(transactions_status) !! 0 = Some (mkTxStatus 0 Executing).
Proof.
  split; [vm_compute; reflexivity|].
  refine (pool_exclusive_execution 2 2 (run_to demo_taken (init 2 2)) 0 1
    (Exec (mkTxVersion 0 0)) (Exec (mkTxVersion 1 0)) (mkTxVersion 0 0) (mkTxVersion 1 0)
    _ _ _ _ _ _).
  - apply run_to_reachable. vm_compute. reflexivity.
  - discriminate.
  - vm_compute. reflexivity.
  - vm_compute. reflexivity.
  - reflexivity.
  - reflexivity.
Defined.


Lemma pool_no_lost_wakeup_witness :
  let P := run_to demo_blocked (init 2 2) in
  P.(sched).(transactions_status) !! 1 = Some (mkTxStatus 0 Aborting) ∧
  sum_list_with (λ p, occurs 1 (aborting p)) P.(workers)
    + sum_list_with (occurs 1) P.(sched).(transactions_dependents) = 1.
Proof.
  split; [vm_compute; reflexivity|].
  refine (proj1 (pool_no_lost_wakeup 2 2 (run_to demo_blocked (init 2 2)) 1 0 _ _)).
  - apply run_to_reachable. vm_compute. reflexivity.
  - vm_compute. reflexivity.
Defined.

Lemma pool_quiescent_validated_witness :
  let P := run_to demo_finished (init 2 2) in
  P.(workers) = [Exit None; Exit None] ∧
  ∃ inc, P.(sched).(transactions_status) !! 1 = Some (mkTxStatus inc Validated).
Proof.
  split; [vm_compute; reflexivity|].
  refine (pool_quiescent_validated 2 2 (run_to demo_finished (init 2 2)) _ _ _ _ 1 _).
  - repeat constructor.
  - apply run_to_reachable. vm_compute. reflexivity.
  - apply all_exited_true. vm_compute. reflexivity.
  - vm_compute. reflexivity.
  - repeat constructor.
Defined.

Lemma pool_deadlock_free_witness :
  let P := run_to demo_blocked (init 2 2) in
  P.(workers) !! 0 = Some (Exec (mkTxVersion 0 0)) ∧ ∃ w' c P', pstep w' c P = Next P'.
Proof.
  split; [vm_compute; reflexivity|].
  refine (pool_deadlock_free 2 2 (run_to demo_blocked (init 2 2)) 0 (Exec (mkTxVersion 0 0)) _ _ _).
  - apply run_to_reachable. vm_compute. reflexivity.
  - vm_compute. reflexivity.
  - discriminate.
Defined.
