(* ===== verification/PoolFresh.v ===== *)
(** * No stale read set survives (scheduler.rs, pevm.rs)

    A transaction is stale when its recorded read set would not pass
    validation now.  A successful execution may leave its own transaction
    stale, and, when it wrote to a new location, all higher ones; turning
    writes into estimates may leave the higher ones stale.  A validation that
    answers yes is about a transaction that is not stale.  Nothing else makes
    a transaction stale.

    Whether the scheduler's indexes, lowered and raised by racing workers,
    still lead to a validation of every stale transaction is the question
    here; what stale means is left to the environment ([Machine.v] fills in
    the multi-version memory). *)

From S2P Require Import Prelude Uint Types Scheduler Pool PoolSafety.

(** Which transactions are stale, and which asked for validation when they
    were last recorded. *)
Record Ghost : Type := mkGhost {
  stale : TxIdx → Prop;
  need : TxIdx → Prop;
}.

(** The transactions a step may leave stale. *)
Definition disturbs (c : choice) (p : pc) (i : TxIdx) : Prop :=
  match p, c with
  | Exec v, VmAnswer (VmOk f) =>
      i = v.(tx_idx) ∨ flags_contains f WroteNewLocation = true ∧ v.(tx_idx) < i
  | Convert v, _ => v.(tx_idx) < i
  | _, _ => False
  end.

Definition need_after (c : choice) (p : pc) (g : Ghost) (i : TxIdx) : Prop :=
  match p, c with
  | Exec v, VmAnswer (VmOk f) =>
      if decide (i = v.(tx_idx)) then flags_contains f NeedValidation = true else g.(need) i
  | _, _ => g.(need) i
  end.

Record ghost_step (c : choice) (p : pc) (g g' : Ghost) : Prop := {
  gs_stale i : g'.(stale) i → g.(stale) i ∨ disturbs c p i;
  gs_need i : g'.(need) i ↔ need_after c p g i;
  gs_valid v : p = Validate v → c = ReadSetValid true → ¬ g.(stale) v.(tx_idx);
}.

Inductive fresh_step : Pool * Ghost → Pool * Ghost → Prop :=
  | fresh_step_intro w c p P P' g g' :
      P.(workers) !! w = Some p → pstep w c P = Next P' → ghost_step c p g g' →
      fresh_step (P, g) (P', g').

Definition fresh_reachable (bs n : nat) (P : Pool) (g : Ghost) : Prop :=
  ∃ g0, rtc fresh_step (init bs n, g0) (P, g).

(** ** The invariant *)

(** The flags of a worker in [finish_execution]. *)
Definition finishing (p : pc) : option (TxVersion * FinishExecFlags) :=
  match p with
  | FE_lock v f | FE_ready v f _ _ | FE_min_e v f _ _ | FE_min v f | FE_below v f _
  | FE_load_v v f | FE_above v f | FE_inner v f | FE_done v f => Some (v, f)
  | _ => None
  end.

(** It has lowered [min_validation_idx]. *)
Definition past_min (p : pc) : bool :=
  match p with FE_load_v _ _ | FE_above _ _ | FE_inner _ _ | FE_done _ _ => true | _ => false end.

(** The worker will validate [i], abort it, or lower the validation index to
    [i] or below. *)
Definition will_check (i : TxIdx) (p : pc) : bool :=
  match p with
  | NT_lock_v j => bool_decide (j = i)
  | Validate v | TryAbort v | Post (Some (Validation v)) _ => bool_decide (v.(tx_idx) = i)
  | FE_lock v f | FE_ready v f _ _ | FE_min_e v f _ _ | FE_min v f | FE_load_v v f
  | FE_above v f => flags_contains f WroteNewLocation && bool_decide (v.(tx_idx) < i)
  | FE_below _ _ m => (m <=? N.of_nat i)%N
  | FV_ready v | FV_min_v v => bool_decide (v.(tx_idx) < i)
  | _ => false
  end.

Section fresh.
Implicit Types (s : Scheduler) (ws : list pc) (g : Ghost).

Definition done s i : Prop :=
  ∃ t, s.(transactions_status) !! i = Some t ∧ is_done t.(status) = true.

Lemma not_done_status s i t :
  s.(transactions_status) !! i = Some t → is_done t.(status) = false → ¬ done s i.
Proof. intros Ht Hd (t' & Ht' & Hd'). simplify_eq. congruence. Qed.

Lemma not_done_insert s s0 i t :
  s.(transactions_status) = <[i := t]> s0.(transactions_status) → is_done t.(status) = false →
  ¬ done s i.
Proof.
  intros Hs Hd (t' & Ht' & Hd'). rewrite Hs in Ht'.
  apply lookup_insert_Some_inv in Ht' as [(_ & -> & _)|[? _]]; congruence.
Qed.

(** [i] counts as executed, or is about to. *)
Definition settled s ws i : Prop := done s i ∨ some_worker ws (will_need_validation i).

Definition covered s ws i : Prop :=
  some_worker ws (will_check i) ∨ (s.(validation_idx) ≤ N.of_nat i)%N.

Record Fresh s ws g : Prop := {
  fr_flags w p v f : ws !! w = Some p → finishing p = Some (v, f) →
    g.(need) v.(tx_idx) → flags_contains f NeedValidation = true;
  fr_past w p v f : ws !! w = Some p → finishing p = Some (v, f) → past_min p = true →
    flags_contains f NeedValidation = true →
    (s.(min_validation_idx) ≤ N.of_nat v.(tx_idx))%N;
  fr_min i : done s i → g.(need) i → (s.(min_validation_idx) ≤ N.of_nat i)%N;
  fr_stale i : g.(stale) i → g.(need) i → settled s ws i → covered s ws i;
}.

Lemma Fresh_init bs n g : Fresh (new bs) (replicate n NextTask) g.
Proof.
  split.
  - by intros w p v f [-> _]%lookup_replicate_1.
  - by intros w p v f [-> _]%lookup_replicate_1.
  - intros i (t & [-> _]%lookup_replicate_1 & Ht). done.
  - intros i _ _ [(t & [-> _]%lookup_replicate_1 & Ht)|(w & p & [-> _]%lookup_replicate_1 & Hp)]; done.
Qed.

Section step.
Context (s s' : Scheduler) (ar ar' : option AbortReason) (ws : list pc) (g g' : Ghost).
Context (c : choice) (w : nat) (p p' : pc).
Hypothesis HI : Inv s ar ws.
Hypothesis Hw : ws !! w = Some p.
Hypothesis Hfree : existsb (locked ws) (needs_locks p) = false.
Hypothesis Hstep : wstep c p s ar = Next (p', s', ar').
Hypothesis Har : ar = None.
Hypothesis HF : Fresh s ws g.
Hypothesis Hg : ghost_step c p g g'.

Lemma min_decreases : (s'.(min_validation_idx) ≤ s.(min_validation_idx))%N.
Proof. clear HF Hg. step_cases; lia. Qed.

(** The worker enters [finish_execution] with the flags of its record. *)
Lemma finishing_step v f :
  finishing p' = Some (v, f) →
  (p = Exec v ∧ c = VmAnswer (VmOk f) ∧ past_min p' = false) ∨ finishing p = Some (v, f).
Proof.
  clear HF Hg Hw. intros Hf. step_cases; auto.
  all: match goal with t : Task |- _ => by destruct t end.
Qed.

Lemma past_step v f :
  finishing p' = Some (v, f) → past_min p' = true → flags_contains f NeedValidation = true →
  past_min p = true ∨ (s'.(min_validation_idx) ≤ N.of_nat v.(tx_idx))%N.
Proof.
  clear HF Hg. intros Hf Hp Hn. pose proof (inv_pc _ _ _ HI _ _ Hw) as Hpc. clear Hw.
  step_cases; auto; try congruence; try (right; lia).
  all: try match goal with t : Task |- _ => by destruct t end.
  all: destruct Hpc; congruence.
Qed.

(** Only the end of [finish_execution] makes a transaction count as executed:
    it hands out a validation, or was about to, or asks for none. *)
Lemma done_step i :
  done s' i → done s i ∨ ∃ v f, finishing p = Some (v, f) ∧ past_min p = true ∧ v.(tx_idx) = i ∧
    (will_check i p' = true ∨ will_need_validation i p = true ∨
     flags_contains f NeedValidation = false).
Proof.
  clear HF Hg. intros (t & Ht & Hd). pose proof (inv_version _ _ _ HI _ _ Hw) as Hv. clear Hw.
  step_cases; try (by left; exists t); lookup_simpl; try (by left; exists t).
  4: { left. eexists. split; [eassumption|]. match goal with H : status _ = _ |- _ => by rewrite H end. }
  all: right; exists v, f; split_and!; [done..|]; rewrite ?bool_decide_eq_true; auto.
Qed.

(** A record is that of a transaction that does not count as executed. *)
Lemma recorded_unsettled v f i :
  p = Exec v → c = VmAnswer (VmOk f) → v.(tx_idx) = i → ¬ settled s' (<[w := p']> ws) i.
Proof.
  clear HF Hg. intros -> -> <- [(t & Ht & Hd)|(w0 & p0 & H0 & Hq)].
  - pose proof (inv_version _ _ _ HI _ _ Hw v eq_refl) as Hv. simpl in Hstep.
    by simplify_eq/=.
  - simpl in Hstep. simplify_eq.
    apply lookup_insert_Some_inv in H0 as [(_ & -> & _)|(Hne & H0)]; [done|].
    destruct p0; try done. simpl in Hq. apply andb_true_iff in Hq as [_ Hq].
    apply bool_decide_eq_true in Hq.
    by apply (held_unique _ _ _ _ _ _ _ _ _ HI Hw eq_refl H0 (not_eq_sym Hne) eq_refl).
Qed.

Lemma need_step i : g'.(need) i → settled s' (<[w := p']> ws) i → g.(need) i.
Proof.
  intros Hn%(gs_need _ _ _ _ Hg) Hs.
  assert (∀ v f, p = Exec v → c = VmAnswer (VmOk f) → v.(tx_idx) ≠ i) as Hne
    by (intros v f Hp Hc Hi; by apply (recorded_unsettled v f i Hp Hc Hi)).
  unfold need_after in Hn. clear - Hn Hne.
  destruct p; try done. destruct c as [|[f| | | |]|]; try done. case_decide; [|done].
  by destruct (Hne _ _ eq_refl eq_refl).
Qed.

Lemma need_validation_step i :
  will_need_validation i p' = true →
  will_need_validation i p = true ∨ (s'.(validation_idx) ≤ N.of_nat i)%N.
Proof.
  clear HF Hg. pose proof (inv_pc _ _ _ HI _ _ Hw) as Hpc.
  pose proof (λ v, held_bound _ _ _ _ HI p v Hw) as Hhb. clear Hw.
  intros Hi. step_cases; try done.
  all: rewrite ?andb_true_iff, ?bool_decide_eq_true, ?N.ltb_lt, ?N.ltb_ge in *;
    destruct_and?; simplify_eq/=; auto; try congruence.
  all: try match goal with t : Task |- _ => by destruct t end.
  all: exfalso; specialize (Hhb _ eq_refl); lia.
Qed.

(** A worker that will check [i] does, or passes the obligation on, or finds
    that [i] is not executed. *)
Lemma check_step i :
  will_check i p = true → g.(stale) i → (s'.(min_validation_idx) ≤ N.of_nat i)%N →
  i < s.(block_size) →
  will_check i p' = true ∨ (s'.(validation_idx) ≤ N.of_nat i)%N ∨
  (locked ws i = false ∧ will_need_validation i p' = false ∧ ¬ done s' i).
Proof.
  intros Hc Hst Hm Hi. pose proof (gs_valid _ _ _ _ Hg) as Hval.
  pose proof (inv_len_status _ _ _ HI) as Hlen. clear HF Hg Hw HI.
  step_cases; try done; auto; rewrite ?orb_false_r in *.
  all: rewrite ?andb_true_iff, ?bool_decide_eq_true, ?N.leb_le, ?N.ltb_lt, ?N.ltb_ge in *;
    destruct_and?; simplify_eq/=; try (by left); try (right; left; lia).
  4: by destruct (Hval _ eq_refl eq_refl).
  all: right; right; split_and!; [done..|]; first
    [by eapply not_done_insert|eapply not_done_status; [eassumption|]].
  all: first [by destruct (is_done _)|by match goal with H : status _ = _ |- _ => rewrite H end].
Qed.

Lemma validation_idx_step i :
  i < s.(block_size) → (s.(validation_idx) ≤ N.of_nat i)%N →
  will_check i p' = true ∨ (s'.(validation_idx) ≤ N.of_nat i)%N.
Proof.
  clear HF Hg Hw HI. intros Hb Hi. step_cases; auto; rewrite ?bool_decide_eq_true, ?N.ltb_ge in *;
    try lia; try (right; lia).
  destruct (decide (validation_idx s = N.of_nat i)) as [->|]; [left; lia|].
  right. apply wrapping_incr_bound. lia.
Qed.

(** A transaction left stale by this step is the worker's to check. *)
Lemma disturbed_step i :
  disturbs c p i → settled s' (<[w := p']> ws) i → will_check i p' = true.
Proof.
  intros Hd Hs.
  assert (∀ v f, p = Exec v → c = VmAnswer (VmOk f) → v.(tx_idx) ≠ i) as Hne
    by (intros v f Hp Hc Hi; by apply (recorded_unsettled v f i Hp Hc Hi)).
  clear HF Hg Hs HI Hw. unfold disturbs in Hd.
  destruct p; try done; simpl in *.
  - destruct c as [|[f| | | |]|]; try done. simplify_eq/=.
    destruct Hd as [->|[-> Hlt]]; [by destruct (Hne _ _ eq_refl eq_refl)|]. by apply bool_decide_eq_true.
  - simplify_eq/=. by apply bool_decide_eq_true.
Qed.

Lemma fr_flags_step w0 p0 v f :
  <[w := p']> ws !! w0 = Some p0 → finishing p0 = Some (v, f) →
  g'.(need) v.(tx_idx) → flags_contains f NeedValidation = true.
Proof.
  intros H0 Hf Hn%(gs_need _ _ _ _ Hg).
  assert (∀ v' f', p = Exec v' → c = VmAnswer (VmOk f') → v.(tx_idx) = v'.(tx_idx) →
    flags_contains f' NeedValidation = true → flags_contains f NeedValidation = true) as Hrec.
  { intros v' f' Hp Hc Hi Hn'.
    apply lookup_insert_Some_inv in H0 as [(_ & -> & _)|(Hne & H0)].
    - destruct (finishing_step v f Hf) as [(Hp' & Hc' & _)|Hf']; [congruence|by rewrite Hp in Hf'].
    - assert (held p = Some v') as Hh by (by rewrite Hp).
      assert (held p0 = Some v) as Hh0 by (destruct p0; by simplify_eq/=).
      by destruct (held_unique _ _ _ _ _ _ _ _ _ HI Hw Hh H0 (not_eq_sym Hne) Hh0). }
  assert (g.(need) v.(tx_idx) → flags_contains f NeedValidation = true) as Hold.
  { intros Hg0. apply lookup_insert_Some_inv in H0 as [(_ & -> & _)|(Hne & H0)].
    - destruct (finishing_step v f Hf) as [(Hp & Hc & _)|Hf'].
      + unfold need_after in Hn. rewrite Hp, Hc in Hn. by rewrite decide_True in Hn.
      + by eapply (fr_flags _ _ _ HF).
    - by eapply (fr_flags _ _ _ HF). }
  unfold need_after in Hn. clear - Hn Hrec Hold.
  destruct p; auto. destruct c as [|[f'| | | |]|]; auto. case_decide; eauto.
Qed.

Lemma fr_past_step w0 p0 v f :
  <[w := p']> ws !! w0 = Some p0 → finishing p0 = Some (v, f) → past_min p0 = true →
  flags_contains f NeedValidation = true → (s'.(min_validation_idx) ≤ N.of_nat v.(tx_idx))%N.
Proof.
  intros H0 Hf Hp Hn. pose proof min_decreases.
  apply lookup_insert_Some_inv in H0 as [(_ & -> & _)|(Hne & H0)].
  - destruct (finishing_step v f Hf) as [(_ & _ & ?)|Hf']; [congruence|].
    destruct (past_step v f Hf Hp Hn) as [Hp'|]; [|done].
    etrans; [done|]. by eapply (fr_past _ _ _ HF).
  - etrans; [done|]. by eapply (fr_past _ _ _ HF).
Qed.

Lemma fr_min_step i : done s' i → g'.(need) i → (s'.(min_validation_idx) ≤ N.of_nat i)%N.
Proof.
  intros Hd Hn. pose proof min_decreases. apply need_step in Hn; [|by left].
  destruct (done_step _ Hd) as [Hd0|(v & f & Hf & Hp & <- & _)].
  - etrans; [done|]. by apply (fr_min _ _ _ HF).
  - etrans; [done|]. eapply (fr_past _ _ _ HF); [done..|]. by eapply (fr_flags _ _ _ HF).
Qed.

Lemma settled_bound i : settled s' (<[w := p']> ws) i → i < s.(block_size).
Proof.
  pose proof (wstep_ok _ _ _ _ HI c p Hw Hfree) as HI'. rewrite Hstep in HI'. simpl in HI'.
  rewrite <-(wstep_block_size _ _ _ _ _ _ _ Hstep).
  intros [(t & Ht & _)|(w0 & p0 & H0 & Hq)].
  - rewrite <-(inv_len_status _ _ _ HI'). eauto using lookup_lt_Some.
  - destruct p0; try done. simpl in Hq. apply andb_true_iff in Hq as [_ Hq].
    apply bool_decide_eq_true in Hq as <-. by eapply held_bound.
Qed.

(** A transaction that counts as executed now did before, or is covered. *)
Lemma settled_step i :
  g.(need) i → settled s' (<[w := p']> ws) i →
  settled s ws i ∨ will_check i p' = true ∨ (s'.(validation_idx) ≤ N.of_nat i)%N.
Proof.
  intros Hn [Hd|(w0 & p0 & [(_ & -> & _)|(? & H0)]%lookup_insert_Some_inv & Hq)].
  - destruct (done_step _ Hd) as [|(v & f & Hf & Hp & <- & [|[|Hno]])]; [by left; left|by auto|..].
    + left; right. by exists w, p.
    + pose proof (fr_flags _ _ _ HF _ _ _ _ Hw Hf Hn). congruence.
  - destruct (need_validation_step _ Hq); [|by auto]. left; right. by exists w, p.
  - left; right. by exists w0, p0.
Qed.

Lemma settled_min i :
  g'.(need) i → settled s' (<[w := p']> ws) i → (s'.(min_validation_idx) ≤ N.of_nat i)%N.
Proof.
  intros Hn [Hd|(w0 & p0 & H0 & Hq)]; [by apply fr_min_step|].
  destruct p0; try done. simpl in Hq. apply andb_true_iff in Hq as [Hf Hq].
  apply bool_decide_eq_true in Hq as <-. by eapply fr_past_step.
Qed.

Lemma Fresh_step : Fresh s' (<[w := p']> ws) g'.
Proof.
  split; [apply fr_flags_step|apply fr_past_step|apply fr_min_step|].
  intros i Hst Hn Hs. pose proof (need_step _ Hn Hs) as Hn0. pose proof (settled_bound _ Hs) as Hb.
  assert (∀ R : Prop, will_check i p' = true ∨ R → some_worker (<[w := p']> ws) (will_check i) ∨ R)
    as Hself by (intros R [?|?]; [left; by eapply some_worker_self|by right]).
  destruct (gs_stale _ _ _ _ Hg i Hst) as [Hst0|Hd].
  2: { apply Hself. left. by apply disturbed_step. }
  destruct (settled_step i Hn0 Hs) as [Hs0|]; [|by apply Hself].
  destruct (fr_stale _ _ _ HF i Hst0 Hn0 Hs0) as [Hc|Hle]; [|by apply Hself, validation_idx_step].
  apply some_worker_update with p; [done..|]. intros Hc'.
  destruct (check_step i Hc' Hst0 (settled_min _ Hn Hs) Hb) as [|[|(Hfr & Hnn & Hnd)]]; auto.
  exfalso. destruct Hs as [Hs|Hs]; [done|]. by apply (no_need_when_unlocked ws w p' i Hfr Hnn).
Qed.
End step.

Lemma fresh_invariant bs n P g :
  0 < n → fresh_reachable bs n P g →
  reachable bs n P ∧ (P.(sched).(aborted) = false → Fresh P.(sched) P.(workers) g).
Proof.
  intros Hn [g0 Hr].
  assert (∀ Q Q', rtc fresh_step Q Q' → reachable bs n Q.1 →
    (Q.1.(sched).(aborted) = false → Fresh Q.1.(sched) Q.1.(workers) Q.2) →
    reachable bs n Q'.1 ∧ (Q'.1.(sched).(aborted) = false → Fresh Q'.1.(sched) Q'.1.(workers) Q'.2)) as Hind.
  { intros Q Q' H. induction H as [Q|Q1 Q2 Q3 [w c p P1 P2 g1 g2 Hw Hs Hg] _ IH]; [done|].
    intros Hr1 HF1. apply IH; simpl in *.
    - eapply rtc_r; [done|]. by econstructor.
    - intros Hab. apply pstep_Next in Hs as (p0 & p' & Hw0 & Hl & Hs & Hws). simplify_eq.
      destruct (PLive_reachable bs n P1 Hn Hr1) as [HI HL].
      pose proof (wstep_aborted _ _ _ _ _ _ _ Hs Hab) as Hab1. rewrite Hws.
      eapply Fresh_step; eauto using live_reason. }
  apply (Hind _ _ Hr); simpl; [apply rtc_refl|]. intros _. apply Fresh_init.
Qed.
End fresh.

Lemma no_stale bs n P g :
  0 < n → fresh_reachable bs n P g → all_exited P → P.(sched).(aborted) = false →
  ∀ i, i < bs → g.(need) i → ¬ g.(stale) i.
Proof.
  intros Hn Hr Hex Hab i Hi Hneed Hst.
  apply fresh_invariant in Hr as [Hr HF]; [|done]. specialize (HF Hab).
  assert (∀ Q : pc → bool, (∀ l, Q (Exit l) = false) → ¬ some_worker (workers P) Q) as Hno.
  { intros Q HQ (w & p & Hw & Hq). destruct (Hex _ _ Hw) as [l ->]. by rewrite HQ in Hq. }
  pose proof (reachable_block_size _ _ _ Hr) as Hbs.
  destruct (quiescent_validated bs n P Hn Hr Hex Hab i Hi) as [inc Ht].
  destruct (fr_stale _ _ _ HF i Hst Hneed) as [Hc|Hle].
  - left. by eexists.
  - by apply (Hno _ (λ _, eq_refl) Hc).
  - apply PLive_reachable in Hr as [_ HL]; [|done].
    destruct (live_scan_v _ _ _ (HL Hab)) as [Hs|Hs]; [by apply (Hno _ (λ _, eq_refl) Hs)|]. lia.
Qed.

(** C5. No stale transaction survives the block: when every worker has left
    and the scheduler was not aborted, no transaction that asked for
    validation when it was last recorded is stale, in whatever order the
    workers lowered and raised the indexes, took tasks, aborted and finished. *)
Theorem pool_no_stale bs n P g :
  0 < n → fresh_reachable bs n P g → all_exited P → P.(sched).(aborted) = false →
  ∀ i, i < bs → g.(need) i → ¬ g.(stale) i.
Proof. apply no_stale. Qed.
