(* ===== verification/PoolLife.v ===== *)
(** * Versions and lives of transactions (scheduler.rs, pevm.rs)

    What the shared memory relies on: a version is recorded at most once, and
    between the end of an execution and its abort nobody else records or
    converts the same transaction. *)

From S2P Require Import Prelude Uint Types Scheduler Pool PoolSafety PoolFresh.

(** ** Lives

    A transaction is live while what its last successful execution wrote is
    in the memory: until the abort turns it into estimates. *)

Definition finishes (i : TxIdx) (p : pc) : bool :=
  match finishing p with Some (v, _) => bool_decide (v.(tx_idx) = i) | None => false end.
Definition converts (i : TxIdx) (p : pc) : bool :=
  match p with Convert v => bool_decide (v.(tx_idx) = i) | _ => false end.

Definition live (s : Scheduler) (ws : list pc) (i : TxIdx) : Prop :=
  done s i ∨ some_worker ws (finishes i) ∨ some_worker ws (converts i).

(** A status moves on: to the next incarnation, or to a state other than
    [ReadyToExecute] of the same one. *)
Definition moves_on (t t' : TxStatus) : Prop :=
  t'.(incarnation) = S t.(incarnation) ∨
  t'.(incarnation) = t.(incarnation) ∧ t'.(status) ≠ ReadyToExecute.

Lemma moves_on_insert (l : list TxStatus) j t0 t1 i t :
  l !! j = Some t0 → moves_on t0 t1 → l !! i = Some t →
  ∃ t', <[j := t1]> l !! i = Some t' ∧ (t' = t ∨ moves_on t t').
Proof.
  intros Hj Hm Hi. destruct (decide (i = j)) as [->|Hne].
  - simplify_eq. exists t1. split; [|by right]. apply list_lookup_insert_eq. by eapply lookup_lt_Some.
  - exists t. split; [|by left]. by rewrite list_lookup_insert_ne.
Qed.

(** Version [v] has been recorded and is not held for execution. *)
Definition used (s : Scheduler) (ws : list pc) (v : TxVersion) : Prop :=
  ∃ t, s.(transactions_status) !! v.(tx_idx) = Some t ∧ v.(tx_incarnation) ≤ t.(incarnation) ∧
    (v.(tx_incarnation) = t.(incarnation) → t.(status) ≠ ReadyToExecute) ∧
    ∀ w p, ws !! w = Some p → held p = Some v → is_Some (finishing p).

Section versions.
Context (s s' : Scheduler) (ar ar' : option AbortReason) (ws : list pc).
Context (c : choice) (w : nat) (p p' : pc).
Hypothesis HI : Inv s ar ws.
Hypothesis Hw : ws !! w = Some p.
Hypothesis Hfree : existsb (locked ws) (needs_locks p) = false.
Hypothesis Hstep : wstep c p s ar = Next (p', s', ar').
Hypothesis Har : ar = None.

(** Only a record brings a transaction to life... *)
Lemma live_step i :
  live s' (<[w := p']> ws) i →
  live s ws i ∨ ∃ v f, p = Exec v ∧ c = VmAnswer (VmOk f) ∧ v.(tx_idx) = i.
Proof.
  intros [Hd|[(w0 & p0 & H0 & Hq)|(w0 & p0 & H0 & Hq)]].
  - destruct (done_step s s' ar ar' ws c w p p' HI Hw Hfree Hstep Har i Hd) as [|(v & f & Hf & _ & Hi & _)].
    + left. by left.
    + left. right; left. exists w, p. split; [done|]. unfold finishes. rewrite Hf.
      by apply bool_decide_eq_true.
  - apply lookup_insert_Some_inv in H0 as [(_ & -> & _)|(_ & H0)]; [|left; right; left; by exists w0, p0].
    unfold finishes in Hq. destruct (finishing p') as [[v f]|] eqn:Hf; [|done].
    apply bool_decide_eq_true in Hq.
    eapply finishing_step in Hf as [(Hp & Hc & _)|Hf']; [| |eassumption..].
    + right. by exists v, f.
    + left. right; left. exists w, p. split; [done|]. unfold finishes. rewrite Hf'.
      by apply bool_decide_eq_true.
  - apply lookup_insert_Some_inv in H0 as [(_ & -> & _)|(_ & H0)]; [|left; right; right; by exists w0, p0].
    left; left. clear HI Hw Hfree.
    step_cases; try discriminate Hq.
    all: try match goal with t : Task |- _ => destruct t; discriminate Hq end.
    all: apply bool_decide_eq_true in Hq; subst; eexists; split; [eassumption|done].
Qed.

(** ... and only the conversion to estimates ends it. *)
Lemma aborted_converts i t t' :
  s.(transactions_status) !! i = Some t → s'.(transactions_status) !! i = Some t' →
  is_done t.(status) = true → is_done t'.(status) = false → converts i p' = true.
Proof.
  intros Ht Ht' Hd Hd'. pose proof (inv_version _ _ _ HI _ _ Hw) as Hv. clear HI Hw Hfree.
  assert (s'.(transactions_status) !! i ≠ s.(transactions_status) !! i) as Hne by congruence.
  destruct p; simpl in Hstep; unfold after, fe_branch, resume_pc in Hstep; sched_unfold;
    repeat case_match; simplify_eq/=; try (by destruct Hne).
  all: repeat match goal with H : bool_decide _ = true |- _ => apply bool_decide_eq_true in H end.
  all: apply lookup_insert_Some_inv in Ht' as [(<- & -> & _)|(? & _)];
    [|destruct Hne; by apply list_lookup_insert_ne].
  all: try (rewrite (Hv _ eq_refl) in Ht; injection Ht as <-; discriminate Hd).
  all: try match goal with H : _ !! _ = Some ?t0 |- _ => rewrite Ht in H; injection H as <- end.
  all: try match goal with H : status _ = _ |- _ => rewrite H in Hd; discriminate Hd end.
  all: try discriminate Hd'.
  all: by apply bool_decide_eq_true.
Qed.

Lemma finishes_step i :
  finishes i p = true → finishes i p' = true ∨ done s' i.
Proof.
  intros Hf. pose proof (inv_len_status _ _ _ HI) as Hlen.
  pose proof (λ v, held_bound _ _ _ _ HI p v Hw) as Hhb. clear HI Hw Hfree.
  step_cases; try discriminate Hf; try (by left).
  all: apply bool_decide_eq_true in Hf as <-; right; eexists; (split;
    [apply list_lookup_insert_eq; rewrite Hlen; by apply Hhb|done]).
Qed.

Lemma dead_step i :
  live s ws i → live s' (<[w := p']> ws) i ∨ ∃ v, p = Convert v ∧ v.(tx_idx) = i.
Proof.
  pose proof (wstep_ok _ _ _ _ HI c p Hw Hfree) as HI'. rewrite Hstep in HI'. simpl in HI'.
  intros [(t & Ht & Hd)|[(w0 & p0 & H0 & Hq)|(w0 & p0 & H0 & Hq)]].
  - left. destruct (lookup_lt_is_Some_2 s'.(transactions_status) i) as [t' Ht'].
    { rewrite (inv_len_status _ _ _ HI'), (wstep_block_size _ _ _ _ _ _ _ Hstep),
        <-(inv_len_status _ _ _ HI). by eapply lookup_lt_Some. }
    destruct (is_done t'.(status)) eqn:Hd'; [left; by exists t'|right; right].
    eapply some_worker_self; [done|]. by eapply aborted_converts.
  - left. destruct (decide (w0 = w)) as [->|Hne].
    + assert (p0 = p) as -> by congruence.
      destruct (finishes_step i Hq); [right; left; by eapply some_worker_self|by left].
    + right; left. exists w0, p0. by rewrite list_lookup_insert_ne.
  - destruct (decide (w0 = w)) as [->|Hne].
    + assert (p0 = p) as -> by congruence. right. clear - Hq. destruct p; try discriminate Hq.
      exists v. split; [done|]. by apply bool_decide_eq_true in Hq.
    + left. right; right. exists w0, p0. by rewrite list_lookup_insert_ne.
Qed.

(** The transaction a worker is about to record is not live. *)
Lemma exec_not_live v : p = Exec v → ¬ live s ws v.(tx_idx).
Proof.
  intros Hp. assert (held p = Some v) as Hh by by rewrite Hp.
  pose proof (inv_version _ _ _ HI _ _ Hw _ Hh) as Hv.
  intros [(t & Ht & Hd)|[(w0 & p0 & H0 & Hq)|(w0 & p0 & H0 & Hq)]].
  - by simplify_eq/=.
  - unfold finishes in Hq. destruct (finishing p0) as [[v0 f0]|] eqn:Hf; [|done].
    apply bool_decide_eq_true in Hq.
    assert (held p0 = Some v0) as Hh0 by (destruct p0; by simplify_eq/=).
    destruct (decide (w0 = w)) as [->|Hne]; [by simplify_eq|].
    by apply (held_unique _ _ _ _ _ _ _ _ _ HI Hw Hh H0 Hne Hh0).
  - unfold converts in Hq. destruct p0; try done. apply bool_decide_eq_true in Hq.
    destruct (aborting_status _ _ _ _ HI _ v.(tx_idx) H0) as [inc Ha]; [simpl; set_solver|].
    by simplify_eq.
Qed.

(** A worker that holds a version it has not recorded held it before, or
    takes it now. *)
Lemma held_step v :
  held p' = Some v → finishing p' = None →
  (held p = Some v ∧ finishing p = None) ∨
  s.(transactions_status) !! v.(tx_idx) = Some (mkTxStatus v.(tx_incarnation) ReadyToExecute).
Proof.
  intros Hh Hf. pose proof (inv_lost _ _ _ HI _ _ Hw) as Hl. clear HI Hw Hfree.
  step_cases; try discriminate Hf; try discriminate Hh; try (by left).
  all: try match goal with t : Task |- _ => destruct t; simplify_eq/=; by left end.
  all: right; rewrite ?Nat2N.id in *; match goal with H : _ !! _ = Some ?t |- _ => rewrite H; destruct t end;
    by simplify_eq/=.
Qed.

(** A transaction that is being turned into estimates has no life left. *)
Lemma converted_not_live v : p = Convert v → ¬ live s' (<[w := p']> ws) v.(tx_idx).
Proof.
  intros Hp. destruct (aborting_status _ _ _ _ HI _ v.(tx_idx) Hw) as [inc Ha]; [rewrite Hp; simpl; set_solver|].
  pose proof Hstep as Hs. rewrite Hp in Hs. simpl in Hs. injection Hs as Hp' Hs' _.
  intros [(t & Ht & Hd)|[(w0 & p0 & H0 & Hq)|(w0 & p0 & H0 & Hq)]].
  - rewrite <-Hs', Ha in Ht. by injection Ht as <-.
  - apply lookup_insert_Some_inv in H0 as [(_ & -> & _)|(Hne & H0)]; [by rewrite <-Hp' in Hq|].
    unfold finishes in Hq. destruct (finishing p0) as [[v0 f0]|] eqn:Hf; [|done].
    apply bool_decide_eq_true in Hq.
    assert (held p0 = Some v0) as Hh0 by (destruct p0; by simplify_eq/=).
    pose proof (inv_version _ _ _ HI _ _ H0 _ Hh0) as Hv. rewrite Hq, Ha in Hv. done.
  - apply lookup_insert_Some_inv in H0 as [(_ & -> & _)|(Hne & H0)]; [by rewrite <-Hp' in Hq|].
    unfold converts in Hq. destruct p0; try done.
    apply bool_decide_eq_true in Hq.
    pose proof (inv_abort _ _ _ HI _ _ Ha) as Hsum.
    pose proof (sum_list_with_two (λ q, occurs v.(tx_idx) (aborting q)) _ _ _ _ _ Hne Hw H0) as H2.
    rewrite Hp in H2. simpl in H2. rewrite Hq in H2. unfold occurs in *. simpl in *.
    rewrite decide_True in H2 by done. unfold is_status in Hsum. simpl in Hsum. lia.
Qed.

(** ** Versions *)

(** How the status of a transaction changes. *)
Lemma status_step i t :
  s.(transactions_status) !! i = Some t →
  ∃ t', s'.(transactions_status) !! i = Some t' ∧ (t' = t ∨ moves_on t t').
Proof.
  intros Ht. pose proof (inv_version _ _ _ HI _ _ Hw) as Hv. clear HI Hw Hfree.
  step_cases; try (by exists t; auto); try (specialize (Hv _ eq_refl)).
  all: eapply moves_on_insert; [eassumption| |exact Ht]; unfold moves_on; simpl; auto.
  rewrite Hv in *. simplify_eq/=. auto.
Qed.

(** What has been recorded stays so... *)
Lemma used_step v : used s ws v → used s' (<[w := p']> ws) v.
Proof.
  intros (t & Ht & Hle & Hr & Hh). destruct (status_step _ _ Ht) as (t' & Ht' & Hm).
  exists t'. split_and!; [done|..].
  - destruct Hm as [->|[->|[-> _]]]; lia.
  - destruct Hm as [->|[E|[_ ?]]]; [done| |done]. rewrite E. lia.
  - intros w0 p0 [(_ & -> & _)|(_ & H0)]%lookup_insert_Some_inv Hv; [|by eapply Hh].
    destruct (finishing p') eqn:Hf; [done|].
    destruct (held_step v Hv Hf) as [[Hv' Hf']|Hst].
    + destruct (Hh _ _ Hw Hv') as [? ?]. congruence.
    + rewrite Ht in Hst. injection Hst as ->. by destruct (Hr eq_refl).
Qed.

(** ... the version a worker is about to record has not been... *)
Lemma exec_unused v : p = Exec v → ¬ used s ws v.
Proof.
  intros Hp (t & _ & _ & _ & Hh). destruct (Hh _ _ Hw) as [? Hf]; [by rewrite Hp|].
  by rewrite Hp in Hf.
Qed.

(** ... and then is. *)
Lemma exec_used v f : p = Exec v → c = VmAnswer (VmOk f) → used s' (<[w := p']> ws) v.
Proof.
  intros Hp Hc. assert (held p = Some v) as Hv by by rewrite Hp.
  pose proof (inv_version _ _ _ HI _ _ Hw _ Hv) as Ht.
  pose proof Hstep as Hs. rewrite Hp, Hc in Hs. simpl in Hs. injection Hs as Hp' <- _.
  eexists. split_and!; [done|done|done|].
  intros w0 p0 [(_ & -> & _)|(Hne & H0)]%lookup_insert_Some_inv Hv0; [by rewrite <-Hp'|].
  by destruct (held_unique _ _ _ _ _ _ _ _ _ HI Hw Hv H0 (not_eq_sym Hne) Hv0).
Qed.
End versions.
