(* ===== verification/MvMemory.v ===== *)
(** * The multi-version memory (src/crates/pevm/src/mv_memory.rs)

    [MvMemory] and its methods.  A [DashMap] is a [gmap]; a [BTreeMap] keyed
    by transaction index is a [gmap nat], and [range(..n)] walked with
    [next_back] is the list [range_rev].  The methods run without
    interruption.  [Bytecode] is revm's type and stays a parameter.

    The theorems: what [record], [convert_writes_to_estimates] and
    [validate_read_locations] do to every (location, transaction) pair, and
    the invariant that ties the entries to the last recorded write sets. *)

From S2P Require Import Prelude Uint Types.

(** ** Ordered maps keyed by transaction index *)

Abbreviation BTreeMap := (gmap nat MemoryEntry) (only parsing).

(** [m.range(..n)], from the highest key down. *)
Fixpoint range_rev (m : BTreeMap) (n : nat) : list (TxIdx * MemoryEntry) :=
  match n with
  | O => []
  | S k =>
      match m !! k with
      | Some e => (k, e) :: range_rev m k
      | None => range_rev m k
      end
  end.

(** [Vec::swap_remove]: the last element takes the place of the removed one. *)
Definition swap_remove {A} (i : nat) (l : list A) : list A :=
  match last l with
  | Some x => take (length l - 1) (<[i := x]> l)
  | None => []
  end.

(** ** State *)

Record LastLocations : Type := mkLastLocations {
  ll_read : ReadSet;
  ll_write : list MemoryLocationHash;
}.

Definition LastLocations_default : LastLocations := mkLastLocations ∅ [].

Record MvMemory {Bytecode : Type} : Type := mkMvMemory {
  data : gmap MemoryLocationHash BTreeMap;
  last_locations : list LastLocations;
  lazy_addresses : gset Address;
  new_bytecodes : gmap B256 Bytecode;
}.
Arguments MvMemory : clear implicits.

(** The entry of transaction [i] at location [l]. *)
Definition entry_at (d : gmap MemoryLocationHash BTreeMap) (l : MemoryLocationHash)
    (i : TxIdx) : option MemoryEntry := d !! l ≫= (.!! i).

Section mv_memory.
Context {Bytecode : Type}.
Abbreviation MvMemory := (MvMemory Bytecode).
Abbreviation Mv := (stm MvMemory).

Definition set_data (x : gmap MemoryLocationHash BTreeMap) (s : MvMemory) : MvMemory :=
  mkMvMemory _ x s.(last_locations) s.(lazy_addresses) s.(new_bytecodes).
Definition set_last_locations (x : list LastLocations) (s : MvMemory) : MvMemory :=
  mkMvMemory _ s.(data) x s.(lazy_addresses) s.(new_bytecodes).
Definition set_lazy_addresses (x : gset Address) (s : MvMemory) : MvMemory :=
  mkMvMemory _ s.(data) s.(last_locations) x s.(new_bytecodes).
Definition set_new_bytecodes (x : gmap B256 Bytecode) (s : MvMemory) : MvMemory :=
  mkMvMemory _ s.(data) s.(last_locations) s.(lazy_addresses) x.

(** ** Methods *)

(** [estimated_tx_idxs.into_iter().map(|i| (i, Estimate)).collect()] *)
Definition estimates (idxs : list TxIdx) : BTreeMap :=
  list_to_map ((λ i, (i, Estimate)) <$> idxs).

Definition new (block_size : nat)
    (estimated_locations : list (MemoryLocationHash * list TxIdx))
    (lazy : list Address) : MvMemory := {|
  data := foldl (λ d p, <[p.1 := estimates p.2]> d) ∅ estimated_locations;
  last_locations := replicate block_size LastLocations_default;
  lazy_addresses := list_to_set lazy;
  new_bytecodes := ∅;
|}.

Definition add_lazy_addresses (new_lazy_addresses : list Address) : Mv unit :=
  stm_modify (λ s, set_lazy_addresses
    (foldl (λ acc a, {[ a ]} ∪ acc) s.(lazy_addresses) new_lazy_addresses) s).

(** [index_mutex!(self.last_locations, i)] *)
Definition lock_last_locations (i : TxIdx) : Mv LastLocations := λ s,
  match s.(last_locations) !! i with Some ll => Some (ll, s) | None => None end.
Definition put_last_locations (i : TxIdx) (ll : LastLocations) : Mv unit :=
  stm_modify (λ s, set_last_locations (<[i := ll]> s.(last_locations)) s).

(** The [while] loop of [record]: remove the old locations that are not
    written to any more.  Each iteration shortens [write] or moves
    [last_location_idx] forward, so [length write] iterations are enough. *)
Fixpoint drop_stale (fuel : nat) (write_set : WriteSet) (i : TxIdx) (last_location_idx : nat)
    (write : list MemoryLocationHash) (d : gmap MemoryLocationHash BTreeMap)
    : list MemoryLocationHash * gmap MemoryLocationHash BTreeMap :=
  match fuel with
  | O => (write, d)
  | S fuel' =>
      match write !! last_location_idx with
      | None => (write, d)
      | Some prev_location =>
          if forallb (λ p, negb (p.1 =? prev_location)%N) write_set then
            drop_stale fuel' write_set i last_location_idx
              (swap_remove last_location_idx write) (alter (delete i) prev_location d)
          else drop_stale fuel' write_set i (S last_location_idx) write d
      end
  end.

(** The [for] loop of [record]. *)
Definition register_write (v : TxVersion)
    (acc : gmap MemoryLocationHash BTreeMap * list MemoryLocationHash * bool)
    (p : MemoryLocationHash * MemoryValue)
    : gmap MemoryLocationHash BTreeMap * list MemoryLocationHash * bool :=
  let '(d, write, wrote_new_location) := acc in
  let '(location, value) := p in
  let d' := <[location := <[v.(tx_idx) := Data v.(tx_incarnation) value]>
                (default ∅ (d !! location))]> d in
  if existsb (N.eqb location) write then (d', write, wrote_new_location)
  else (d', write ++ [location], true).

Definition record (v : TxVersion) (read_set : ReadSet) (write_set : WriteSet) : Mv bool :=
  ll ← lock_last_locations v.(tx_idx);
  s ← stm_get;
  let '(write, d) := drop_stale (length ll.(ll_write)) write_set v.(tx_idx) 0
                       ll.(ll_write) s.(data) in
  let '(d', write', wrote_new_location) :=
    foldl (register_write v) (d, write, false) write_set in
  stm_modify (set_data d') ;;
  put_last_locations v.(tx_idx) (mkLastLocations read_set write') ;;
  mret wrote_new_location.

(** The inner loop of [validate_read_locations] over the prior origins of
    one location, [iter] being what [range(..tx_idx)] has left. *)
Fixpoint check_origins (prior_origins : ReadOrigins) (iter : list (TxIdx * MemoryEntry))
    : bool :=
  match prior_origins with
  | [] => true
  | FromMvMemory prior_version :: rest =>
      match iter with
      | (closest_idx, Data tx_incarnation _) :: iter' =>
          if (closest_idx =? prior_version.(tx_idx)) &&
             (prior_version.(Types.tx_incarnation) =? tx_incarnation)
          then check_origins rest iter' else false
      | _ => false
      end
  | FromStorage :: rest =>
      match iter with
      | [] => check_origins rest []
      | _ :: _ => false
      end
  end.

Definition check_location (d : gmap MemoryLocationHash BTreeMap) (i : TxIdx)
    (location : MemoryLocationHash) (prior_origins : ReadOrigins) : bool :=
  match d !! location with
  | Some written_transactions =>
      check_origins prior_origins (range_rev written_transactions i)
  | None =>
      negb (negb (length prior_origins =? 1)
            || negb (bool_decide (last prior_origins = Some FromStorage)))
  end.

Definition validate_read_locations (i : TxIdx) : Mv bool :=
  ll ← lock_last_locations i;
  s ← stm_get;
  mret (forallb (λ p, check_location s.(data) i p.1 p.2) (map_to_list ll.(ll_read))).

Definition convert_writes_to_estimates (i : TxIdx) : Mv unit :=
  ll ← lock_last_locations i;
  stm_modify (λ s, set_data
    (foldl (λ d l, alter (insert i Estimate) l d) s.(data) ll.(ll_write)) s).

Definition consume_lazy_addresses : Mv (gset Address) := λ s,
  Some (s.(lazy_addresses), set_lazy_addresses ∅ s).
End mv_memory.

(** ** Entries after an update *)

Section entries.
Implicit Types (d : gmap MemoryLocationHash BTreeMap) (l : MemoryLocationHash).

Lemma entry_at_alter_delete d l0 i l j :
  entry_at (alter (delete i) l0 d) l j =
    if decide (l = l0 ∧ j = i) then None else entry_at d l j.
Proof.
  unfold entry_at. destruct (decide (l = l0)) as [->|Hl].
  - rewrite lookup_alter_eq. destruct (d !! l0) as [m|]; simpl; [|by case_decide].
    case_decide as Hd; [destruct Hd as [_ ->]; apply lookup_delete_eq|].
    apply lookup_delete_ne. naive_solver.
  - rewrite lookup_alter_ne by done. case_decide; [naive_solver|done].
Qed.

Lemma entry_at_alter_insert d l0 i e l j :
  entry_at (alter (insert i e) l0 d) l j =
    if decide (l = l0 ∧ j = i) then (λ _, e) <$> d !! l else entry_at d l j.
Proof.
  unfold entry_at. destruct (decide (l = l0)) as [->|Hl].
  - rewrite lookup_alter_eq. destruct (d !! l0) as [m|]; simpl; [|by case_decide].
    case_decide as Hd; [destruct Hd as [_ ->]; apply lookup_insert_eq|].
    apply lookup_insert_ne. naive_solver.
  - rewrite lookup_alter_ne by done. case_decide; [naive_solver|done].
Qed.

Lemma entry_at_insert d l0 i e l j :
  entry_at (<[l0 := <[i := e]> (default ∅ (d !! l0))]> d) l j =
    if decide (l = l0 ∧ j = i) then Some e else entry_at d l j.
Proof.
  unfold entry_at. destruct (decide (l = l0)) as [->|Hl].
  - rewrite lookup_insert_eq. simpl. case_decide as Hd.
    + destruct Hd as [_ ->]. apply lookup_insert_eq.
    + rewrite lookup_insert_ne by naive_solver. destruct (d !! l0); simpl; [done|].
      apply lookup_empty.
  - rewrite lookup_insert_ne by done. case_decide; [naive_solver|done].
Qed.
End entries.

(** ** [swap_remove] *)

Lemma swap_remove_snoc {A} i (l : list A) y :
  swap_remove i (l ++ [y]) = if decide (i < length l) then <[i := y]> l else l.
Proof.
  unfold swap_remove. rewrite last_snoc, length_app. simpl.
  replace (length l + 1 - 1) with (length l) by lia. case_decide.
  - rewrite insert_app_l by done. apply take_app_length'. by rewrite length_insert.
  - rewrite insert_app_r_alt by lia. by apply take_app_length'.
Qed.

Lemma swap_remove_spec {A} i (l : list A) x :
  l !! i = Some x →
  l ≡ₚ x :: swap_remove i l ∧ ∀ j, j < i → swap_remove i l !! j = l !! j.
Proof.
  destruct l as [|y l _] using rev_ind; [done|]. intros Hi.
  rewrite swap_remove_snoc. case_decide as Hlt.
  - rewrite lookup_app_l in Hi by done. split.
    + rewrite Permutation_app_comm. simpl.
      rewrite <-(take_drop_middle _ _ _ Hi) at 1.
      rewrite (insert_take_drop _ _ _ Hlt), <-!Permutation_middle. apply Permutation_swap.
    + intros j Hj. rewrite list_lookup_insert_ne, lookup_app_l by lia. done.
  - apply lookup_lt_Some in Hi as Hi'. rewrite length_app in Hi'. simpl in Hi'.
    assert (i = length l) as -> by lia.
    rewrite list_lookup_middle in Hi by done. simplify_eq. split.
    + by rewrite Permutation_app_comm.
    + intros j Hj. by rewrite lookup_app_l by lia.
Qed.

(** ** The loops of [record] *)

(** The locations of a write set, in order, and the last value written to a
    location. *)
Definition locations (write_set : WriteSet) : list MemoryLocationHash := write_set.*1.

Definition last_value (write_set : WriteSet) (l : MemoryLocationHash) : option MemoryValue :=
  snd <$> last (filter (λ p, p.1 = l) write_set).

Lemma not_written_spec (write_set : WriteSet) l :
  forallb (λ p, negb (p.1 =? l)%N) write_set = true ↔ l ∉ locations write_set.
Proof.
  unfold locations. rewrite forallb_forall, list_elem_of_fmap. setoid_rewrite negb_true_iff.
  setoid_rewrite N.eqb_neq. setoid_rewrite <-list_elem_of_In. naive_solver.
Qed.

(** What the loop over the old locations leaves. *)
Record dropped (write_set : WriteSet) (i : TxIdx)
    (write : list MemoryLocationHash) (d : gmap MemoryLocationHash BTreeMap)
    (write' : list MemoryLocationHash) (d' : gmap MemoryLocationHash BTreeMap) : Prop := {
  dropped_write : write' ≡ₚ filter (.∈ locations write_set) write;
  dropped_dom : dom d' = dom d;
  dropped_entry l j : entry_at d' l j =
    if decide (j = i ∧ l ∈ write ∧ l ∉ locations write_set) then None else entry_at d l j;
}.

Lemma dropped_nothing write_set i write d :
  Forall (.∈ locations write_set) write → dropped write_set i write d write d.
Proof.
  intros Hall. split; [|done|].
  - induction Hall; [done|]. rewrite filter_cons_True by done. by constructor.
  - intros l j. rewrite Forall_forall in Hall. case_decide; naive_solver.
Qed.

Lemma drop_stale_spec fuel write_set i idx write d write' d' :
  length write ≤ idx + fuel →
  (∀ j l, j < idx → write !! j = Some l → l ∈ locations write_set) →
  drop_stale fuel write_set i idx write d = (write', d') →
  dropped write_set i write d write' d'.
Proof.
  revert idx write d. induction fuel as [|fuel IH]; intros idx write d Hfuel Hpre; simpl.
  { intros ?; simplify_eq. apply dropped_nothing, Forall_lookup. intros j l Hj.
    apply (Hpre j l); [|done]. apply lookup_lt_Some in Hj. lia. }
  destruct (write !! idx) as [l0|] eqn:Hl0.
  2: { intros ?; simplify_eq. apply dropped_nothing, Forall_lookup. intros j l Hj.
    apply (Hpre j l); [|done]. apply lookup_lt_Some in Hj. apply lookup_ge_None in Hl0. lia. }
  case_match eqn:Hall.
  - apply not_written_spec in Hall. destruct (swap_remove_spec _ _ _ Hl0) as [Hperm Hsame].
    intros Hr. apply IH in Hr as [Hw Hdom He].
    + split; [|by rewrite Hdom, dom_alter_L|].
      { rewrite Hw. symmetry. etrans; [by apply filter_Permutation, Hperm|].
        by rewrite filter_cons_False. }
      intros l j. rewrite He, entry_at_alter_delete.
      assert (l ∈ write ↔ l = l0 ∨ l ∈ swap_remove idx write) as Hin
        by (rewrite Hperm at 1; apply elem_of_cons).
      repeat case_decide; naive_solver.
    + apply Permutation_length in Hperm. simpl in Hperm. lia.
    + intros j l Hj. rewrite Hsame by done. by apply Hpre.
  - intros Hr. apply IH in Hr; [done|lia|]. intros j l Hj Hl.
    destruct (decide (j = idx)) as [->|]; [|apply (Hpre j); [lia|done]].
    rewrite Hl0 in Hl. injection Hl as <-.
    destruct (decide (l0 ∈ locations write_set)) as [|Hn]; [done|]. apply not_written_spec in Hn. congruence.
Qed.

Lemma last_value_cons p write_set l :
  last_value (p :: write_set) l =
    match last_value write_set l with
    | Some x => Some x
    | None => if decide (p.1 = l) then Some p.2 else None
    end.
Proof.
  unfold last_value. rewrite filter_cons. case_decide; [|by destruct (last _)].
  rewrite last_cons. by destruct (last _).
Qed.

Lemma last_value_is_Some write_set l :
  is_Some (last_value write_set l) ↔ l ∈ locations write_set.
Proof.
  induction write_set as [|p ws IH]; [split; [by intros [? ?]|by intros ?%elem_of_nil]|].
  rewrite last_value_cons. unfold locations in *. csimpl. rewrite elem_of_cons, <-IH.
  destruct (last_value ws l); [naive_solver|]. case_decide; naive_solver.
Qed.

(** What the loop over the new write set leaves. *)
Record registered (v : TxVersion) (write_set : WriteSet)
    (d : gmap MemoryLocationHash BTreeMap) (write : list MemoryLocationHash) (b : bool)
    (d' : gmap MemoryLocationHash BTreeMap) (write' : list MemoryLocationHash) (b' : bool)
    : Prop := {
  registered_entry l j : entry_at d' l j =
    match last_value write_set l with
    | Some x => if decide (j = v.(tx_idx)) then Some (Data v.(tx_incarnation) x)
                else entry_at d l j
    | None => entry_at d l j
    end;
  registered_write l : l ∈ write' ↔ l ∈ write ∨ l ∈ locations write_set;
  registered_NoDup : NoDup write → NoDup write';
  registered_new : b' = true ↔ b = true ∨ ∃ l, l ∈ locations write_set ∧ l ∉ write;
  registered_dom : dom d' = dom d ∪ list_to_set (locations write_set);
}.

Lemma register_writes_spec v write_set d write b d' write' b' :
  foldl (register_write v) (d, write, b) write_set = (d', write', b') →
  registered v write_set d write b d' write' b'.
Proof.
  revert d write b. induction write_set as [|[l0 x0] ws IH]; intros d write b; simpl.
  { intros ?; simplify_eq. split; try done.
    - intros l. unfold locations. rewrite elem_of_nil. naive_solver.
    - split; [auto|]. intros [?|(l & Hl%elem_of_nil & _)]; done.
    - unfold locations. simpl. set_solver. }
  intros H. set (d1 := <[l0 := _]> d) in H.
  assert (existsb (N.eqb l0) write = true ↔ l0 ∈ write) as Hc.
  { rewrite existsb_exists. setoid_rewrite <-list_elem_of_In. setoid_rewrite N.eqb_eq.
    naive_solver. }
  assert (∃ w1 b1, foldl (register_write v) (d1, w1, b1) ws = (d', write', b') ∧
    (∀ l, l ∈ w1 ↔ l ∈ write ∨ l = l0) ∧ (NoDup write → NoDup w1) ∧
    (b1 = true ↔ b = true ∨ l0 ∉ write)) as (w1 & b1 & H1 & Hw1 & Hnd & Hb1).
  { destruct (existsb _ write); eexists _, _; (split; [exact H|]).
    - split_and!; naive_solver.
    - assert (l0 ∉ write) by naive_solver. split_and!; [|intros; apply NoDup_app|naive_solver].
      + intros l. rewrite elem_of_app, list_elem_of_singleton. done.
      + split_and!; [done| |apply NoDup_singleton].
        intros l Hl ->%list_elem_of_singleton. done. }
  apply IH in H1 as [He Hw Hn Hb Hdom]. split.
  - intros l j. rewrite He, last_value_cons. subst d1. rewrite entry_at_insert. csimpl.
    destruct (last_value ws l); repeat case_decide; naive_solver.
  - intros l. change (locations (_ :: _)) with (l0 :: locations ws).
    rewrite Hw, Hw1, elem_of_cons. naive_solver.
  - auto.
  - change (locations (_ :: _)) with (l0 :: locations ws).
    rewrite Hb, Hb1. setoid_rewrite Hw1. setoid_rewrite elem_of_cons. split.
    + naive_solver.
    + intros [?|(l & [->|?] & ?)]; [naive_solver..|].
      destruct (decide (l0 ∈ write)); [|naive_solver]. right. exists l. naive_solver.
  - change (locations (_ :: _)) with (l0 :: locations ws).
    rewrite Hdom. subst d1. rewrite dom_insert_L. set_solver.
Qed.

(** ** What the methods do *)

Section methods.
Context {Bytecode : Type}.
Implicit Types (s : MvMemory Bytecode).

(** The state after [record]: the entries of the transaction are exactly the
    new write set, everything else is untouched. *)
Record recorded (v : TxVersion) (read_set : ReadSet) (write_set : WriteSet)
    (ll : LastLocations) s (wrote_new : bool) s' : Prop := {
  recorded_entry l j : entry_at s'.(data) l j =
    if decide (j = v.(tx_idx)) then
      match last_value write_set l with
      | Some x => Some (Data v.(tx_incarnation) x)
      | None => if decide (l ∈ ll.(ll_write)) then None else entry_at s.(data) l j
      end
    else entry_at s.(data) l j;
  recorded_dom : dom s'.(data) = dom s.(data) ∪ list_to_set (locations write_set);
  recorded_last : ∃ write', (∀ l, l ∈ write' ↔ l ∈ locations write_set) ∧
    (NoDup ll.(ll_write) → NoDup write') ∧
    s'.(last_locations) = <[v.(tx_idx) := mkLastLocations read_set write']> s.(last_locations);
  recorded_new : wrote_new = true ↔ ∃ l, l ∈ locations write_set ∧ l ∉ ll.(ll_write);
  recorded_frame : s'.(lazy_addresses) = s.(lazy_addresses) ∧
    s'.(new_bytecodes) = s.(new_bytecodes);
}.

Lemma record_recorded v read_set write_set s ll :
  s.(last_locations) !! v.(tx_idx) = Some ll →
  ∃ wrote_new s', record v read_set write_set s = Some (wrote_new, s') ∧
    recorded v read_set write_set ll s wrote_new s'.
Proof.
  intros Hll. unfold record, lock_last_locations, put_last_locations. stm_unfold.
  rewrite Hll. destruct (drop_stale _ _ _ _ _ _) as [w d] eqn:Hdrop.
  apply drop_stale_spec in Hdrop as [Hw Hdom He]; [|lia..].
  destruct (foldl _ _ _) as [[d' w'] b] eqn:Hreg.
  apply register_writes_spec in Hreg as [Re Rw Rn Rb Rd].
  assert (∀ l, l ∈ w ↔ l ∈ ll.(ll_write) ∧ l ∈ locations write_set) as Hin.
  { intros l. rewrite Hw, list_elem_of_filter. naive_solver. }
  do 2 eexists. split; [done|]. split; simpl.
  - intros l j. rewrite Re, He. pose proof (last_value_is_Some write_set l) as Hlv.
    destruct (last_value write_set l).
    + assert (l ∈ locations write_set) by (apply Hlv; eauto).
      repeat case_decide; naive_solver.
    + assert (l ∉ locations write_set) by (intros [? ?]%Hlv; done).
      repeat case_decide; naive_solver.
  - by rewrite Rd, Hdom.
  - exists w'. split_and!; [|intros Hnd; apply Rn; rewrite Hw; by apply NoDup_filter|done].
    intros l. rewrite Rw, Hin. naive_solver.
  - rewrite Rb. setoid_rewrite Hin. naive_solver.
  - done.
Qed.

Lemma foldl_estimates i l d write j :
  entry_at (foldl (λ d l, alter (insert i Estimate) l d) d write) l j =
    if decide (j = i ∧ l ∈ write) then (λ _, Estimate) <$> d !! l else entry_at d l j.
Proof.
  revert d. induction write as [|l0 write IH]; intros d; simpl.
  { case_decide as H; [by destruct H as [_ H%elem_of_nil]|done]. }
  rewrite IH, entry_at_alter_insert.
  assert ((λ _, Estimate) <$> alter (insert i Estimate) l0 d !! l
          = (λ _, Estimate) <$> d !! l) as ->.
  { destruct (decide (l = l0)) as [->|]; [|by rewrite lookup_alter_ne].
    rewrite lookup_alter_eq. by destruct (d !! l0). }
  assert (l ∈ l0 :: write ↔ l = l0 ∨ l ∈ write) as Hin by apply elem_of_cons.
  repeat case_decide; naive_solver.
Qed.
End methods.

(** ** The invariant of the data structure *)

(** Entries only carry indexes of the block; a [Data] entry of a transaction
    sits at a location of its last write set, and every location of the last
    write set has an entry.  Only an [Estimate] of [MvMemory::new] can be at a
    location outside of it. *)
Record mv_ok {Bytecode} (s : MvMemory Bytecode) : Prop := {
  mv_bound l i e : entry_at s.(data) l i = Some e → i < length s.(last_locations);
  mv_nodup i ll : s.(last_locations) !! i = Some ll → NoDup ll.(ll_write);
  mv_written i ll l : s.(last_locations) !! i = Some ll → l ∈ ll.(ll_write) →
    is_Some (entry_at s.(data) l i);
  mv_data i ll l inc x : s.(last_locations) !! i = Some ll →
    entry_at s.(data) l i = Some (Data inc x) → l ∈ ll.(ll_write);
}.

Section invariant.
Context {Bytecode : Type}.
Implicit Types (s : MvMemory Bytecode).

Lemma entry_at_new bs est lazy l i e :
  entry_at (new (Bytecode:=Bytecode) bs est lazy).(data) l i = Some e →
  e = Estimate ∧ ∃ idxs, (l, idxs) ∈ est ∧ i ∈ idxs.
Proof.
  simpl. induction est as [|[l0 idxs0] est IH] using rev_ind; simpl.
  { unfold entry_at. by rewrite lookup_empty. }
  rewrite foldl_app. simpl. setoid_rewrite elem_of_app. setoid_rewrite list_elem_of_singleton.
  unfold entry_at in *. destruct (decide (l = l0)) as [->|].
  - rewrite lookup_insert_eq. simpl. unfold estimates.
    intros H%elem_of_list_to_map_2. apply list_elem_of_fmap in H as (i' & ? & ?).
    simplify_eq. eauto.
  - rewrite lookup_insert_ne by done. intros (? & idxs & ? & ?)%IH. eauto.
Qed.

Lemma mv_ok_new bs est lazy :
  (∀ l idxs i, (l, idxs) ∈ est → i ∈ idxs → i < bs) →
  mv_ok (new (Bytecode:=Bytecode) bs est lazy).
Proof.
  intros Hbs. assert (∀ i ll, (new (Bytecode:=Bytecode) bs est lazy).(last_locations) !! i
    = Some ll → ll = LastLocations_default) as Hll.
  { simpl. intros i ll ?%lookup_replicate. naive_solver. }
  split.
  - intros l i e (_ & idxs & ? & ?)%entry_at_new. simpl. rewrite length_replicate. eauto.
  - intros i ll ->%Hll. constructor.
  - by intros i ll l ->%Hll ?%elem_of_nil.
  - by intros i ll l inc x _ [? _]%entry_at_new.
Qed.

Lemma mv_ok_record v read_set write_set ll b s s' :
  s.(last_locations) !! v.(tx_idx) = Some ll →
  recorded v read_set write_set ll s b s' → mv_ok s → mv_ok s'.
Proof.
  intros Hll [He _ (w & Hw & Hnd & Hlast) _ _] [B N W D].
  assert (∀ i ll', s'.(last_locations) !! i = Some ll' →
    (i = v.(tx_idx) ∧ ll' = mkLastLocations read_set w) ∨
    (i ≠ v.(tx_idx) ∧ s.(last_locations) !! i = Some ll')) as Hcase.
  { intros i ll'. rewrite Hlast, list_lookup_insert_Some. naive_solver. }
  pose proof (lookup_lt_Some _ _ _ Hll). split.
  - intros l i e. rewrite He, Hlast, length_insert. case_decide; [subst; auto|eauto].
  - intros i ll' [[-> ->]|[? ?]]%Hcase; simpl; eauto.
  - intros i ll' l [[-> ->]|[? ?]]%Hcase Hl; rewrite He; case_decide; try done; [|eauto].
    apply Hw, last_value_is_Some in Hl as [x ->]. eauto.
  - intros i ll' l inc x [[-> ->]|[? ?]]%Hcase; rewrite He; case_decide; try done; [|eauto].
    simpl. rewrite Hw. pose proof (last_value_is_Some write_set l) as Hlv.
    destruct (last_value write_set l); [intros _; apply Hlv; eauto|].
    case_decide; [done|]. intros ?. exfalso. eauto.
Qed.

Lemma mv_ok_convert i s u s' :
  convert_writes_to_estimates i s = Some (u, s') → mv_ok s → mv_ok s'.
Proof.
  unfold convert_writes_to_estimates, lock_last_locations. stm_unfold.
  destruct (_ !! i) as [ll|] eqn:Hll; [|done]. intros ? [B N W D]. simplify_eq.
  assert (∀ l, l ∈ ll.(ll_write) → is_Some (s.(data) !! l)) as Hl.
  { intros l H. destruct (W _ _ _ Hll H) as [e He]. unfold entry_at in He.
    destruct (_ !! l); [eauto|done]. }
  split; simpl.
  - intros l j e. rewrite foldl_estimates. case_decide as Hd; [|eauto].
    destruct Hd as [-> _]. intros _. by eapply lookup_lt_Some.
  - eauto.
  - intros j ll' l Hj Hin. rewrite foldl_estimates. case_decide as Hd; [|eauto].
    destruct Hd as [-> Hw]. apply fmap_is_Some. eauto.
  - intros j ll' l inc x Hj. rewrite foldl_estimates. case_decide; [|eauto].
    by destruct (_ !! l).
Qed.
End invariant.

(** ** The claims *)

(** The calls a worker makes on the shared memory. *)
Inductive mv_op : Type :=
  | OpRecord (v : TxVersion) (read_set : ReadSet) (write_set : WriteSet)
  | OpConvert (i : TxIdx)
  | OpValidate (i : TxIdx)
  | OpAddLazy (l : list Address)
  | OpConsumeLazy.

Definition op_in_block (bs : nat) (o : mv_op) : Prop :=
  match o with
  | OpRecord v _ _ => v.(tx_idx) < bs
  | OpConvert i | OpValidate i => i < bs
  | OpAddLazy _ | OpConsumeLazy => True
  end.

Definition run_op {Bytecode} (o : mv_op) : stm (MvMemory Bytecode) unit :=
  match o with
  | OpRecord v rs ws => record v rs ws ;; mret tt
  | OpConvert i => convert_writes_to_estimates i
  | OpValidate i => validate_read_locations i ;; mret tt
  | OpAddLazy l => add_lazy_addresses l
  | OpConsumeLazy => consume_lazy_addresses ;; mret tt
  end.

Section claims.
Context {Bytecode : Type}.
Implicit Types (s : MvMemory Bytecode).

Lemma run_op_ok o s :
  mv_ok s → op_in_block (length s.(last_locations)) o →
  ∃ s', run_op o s = Some (tt, s') ∧ mv_ok s' ∧
    length s'.(last_locations) = length s.(last_locations).
Proof.
  intros Hok Hin. destruct o as [v rs ws|i|i|l|]; simpl in Hin.
  - destruct (lookup_lt_is_Some_2 _ _ Hin) as [ll Hll].
    destruct (record_recorded v rs ws s ll Hll) as (b & s' & Hr & Hrec).
    exists s'. split; [simpl; stm_unfold; by rewrite Hr|].
    split; [by eapply mv_ok_record|].
    destruct (recorded_last _ _ _ _ _ _ _ Hrec) as (w & _ & _ & ->). apply length_insert.
  - destruct (lookup_lt_is_Some_2 _ _ Hin) as [ll Hll].
    assert (∃ s', convert_writes_to_estimates i s = Some (tt, s') ∧
      s'.(last_locations) = s.(last_locations)) as (s' & Hs' & Hl).
    { unfold convert_writes_to_estimates, lock_last_locations. stm_unfold. rewrite Hll. eauto. }
    exists s'. rewrite Hl. split; [done|]. split; [by eapply mv_ok_convert|done].
  - destruct (lookup_lt_is_Some_2 _ _ Hin) as [ll Hll]. exists s. simpl.
    unfold validate_read_locations, lock_last_locations. stm_unfold. by rewrite Hll.
  - eexists. split; [done|]. split; [|done]. by destruct Hok.
  - eexists. split; [done|]. split; [|done]. by destruct Hok.
Qed.

Lemma run_ops_ok bs est lazy ops :
  (∀ l idxs i, (l, idxs) ∈ est → i ∈ idxs → i < bs) →
  Forall (op_in_block bs) ops →
  ∃ s', stm_iter run_op ops (new (Bytecode:=Bytecode) bs est lazy) = Some (tt, s') ∧
    mv_ok s' ∧ length s'.(last_locations) = bs.
Proof.
  intros Hest Hops.
  destruct (stm_iter_ind run_op (λ ops s, mv_ok s ∧ length s.(last_locations) = bs ∧
    Forall (op_in_block bs) ops) ops (new bs est lazy)) as (s' & Hs' & ? & ? & _).
  - split; [by apply mv_ok_new|]. simpl. by rewrite length_replicate.
  - intros o ops' s0 (Hok & Hlen & [Ho Hops']%Forall_cons). rewrite <-Hlen in Ho.
    destruct (run_op_ok _ _ Hok Ho) as (s1 & Hs1 & Hok1 & Hlen1).
    exists s1. split_and!; [done..|congruence|done].
  - eauto.
Qed.

(** C19. From [MvMemory::new] on, whatever calls the workers make with indexes
    of the block, no call leaves defined behaviour and the memory stays well
    formed: no entry carries an index beyond the block (the unchecked accesses
    by entry index when the block is collected rely on it), a transaction has
    values at locations of its last write set only, and an entry at every one
    of them. *)
Theorem mv_memory_ok bs est lazy ops :
  (∀ l idxs i, (l, idxs) ∈ est → i ∈ idxs → i < bs) →
  Forall (op_in_block bs) ops →
  ∃ s', stm_iter run_op ops (new (Bytecode:=Bytecode) bs est lazy) = Some (tt, s') ∧
    mv_ok s' ∧ length s'.(last_locations) = bs.
Proof. apply run_ops_ok. Qed.

(** C20. [record] replaces what the transaction had in the memory by its new
    write set, value by value (the last value when a location is written
    twice): the entries of its other old locations are removed, those of
    other transactions and locations stay, the last read and write sets become
    the new ones, and the returned flag says whether some location of the new
    write set was not in the previous one. *)
Theorem record_spec v read_set write_set s ll :
  s.(last_locations) !! v.(tx_idx) = Some ll →
  ∃ wrote_new s', record v read_set write_set s = Some (wrote_new, s') ∧
    recorded v read_set write_set ll s wrote_new s'.
Proof. apply record_recorded. Qed.

(** C21. [convert_writes_to_estimates] turns every entry of the last write set
    of the transaction into an [Estimate] and changes no other entry. *)
Theorem convert_writes_spec i s ll :
  mv_ok s → s.(last_locations) !! i = Some ll →
  ∃ s', convert_writes_to_estimates i s = Some (tt, s') ∧
    s'.(last_locations) = s.(last_locations) ∧
    ∀ l j, entry_at s'.(data) l j =
      if decide (j = i ∧ l ∈ ll.(ll_write)) then Some Estimate else entry_at s.(data) l j.
Proof.
  intros Hok Hll. unfold convert_writes_to_estimates, lock_last_locations. stm_unfold.
  rewrite Hll. eexists. split; [done|]. split; [done|]. intros l j. simpl.
  rewrite foldl_estimates. case_decide as Hd; [|done]. destruct Hd as [-> Hl].
  destruct (mv_written _ Hok _ _ _ Hll Hl) as [e He]. unfold entry_at in He.
  by destruct (_ !! l).
Qed.
End claims.

(** Two transactions, three locations; the first is recorded twice with
    different write sets, then aborted. *)
Definition demo_ops : list mv_op :=
  [ OpRecord (mkTxVersion 0 0) ∅ [(10%N, ValStorage 1); (11%N, ValStorage 2)];
    OpRecord (mkTxVersion 1 0) {[ 10%N := [FromMvMemory (mkTxVersion 0 0)] ]}
      [(12%N, ValStorage 3)];
    OpRecord (mkTxVersion 0 1) ∅ [(11%N, ValStorage 4); (12%N, ValStorage 5); (11%N, ValStorage 6)];
    OpConvert 0; OpValidate 1; OpAddLazy [7%N]; OpConsumeLazy ].

Definition demo_memory (n : nat) : MvMemory unit :=
  match stm_iter run_op (take n demo_ops) (new 2 [(99%N, [0; 1])] [5%N]) with
  | Some (_, s) => s
  | None => new 0 [] []
  end.

Lemma demo_est_in_block l idxs i :
  (l, idxs) ∈ [(99%N, [0; 1])] → i ∈ idxs → i < 2.
Proof.
  intros [= -> ->]%list_elem_of_singleton Hi. rewrite !elem_of_cons in Hi.
  destruct Hi as [->|[->|Hi%elem_of_nil]]; [lia|lia|done].
Qed.

Lemma demo_ops_in_block : Forall (op_in_block 2) demo_ops.
Proof. unfold demo_ops. repeat constructor; simpl; lia. Qed.

Lemma demo_memory_ok n : mv_ok (demo_memory n).
Proof.
  destruct (run_ops_ok (Bytecode:=unit) 2 [(99%N, [0; 1])] [5%N] (take n demo_ops))
    as (s' & Hs' & Hok & _).
  - apply demo_est_in_block.
  - apply Forall_take, demo_ops_in_block.
  - unfold demo_memory. by rewrite Hs'.
Qed.

Lemma mv_memory_ok_witness :
  ∃ s', stm_iter run_op demo_ops (new (Bytecode:=unit) 2 [(99%N, [0; 1])] [5%N])
    = Some (tt, s') ∧ mv_ok s' ∧ length s'.(last_locations) = 2.
Proof. apply mv_memory_ok; [apply demo_est_in_block|apply demo_ops_in_block]. Defined.

Lemma record_spec_witness :
  ∃ wrote_new s', record (mkTxVersion 0 1) ∅ [(11%N, ValStorage 4)] (demo_memory 2)
      = Some (wrote_new, s') ∧
    recorded (mkTxVersion 0 1) ∅ [(11%N, ValStorage 4)] (mkLastLocations ∅ [10%N; 11%N])
      (demo_memory 2) wrote_new s'.
Proof. apply record_spec. vm_compute. reflexivity. Defined.

Lemma convert_writes_spec_witness :
  ∃ s', convert_writes_to_estimates 0 (demo_memory 3) = Some (tt, s') ∧
    s'.(last_locations) = (demo_memory 3).(last_locations) ∧
    ∀ l j, entry_at s'.(data) l j =
      if decide (j = 0 ∧ l ∈ [11%N; 12%N]) then Some Estimate
      else entry_at (demo_memory 3).(data) l j.
Proof.
  apply (convert_writes_spec 0 (demo_memory 3) (mkLastLocations ∅ [11%N; 12%N])).
  - apply demo_memory_ok.
  - vm_compute. reflexivity.
Defined.
