(* ===== verification/Storage.v ===== *)
(** * Accounts, codes and the chain-state interface
    (src/crates/pevm/src/storage.rs, storage/in_memory.rs)

    The class [Revm] collects what the sources use of revm's and alloy's data
    types; nothing is assumed of it here.  [Storage] is the trait of the same
    name; [InMemoryStorage] implements it, [StorageWrapper] turns an
    implementation into the database interface the sequential executor reads
    through. *)

From S2P Require Import Prelude Uint Types.

(** ** What is used of revm and alloy *)

Inductive BytecodeKind : Type := LegacyAnalyzed | Eip7702Kind.

Class Revm : Type := {
  Bytes : Type;
  JumpTable : Type;
  Bytecode : Type;
  bytecode_default : Bytecode;
  new_analyzed : Bytes → N → JumpTable → Bytecode;
  new_eip7702 : Address → Bytecode;
  kind : Bytecode → BytecodeKind;
  bytecode : Bytecode → Bytes;
  len : Bytecode → N;
  legacy_jump_table : Bytecode → option JumpTable;
  eip7702_address : Bytecode → option Address;
  KECCAK_EMPTY : B256;
  (** [keccak256(number.to_string().as_bytes())] *)
  keccak256_of_number : N → B256;
  (** [TxEnv::total_blob_gas], a function of the blob hashes *)
  total_blob_gas : list B256 → N;
  Log : Type;
  (** the FxHash of a memory location *)
  hash_deterministic : MemoryLocation → MemoryLocationHash;
}.

(** [AccountInfo]; its [account_id] is [None] wherever the sources build one
    and is never read. *)
Record AccountInfo `{Revm} : Type := mkAccountInfo {
  info_balance : U256;
  info_nonce : N;
  info_code_hash : B256;
  info_code : option Bytecode;
}.

(** revm's [Account] as the sources observe it: the public fields they read
    and the results of the methods they call. *)
Record Account `{Revm} : Type := mkAccount {
  info : AccountInfo;
  is_empty_code_hash : bool;
  is_touched : bool;
  is_selfdestructed : bool;
  is_empty : bool;
  (** slots and present values *)
  account_storage : list (U256 * U256);
  (** the slots whose present value differs from the original one *)
  changed_storage_slots : list (U256 * U256);
}.

Abbreviation EvmState := (gmap Address Account) (only parsing).

(** ** Codes *)

Record LegacyCode `{Revm} : Type := mkLegacyCode {
  lc_bytecode : Bytes;
  lc_original_len : N;
  lc_jump_table : JumpTable;
}.

Inductive EvmCode `{Revm} : Type :=
  | Legacy (code : LegacyCode)
  | Eip7702 (address : Address).

(** [impl From<EvmCode> for Bytecode] *)
Definition bytecode_from_evm_code `{Revm} (code : EvmCode) : Bytecode :=
  match code with
  | Legacy code => new_analyzed code.(lc_bytecode) code.(lc_original_len) code.(lc_jump_table)
  | Eip7702 delegated_address => new_eip7702 delegated_address
  end.

(** [impl From<Bytecode> for EvmCode]; the two [unwrap]s panic on [None]. *)
Definition evm_code_from_bytecode `{Revm} (code : Bytecode) : option EvmCode :=
  match kind code with
  | LegacyAnalyzed =>
      jt ← legacy_jump_table code;
      Some (Legacy (mkLegacyCode _ (bytecode code) (len code) jt))
  | Eip7702Kind => Eip7702 <$> eip7702_address code
  end.

(** ** Accounts *)

Record EvmAccount `{Revm} : Type := mkEvmAccount {
  ea_balance : U256;
  ea_nonce : N;
  ea_code_hash : option B256;
  ea_code : option EvmCode;
  ea_storage : gmap U256 U256;
}.

(** [impl From<Account> for EvmAccount]; [account.info.code.unwrap()] panics
    when there is a code hash without a code. *)
Definition evm_account_from `{Revm} (account : Account) : option EvmAccount :=
  let has_code := negb account.(is_empty_code_hash) in
  code ← (if has_code : bool then
            code ← account.(info).(info_code);
            Some <$> evm_code_from_bytecode code
          else Some None);
  Some (mkEvmAccount _ account.(info).(info_balance) account.(info).(info_nonce)
    (if has_code then Some account.(info).(info_code_hash) else None)
    code
    (list_to_map (rev account.(account_storage)))).

Abbreviation ChainState := (gmap Address EvmAccount) (only parsing).
Abbreviation Bytecodes := (gmap B256 EvmCode) (only parsing).
Abbreviation BlockHashes := (gmap N B256) (only parsing).

(** ** The [Storage] trait *)

Class Storage `{Revm} (S : Type) : Type := {
  Error : Type;
  error_to_string : Error → string;
  basic : S → Address → result Error (option AccountBasic);
  code_hash : S → Address → result Error (option B256);
  code_by_hash : S → B256 → result Error (option EvmCode);
  has_storage : S → Address → result Error bool;
  storage : S → Address → U256 → result Error U256;
  block_hash : S → N → result Error B256;
}.

(** ** [InMemoryStorage] *)

Record InMemoryStorage `{Revm} : Type := mkInMemoryStorage {
  accounts : ChainState;
  bytecodes : Bytecodes;
  block_hashes : BlockHashes;
}.

#[export] Instance InMemoryStorage_Storage `{Revm} : Storage InMemoryStorage := {|
  Error := Empty_set;
  error_to_string e := match e with end;
  basic s address := Ok ((λ account, mkAccountBasic account.(ea_balance) account.(ea_nonce))
                           <$> s.(accounts) !! address);
  code_hash s address := Ok (s.(accounts) !! address ≫= ea_code_hash);
  code_by_hash s h := Ok (s.(bytecodes) !! h);
  has_storage s address := Ok
    match s.(accounts) !! address with
    | Some account => negb (bool_decide (account.(ea_storage) = ∅))
    | None => false
    end;
  storage s address index := Ok
    (default 0%N (s.(accounts) !! address ≫= λ account, account.(ea_storage) !! index));
  block_hash s number := Ok
    (default (keccak256_of_number number) (s.(block_hashes) !! number));
|}.

(** ** [StorageWrapper] *)

Section wrapper.
Context `{Revm} {S : Type} `{!Storage S}.
Implicit Types (s : S).

Definition basic_ref s (address : Address) : result Error (option AccountInfo) :=
  let? b := basic s address in
  match b with
  | None => Ok None
  | Some b =>
      let? ch := code_hash s address in
      let? code := match ch with
                   | Some h => let? c := code_by_hash s h in Ok (bytecode_from_evm_code <$> c)
                   | None => Ok None
                   end in
      Ok (Some (mkAccountInfo _ b.(ab_balance) b.(ab_nonce) (default KECCAK_EMPTY ch) code))
  end.

Definition code_by_hash_ref s (h : B256) : result Error Bytecode :=
  let? c := code_by_hash s h in
  Ok (default bytecode_default (bytecode_from_evm_code <$> c)).

Definition storage_ref s (address : Address) (index : U256) : result Error U256 :=
  storage s address index.

Definition block_hash_ref s (number : N) : result Error B256 := block_hash s number.
End wrapper.

(** ** Codes round trip *)

(** What revm documents of [Bytecode]: the constructors' fields are read back
    by the accessors, and the fields determine the code. *)
Class BytecodeLaws `{Revm} : Prop := {
  kind_analyzed b n jt : kind (new_analyzed b n jt) = LegacyAnalyzed;
  kind_eip7702 a : kind (new_eip7702 a) = Eip7702Kind;
  bytecode_analyzed b n jt : bytecode (new_analyzed b n jt) = b;
  len_analyzed b n jt : len (new_analyzed b n jt) = n;
  jump_table_analyzed b n jt : legacy_jump_table (new_analyzed b n jt) = Some jt;
  address_eip7702 a : eip7702_address (new_eip7702 a) = Some a;
  analyzed_eta c : kind c = LegacyAnalyzed →
    ∃ jt, legacy_jump_table c = Some jt ∧ new_analyzed (bytecode c) (len c) jt = c;
  eip7702_eta c : kind c = Eip7702Kind →
    ∃ a, eip7702_address c = Some a ∧ new_eip7702 a = c;
}.


(** ** A concrete [Revm] *)

Inductive demo_bytecode : Type :=
  | DemoLegacy (bytes : list N) (n : N) (jump_table : list bool)
  | DemoEip7702 (a : Address).

Definition demo_hash (l : MemoryLocation) : MemoryLocationHash :=
  match l with
  | LocBasic a => 3 * a
  | LocCodeHash a => 3 * a + 1
  | LocStorage a i => 3 * N.pos (encode (a, i)) + 2
  end.

Definition demo_revm : Revm := {|
  Bytes := list N;
  JumpTable := list bool;
  Bytecode := demo_bytecode;
  bytecode_default := DemoLegacy [0%N] 0 [false];
  new_analyzed := DemoLegacy;
  new_eip7702 := DemoEip7702;
  kind c := match c with DemoLegacy _ _ _ => LegacyAnalyzed | DemoEip7702 _ => Eip7702Kind end;
  bytecode c := match c with DemoLegacy b _ _ => b | DemoEip7702 a => [a] end;
  len c := match c with DemoLegacy _ n _ => n | DemoEip7702 _ => 23%N end;
  legacy_jump_table c := match c with DemoLegacy _ _ jt => Some jt | _ => None end;
  eip7702_address c := match c with DemoEip7702 a => Some a | _ => None end;
  KECCAK_EMPTY := 0%N;
  keccak256_of_number n := (n + 1000)%N;
  total_blob_gas hs := (131072 * N.of_nat (length hs))%N;
  Log := N;
  hash_deterministic := demo_hash;
|}.

Lemma demo_revm_laws : @BytecodeLaws demo_revm.
Proof. split; try done; intros [] ?; simplify_eq/=; by eexists. Qed.

Lemma demo_hash_inj : Inj (=) (=) demo_hash.
Proof.
  intros [a|a|a i] [b|b|b j]; simpl; intros Hab; try (f_equal; lia); try lia.
  assert (encode (a, i) = encode (b, j)) as Henc by lia. apply (inj encode) in Henc. congruence.
Qed.

