(* ===== verification/Rpc.v ===== *)
(** * The RPC storage (src/crates/pevm/src/storage/rpc.rs)

    [RpcStorage] answers the storage interface by asking a remote node and
    keeps what it learned in three caches.  The node is third party: a
    provider whose answers may differ from request to request and from
    attempt to attempt.  The runtime that blocks on futures is left out;
    the three requests that [tokio::join!] runs are made one after the other,
    all of them even when one fails. *)

From S2P Require Import Prelude Uint Types Storage.

(** The requests the sources make at the fixed block; the two numbers are the
    number of the request and of the attempt. *)
Class Provider `{Revm} : Type := {
  TransportError : Type;
  get_transaction_count : Address → nat → nat → result TransportError N;
  get_balance : Address → nat → nat → result TransportError U256;
  get_code_at : Address → nat → nat → result TransportError Bytes;
  (** [get_proof(..).storage_hash != EMPTY_ROOT_HASH] *)
  get_proof_nonempty : Address → nat → nat → result TransportError bool;
  get_storage_at : Address → U256 → nat → nat → result TransportError U256;
  (** the hash of the header *)
  get_block_by_number : N → nat → nat → result TransportError (option B256);
  (** [Precompiles::addresses().any(..)] *)
  is_precompile : Address → bool;
  bytes_is_empty : Bytes → bool;
  new_raw : Bytes → Bytecode;
  bytecode_is_empty : Bytecode → bool;
  hash_slow : Bytecode → B256;
}.

Section rpc.
Context `{Provider}.

Record RpcStorage : Type := mkRpcStorage {
  cache_accounts : ChainState;
  cache_bytecodes : Bytecodes;
  cache_block_hashes : BlockHashes;
  (** the number of requests made so far *)
  requests : nat;
}.

Definition new : RpcStorage := mkRpcStorage ∅ ∅ ∅ 0.

Definition set_cache_accounts x s :=
  mkRpcStorage x s.(cache_bytecodes) s.(cache_block_hashes) s.(requests).
Definition set_cache_bytecodes x s :=
  mkRpcStorage s.(cache_accounts) x s.(cache_block_hashes) s.(requests).
Definition set_cache_block_hashes x s :=
  mkRpcStorage s.(cache_accounts) s.(cache_bytecodes) x s.(requests).
Definition set_requests x s :=
  mkRpcStorage s.(cache_accounts) s.(cache_bytecodes) s.(cache_block_hashes) x.

Definition rpcm (A : Type) : Type := stm RpcStorage (result TransportError A).

(** ** Requests with retries *)

Definition RETRY_LIMIT : nat := 8.
Definition INITIAL_DELAY_MILLIS : N := 125.

(** The answer and the milliseconds slept. *)
Fixpoint fetch_loop {T} (request : nat → result TransportError T) (lives : nat) (delay : N)
    (attempt : nat) : result TransportError T * N :=
  match request attempt, lives with
  | Err _, S lives' =>
      let '(r, slept) := fetch_loop request lives' (2 * delay) (S attempt) in (r, (delay + slept)%N)
  | r, _ => (r, 0%N)
  end.

Definition fetch {T} (request : nat → nat → result TransportError T) : rpcm T := λ s,
  Some (fst (fetch_loop (request s.(requests)) RETRY_LIMIT INITIAL_DELAY_MILLIS 0),
        set_requests (S s.(requests)) s).

(** ** The storage interface *)

(** [tokio::join!] and the three question marks after it. *)
Definition fetch_account (address : Address) : stm RpcStorage (result TransportError (N * U256 * Bytes)) :=
  nonce ← (fetch (get_transaction_count address) : stm RpcStorage _);
  balance ← (fetch (get_balance address) : stm RpcStorage _);
  code ← (fetch (get_code_at address) : stm RpcStorage _);
  mret (let? nonce := nonce in let? balance := balance in let? code := code in
        Ok (nonce, balance, code)).

Definition insert_account (address : Address) (balance : U256) (nonce : N) (code_hash : option B256)
    : rpcm (option AccountBasic) := λ s,
  Some (Ok (Some (mkAccountBasic balance nonce)),
    set_cache_accounts (<[address := mkEvmAccount _ balance nonce code_hash None ∅]>
      s.(cache_accounts)) s).

Definition rpc_basic (address : Address) : rpcm (option AccountBasic) := λ s,
  match s.(cache_accounts) !! address with
  | Some account => Some (Ok (Some (mkAccountBasic account.(ea_balance) account.(ea_nonce))), s)
  | None =>
      try_bind (fetch_account address) (λ '(nonce, balance, code) s,
        if negb (is_precompile address) && (balance =? 0)%N && (nonce =? 0)%N && bytes_is_empty code
        then Some (Ok None, s)
        else
          let code := new_raw code in
          if bytecode_is_empty code then insert_account address balance nonce None s
          else
            (* [code.into()] may panic *)
            match evm_code_from_bytecode code with
            | None => None
            | Some c => insert_account address balance nonce (Some (hash_slow code))
                (set_cache_bytecodes (<[hash_slow code := c]> s.(cache_bytecodes)) s)
            end) s
  end.

Definition rpc_code_hash (address : Address) : rpcm (option B256) :=
  try_bind (rpc_basic address) (λ _ s,
    Some (Ok (s.(cache_accounts) !! address ≫= ea_code_hash), s)).

Definition rpc_code_by_hash (h : B256) : rpcm (option EvmCode) := λ s,
  Some (Ok (s.(cache_bytecodes) !! h), s).

Definition rpc_has_storage (address : Address) : rpcm bool := fetch (get_proof_nonempty address).

Definition cache_slot (address : Address) (index value : U256) (s : RpcStorage) : RpcStorage :=
  match s.(cache_accounts) !! address with
  | Some a => set_cache_accounts (<[address := mkEvmAccount _ a.(ea_balance) a.(ea_nonce)
      a.(ea_code_hash) a.(ea_code) (<[index := value]> a.(ea_storage))]> s.(cache_accounts)) s
  | None => s
  end.

Definition rpc_storage (address : Address) (index : U256) : rpcm U256 := λ s,
  match s.(cache_accounts) !! address ≫= λ account, account.(ea_storage) !! index with
  | Some value => Some (Ok value, s)
  | None =>
      try_bind (fetch (get_storage_at address index)) (λ value,
      try_bind (rpc_basic address) (λ _ s, Some (Ok value, cache_slot address index value s))) s
  end.

Definition rpc_block_hash (number : N) : rpcm B256 := λ s,
  match s.(cache_block_hashes) !! number with
  | Some h => Some (Ok h, s)
  | None =>
      try_bind (fetch (get_block_by_number number)) (λ block s,
        match block with
        | None => None
        | Some h =>
            Some (Ok h, set_cache_block_hashes (<[number := h]> s.(cache_block_hashes)) s)
        end) s
  end.

Definition into_snapshot (s : RpcStorage) : ChainState * Bytecodes * BlockHashes :=
  (s.(cache_accounts), s.(cache_bytecodes), s.(cache_block_hashes)).

(** ** Retries *)

Lemma fetch_loop_ok {T} (request : nat → result TransportError T) lives delay attempt :
  match fst (fetch_loop request lives delay attempt) with
  | Ok x => ∃ k, attempt ≤ k ≤ attempt + lives ∧ request k = Ok x ∧
      ∀ j, attempt ≤ j < k → ∃ e, request j = Err e
  | Err e => request (attempt + lives) = Err e ∧
      ∀ j, attempt ≤ j ≤ attempt + lives → ∃ e, request j = Err e
  end.
Proof.
  revert delay attempt. induction lives as [|lives IH]; intros delay attempt; simpl.
  - destruct (request attempt) as [x|e] eqn:Hr; simpl.
    + exists attempt. split; [lia|]. split; [done|]. intros j ?. lia.
    + rewrite Nat.add_0_r. split; [done|]. intros j ?. exists e. by replace j with attempt by lia.
  - destruct (request attempt) as [x|e] eqn:Hr; simpl.
    { exists attempt. split; [lia|]. split; [done|]. intros j ?. lia. }
    specialize (IH (2 * delay)%N (S attempt)). destruct (fetch_loop _ _ _ _) as [[x|e'] slept]; simpl in *.
    + destruct IH as (k & Hk & Hok & Herr). exists k. split; [lia|]. split; [done|]. intros j Hj.
      destruct (decide (j = attempt)) as [->|]; [eauto|]. apply Herr. lia.
    + destruct IH as [Hlast Herr]. rewrite Nat.add_succ_r. split; [done|]. intros j Hj.
      destruct (decide (j = attempt)) as [->|]; [eauto|]. apply Herr. lia.
Qed.

Lemma fetch_loop_slept {T} (request : nat → result TransportError T) lives delay attempt :
  (snd (fetch_loop request lives delay attempt) ≤ delay * (2 ^ N.of_nat lives - 1))%N.
Proof.
  revert delay attempt. induction lives as [|lives IH]; intros delay attempt; simpl fetch_loop.
  { destruct (request attempt); simpl; lia. }
  destruct (request attempt); [apply N.le_0_l|].
  specialize (IH (2 * delay)%N (S attempt)). destruct (fetch_loop _ _ _ _) as [r slept].
  cbn [snd] in *. rewrite Nat2N.inj_succ, N.pow_succ_r'.
  assert (0 < 2 ^ N.of_nat lives)%N by (apply N.neq_0_lt_0, N.pow_nonzero; done). nia.
Qed.

(** C35. A request is tried at most nine times and its answer is the first
    success, or the last error when every attempt failed; the waits double
    from 125 milliseconds and add up to less than 32 seconds. *)
Theorem fetch_spec {T} (request : nat → nat → result TransportError T) s :
  ∃ r, fetch request s = Some (r, set_requests (S s.(requests)) s) ∧
    match r with
    | Ok x => ∃ k, k ≤ 8 ∧ request s.(requests) k = Ok x ∧
        ∀ j, j < k → ∃ e, request s.(requests) j = Err e
    | Err e => request s.(requests) 8 = Err e ∧ ∀ j, j ≤ 8 → ∃ e, request s.(requests) j = Err e
    end ∧
    (snd (fetch_loop (request s.(requests)) RETRY_LIMIT INITIAL_DELAY_MILLIS 0) ≤ 31875)%N.
Proof.
  eexists. split; [reflexivity|]. split; [|apply fetch_loop_slept].
  pose proof (fetch_loop_ok (request s.(requests)) RETRY_LIMIT INITIAL_DELAY_MILLIS 0) as Hf.
  destruct (fst _) as [x|e]; [destruct Hf as (k & Hk & ? & Hj); exists k|destruct Hf as [? Hj]];
    unfold RETRY_LIMIT in *; (split_and!; [try lia; done..|]); intros j ?; apply Hj; lia.
Qed.

(** ** The chain behind the provider *)

(** The state of the chain at the block. *)
Record Remote : Type := mkRemote {
  r_nonce : Address → N;
  r_balance : Address → U256;
  r_code : Address → Bytes;
  r_slot : Address → U256 → U256;
  r_hash : N → B256;
}.

Variable R : Remote.

(** A request may fail but does not lie... *)
Definition honest {T} (request : nat → nat → result TransportError T) (x : T) : Prop :=
  ∀ n k y, request n k = Ok y → y = x.

(** ... and succeeds within the retries. *)
Definition reliable {T} (request : nat → nat → result TransportError T) : Prop :=
  ∀ n, ∃ k y, k ≤ 8 ∧ request n k = Ok y.

Class Honest : Prop := {
  honest_nonce a : honest (get_transaction_count a) (R.(r_nonce) a);
  honest_balance a : honest (get_balance a) (R.(r_balance) a);
  honest_code a : honest (get_code_at a) (R.(r_code) a);
  honest_slot a i : honest (get_storage_at a i) (R.(r_slot) a i);
  honest_hash n : honest (get_block_by_number n) (Some (R.(r_hash) n));
}.

Class Reliable : Prop := {
  reliable_nonce a : reliable (get_transaction_count a);
  reliable_balance a : reliable (get_balance a);
  reliable_code a : reliable (get_code_at a);
  reliable_slot a i : reliable (get_storage_at a i);
  reliable_hash n : reliable (get_block_by_number n);
}.

(** Its answers to the storage interface. *)
Definition remote_basic (a : Address) : option AccountBasic :=
  if negb (is_precompile a) && (R.(r_balance) a =? 0)%N && (R.(r_nonce) a =? 0)%N
     && bytes_is_empty (R.(r_code) a)
  then None else Some (mkAccountBasic (R.(r_balance) a) (R.(r_nonce) a)).

Definition remote_code_hash (a : Address) : option B256 :=
  match remote_basic a with
  | None => None
  | Some _ => let code := new_raw (R.(r_code) a) in
      if bytecode_is_empty code then None else Some (hash_slow code)
  end.

(** ** The caches *)

Record account_cached (s : RpcStorage) (a : Address) (account : EvmAccount) : Prop := {
  ac_basic : remote_basic a = Some (mkAccountBasic account.(ea_balance) account.(ea_nonce));
  ac_code_hash : account.(ea_code_hash) = remote_code_hash a;
  ac_code h : account.(ea_code_hash) = Some h → is_Some (s.(cache_bytecodes) !! h);
  ac_slots i x : account.(ea_storage) !! i = Some x → x = R.(r_slot) a i;
}.

Record cache_ok (s : RpcStorage) : Prop := {
  co_accounts a account : s.(cache_accounts) !! a = Some account → account_cached s a account;
  co_bytecodes h c : s.(cache_bytecodes) !! h = Some c →
    ∃ a, hash_slow (new_raw (R.(r_code) a)) = h ∧
      evm_code_from_bytecode (new_raw (R.(r_code) a)) = Some c;
  co_hashes n h : s.(cache_block_hashes) !! n = Some h → h = R.(r_hash) n;
}.

Lemma cache_ok_new : cache_ok new.
Proof. by split. Qed.

(** What is cached stays. *)
Record grows (s s' : RpcStorage) : Prop := {
  gr_accounts a account : s.(cache_accounts) !! a = Some account →
    ∃ account', s'.(cache_accounts) !! a = Some account' ∧
      account.(ea_storage) ⊆ account'.(ea_storage);
  gr_bytecodes : dom s.(cache_bytecodes) ⊆ dom s'.(cache_bytecodes);
  gr_hashes : s.(cache_block_hashes) ⊆ s'.(cache_block_hashes);
}.

#[export] Instance grows_preorder : PreOrder grows.
Proof.
  split.
  - intros s. split; [|done..]. eauto.
  - intros s1 s2 s3 [A1 B1 C1] [A2 B2 C2]. split; [|by etrans..]. intros a account Ha.
    destruct (A1 _ _ Ha) as (account2 & Ha2 & ?). destruct (A2 _ _ Ha2) as (account3 & Ha3 & ?).
    exists account3. split; [done|]. by etrans.
Qed.

(** A query gives the remote answer or an error of the provider, the former
    when the provider is reliable, and keeps the caches right; [Q] holds of
    the state after a success. *)
Definition answers {A} (m : rpcm A) (x : A) (Q : RpcStorage → Prop) (ok : Prop) : Prop :=
  ∀ s, cache_ok s → ∃ r s', m s = Some (r, s') ∧ cache_ok s' ∧ grows s s' ∧
    (ok → r = Ok x) ∧ (∀ y, r = Ok y → y = x ∧ Q s').

Lemma answers_bind {A B} (m : rpcm A) (k : A → rpcm B) x y (P Q : RpcStorage → Prop) ok1 ok2 :
  answers m x P ok1 → (∀ s, P s → cache_ok s → ∃ r s', k x s = Some (r, s') ∧ cache_ok s' ∧ grows s s' ∧
    (ok2 → r = Ok y) ∧ (∀ z, r = Ok z → z = y ∧ Q s')) →
  answers (try_bind m k) y Q (ok1 ∧ ok2).
Proof.
  intros Hm Hk s Hs. destruct (Hm s Hs) as (r & s1 & Hr & Hs1 & Hg1 & Hok & Hsound).
  unfold try_bind. rewrite Hr. destruct r as [x'|e].
  - destruct (Hsound _ eq_refl) as [-> HP].
    destruct (Hk s1 HP Hs1) as (r & s2 & Hr2 & Hs2 & Hg2 & Hok2 & Hsound2).
    exists r, s2. split_and!; [done..|by etrans|by intros [_ ?]; auto|done].
  - exists (Err e), s1. split_and!; [done..| |done]. by intros [?%Hok _].
Qed.

Lemma cache_ok_requests s n : cache_ok s → cache_ok (set_requests n s).
Proof. intros [A B C]. split; [|done..]. intros a account Ha. by destruct (A _ _ Ha). Qed.

Lemma fetch_answers {T} (request : nat → nat → result TransportError T) x :
  honest request x → answers (fetch request) x (λ _, True) (reliable request).
Proof.
  intros Hh s Hs. unfold fetch. do 2 eexists. split; [reflexivity|].
  split; [by apply cache_ok_requests|]. split; [split; [eauto|done..]|].
  pose proof (fetch_loop_ok (request s.(requests)) RETRY_LIMIT INITIAL_DELAY_MILLIS 0) as Hf.
  destruct (fst _) as [y|e]; simpl in *.
  - destruct Hf as (k & _ & Hy & _). apply Hh in Hy as ->. split; [done|]. by intros ? [= ->].
  - split; [|done]. intros Hrel. destruct (Hrel s.(requests)) as (k & y & Hk & Hy).
    destruct Hf as [_ Hf]. destruct (Hf k) as [e' He']; [split; [lia|exact Hk]|]. congruence.
Qed.

Context `{!Honest, !BytecodeLaws}.

Definition account_reliable (a : Address) : Prop :=
  reliable (get_transaction_count a) ∧ reliable (get_balance a) ∧ reliable (get_code_at a).

Lemma fetch_account_answers a :
  answers (fetch_account a) (R.(r_nonce) a, R.(r_balance) a, R.(r_code) a) (λ _, True)
    (account_reliable a).
Proof.
  intros s Hs. unfold fetch_account, mbind, stm_bind, mret, stm_ret.
  destruct (fetch_answers _ _ (honest_nonce a) s Hs) as (r1 & s1 & -> & Hs1 & Hg1 & Ho1 & Hy1).
  destruct (fetch_answers _ _ (honest_balance a) s1 Hs1) as (r2 & s2 & -> & Hs2 & Hg2 & Ho2 & Hy2).
  destruct (fetch_answers _ _ (honest_code a) s2 Hs2) as (r3 & s3 & -> & Hs3 & Hg3 & Ho3 & Hy3).
  do 2 eexists. split_and!; [done..|by repeat (etrans; [eassumption|])| |].
  - intros (R1 & R2 & R3). by rewrite (Ho1 R1), (Ho2 R2), (Ho3 R3).
  - destruct r1 as [x1|]; [|done]. destruct r2 as [x2|]; [|done]. destruct r3 as [x3|]; [|done].
    simpl. intros y [= <-]. destruct (Hy1 _ eq_refl) as [-> _], (Hy2 _ eq_refl) as [-> _],
      (Hy3 _ eq_refl) as [-> _]. done.
Qed.

(** After a successful query, an account of the chain is cached. *)
Definition knows (a : Address) (s : RpcStorage) : Prop :=
  is_Some (s.(cache_accounts) !! a) ∨ remote_basic a = None.

Lemma evm_code_total b : ∃ c, evm_code_from_bytecode b = Some c.
Proof.
  unfold evm_code_from_bytecode. destruct (kind b) eqn:Hk.
  - destruct (analyzed_eta b Hk) as (jt & -> & _). by eexists.
  - destruct (eip7702_eta b Hk) as (a & -> & _). by eexists.
Qed.

Lemma account_cached_grow s s' a account :
  dom s.(cache_bytecodes) ⊆ dom s'.(cache_bytecodes) → account_cached s a account →
  account_cached s' a account.
Proof.
  intros Hd [A B C D]. split; [done..| |done]. intros h Hh%C. apply elem_of_dom, Hd, elem_of_dom in Hh.
  done.
Qed.

Lemma insert_account_answers a ch s :
  remote_basic a = Some (mkAccountBasic (R.(r_balance) a) (R.(r_nonce) a)) →
  ch = remote_code_hash a → (∀ h, ch = Some h → is_Some (s.(cache_bytecodes) !! h)) →
  s.(cache_accounts) !! a = None → cache_ok s →
  ∃ r s', insert_account a (R.(r_balance) a) (R.(r_nonce) a) ch s = Some (r, s') ∧ cache_ok s' ∧
    grows s s' ∧ r = Ok (remote_basic a) ∧ knows a s'.
Proof.
  intros Hb Hch Hcode Hnew [A B C]. do 2 eexists. split; [reflexivity|]. split_and!.
  - split; [|done..]. intros a' account. simpl. rewrite lookup_insert_Some.
    intros [[<- <-]|[_ Ha]]; [by split|]. by eapply account_cached_grow, A.
  - split; simpl; [|done..]. intros a' account Ha. exists account. split; [|done].
    by rewrite lookup_insert_ne by congruence.
  - by rewrite Hb.
  - left. simpl. rewrite lookup_insert_eq. eauto.
Qed.

Lemma cache_code_ok a c s :
  evm_code_from_bytecode (new_raw (R.(r_code) a)) = Some c → cache_ok s →
  let s' := set_cache_bytecodes (<[hash_slow (new_raw (R.(r_code) a)) := c]> s.(cache_bytecodes)) s in
  cache_ok s' ∧ grows s s'.
Proof.
  intros Hc [A B C] s'. assert (dom (cache_bytecodes s) ⊆ dom (cache_bytecodes s')) as Hd.
  { simpl. rewrite dom_insert. set_solver. }
  split; split; [|..|done| |done|done].
  - intros a' account Ha. by eapply account_cached_grow, A.
  - intros h c'. simpl. rewrite lookup_insert_Some. intros [[<- <-]|[_ ?]]; eauto.
  - eauto.
Qed.

Lemma fetch_account_frame a s r s' :
  fetch_account a s = Some (r, s') → s'.(cache_accounts) = s.(cache_accounts).
Proof. unfold fetch_account, mbind, stm_bind, mret, stm_ret, fetch. by intros [= _ <-]. Qed.

(** The part of [basic] after the requests. *)
Lemma fetched_answers a s :
  cache_ok s → s.(cache_accounts) !! a = None →
  let balance := R.(r_balance) a in let nonce := R.(r_nonce) a in
  ∃ s', (if negb (is_precompile a) && (balance =? 0)%N && (nonce =? 0)%N
            && bytes_is_empty (R.(r_code) a)
         then Some (Ok None, s)
         else
           let code := new_raw (R.(r_code) a) in
           if bytecode_is_empty code then insert_account a balance nonce None s
           else
             match evm_code_from_bytecode code with
             | None => None
             | Some c => insert_account a balance nonce (Some (hash_slow code))
                 (set_cache_bytecodes (<[hash_slow code := c]> s.(cache_bytecodes)) s)
             end) = Some (Ok (remote_basic a), s') ∧ cache_ok s' ∧ grows s s' ∧ knows a s'.
Proof.
  intros Hs Ha balance nonce. subst balance nonce.
  destruct (negb (is_precompile a) && _ && _ && _) eqn:He.
  { assert (remote_basic a = None) as Hn by (unfold remote_basic; by rewrite He).
    exists s. rewrite Hn. split_and!; [done..|by right]. }
  assert (remote_basic a = Some (mkAccountBasic (R.(r_balance) a) (R.(r_nonce) a))) as Hb
    by (unfold remote_basic; by rewrite He).
  assert (remote_code_hash a = if bytecode_is_empty (new_raw (R.(r_code) a)) then None
    else Some (hash_slow (new_raw (R.(r_code) a)))) as Hch by (unfold remote_code_hash; by rewrite Hb).
  simpl. destruct (bytecode_is_empty _) eqn:Hempty.
  - destruct (insert_account_answers a None s) as (r & s' & -> & ? & ? & -> & ?); try done.
    by exists s'.
  - destruct (evm_code_total (new_raw (R.(r_code) a))) as [c Hc]. rewrite Hc.
    destruct (cache_code_ok a c s Hc Hs) as [Hs1 Hg1]. set (s1 := set_cache_bytecodes _ _) in *.
    destruct (insert_account_answers a (Some (hash_slow (new_raw (R.(r_code) a)))) s1)
      as (r & s' & -> & ? & ? & -> & ?); try done.
    { intros h [= <-]. subst s1. simpl. rewrite lookup_insert_eq. eauto. }
    exists s'. split_and!; [done..|by etrans|done].
Qed.

Lemma rpc_basic_answers a :
  answers (rpc_basic a) (remote_basic a) (knows a) (account_reliable a).
Proof.
  intros s Hs. unfold rpc_basic. destruct (cache_accounts s !! a) as [account|] eqn:Ha.
  { do 2 eexists. split; [reflexivity|]. destruct (co_accounts _ Hs _ _ Ha) as [-> _ _ _].
    split_and!; [done..|]. intros y [= <-]. split; [done|]. left. eauto. }
  destruct (fetch_account_answers a s Hs) as (r & s1 & Hr & Hs1 & Hg1 & Hok & Hsound).
  unfold try_bind. rewrite Hr. apply fetch_account_frame in Hr. rewrite <-Hr in Ha.
  destruct r as [[[n b] code]|e].
  2: { exists (Err e), s1. split_and!; [done..| |done]. by intros ?%Hok. }
  destruct (Hsound _ eq_refl) as [[= -> -> ->] _].
  destruct (fetched_answers a s1 Hs1 Ha) as (s2 & Hf & Hs2 & Hg2 & Hk).
  exists (Ok (remote_basic a)), s2. split; [exact Hf|]. split_and!; [done|by etrans|done|].
  by intros y [= <-].
Qed.

(** ** The other queries *)

Lemma rpc_code_hash_answers a :
  answers (rpc_code_hash a) (remote_code_hash a)
    (λ s, knows a s ∧ ∀ h, remote_code_hash a = Some h → is_Some (s.(cache_bytecodes) !! h))
    (account_reliable a).
Proof.
  intros s Hs.
  destruct (answers_bind (rpc_basic a) (λ _ s, Some (Ok (s.(cache_accounts) !! a ≫= ea_code_hash), s))
    _ (remote_code_hash a) _
    (λ s, knows a s ∧ ∀ h, remote_code_hash a = Some h → is_Some (s.(cache_bytecodes) !! h))
    _ True (rpc_basic_answers a)) with (s:=s) as (r & s' & ? & ? & ? & Hok & ?); [|done|].
  2: { exists r, s'. split_and!; try done. intros ?. by apply Hok. }
  clear s Hs. intros s Hk Hs. do 2 eexists. split; [reflexivity|]. split_and!; [done..| |].
  all: assert (s.(cache_accounts) !! a ≫= ea_code_hash = remote_code_hash a ∧
    ∀ h, remote_code_hash a = Some h → is_Some (s.(cache_bytecodes) !! h)) as [Hch Hc].
  1, 3: destruct (cache_accounts s !! a) as [account|] eqn:Ha; simpl;
    [destruct (co_accounts _ Hs _ _ Ha) as [_ Hch Hc _]; rewrite <-Hch; by split
    |destruct Hk as [[? ?]|Hn]; [congruence|unfold remote_code_hash; by rewrite Hn]].
  - by rewrite Hch.
  - rewrite Hch. by intros y [= <-].
Qed.

Lemma cache_slot_ok a i s :
  cache_ok s → let s' := cache_slot a i (R.(r_slot) a i) s in cache_ok s' ∧ grows s s'.
Proof.
  intros Hs. pose proof Hs as [A B C]. unfold cache_slot. simpl.
  destruct (cache_accounts s !! a) as [account|] eqn:Ha; [|done]. split; split; [|done..| |done|done].
  - intros a' account'. simpl. rewrite lookup_insert_Some. intros [[<- <-]|[_ Ha']]; [|by apply A in Ha' as []].
    destruct (A _ _ Ha) as [? ? ? Hsl]. split; simpl; try done. intros j x.
    rewrite lookup_insert_Some. intros [[<- <-]|[_ ?]]; [done|by apply Hsl].
  - intros a' account' Ha'. simpl. destruct (decide (a' = a)) as [->|Hne].
    + rewrite lookup_insert_eq. eexists. split; [done|]. simpl.
      assert (account' = account) as -> by congruence.
      destruct (ea_storage account !! i) as [x|] eqn:Hx; [|by apply insert_subseteq].
      destruct (A _ _ Ha) as [_ _ _ Hsl]. apply Hsl in Hx as Heq. subst x. by rewrite insert_id.
    + rewrite lookup_insert_ne by done. eauto.
Qed.

Lemma rpc_storage_answers a i :
  answers (rpc_storage a i) (R.(r_slot) a i)
    (λ s, ∀ account, s.(cache_accounts) !! a = Some account →
      account.(ea_storage) !! i = Some (R.(r_slot) a i))
    (reliable (get_storage_at a i) ∧ account_reliable a).
Proof.
  intros s Hs. unfold rpc_storage. destruct (_ ≫= _) as [x|] eqn:Hx.
  { apply bind_Some in Hx as (account & Ha & Hi). destruct (co_accounts _ Hs _ _ Ha) as [_ _ _ Hsl].
    apply Hsl in Hi as Heq. subst x. do 2 eexists. split; [reflexivity|]. split_and!; [done..|].
    intros y [= <-]. split; [done|]. intros account' Ha'. by simplify_eq. }
  clear Hx. revert s Hs.
  refine (answers_bind _ _ _ _ (λ _, True) _ _ _ (fetch_answers _ _ (honest_slot a i)) _).
  intros s _ Hs. destruct (rpc_basic_answers a s Hs) as (r & s1 & Hr & Hs1 & Hg1 & Hok & _).
  unfold try_bind. rewrite Hr. destruct r as [ob|e].
  - destruct (cache_slot_ok a i s1 Hs1) as [Hs2 Hg2]. do 2 eexists. split; [reflexivity|].
    split_and!; [done|by etrans|done|]. intros y [= <-]. split; [done|]. intros account.
    unfold cache_slot. destruct (cache_accounts s1 !! a) as [account1|] eqn:Ha; simpl; [|congruence].
    rewrite lookup_insert_eq. intros [= <-]. simpl. apply lookup_insert_eq.
  - exists (Err e), s1. split_and!; [done..| |done]. by intros ?%Hok.
Qed.

Lemma rpc_storage_knows a i s r s' :
  cache_ok s → rpc_storage a i s = Some (Ok r, s') →
  r = R.(r_slot) a i ∧ knows a s' ∧
  ∀ account, s'.(cache_accounts) !! a = Some account → account.(ea_storage) !! i = Some r.
Proof.
  intros Hs Hr. destruct (rpc_storage_answers a i s Hs) as (? & ? & Heq & _ & _ & _ & Hq).
  rewrite Hr in Heq. injection Heq as <- <-. destruct (Hq _ eq_refl) as [-> Hsl].
  split_and!; [done| |done]. clear Hq Hsl. revert Hr. unfold rpc_storage.
  destruct (_ ≫= _) as [x|] eqn:Hx.
  { intros [= _ <-]. apply bind_Some in Hx as (account & Ha & _). left. eauto. }
  unfold try_bind. destruct (fetch_answers _ _ (honest_slot a i) s Hs) as (r1 & s1 & -> & Hs1 & _).
  destruct r1; [|done]. destruct (rpc_basic_answers a s1 Hs1) as (r2 & s2 & -> & _ & _ & _ & Hq).
  destruct r2; [|done]. destruct (Hq _ eq_refl) as [_ Hk]. intros [= _ <-].
  destruct Hk as [[account Ha]|?]; [left|by right]. unfold cache_slot. rewrite Ha. simpl.
  rewrite lookup_insert_eq. eauto.
Qed.

Lemma rpc_block_hash_answers n :
  answers (rpc_block_hash n) (R.(r_hash) n) (λ s, s.(cache_block_hashes) !! n = Some (R.(r_hash) n))
    (reliable (get_block_by_number n)).
Proof.
  intros s Hs. unfold rpc_block_hash. destruct (cache_block_hashes s !! n) as [h|] eqn:Hn.
  { apply (co_hashes _ Hs) in Hn as Heq. subst h. do 2 eexists. split; [reflexivity|].
    split_and!; [done..|]. by intros y [= <-]. }
  destruct (fetch_answers _ _ (honest_hash n) s Hs) as (r & s1 & Hr & Hs1 & Hg1 & Hok & Hsound).
  unfold try_bind. rewrite Hr. destruct r as [ob|e].
  2: { exists (Err e), s1. split_and!; [done..| |done]. by intros ?%Hok. }
  destruct (Hsound _ eq_refl) as [-> _]. destruct Hs1 as [A B C]. do 2 eexists. split; [reflexivity|].
  split_and!.
  - split; [|done|].
    + intros a account Ha. by destruct (A _ _ Ha).
    + intros m h. simpl. rewrite lookup_insert_Some. intros [[<- <-]|[_ ?]]; [done|by apply C].
  - etrans; [done|]. split; simpl; [eauto|done|].
    destruct (cache_block_hashes s1 !! n) as [h|] eqn:Hh; [|by apply insert_subseteq].
    apply C in Hh as Heq. subst h. by rewrite insert_id.
  - done.
  - intros y [= <-]. split; [done|]. simpl. apply lookup_insert_eq.
Qed.

(** C31. The caches are transparent.  Whatever has been asked before, a query
    for an account, a code hash, a slot or a block hash either reports an
    error of the provider or gives the answer of the chain, and it gives the
    answer when the provider succeeds within nine attempts; it never panics;
    the caches stay right and only grow; and the code of every code hash
    answered is in the cache.  Assumed of the provider: what it answers is the
    state of the chain at the block. *)
Theorem rpc_transparent :
  cache_ok new ∧
  (∀ a, answers (rpc_basic a) (remote_basic a) (knows a) (account_reliable a)) ∧
  (∀ a, answers (rpc_code_hash a) (remote_code_hash a)
    (λ s, knows a s ∧ ∀ h, remote_code_hash a = Some h → is_Some (s.(cache_bytecodes) !! h))
    (account_reliable a)) ∧
  (∀ a i, answers (rpc_storage a i) (R.(r_slot) a i)
    (λ s, ∀ account, s.(cache_accounts) !! a = Some account →
      account.(ea_storage) !! i = Some (R.(r_slot) a i))
    (reliable (get_storage_at a i) ∧ account_reliable a)) ∧
  (∀ n, answers (rpc_block_hash n) (R.(r_hash) n)
    (λ s, s.(cache_block_hashes) !! n = Some (R.(r_hash) n)) (reliable (get_block_by_number n))).
Proof.
  split_and!; [apply cache_ok_new|apply rpc_basic_answers|apply rpc_code_hash_answers
    |apply rpc_storage_answers|apply rpc_block_hash_answers].
Qed.

(** ** Snapshots *)

(** An in-memory storage with the accounts of the caches and at least their
    codes and block hashes. *)
Record covers (im : InMemoryStorage) (s : RpcStorage) : Prop := {
  cv_accounts : im.(accounts) = s.(cache_accounts);
  cv_bytecodes : s.(cache_bytecodes) ⊆ im.(bytecodes);
  cv_block_hashes : s.(cache_block_hashes) ⊆ im.(block_hashes);
}.

(** The in-memory storage made of a snapshot. *)
Definition in_memory (s : RpcStorage) : InMemoryStorage :=
  let '(accounts, bytecodes, block_hashes) := into_snapshot s in
  mkInMemoryStorage _ accounts bytecodes block_hashes.

Lemma in_memory_covers s : covers (in_memory s) s.
Proof. by split. Qed.

Lemma knows_grows a s s' : grows s s' → knows a s → knows a s'.
Proof.
  intros Hg [[account Ha]|?]; [left|by right]. destruct (gr_accounts _ _ Hg _ _ Ha) as (? & ? & _). eauto.
Qed.

Lemma answers_inv {A} (m : rpcm A) x Q ok s r s' :
  answers m x Q ok → cache_ok s → m s = Some (Ok r, s') → r = x ∧ cache_ok s' ∧ grows s s' ∧ Q s'.
Proof.
  intros Hm Hs Hr. destruct (Hm s Hs) as (? & ? & Heq & ? & ? & _ & Hq).
  rewrite Hr in Heq. simplify_eq. by destruct (Hq _ eq_refl).
Qed.

Section replay.
Context (s s' s'' : RpcStorage) (im : InMemoryStorage).
Context (Hs : cache_ok s) (Hs'' : cache_ok s'') (Hg : grows s' s'') (Hc : covers im s'').

Lemma known_basic a :
  knows a s' →
  Storage.basic im a = Ok (remote_basic a) ∧ Storage.code_hash im a = Ok (remote_code_hash a).
Proof.
  intros Hk%(knows_grows _ _ _ Hg). simpl. rewrite (cv_accounts _ _ Hc).
  destruct (cache_accounts s'' !! a) as [account|] eqn:Ha; simpl.
  - destruct (co_accounts _ Hs'' _ _ Ha) as [-> Hch _ _]. by rewrite Hch.
  - destruct Hk as [[? ?]|Hn]; [congruence|]. unfold remote_code_hash. by rewrite Hn.
Qed.

Lemma basic_replays a r : rpc_basic a s = Some (Ok r, s') → Storage.basic im a = Ok r.
Proof. intros (-> & _ & _ & Hk)%(answers_inv _ _ _ _ _ _ _ (rpc_basic_answers a) Hs). by apply known_basic. Qed.

Lemma code_hash_replays a r : rpc_code_hash a s = Some (Ok r, s') → Storage.code_hash im a = Ok r.
Proof.
  intros (-> & _ & _ & Hk & _)%(answers_inv _ _ _ _ _ _ _ (rpc_code_hash_answers a) Hs).
  by apply known_basic.
Qed.

(** Used of the chain: accounts that do not exist have no storage. *)
Lemma storage_replays a i r :
  (remote_basic a = None → R.(r_slot) a i = 0%N) →
  rpc_storage a i s = Some (Ok r, s') → Storage.storage im a i = Ok r.
Proof.
  intros Hz Hr. destruct (rpc_storage_knows a i s r s' Hs Hr) as (-> & Hk & Hslot).
  simpl. rewrite (cv_accounts _ _ Hc). f_equal. destruct Hk as [[account Ha]|Hn].
  - destruct (gr_accounts _ _ Hg _ _ Ha) as (account' & -> & Hsub). simpl.
    by rewrite (lookup_weaken _ _ _ _ (Hslot _ Ha) Hsub).
  - rewrite (Hz Hn). destruct (cache_accounts s'' !! a) as [account|] eqn:Ha; [|done].
    destruct (co_accounts _ Hs'' _ _ Ha) as [Hb _ _ _]. congruence.
Qed.

Lemma block_hash_replays n r :
  rpc_block_hash n s = Some (Ok r, s') → Storage.block_hash im n = Ok r.
Proof.
  intros (-> & _ & _ & Hn)%(answers_inv _ _ _ _ _ _ _ (rpc_block_hash_answers n) Hs).
  simpl. by rewrite (lookup_weaken _ _ _ _ (lookup_weaken _ _ _ _ Hn (gr_hashes _ _ Hg))
    (cv_block_hashes _ _ Hc)).
Qed.
End replay.

End rpc.

(** ** A concrete provider

    Every request fails once and then succeeds; account 7 is a contract. *)

Module RpcDemo.
#[local] Existing Instance demo_revm.

Definition code_key (c : demo_bytecode) : list N * N * list bool + N :=
  match c with DemoLegacy b n jt => inl (b, n, jt) | DemoEip7702 a => inr a end.

Definition code_id (c : demo_bytecode) : B256 := N.pos (encode (code_key c)).

Lemma code_id_inj : Inj (=) (=) code_id.
Proof.
  intros c c' [= Hc%(inj encode)]. unfold code_key in Hc. destruct c, c'; congruence.
Qed.

Definition second {T} (x : T) (n k : nat) : result nat T :=
  match k with O => Err n | S _ => Ok x end.

Definition chain : Remote := mkRemote
  (λ a, if decide (a = 7%N) then 1 else 0)%N
  (λ a, if decide (a = 7%N) then 500 else 0)%N
  (λ a, if decide (a = 7%N) then [96; 0]%N else [])
  (λ a i, if decide (a = 7%N) then i + 1 else 0)%N
  (λ n, n + 5)%N.

#[export] Instance provider : Provider := {|
  TransportError := nat;
  get_transaction_count a := second (r_nonce chain a);
  get_balance a := second (r_balance chain a);
  get_code_at a := second (r_code chain a);
  get_proof_nonempty a := second (bool_decide (a = 7%N));
  get_storage_at a i := second (r_slot chain a i);
  get_block_by_number n := second (Some (r_hash chain n));
  is_precompile a := (a <? 5)%N;
  bytes_is_empty b := bool_decide (b = []);
  new_raw b := DemoLegacy b (N.of_nat (length b)) [];
  bytecode_is_empty c := bool_decide (bytecode c = []);
  hash_slow := code_id;
|}.

Lemma honest_second {T} (x : T) : honest (second x) x.
Proof. intros n [|k] y [= ->]. done. Qed.

Lemma reliable_second {T} (x : T) : reliable (second x).
Proof. intros n. exists 1, x. split; [lia|done]. Qed.

#[export] Instance chain_honest : Honest chain.
Proof. split; intros; apply honest_second. Qed.

Lemma chain_no_storage a i : remote_basic chain a = None → chain.(r_slot) a i = 0%N.
Proof. unfold remote_basic. simpl. by destruct (decide (a = 7%N)) as [->|]. Qed.

Definition after {A} (o : option (result nat A * RpcStorage)) : RpcStorage :=
  match o with Some (_, s) => s | None => new end.

(** Account 7 and its slot 3. *)
Definition s1 : RpcStorage := after (rpc_basic 7 new).
Definition s2 : RpcStorage := after (rpc_storage 7 3 s1).
End RpcDemo.

#[local] Existing Instances demo_revm demo_revm_laws RpcDemo.provider RpcDemo.chain_honest.

Lemma rpc_transparent_witness :
  ∃ s', rpc_storage 7 3 new = Some (Ok 4%N, s') ∧ cache_ok RpcDemo.chain s'.
Proof.
  destruct (rpc_transparent RpcDemo.chain) as (Hnew & _ & _ & Hst & _).
  destruct (Hst 7%N 3%N new Hnew) as (r & s' & Hr & Hs' & _ & Hok & _).
  exists s'. split; [|exact Hs']. rewrite Hr, Hok; [reflexivity|].
  repeat split; apply RpcDemo.reliable_second.
Defined.

