(* ===== verification/VmDb.v ===== *)
(** * The reading side of the VM (src/crates/pevm/src/vm.rs, [VmDb])

    [VmDb] answers the queries of the EVM while it executes one transaction:
    from the multi-version memory when a lower transaction wrote the location,
    from storage otherwise, and it keeps the origins of everything it read.
    Each query takes the multi-version memory as it is at that moment: other
    workers change it between two queries.

    [None] is a panic or undefined behaviour; [Err] is a [ReadError]. *)

From S2P Require Import Prelude Uint Types MvMemory Storage.

(** ** Transactions *)

Inductive TxKind : Type :=
  | Create
  | Call (to : Address).

#[export] Instance TxKind_eq_dec : EqDecision TxKind.
Proof. solve_decision. Defined.

(** alloy's [SignedAuthorization] (EIP-7702). *)
Record SignedAuthorization : Type := mkSignedAuthorization {
  auth_chain_id : N;
  auth_address : Address;
  auth_nonce : N;
  auth_y_parity : N;
  auth_r : U256;
  auth_s : U256;
}.

(** revm's [TxEnv]. *)
Record TxEnv : Type := mkTxEnv {
  tx_type : N;
  caller : Address;
  tx_gas_limit : N;
  tx_gas_price : N;
  tx_gas_priority_fee : option N;
  tx_kind : TxKind;
  tx_value : U256;
  tx_data : list N;
  tx_nonce : N;
  tx_chain_id : option N;
  tx_access_list : list (Address * list B256);
  tx_blob_hashes : list B256;
  tx_max_fee_per_blob_gas : N;
  tx_authorization_list : list SignedAuthorization;
}.

(** A legacy transaction without data, for the examples. *)
Definition plain_tx (from : Address) (kind : TxKind) (nonce : N) (value : U256) : TxEnv :=
  mkTxEnv 0 from 21000 7 None kind value [] nonce None [] [] 0 [].

(** ** Errors *)

Inductive ReadError : Type :=
  | StorageError (message : string)
  | Blocking (i : TxIdx)
  | InconsistentRead
  | InvalidNonce (i : TxIdx)
  | SelfDestructedAccount
  | InvalidMemoryValueType.

#[export] Instance ReadError_eq_dec : EqDecision ReadError.
Proof. solve_decision. Defined.

Inductive InvalidTransaction : Type :=
  | LackOfFundForMaxFee (fee balance : U256)
  | NonceTooHigh
  | OtherInvalidTransaction.

Inductive ExecutionError : Type :=
  | EvmTransaction (e : InvalidTransaction)
  | EvmDatabase (e : ReadError)
  | EvmOther (message : string).

Inductive VmExecutionError : Type :=
  | Retry
  | FallbackToSequential
  | VmBlocking (i : TxIdx)
  | VmExecutionFailed (e : ExecutionError).

(** [impl From<ReadError> for VmExecutionError] *)
Definition vm_error_from_read (err : ReadError) : VmExecutionError :=
  match err with
  | InconsistentRead => Retry
  | SelfDestructedAccount => FallbackToSequential
  | Blocking i => VmBlocking i
  | _ => VmExecutionFailed (EvmDatabase err)
  end.

(** ** State *)

Record VmDb : Type := mkVmDb {
  db_tx_idx : TxIdx;
  db_tx : TxEnv;
  from_hash : MemoryLocationHash;
  to_hash : option MemoryLocationHash;
  to_code_hash : option B256;
  is_lazy : bool;
  has_nonce : bool;
  read_set : ReadSet;
  read_accounts : gmap MemoryLocationHash (AccountBasic * option B256);
}.

Definition set_to_code_hash x db := mkVmDb db.(db_tx_idx) db.(db_tx) db.(from_hash)
  db.(to_hash) x db.(is_lazy) db.(has_nonce) db.(read_set) db.(read_accounts).
Definition set_is_lazy x db := mkVmDb db.(db_tx_idx) db.(db_tx) db.(from_hash)
  db.(to_hash) db.(to_code_hash) x db.(has_nonce) db.(read_set) db.(read_accounts).
Definition set_read_set x db := mkVmDb db.(db_tx_idx) db.(db_tx) db.(from_hash)
  db.(to_hash) db.(to_code_hash) db.(is_lazy) db.(has_nonce) x db.(read_accounts).
Definition set_read_accounts x db := mkVmDb db.(db_tx_idx) db.(db_tx) db.(from_hash)
  db.(to_hash) db.(to_code_hash) db.(is_lazy) db.(has_nonce) db.(read_set) x.

(** A query: it may panic, it may fail, and it changes the read set either way. *)
Definition dbm (A : Type) : Type := VmDb → option (result ReadError A * VmDb).

Definition db_ret {A} (a : A) : dbm A := λ db, Some (Ok a, db).
Definition db_err {A} (e : ReadError) : dbm A := λ db, Some (Err e, db).
Definition db_panic {A} : dbm A := λ _, None.
Definition db_lift {A} (r : result ReadError A) : dbm A := λ db, Some (r, db).
Definition db_bind {A B} (m : dbm A) (k : A → dbm B) : dbm B := λ db,
  match m db with
  | Some (Ok a, db') => k a db'
  | Some (Err e, db') => Some (Err e, db')
  | None => None
  end.

#[export] Instance dbm_ret : MRet dbm := @db_ret.
#[export] Instance dbm_bind : MBind dbm := λ A B k m, db_bind m k.

(** [self.read_set.entry(location).or_default()]; the origins read. *)
Definition read_origins_entry (l : MemoryLocationHash) : dbm ReadOrigins := λ db,
  let os := default [] (db.(read_set) !! l) in
  Some (Ok os, set_read_set (<[l := os]> db.(read_set)) db).

(** Assignment through the [&mut ReadOrigins] of that entry. *)
Definition put_read_origins (l : MemoryLocationHash) (os : ReadOrigins) : dbm unit := λ db,
  Some (Ok tt, set_read_set (<[l := os]> db.(read_set)) db).

Definition push_origin (l : MemoryLocationHash) (read_origins : ReadOrigins)
    (origin : ReadOrigin) : dbm unit :=
  match last read_origins with
  | Some prev_origin =>
      if decide (prev_origin ≠ origin) then db_err InconsistentRead else mret tt
  | None => put_read_origins l (read_origins ++ [origin])
  end.

Section queries.
Context `{Revm} {S : Type} `{!Storage S}.
Variable st : S.
Abbreviation MvMemory := (MvMemory Bytecode).
Implicit Types (mem : MvMemory) (address : Address).

Definition from_storage {A} (r : result Error A) : dbm A :=
  db_lift (map_err (λ e, StorageError (error_to_string e)) r).

(** The latest entry below [n] at a location. *)
Definition latest mem (l : MemoryLocationHash) (n : TxIdx) : option (TxIdx * MemoryEntry) :=
  written_transactions ← mem.(data) !! l;
  head (range_rev written_transactions n).

Definition get_code_hash mem address : dbm (option B256) :=
  let location_hash := hash_deterministic (LocCodeHash address) in
  db_bind (read_origins_entry location_hash) (λ read_origins db,
  (match latest mem location_hash db.(db_tx_idx) with
   | Some (i, Data inc SelfDestructed) => db_err SelfDestructedAccount
   | Some (i, Data inc (ValCodeHash h)) =>
       push_origin location_hash read_origins (FromMvMemory (mkTxVersion i inc)) ;;
       mret (Some h)
   | _ =>
       push_origin location_hash read_origins FromStorage ;;
       from_storage (code_hash st address)
   end) db).

(** [set_tx]: reset the per-transaction fields, read the recipient's code
    hash and decide whether the transaction is updated lazily. *)
Definition set_tx mem (i : TxIdx) (tx : TxEnv) (from_hash : MemoryLocationHash)
    (to_hash : option MemoryLocationHash) (has_nonce : bool) : dbm unit := λ _,
  let db0 := mkVmDb i tx from_hash to_hash None false has_nonce ∅ ∅ in
  match tx.(tx_kind) with
  | Call to =>
      db_bind (get_code_hash mem to) (λ ch db,
        let db := set_to_code_hash ch db in
        match ch with
        | Some _ => Some (Ok tt, set_is_lazy false db)
        | None =>
            if bool_decide (is_Some (mem.(data) !! from_hash)) then
              Some (Ok tt, set_is_lazy true db)
            else
              (* [to_hash.unwrap()] *)
              match to_hash with
              | Some h => Some (Ok tt, set_is_lazy (bool_decide (is_Some (mem.(data) !! h))) db)
              | None => None
              end
        end) db0
  | Create => Some (Ok tt, db0)
  end.

Definition hash_basic (db : VmDb) address : option MemoryLocationHash :=
  if decide (address = db.(db_tx).(caller)) then Some db.(from_hash)
  else if decide (db.(db_tx).(tx_kind) = Call address) then db.(to_hash)
  else Some (hash_deterministic (LocBasic address)).

(** ** [basic] *)

(** The locals of the evaluation loop. *)
Record lazy_eval : Type := mkLazyEval {
  new_origins : ReadOrigins;
  final_account : option AccountBasic;
  balance_addition : U256;
  positive_addition : bool;
  nonce_addition : N;
}.

Definition lazy_eval_init : lazy_eval := mkLazyEval [] None 0 true 0.

(** One value on the way down: stop at an absolute one, accumulate a lazy one. *)
Definition eval_value (origin : ReadOrigin) (value : MemoryValue) (e : lazy_eval)
    : result ReadError lazy_eval :=
  let os := e.(new_origins) ++ [origin] in
  let add := e.(balance_addition) in
  match value with
  | ValBasic b => Ok (mkLazyEval os (Some b) add e.(positive_addition) e.(nonce_addition))
  | LazyRecipient addition =>
      if e.(positive_addition) then
        Ok (mkLazyEval os None (saturating_add U256_MAX add addition) true e.(nonce_addition))
      else
        Ok (mkLazyEval os None (abs_diff add addition) (add <=? addition)%N e.(nonce_addition))
  | LazySender subtraction =>
      if e.(positive_addition) then
        Ok (mkLazyEval os None (abs_diff add subtraction) (subtraction <=? add)%N
              (e.(nonce_addition) + 1))
      else
        Ok (mkLazyEval os None (saturating_add U256_MAX add subtraction) false
              (e.(nonce_addition) + 1))
  | _ => Err InvalidMemoryValueType
  end.

(** The [loop] over [range(..tx_idx)] from the top; [prev] is [Some] of the
    origins of an earlier read of the same location. *)
Fixpoint eval_lazy (prev : option ReadOrigins) (iter : list (TxIdx * MemoryEntry))
    (e : lazy_eval) : option (result ReadError lazy_eval) :=
  match iter with
  | [] => Some (Ok e)
  | (blocking_idx, Estimate) :: _ => Some (Err (Blocking blocking_idx))
  | (closest_idx, Data inc value) :: iter' =>
      let origin := FromMvMemory (mkTxVersion closest_idx inc) in
      let n := length e.(new_origins) in
      let go :=
        match eval_value origin value e with
        | Ok e' =>
            match e'.(final_account) with
            | Some _ => Some (Ok e')
            | None => eval_lazy prev iter' e'
            end
        | Err err => Some (Err err)
        end in
      match prev with
      | None => go
      | Some read_origins =>
          if length read_origins =? n then Some (Err InconsistentRead)
          else
            (* [read_origins.get_unchecked(new_origins.len())] *)
            match read_origins !! n with
            | None => None
            | Some o => if decide (o = origin) then go else Some (Err InconsistentRead)
            end
      end
  end.

(** The fall-back to storage when no absolute value was found. *)
Definition basic_from_storage (prev : option ReadOrigins) address (e : lazy_eval)
    : result ReadError lazy_eval :=
  match e.(final_account) with
  | Some _ => Ok e
  | None =>
    let consistent :=
      match prev with
      | None => true
      | Some read_origins =>
          (length read_origins =? length e.(new_origins) + 1)
          && bool_decide (last read_origins = Some FromStorage)
      end in
    if consistent then
      let os := match prev with
                | None => e.(new_origins) ++ [FromStorage]
                | Some _ => e.(new_origins)
                end in
      match basic st address with
      | Ok (Some b) =>
          Ok (mkLazyEval os (Some b) e.(balance_addition) e.(positive_addition)
                e.(nonce_addition))
      | Ok None =>
          Ok (mkLazyEval os
                (if (0 <? e.(balance_addition))%N then Some AccountBasic_default else None)
                e.(balance_addition) e.(positive_addition) e.(nonce_addition))
      | Err err => Err (StorageError (error_to_string err))
      end
    else Err InconsistentRead
  end.

Definition lookup_code mem (code_hash : option B256) : result ReadError (option Bytecode) :=
  match code_hash with
  | None => Ok None
  | Some h =>
      match mem.(new_bytecodes) !! h with
      | Some code => Ok (Some code)
      | None =>
          match code_by_hash st h with
          | Ok code => Ok (bytecode_from_evm_code <$> code)
          | Err err => Err (StorageError (error_to_string err))
          end
      end
  end.

(** The final account: nonce check, balance, code. *)
Definition basic_finish mem location_hash address (account : AccountBasic) (e : lazy_eval)
    : dbm (option AccountInfo) := λ db,
  let nonce := (account.(ab_nonce) + e.(nonce_addition))%N in
  (* [account.nonce += nonce_addition] overflows *)
  if (u64_max <? nonce)%N then None else
  if db.(has_nonce) && (location_hash =? db.(from_hash))%N
     && negb (db.(db_tx).(tx_nonce) =? nonce)%N
  then
    (if 0 <? db.(db_tx_idx) then db_err (Blocking (db.(db_tx_idx) - 1))
     else db_err (InvalidNonce db.(db_tx_idx))) db
  else
    let balance :=
      if e.(positive_addition)
      then saturating_add U256_MAX account.(ab_balance) e.(balance_addition)
      else saturating_sub account.(ab_balance) e.(balance_addition) in
    db_bind (if decide (Some location_hash = db.(to_hash)) then db_ret db.(to_code_hash)
             else get_code_hash mem address) (λ code_hash,
    db_bind (db_lift (lookup_code mem code_hash)) (λ code db,
      Some (Ok (Some (mkAccountInfo _ balance nonce (default KECCAK_EMPTY code_hash) code)),
        set_read_accounts (<[location_hash := (mkAccountBasic balance nonce, code_hash)]>
          db.(read_accounts)) db))) db.

Definition db_basic mem address : dbm (option AccountInfo) := λ db,
  match hash_basic db address with
  | None => None
  | Some location_hash =>
      if db.(is_lazy) && (location_hash =? db.(from_hash))%N then
        Some (Ok (Some (mkAccountInfo _ U256_MAX db.(db_tx).(tx_nonce) KECCAK_EMPTY None)), db)
      else if db.(is_lazy) && bool_decide (Some location_hash = db.(to_hash)) then
        Some (Ok None, db)
      else
        db_bind (read_origins_entry location_hash) (λ read_origins db,
          let prev := if decide (read_origins = []) then None else Some read_origins in
          let iter :=
            if 0 <? db.(db_tx_idx) then
              match mem.(data) !! location_hash with
              | Some written_transactions => range_rev written_transactions db.(db_tx_idx)
              | None => []
              end
            else [] in
          match eval_lazy prev iter lazy_eval_init with
          | None => None
          | Some (Err err) => Some (Err err, db)
          | Some (Ok e) =>
              match basic_from_storage prev address e with
              | Err err => Some (Err err, db)
              | Ok e =>
                  db_bind (match prev with
                           | None => put_read_origins location_hash e.(new_origins)
                           | Some _ => db_ret tt
                           end) (λ _,
                  match e.(final_account) with
                  | Some account => basic_finish mem location_hash address account e
                  | None => db_ret None
                  end) db
              end
          end) db
  end.

(** ** The other queries *)

Definition db_code_by_hash (h : B256) : dbm Bytecode :=
  db_bind (from_storage (code_by_hash st h)) (λ c,
  db_ret (match c with
          | Some evm_code => bytecode_from_evm_code evm_code
          | None => bytecode_default
          end)).

Definition db_storage mem address (index : U256) : dbm U256 :=
  let location_hash := hash_deterministic (LocStorage address index) in
  db_bind (read_origins_entry location_hash) (λ read_origins db,
  (match (if 0 <? db.(db_tx_idx) then latest mem location_hash db.(db_tx_idx) else None) with
   | Some (i, Data inc (ValStorage value)) =>
       push_origin location_hash read_origins (FromMvMemory (mkTxVersion i inc)) ;;
       mret value
   | Some (i, Estimate) => db_err (Blocking i)
   | Some (i, Data _ _) => db_err InvalidMemoryValueType
   | None =>
       push_origin location_hash read_origins FromStorage ;;
       from_storage (storage st address index)
   end) db).

Definition db_block_hash (number : N) : dbm B256 := from_storage (block_hash st number).
End queries.
