(* ===== verification/Validation.v ===== *)
(** * Why validation is enough (mv_memory.rs [validate_read_locations] against
    vm.rs [VmDb])

    An execution reads while other workers change the multi-version memory.
    It records the origins of what it read.  Validation later walks the same
    locations and compares origins only.  This file shows that comparing the
    origins is enough: when validation accepts the read set against a memory,
    running the transaction again against that memory, without interruption,
    gives the same result and the same read set.

    The EVM is a parameter: any deterministic program that talks to the
    database, of which only the queries and the final result are seen. *)

From S2P Require Import Prelude Uint Types MvMemory Storage VmDb.

(** ** Walking a location *)

Lemma elem_of_range_rev (m : gmap nat MemoryEntry) n k e :
  (k, e) ∈ range_rev m n ↔ k < n ∧ m !! k = Some e.
Proof.
  induction n as [|n IH]; simpl; [rewrite elem_of_nil; naive_solver lia|].
  destruct (m !! n) as [e'|] eqn:Hn.
  - rewrite elem_of_cons, IH. split; [naive_solver lia|]. intros [? ?].
    destruct (decide (k = n)) as [->|]; [left; congruence|right; split; [lia|done]].
  - rewrite IH. split; [naive_solver lia|]. intros [? ?].
    destruct (decide (k = n)) as [->|]; [congruence|split; [lia|done]].
Qed.

Section walk.
Context `{Revm}.
Implicit Types (mem : MvMemory Bytecode).

(** [range(..n)] at a location, top down; nothing when there is no map. *)
Definition walk mem (l : MemoryLocationHash) (n : TxIdx) : list (TxIdx * MemoryEntry) :=
  match mem.(data) !! l with Some m => range_rev m n | None => [] end.

Lemma elem_of_walk mem l n k e :
  (k, e) ∈ walk mem l n → k < n ∧ entry_at mem.(data) l k = Some e.
Proof.
  unfold walk, entry_at. destruct (data mem !! l); [apply elem_of_range_rev|].
  by intros ?%elem_of_nil.
Qed.

Lemma walk_zero mem l : walk mem l 0 = [].
Proof. unfold walk. by destruct (data mem !! l). Qed.

Lemma latest_walk mem l n : latest mem l n = head (walk mem l n).
Proof. unfold latest, walk. by destruct (data mem !! l). Qed.

Lemma check_location_walk mem l n os :
  check_location mem.(data) n l os = true → check_origins os (walk mem l n) = true.
Proof.
  unfold check_location, walk. destruct (data mem !! l); [done|].
  rewrite negb_true_iff, orb_false_iff, !negb_false_iff, Nat.eqb_eq, bool_decide_eq_true.
  intros [Hlen Hlast]. destruct os as [|o [|]]; simplify_eq/=. done.
Qed.
End walk.

Lemma range_rev_ext (m m' : gmap nat MemoryEntry) n :
  (∀ k, k < n → m' !! k = m !! k) → range_rev m' n = range_rev m n.
Proof.
  induction n as [|n IH]; intros Hsame; simpl; [done|].
  rewrite Hsame by lia. rewrite IH; [done|]. intros k Hk. apply Hsame. lia.
Qed.

Lemma range_rev_empty n : range_rev ∅ n = [].
Proof. induction n as [|n IH]; simpl; [done|]. by rewrite lookup_empty. Qed.

(** Below [n], only estimates have changed. *)
Definition soft {Bytecode} (n : TxIdx) (mem mem' : MvMemory Bytecode) : Prop :=
  ∀ l k, k < n → entry_at mem'.(data) l k = entry_at mem.(data) l k ∨
    entry_at mem.(data) l k = Some Estimate.

(** The walk stops at the first estimate. *)
Lemma check_origins_soft (m m' : gmap nat MemoryEntry) n os :
  (∀ k, k < n → m' !! k = m !! k ∨ m !! k = Some Estimate) →
  check_origins os (range_rev m n) = true → check_origins os (range_rev m' n) = true.
Proof.
  revert os. induction n as [|n IH]; intros os Hs; [done|]. simpl.
  destruct os as [|[v|] os]; [done|..].
  all: destruct (Hs n) as [->|E]; [lia| |rewrite E; done].
  all: destruct (m !! n) as [[inc x|]|]; try done; auto.
  simpl. case_match; auto.
Qed.

Lemma check_location_soft {Bytecode} (mem mem' : MvMemory Bytecode) n l os :
  dom mem.(data) ⊆ dom mem'.(data) → soft n mem mem' →
  check_location mem.(data) n l os = true → check_location mem'.(data) n l os = true.
Proof.
  intros Hd Hs. unfold check_location.
  destruct (data mem' !! l) as [m'|] eqn:Hm'.
  - assert (∀ m, default ∅ (data mem !! l) = m → check_origins os (range_rev m n) = true →
      check_origins os (range_rev m' n) = true) as Hc.
    { intros m Hm. apply check_origins_soft. intros k Hk. specialize (Hs l k Hk).
      unfold entry_at in Hs. rewrite Hm' in Hs. simpl in Hs.
      destruct (data mem !! l); simpl in *; subst; [done|]. by rewrite lookup_empty. }
    destruct (data mem !! l) as [m|]; [by apply Hc|].
    rewrite negb_true_iff, orb_false_iff, !negb_false_iff, Nat.eqb_eq, bool_decide_eq_true.
    intros [Hlen Hlast]. apply (Hc ∅ eq_refl). clear - Hlen Hlast.
    destruct os as [|o [|]]; simplify_eq/=.
    by rewrite range_rev_empty.
  - apply not_elem_of_dom in Hm'. assert (l ∉ dom (data mem)) as Hm by set_solver.
    by apply not_elem_of_dom in Hm as ->.
Qed.

(** Only the entries below a transaction matter to its validation, once the
    location exists. *)
Lemma check_location_frame {Bytecode} (M M' : MvMemory Bytecode) i l os :
  (∀ l k, k < i → entry_at M'.(data) l k = entry_at M.(data) l k) →
  dom M.(data) ⊆ dom M'.(data) →
  check_location M.(data) i l os = true → check_location M'.(data) i l os = true.
Proof.
  intros Hsame Hdom. apply check_location_soft; [done|]. intros l' k Hk. left. by apply Hsame.
Qed.

Lemma check_origins_app os1 os2 es :
  check_origins (os1 ++ os2) es = true → check_origins os1 es = true.
Proof.
  revert es. induction os1 as [|[v|] os1 IH]; intros es; simpl; [done| |].
  - destruct es as [|[k [inc x|]] es]; [done| |done]. case_match; [apply IH|done].
  - destruct es; [apply IH|done].
Qed.

(** ** The EVM as a program over the database *)

(** Any deterministic program that asks the database and ends in a result. *)
Inductive evm_prog `{Revm} (R : Type) : Type :=
  | EvmDone (r : R)
  | EvmBasic (a : Address) (k : option AccountInfo → evm_prog R)
  | EvmCodeByHash (h : B256) (k : Bytecode → evm_prog R)
  | EvmStorage (a : Address) (i : U256) (k : U256 → evm_prog R)
  | EvmBlockHash (n : N) (k : B256 → evm_prog R).
Arguments EvmDone {_ R} r.
Arguments EvmBasic {_ R} a k.
Arguments EvmCodeByHash {_ R} h k.
Arguments EvmStorage {_ R} a i k.
Arguments EvmBlockHash {_ R} n k.

(** Run it through [VmDb]; the [t]-th query sees the memory [mems t].  A read
    error ends the run. *)
Fixpoint run_prog `{Revm} {T R} `{!Storage T} (st : T) (mems : nat → MvMemory Bytecode)
    (t : nat) (p : evm_prog R) : dbm R :=
  match p with
  | EvmDone r => db_ret r
  | EvmBasic a k => db_bind (db_basic st (mems t) a) (λ x, run_prog st mems (S t) (k x))
  | EvmCodeByHash h k => db_bind (db_code_by_hash st h) (λ x, run_prog st mems (S t) (k x))
  | EvmStorage a i k => db_bind (db_storage st (mems t) a i) (λ x, run_prog st mems (S t) (k x))
  | EvmBlockHash n k => db_bind (db_block_hash st n) (λ x, run_prog st mems (S t) (k x))
  end.

(** The hashes [execute] hands to [set_tx]. *)
Definition caller_hash `{Revm} (tx : TxEnv) : MemoryLocationHash :=
  hash_deterministic (LocBasic tx.(caller)).
Definition recipient_hash `{Revm} (tx : TxEnv) : option MemoryLocationHash :=
  match tx.(tx_kind) with Call to => Some (hash_deterministic (LocBasic to)) | Create => None end.

(** The memory half of the lazy-update test of [set_tx]. *)
Definition lazy_test {Bytecode} (mem : MvMemory Bytecode) (from_hash : MemoryLocationHash)
    (to_hash : option MemoryLocationHash) : bool :=
  bool_decide (is_Some (mem.(data) !! from_hash)) ||
  match to_hash with Some h => bool_decide (is_Some (mem.(data) !! h)) | None => false end.

(** ** The assumptions on memories *)

(** What a location hash stands for.  Memory locations are identified by
    their 64-bit hash alone; the kind of location is taken to be readable
    from the hash, i.e. hashes of different kinds do not collide. *)
Inductive loc_kind : Type := KBasic | KCodeHash | KStorage.

Definition kind_of (l : MemoryLocation) : loc_kind :=
  match l with LocBasic _ => KBasic | LocCodeHash _ => KCodeHash | LocStorage _ _ => KStorage end.

Section replay.
Context `{Revm} {S : Type} `{!Storage S}.
Variable st : S.
Variable K : MemoryLocationHash → loc_kind.
Hypothesis hash_kind : ∀ l, K (hash_deterministic l) = kind_of l.

(** The value each incarnation of each transaction writes to a location. *)
Variable V : MemoryLocationHash → TxIdx → TxIncarnation → option MemoryValue.

Implicit Types (mem : MvMemory Bytecode) (db : VmDb).

Definition entry_ok (l : MemoryLocationHash) (p : TxIdx * MemoryEntry) : Prop :=
  match p.2 with Data inc x => V l p.1 inc = Some x | Estimate => True end.

(** A memory as executions build it: an incarnation has one value per
    location; a code hash is only there once its code is; the codes deployed
    in the block are the ones storage knows under the same hash. *)
Record mem_ok mem : Prop := {
  mem_values l k e : entry_at mem.(data) l k = Some e → entry_ok l (k, e);
  mem_deployed l k inc h : entry_at mem.(data) l k = Some (Data inc (ValCodeHash h)) →
    is_Some (mem.(new_bytecodes) !! h);
  mem_content a h b : code_hash st a = Ok (Some h) → mem.(new_bytecodes) !! h = Some b →
    ∃ c, code_by_hash st h = Ok (Some c) ∧ bytecode_from_evm_code c = b;
}.

(** Codes are only ever added. *)
Definition later mem1 mem2 : Prop := mem1.(new_bytecodes) ⊆ mem2.(new_bytecodes).

Definition known mem (h : B256) : Prop :=
  is_Some (mem.(new_bytecodes) !! h) ∨ ∃ a, code_hash st a = Ok (Some h).

Lemma walk_ok mem l n : mem_ok mem → Forall (entry_ok l) (walk mem l n).
Proof.
  intros Hok. apply Forall_forall. intros [k e] Hin. apply elem_of_walk in Hin as [_ ?].
  by eapply mem_values.
Qed.

Lemma lookup_code_later mem1 mem2 h :
  mem_ok mem2 → later mem1 mem2 → known mem1 h →
  lookup_code st mem1 (Some h) = lookup_code st mem2 (Some h).
Proof.
  intros Hok Hl Hk. simpl. destruct (new_bytecodes mem1 !! h) as [b|] eqn:H1.
  { by rewrite (lookup_weaken _ _ _ _ H1 Hl). }
  destruct Hk as [[? ?]|[a Ha]]; [congruence|].
  destruct (new_bytecodes mem2 !! h) as [b|] eqn:H2; [|done].
  destruct (mem_content _ Hok _ _ _ Ha H2) as (c & -> & <-). done.
Qed.

Lemma known_later mem1 mem2 h : later mem1 mem2 → known mem1 h → known mem2 h.
Proof.
  intros Hl [[b Hb]|?]; [left|by right]. exists b. by eapply lookup_weaken.
Qed.

(** ** What a query keeps *)

Record db_inv mem db : Prop := {
  inv_from : db.(from_hash) = hash_deterministic (LocBasic db.(db_tx).(caller));
  inv_to : db.(to_hash) = match db.(db_tx).(tx_kind) with
    | Call to => Some (hash_deterministic (LocBasic to)) | Create => None end;
  inv_origins l os : db.(read_set) !! l = Some os →
    os ≠ [] ∧ (K l ≠ KBasic → length os = 1);
  inv_to_code h : db.(to_code_hash) = Some h → known mem h;
}.

Lemma db_inv_later mem1 mem2 db : later mem1 mem2 → db_inv mem1 db → db_inv mem2 db.
Proof.
  intros Hl [? ? ? HC]. split; try done. intros h Hh. eapply known_later; eauto.
Qed.

Definition same_tx db db' : Prop :=
  db'.(db_tx_idx) = db.(db_tx_idx) ∧ db'.(db_tx) = db.(db_tx) ∧
  db'.(from_hash) = db.(from_hash) ∧ db'.(to_hash) = db.(to_hash) ∧
  db'.(to_code_hash) = db.(to_code_hash) ∧ db'.(is_lazy) = db.(is_lazy) ∧
  db'.(has_nonce) = db.(has_nonce).

Definition agrees mem (n : TxIdx) (rs : ReadSet) : Prop :=
  ∀ l os, rs !! l = Some os → check_origins os (walk mem l n) = true.

(** A query that succeeded against one memory gives the same against any
    later memory that agrees with the origins it left. *)
Definition replayable {A} (m : MvMemory Bytecode → dbm A) : Prop :=
  ∀ mem1 db a db', mem_ok mem1 → db_inv mem1 db → m mem1 db = Some (Ok a, db') →
    db_inv mem1 db' ∧ same_tx db db' ∧ db.(read_set) ⊆ db'.(read_set) ∧
    ∀ mem2, mem_ok mem2 → later mem1 mem2 → agrees mem2 db.(db_tx_idx) db'.(read_set) →
      m mem2 db = Some (Ok a, db').

Lemma same_tx_refl db : same_tx db db.
Proof. done. Qed.

Lemma same_tx_trans db1 db2 db3 : same_tx db1 db2 → same_tx db2 db3 → same_tx db1 db3.
Proof. unfold same_tx. intuition congruence. Qed.

Lemma agrees_mono mem n rs rs' : rs ⊆ rs' → agrees mem n rs' → agrees mem n rs.
Proof. intros Hs Ha l os Hl. apply Ha. by eapply lookup_weaken. Qed.

Lemma replayable_bind {A B} (m : MvMemory Bytecode → dbm A) (k : MvMemory Bytecode → A → dbm B) :
  replayable m → (∀ a, replayable (λ mem, k mem a)) →
  replayable (λ mem, db_bind (m mem) (k mem)).
Proof.
  intros Hm Hk mem1 db b db' Hok Hinv. unfold db_bind.
  destruct (m mem1 db) as [[[a|] db1]|] eqn:Hm1; [|done..]. intros Hk1.
  destruct (Hm _ _ _ _ Hok Hinv Hm1) as (Hinv1 & Hs1 & Hr1 & Hrep1).
  destruct (Hk a _ _ _ _ Hok Hinv1 Hk1) as (Hinv2 & Hs2 & Hr2 & Hrep2).
  split; [done|]. split; [by eapply same_tx_trans|]. split; [by etrans|].
  intros mem2 Hok2 Hl Ha. rewrite (Hrep1 mem2); [|done|done|by eapply agrees_mono].
  apply Hrep2; [done|done|]. destruct Hs1 as [-> _]. done.
Qed.

Lemma replayable_lift {A} (r : result ReadError A) : replayable (λ _, db_lift r).
Proof. intros mem1 db a db' Hok Hinv [= -> ->]. done. Qed.

(** ** Reads with one origin: code hashes and storage slots *)

Definition one_origin db (l : MemoryLocationHash) (o : ReadOrigin) : VmDb :=
  set_read_set (<[l := [o]]> db.(read_set)) db.

(** A second read must find the origin of the first. *)
Definition fits db (l : MemoryLocationHash) (o : ReadOrigin) : bool :=
  match db.(read_set) !! l with None => true | Some os => bool_decide (os = [o]) end.

Lemma read_one {A} mem db l o (k : dbm A) :
  db_inv mem db → K l ≠ KBasic →
  let os := default [] (db.(read_set) !! l) in
  let db1 := set_read_set (<[l := os]> db.(read_set)) db in
  db_bind (push_origin l os o) (λ _, k) db1 =
    if fits db l o then k (one_origin db l o) else Some (Err InconsistentRead, db1).
Proof.
  intros Hinv HK. simpl. unfold fits, one_origin.
  destruct (read_set db !! l) as [os|] eqn:Hl; simpl.
  - destruct (inv_origins _ _ Hinv _ _ Hl) as [_ Hlen]. specialize (Hlen HK).
    destruct os as [|o1 [|]]; simplify_eq/=. unfold db_bind, push_origin. simpl.
    rewrite (insert_id _ _ _ Hl). case_decide as Ho; case_bool_decide; simplify_eq; try done.
    unfold mret, dbm_ret, db_ret. f_equal. rewrite insert_id; [done|naive_solver].
  - unfold db_bind, push_origin, put_read_origins. simpl.
    unfold set_read_set. simpl. by rewrite insert_insert_eq.
Qed.

Lemma one_origin_inv mem db l o :
  db_inv mem db → fits db l o = true →
  db_inv mem (one_origin db l o) ∧ same_tx db (one_origin db l o) ∧
  db.(read_set) ⊆ (one_origin db l o).(read_set).
Proof.
  intros [HF HT HO HC] Hfit. split_and!; [split; simpl; try done|done|].
  - intros l' os. rewrite lookup_insert_Some. intros [[-> <-]|[_ ?]]; [done|by apply HO].
  - simpl. unfold fits in Hfit. destruct (read_set db !! l) eqn:Hl; [|by apply insert_subseteq].
    apply bool_decide_eq_true in Hfit as ->. by rewrite insert_id.
Qed.

Lemma agrees_one mem n db l o :
  agrees mem n (one_origin db l o).(read_set) → check_origins [o] (walk mem l n) = true.
Proof. intros Ha. apply (Ha l). simpl. apply lookup_insert_eq. Qed.

Lemma check_one_mv v es :
  check_origins [FromMvMemory v] es = true →
  ∃ x es', es = (v.(tx_idx), Data v.(tx_incarnation) x) :: es'.
Proof.
  simpl. destruct es as [|[k [inc x|]] es']; [done| |done].
  destruct ((_ =? _) && _) eqn:Hb; [|done]. apply andb_prop in Hb as [->%Nat.eqb_eq <-%Nat.eqb_eq].
  eauto.
Qed.

Lemma check_one_storage es : check_origins [FromStorage] es = true → es = [].
Proof. by destruct es. Qed.

Lemma code_location_kind a : K (hash_deterministic (LocCodeHash a)) ≠ KBasic.
Proof. by rewrite hash_kind. Qed.

Lemma storage_location_kind a i : K (hash_deterministic (LocStorage a i)) ≠ KBasic.
Proof. by rewrite hash_kind. Qed.

(** What [get_code_hash] comes to. *)
Definition code_hash_seen mem a (n : TxIdx) : option (result ReadError (option B256) * ReadOrigin) :=
  match head (walk mem (hash_deterministic (LocCodeHash a)) n) with
  | Some (_, Data _ SelfDestructed) => None
  | Some (i, Data inc (ValCodeHash h)) => Some (Ok (Some h), FromMvMemory (mkTxVersion i inc))
  | _ => Some (map_err (λ e, StorageError (error_to_string e)) (code_hash st a), FromStorage)
  end.

Lemma get_code_hash_seen mem a db :
  db_inv mem db →
  let l := hash_deterministic (LocCodeHash a) in
  let db1 := set_read_set (<[l := default [] (db.(read_set) !! l)]> db.(read_set)) db in
  get_code_hash st mem a db =
    match code_hash_seen mem a db.(db_tx_idx) with
    | None => Some (Err SelfDestructedAccount, db1)
    | Some (r, o) => if fits db l o then Some (r, one_origin db l o)
                     else Some (Err InconsistentRead, db1)
    end.
Proof.
  intros Hinv l db1. unfold get_code_hash, code_hash_seen. unfold db_bind at 1. simpl.
  fold l. rewrite latest_walk. unfold mbind, dbm_bind.
  destruct (head _) as [[i [inc []|]]|];
    try exact (read_one mem db l FromStorage _ Hinv (code_location_kind a)); [|done].
  exact (read_one mem db l (FromMvMemory (mkTxVersion i inc)) _ Hinv (code_location_kind a)).
Qed.
Lemma head_walk_value mem l n v x es :
  mem_ok mem → walk mem l n = (v.(tx_idx), Data v.(tx_incarnation) x) :: es →
  V l v.(tx_idx) v.(tx_incarnation) = Some x.
Proof. intros Hok Hw. pose proof (walk_ok mem l n Hok) as Hf. rewrite Hw in Hf. by inversion Hf. Qed.

Lemma code_hash_seen_later mem1 mem2 a n r o :
  mem_ok mem1 → mem_ok mem2 → code_hash_seen mem1 a n = Some (r, o) →
  check_origins [o] (walk mem2 (hash_deterministic (LocCodeHash a)) n) = true →
  code_hash_seen mem2 a n = Some (r, o).
Proof.
  intros Hok1 Hok2 Hs Hc. unfold code_hash_seen in *.
  destruct o as [v|].
  - apply check_one_mv in Hc as (x2 & es2 & Hw2). rewrite Hw2. simpl.
    destruct (walk mem1 _ n) as [|[i [inc x1|]] es1] eqn:Hw1; simplify_eq/=.
    destruct x1; simplify_eq/=.
    pose proof (head_walk_value mem1 _ _ (mkTxVersion i inc) _ _ Hok1 Hw1) as H1.
    pose proof (head_walk_value mem2 _ _ (mkTxVersion i inc) _ _ Hok2 Hw2) as H2.
    simpl in *. by simplify_eq.
  - apply check_one_storage in Hc as ->. simpl.
    repeat case_match; by simplify_eq/=.
Qed.

Lemma get_code_hash_replayable a : replayable (λ mem, get_code_hash st mem a).
Proof.
  intros mem1 db r db' Hok Hinv. rewrite (get_code_hash_seen _ _ _ Hinv).
  destruct (code_hash_seen mem1 _ _) as [[r' o]|] eqn:Hs; [|done].
  destruct (fits _ _ _) eqn:Hf; [|done]. intros ?; simplify_eq.
  destruct (one_origin_inv _ _ _ _ Hinv Hf) as (? & ? & ?). split_and!; [done..|].
  intros mem2 Hok2 Hl Ha. apply agrees_one in Ha.
  rewrite (get_code_hash_seen _ _ _ (db_inv_later _ _ _ Hl Hinv)).
  by rewrite (code_hash_seen_later mem1 mem2 _ _ _ _ Hok Hok2 Hs Ha), Hf.
Qed.

(** A code hash that was read has its code. *)
Lemma get_code_hash_known mem a db h db' :
  mem_ok mem → db_inv mem db → get_code_hash st mem a db = Some (Ok (Some h), db') →
  known mem h.
Proof.
  intros Hok Hinv. rewrite (get_code_hash_seen _ _ _ Hinv). unfold code_hash_seen.
  assert (∀ r : result ReadError (option B256),
    r = map_err (λ e, StorageError (error_to_string e)) (code_hash st a) →
    r = Ok (Some h) → known mem h) as Hst.
  { intros r -> Hr. right. exists a. by destruct (code_hash st a); simplify_eq/=. }
  destruct (walk mem _ _) as [|[i [inc x|]] es] eqn:Hw; simpl.
  1, 3: destruct (fits _ _ _); intros ?; simplify_eq; by eapply Hst.
  destruct x; try done; destruct (fits _ _ _); intros ?; simplify_eq; try by eapply Hst.
  left. eapply (mem_deployed _ Hok). apply (elem_of_walk mem _ (db_tx_idx db)). rewrite Hw. left.
Qed.

(** What a storage query comes to. *)
Definition storage_seen mem a i (n : TxIdx) : result ReadError (result ReadError U256 * ReadOrigin) :=
  match head (walk mem (hash_deterministic (LocStorage a i)) n) with
  | Some (k, Data inc (ValStorage x)) => Ok (Ok x, FromMvMemory (mkTxVersion k inc))
  | Some (k, Estimate) => Err (Blocking k)
  | Some (k, Data _ _) => Err InvalidMemoryValueType
  | None => Ok (map_err (λ e, StorageError (error_to_string e)) (storage st a i), FromStorage)
  end.

Lemma db_storage_seen mem a i db :
  db_inv mem db →
  let l := hash_deterministic (LocStorage a i) in
  let db1 := set_read_set (<[l := default [] (db.(read_set) !! l)]> db.(read_set)) db in
  db_storage st mem a i db =
    match storage_seen mem a i db.(db_tx_idx) with
    | Err e => Some (Err e, db1)
    | Ok (r, o) => if fits db l o then Some (r, one_origin db l o)
                   else Some (Err InconsistentRead, db1)
    end.
Proof.
  intros Hinv l db1. unfold db_storage, storage_seen. unfold db_bind at 1. simpl.
  fold l. rewrite latest_walk.
  assert ((if 0 <? db.(db_tx_idx) then head (walk mem l db.(db_tx_idx)) else None)
          = head (walk mem l db.(db_tx_idx))) as ->.
  { destruct (Nat.ltb_spec 0 (db_tx_idx db)) as [|Hz]; [done|].
    replace (db_tx_idx db) with 0 by lia. by rewrite walk_zero. }
  unfold mbind, dbm_bind. destruct (head _) as [[k [inc []|]]|]; try done.
  - exact (read_one mem db l (FromMvMemory (mkTxVersion k inc)) _ Hinv (storage_location_kind a i)).
  - exact (read_one mem db l FromStorage _ Hinv (storage_location_kind a i)).
Qed.

Lemma storage_seen_later mem1 mem2 a i n r o :
  mem_ok mem1 → mem_ok mem2 → storage_seen mem1 a i n = Ok (r, o) →
  check_origins [o] (walk mem2 (hash_deterministic (LocStorage a i)) n) = true →
  storage_seen mem2 a i n = Ok (r, o).
Proof.
  intros Hok1 Hok2 Hs Hc. unfold storage_seen in *. destruct o as [v|].
  - apply check_one_mv in Hc as (x2 & es2 & Hw2). rewrite Hw2. simpl.
    destruct (walk mem1 _ n) as [|[k [inc x1|]] es1] eqn:Hw1; simplify_eq/=.
    destruct x1; simplify_eq/=.
    pose proof (head_walk_value mem1 _ _ (mkTxVersion k inc) _ _ Hok1 Hw1) as H1.
    pose proof (head_walk_value mem2 _ _ (mkTxVersion k inc) _ _ Hok2 Hw2) as H2.
    simpl in *. by simplify_eq.
  - apply check_one_storage in Hc as ->. simpl. repeat case_match; by simplify_eq/=.
Qed.

Lemma db_storage_replayable a i : replayable (λ mem, db_storage st mem a i).
Proof.
  intros mem1 db r db' Hok Hinv. rewrite (db_storage_seen _ _ _ _ Hinv).
  destruct (storage_seen mem1 _ _ _) as [[r' o]|] eqn:Hs; [|done].
  destruct (fits _ _ _) eqn:Hf; [|done]. intros ?; simplify_eq.
  destruct (one_origin_inv _ _ _ _ Hinv Hf) as (? & ? & ?). split_and!; [done..|].
  intros mem2 Hok2 Hl Ha. apply agrees_one in Ha.
  rewrite (db_storage_seen _ _ _ _ (db_inv_later _ _ _ Hl Hinv)).
  by rewrite (storage_seen_later mem1 mem2 _ _ _ _ _ Hok Hok2 Hs Ha), Hf.
Qed.
(** ** Account reads *)

(** The shortcuts of [hash_basic] give the hash of the location. *)
Lemma hash_basic_correct mem db a :
  db_inv mem db → hash_basic db a = Some (hash_deterministic (LocBasic a)).
Proof.
  intros [HF HT _ _]. unfold hash_basic. case_decide as Hc; [by rewrite HF, Hc|].
  case_decide as Hk; [|done]. by rewrite HT, Hk.
Qed.

(** The comparison with the origins of an earlier read. *)
Definition eval_guard (prev : option ReadOrigins) (origin : ReadOrigin) (n : nat) : option bool :=
  match prev with
  | None => Some true
  | Some os =>
      if length os =? n then Some false
      else (λ o, bool_decide (o = origin)) <$> os !! n
  end.

Lemma eval_lazy_cons prev k inc x es e :
  let origin := FromMvMemory (mkTxVersion k inc) in
  eval_lazy prev ((k, Data inc x) :: es) e =
    match eval_guard prev origin (length e.(new_origins)) with
    | None => None
    | Some false => Some (Err InconsistentRead)
    | Some true =>
        match eval_value origin x e with
        | Ok e' => match e'.(final_account) with
                   | Some _ => Some (Ok e') | None => eval_lazy prev es e' end
        | Err err => Some (Err err)
        end
    end.
Proof.
  simpl. destruct prev as [os|]; [|done]. simpl. destruct (_ =? _); [done|].
  destruct (os !! _) as [o|]; simpl; [|done]. by case_decide; case_bool_decide.
Qed.

Lemma eval_guard_prefix os origin (e : lazy_eval) :
  eval_guard (Some os) origin (length e.(new_origins)) = Some true →
  e.(new_origins) `prefix_of` os → e.(new_origins) ++ [origin] `prefix_of` os.
Proof.
  simpl. intros Hg [os' ->]. destruct (_ =? _); [done|].
  destruct ((_ ++ os') !! _) as [o|] eqn:Ho; simplify_eq/=.
  apply bool_decide_eq_true in Hg as ->. rewrite lookup_app_r, Nat.sub_diag in Ho by done.
  destruct os' as [|o os']; simplify_eq/=. apply prefix_app, prefix_cons, prefix_nil.
Qed.

Lemma eval_value_origins o x e e' :
  eval_value o x e = Ok e' → e'.(new_origins) = e.(new_origins) ++ [o].
Proof. unfold eval_value. intros. repeat case_match; by simplify_eq/=. Qed.

(** The origins a read ends with when no absolute value was met. *)
Definition stop (e : lazy_eval) : ReadOrigins :=
  match e.(final_account) with Some _ => [] | None => [FromStorage] end.

Lemma eval_lazy_replay l prev es1 e e' :
  Forall (entry_ok l) es1 → e.(final_account) = None →
  eval_lazy prev es1 e = Some (Ok e') →
  ∃ ext, e'.(new_origins) = e.(new_origins) ++ ext ∧
    (∀ os, prev = Some os → e.(new_origins) `prefix_of` os → e'.(new_origins) `prefix_of` os) ∧
    ∀ es2, Forall (entry_ok l) es2 → check_origins (ext ++ stop e') es2 = true →
      eval_lazy prev es2 e = Some (Ok e').
Proof.
  intros Hes1. revert e. induction Hes1 as [|[k [inc x|]] es1 Hx Hes1 IH];
    intros e Hfin Hev; [|rewrite eval_lazy_cons in Hev|done].
  { simplify_eq/=. exists []. unfold stop. rewrite app_nil_r, Hfin. split_and!; [done..|].
    intros es2 _ ->%check_one_storage. done. }
  set (origin := FromMvMemory (mkTxVersion k inc)) in *.
  destruct (eval_guard _ _ _) as [[]|] eqn:Hg; [|done..].
  destruct (eval_value _ _ _) as [e1|] eqn:Hv; [|done].
  assert (∀ es2 os, Forall (entry_ok l) es2 → check_origins (origin :: os) es2 = true →
    ∃ es2', es2 = (k, Data inc x) :: es2' ∧ Forall (entry_ok l) es2' ∧
      check_origins os es2' = true) as Hstep.
  { intros es2 os Hes2 Hc. pose proof (check_origins_app [origin] os es2 Hc) as Hc1.
    apply check_one_mv in Hc1 as (x2 & es2' & ->). simpl in *.
    apply Forall_cons in Hes2 as [Hx2 Hes2]. unfold entry_ok in *. simpl in *.
    rewrite !Nat.eqb_refl in Hc. simpl in Hc. simplify_eq. eauto. }
  pose proof (eval_value_origins _ _ _ _ Hv) as Hos.
  destruct (final_account e1) eqn:Hf1.
  - simplify_eq. exists [origin]. split; [done|]. split.
    + intros os -> Hp. rewrite Hos. by apply eval_guard_prefix.
    + unfold stop. rewrite Hf1. intros es2 Hes2 Hc.
      destruct (Hstep _ _ Hes2 Hc) as (es2' & -> & _). rewrite eval_lazy_cons. fold origin.
      by rewrite Hg, Hv, Hf1.
  - destruct (IH _ Hf1 Hev) as (ext & He' & Hpre & Hrep). exists (origin :: ext). split_and!.
    + by rewrite He', Hos, <-app_assoc.
    + intros os -> Hp. apply (Hpre os); [done|]. rewrite Hos. by apply eval_guard_prefix.
    + intros es2 Hes2 Hc. destruct (Hstep _ _ Hes2 Hc) as (es2' & -> & Hes2' & Hc').
      rewrite eval_lazy_cons. fold origin. rewrite Hg, Hv, Hf1. by apply Hrep.
Qed.
Lemma replayable_ext {A} (m m' : MvMemory Bytecode → dbm A) :
  (∀ mem db, db_inv mem db → m' mem db = m mem db) → replayable m → replayable m'.
Proof.
  intros Heq Hm mem1 db a db' Hok Hinv. rewrite (Heq _ _ Hinv). intros Hm1.
  destruct (Hm _ _ _ _ Hok Hinv Hm1) as (? & ? & ? & Hrep). split_and!; [done..|].
  intros mem2 Hok2 Hl Ha. rewrite (Heq _ _ (db_inv_later _ _ _ Hl Hinv)). by apply Hrep.
Qed.

(** The origins and the account found, before the nonce check and the code. *)
Definition account_found mem l a (prev : option ReadOrigins) (n : TxIdx)
    : option (result ReadError lazy_eval) :=
  match eval_lazy prev (walk mem l n) lazy_eval_init with
  | None => None
  | Some (Err err) => Some (Err err)
  | Some (Ok e) => Some (basic_from_storage st prev a e)
  end.

Definition origins_left (prev : option ReadOrigins) (e : lazy_eval) : ReadOrigins :=
  match prev with Some os => os | None => e.(new_origins) end.

Definition account_read mem a : dbm lazy_eval := λ db,
  let l := hash_deterministic (LocBasic a) in
  let prev := db.(read_set) !! l in
  match account_found mem l a prev db.(db_tx_idx) with
  | None => None
  | Some (Err err) => Some (Err err, set_read_set (<[l := default [] prev]> db.(read_set)) db)
  | Some (Ok e) => Some (Ok e, set_read_set (<[l := origins_left prev e]> db.(read_set)) db)
  end.

Definition account_use mem a (e : lazy_eval) : dbm (option AccountInfo) :=
  match e.(final_account) with
  | Some account => basic_finish st mem (hash_deterministic (LocBasic a)) a account e
  | None => db_ret None
  end.

Lemma basic_from_storage_origins prev a e e' :
  basic_from_storage st prev a e = Ok e' →
  match prev with
  | None => e'.(new_origins) = e.(new_origins) ++ stop e
  | Some os => e.(final_account) = None → ∃ os', os = os' ++ [FromStorage] ∧
      length os' = length e.(new_origins)
  end.
Proof.
  unfold basic_from_storage, stop. intros Hs. destruct (final_account e) eqn:Hf.
  { destruct prev; simplify_eq; [congruence|by rewrite app_nil_r]. }
  destruct prev as [os|]; [|by repeat case_match; simplify_eq/=].
  intros _. destruct (_ && _) eqn:Hb; [|done].
  apply andb_prop in Hb as [Hlen Hlast]. apply Nat.eqb_eq in Hlen.
  apply bool_decide_eq_true in Hlast. apply last_Some in Hlast as [os' ->].
  rewrite length_app in Hlen. simpl in Hlen. exists os'. split; [done|lia].
Qed.

Lemma account_found_replay mem1 mem2 l a prev n e :
  mem_ok mem1 → mem_ok mem2 → account_found mem1 l a prev n = Some (Ok e) →
  check_origins (origins_left prev e) (walk mem2 l n) = true →
  account_found mem2 l a prev n = Some (Ok e).
Proof.
  intros Hok1 Hok2 Hf Hc. unfold account_found in *.
  destruct (eval_lazy _ (walk mem1 _ _) _) as [[e0|]|] eqn:He; [|done..].
  destruct (eval_lazy_replay l _ _ lazy_eval_init _ (walk_ok mem1 l n Hok1) eq_refl He)
    as (ext & Hext & Hpre & Hrep). simpl in Hext.
  injection Hf as Hst. pose proof (basic_from_storage_origins _ _ _ _ Hst) as Hos.
  rewrite (Hrep (walk mem2 l n)); [by f_equal|by apply walk_ok|].
  destruct prev as [os|]; simpl in *; [|by rewrite Hos, Hext in Hc].
  destruct (Hpre os eq_refl (prefix_nil _)) as [os2 Heq]. rewrite Hext in Heq. unfold stop.
  destruct (final_account e0).
  - rewrite app_nil_r. rewrite Heq in Hc. by eapply check_origins_app.
  - destruct (Hos eq_refl) as (os' & -> & Hlen). rewrite Hext in Hlen.
    apply app_inj_1 in Heq as [-> _]; done.
Qed.

Lemma origins_left_nonempty mem l a prev n e :
  (∀ os, prev = Some os → os ≠ []) →
  account_found mem l a prev n = Some (Ok e) → origins_left prev e ≠ [].
Proof.
  intros Hp Hf. unfold account_found in Hf. destruct prev as [os|]; simpl; [by apply Hp|].
  destruct (eval_lazy _ _ _) as [[e0|]|] eqn:He; [|done..]. injection Hf as Hst.
  apply basic_from_storage_origins in Hst as ->. unfold stop.
  destruct (final_account e0) eqn:Hf0; [|by destruct (new_origins e0)].
  assert (∀ es e e', eval_lazy None es e = Some (Ok e') → e.(final_account) = None →
    is_Some e'.(final_account) → e'.(new_origins) ≠ []) as Hne.
  { intros es. induction es as [|[k [inc x|]] es IH]; intros e1 e2;
      [intros ? ? [??]; simplify_eq/=; congruence|rewrite eval_lazy_cons; simpl|done].
    destruct (eval_value _ _ _) as [e3|] eqn:Hv; [|done].
    destruct (final_account e3) eqn:Hf3; [|intros; eapply IH; eauto].
    intros; simplify_eq. rewrite (eval_value_origins _ _ _ _ Hv). by destruct (new_origins e1). }
  rewrite app_nil_r. eapply Hne; eauto.
Qed.

Lemma account_read_replayable a : replayable (λ mem, account_read mem a).
Proof.
  intros mem1 db e db' Hok Hinv. unfold account_read.
  set (l := hash_deterministic (LocBasic a)).
  destruct (account_found mem1 l a _ _) as [[e0|]|] eqn:Hf; [|done..]. intros ?; simplify_eq.
  assert (db.(read_set) ⊆ <[l := origins_left (db.(read_set) !! l) e]> db.(read_set)) as Hsub.
  { destruct (read_set db !! l) eqn:Hl; simpl; [by rewrite insert_id|by apply insert_subseteq]. }
  split_and!; [|done|done|].
  - destruct Hinv as [HF HT HO HC]. split; try done. simpl. intros l' os.
    rewrite lookup_insert_Some. intros [[<- <-]|[_ ?]]; [|by apply HO]. split.
    + eapply origins_left_nonempty; [|exact Hf]. intros os Hos. by eapply HO.
    + subst l. by rewrite hash_kind.
  - intros mem2 Hok2 Hl Ha. rewrite (account_found_replay mem1 mem2 _ _ _ _ _ Hok Hok2 Hf); [done|].
    apply (Ha l). simpl. apply lookup_insert_eq.
Qed.
(** The code hash of an account and its code. *)
Definition code_hash_read mem l a : dbm (option B256) := λ db,
  (if decide (Some l = db.(to_hash)) then db_ret db.(to_code_hash) else get_code_hash st mem a) db.

Definition code_read mem l a : dbm (option B256 * option Bytecode) :=
  db_bind (code_hash_read mem l a) (λ ch,
  db_bind (db_lift (lookup_code st mem ch)) (λ code, db_ret (ch, code))).

Lemma code_hash_read_replayable l a : replayable (λ mem, code_hash_read mem l a).
Proof.
  intros mem1 db ch db' Hok Hinv. unfold code_hash_read. case_decide.
  - unfold db_ret. intros. by simplify_eq.
  - by apply get_code_hash_replayable.
Qed.

Lemma code_hash_read_known mem l a db h db' :
  mem_ok mem → db_inv mem db → code_hash_read mem l a db = Some (Ok (Some h), db') → known mem h.
Proof.
  intros Hok Hinv. unfold code_hash_read. case_decide.
  - unfold db_ret. intros. simplify_eq. by eapply inv_to_code.
  - by apply get_code_hash_known.
Qed.

Lemma code_read_replayable l a : replayable (λ mem, code_read mem l a).
Proof.
  intros mem1 db [ch code] db' Hok Hinv. unfold code_read, db_bind at 1.
  destruct (code_hash_read mem1 l a db) as [[[ch'|] db1]|] eqn:Hch; [|done..].
  unfold db_bind, db_lift, db_ret.
  destruct (lookup_code st mem1 ch') eqn:Hcode; intros ?; simplify_eq.
  destruct (code_hash_read_replayable l a _ _ _ _ Hok Hinv Hch) as (? & ? & ? & Hrep).
  split_and!; [done..|]. intros mem2 Hok2 Hl Ha. rewrite (Hrep mem2) by done.
  assert (lookup_code st mem2 ch = Ok code) as ->; [|done]. destruct ch as [h|]; [|done].
  rewrite <-(lookup_code_later mem1 mem2 h Hok2 Hl); [done|].
  exact (code_hash_read_known _ _ _ _ _ _ Hok Hinv Hch).
Qed.

(** The rest of [basic_finish] looks at the database only. *)
Definition finish_with l (account : AccountBasic) (e : lazy_eval)
    (p : option B256 * option Bytecode) : dbm (option AccountInfo) := λ db,
  let nonce := (account.(ab_nonce) + e.(nonce_addition))%N in
  let balance :=
    if e.(positive_addition)
    then saturating_add U256_MAX account.(ab_balance) e.(balance_addition)
    else saturating_sub account.(ab_balance) e.(balance_addition) in
  Some (Ok (Some (mkAccountInfo _ balance nonce (default KECCAK_EMPTY p.1) p.2)),
    set_read_accounts (<[l := (mkAccountBasic balance nonce, p.1)]> db.(read_accounts)) db).

Lemma finish_with_replayable l account e p : replayable (λ _, finish_with l account e p).
Proof.
  intros mem1 db a db' Hok Hinv Hr. unfold finish_with in Hr. simplify_eq.
  split_and!; [|done..]. by destruct Hinv.
Qed.

Lemma account_use_replayable a e : replayable (λ mem, account_use mem a e).
Proof.
  unfold account_use. destruct (final_account e) as [account|]; [|apply replayable_lift].
  set (l := hash_deterministic (LocBasic a)).
  assert (replayable (λ mem, db_bind (code_read mem l a) (finish_with l account e))) as Hrep.
  { apply replayable_bind; [apply code_read_replayable|intros; apply finish_with_replayable]. }
  assert (∀ mem db, db_bind (code_read mem l a) (finish_with l account e) db
    = db_bind (if decide (Some l = to_hash db) then db_ret (to_code_hash db)
               else get_code_hash st mem a) (λ ch,
      db_bind (db_lift (lookup_code st mem ch)) (λ code, finish_with l account e (ch, code))) db)
    as Heq.
  { intros mem db. unfold code_read, db_bind. fold (code_hash_read mem l a db).
    unfold db_lift, db_ret. destruct (code_hash_read mem l a db) as [[[ch|] db1]|]; [|done..].
    by destruct (lookup_code _ _ _). }
  intros mem1 db r db' Hok Hinv. unfold basic_finish.
  destruct (u64_max <? _)%N eqn:Hov; [done|].
  destruct (_ && _ && _) eqn:Hn.
  { destruct (0 <? _); unfold db_err; done. }
  intros Hr. destruct (Hrep mem1 db r db' Hok Hinv) as (? & ? & ? & Hrep2); [by rewrite Heq|].
  split_and!; [done..|]. intros mem2 Hok2 Hl Ha.
  specialize (Hrep2 mem2 Hok2 Hl Ha). by rewrite Heq in Hrep2.
Qed.

Lemma db_basic_split mem db a :
  db_inv mem db →
  db_basic st mem a db =
    let l := hash_deterministic (LocBasic a) in
    if db.(is_lazy) && (l =? db.(from_hash))%N then
      Some (Ok (Some (mkAccountInfo _ U256_MAX db.(db_tx).(tx_nonce) KECCAK_EMPTY None)), db)
    else if db.(is_lazy) && bool_decide (Some l = db.(to_hash)) then Some (Ok None, db)
    else db_bind (account_read mem a) (account_use mem a) db.
Proof.
  intros Hinv. unfold db_basic. rewrite (hash_basic_correct mem db a Hinv). simpl.
  set (l := hash_deterministic (LocBasic a)).
  do 2 (case_match; [done|]). unfold db_bind at 1 3. simpl. unfold account_read.
  fold l. unfold account_found.
  assert ((if decide (default [] (db.(read_set) !! l) = []) then None
           else Some (default [] (db.(read_set) !! l))) = db.(read_set) !! l) as Hprev.
  { destruct (read_set db !! l) as [os|] eqn:Hl; simpl; [|done].
    destruct (inv_origins _ _ Hinv _ _ Hl) as [Hne _]. by rewrite decide_False. }
  rewrite Hprev.
  assert ((if 0 <? db.(db_tx_idx) then
             match mem.(data) !! l with Some m => range_rev m db.(db_tx_idx) | None => [] end
           else []) = walk mem l db.(db_tx_idx)) as ->.
  { destruct (Nat.ltb_spec 0 (db_tx_idx db)) as [|Hz]; [done|].
    replace (db_tx_idx db) with 0 by lia. by rewrite walk_zero. }
  destruct (eval_lazy _ _ _) as [[e|]|]; [|done..].
  destruct (basic_from_storage _ _ _ _) as [e'|]; [|done].
  unfold db_bind, account_use, origins_left, put_read_origins, set_read_set. simpl.
  destruct (read_set db !! l) as [os|] eqn:Hl; simpl; [done|]. by rewrite insert_insert_eq.
Qed.

Lemma db_basic_replayable a : replayable (λ mem, db_basic st mem a).
Proof.
  assert (replayable (λ mem, db_bind (account_read mem a) (account_use mem a))) as Hrep.
  { apply replayable_bind; [apply account_read_replayable|intros; apply account_use_replayable]. }
  intros mem1 db r db' Hok Hinv. rewrite (db_basic_split _ _ _ Hinv). simpl.
  assert (∀ mem2, later mem1 mem2 → db_inv mem2 db) as Hinv2 by eauto using db_inv_later.
  destruct (_ && (_ =? _)%N) eqn:H1.
  { intros ?; simplify_eq. split_and!; [done..|]. intros mem2 _ Hl _.
    rewrite (db_basic_split _ _ _ (Hinv2 _ Hl)). simpl. by rewrite H1. }
  destruct (_ && bool_decide _) eqn:H2.
  { intros ?; simplify_eq. split_and!; [done..|]. intros mem2 _ Hl _.
    rewrite (db_basic_split _ _ _ (Hinv2 _ Hl)). simpl. by rewrite H1, H2. }
  intros Hr. destruct (Hrep _ _ _ _ Hok Hinv Hr) as (? & ? & ? & Hrep2). split_and!; [done..|].
  intros mem2 Hok2 Hl Ha. rewrite (db_basic_split _ _ _ (Hinv2 _ Hl)). simpl. rewrite H1, H2.
  by apply Hrep2.
Qed.
(** ** Whole executions *)

Lemma replayable_code_by_hash h : replayable (λ _, db_code_by_hash st h).
Proof.
  apply replayable_bind; [apply replayable_lift|]. intros c. apply replayable_lift.
Qed.

(** The memories an execution sees, one after the other. *)
Record history (mems : nat → MvMemory Bytecode) : Prop := {
  history_ok t : mem_ok (mems t);
  history_later t : later (mems t) (mems (Datatypes.S t));
}.

(** One query, then the rest of the run. *)
Lemma run_step {A R} (m : MvMemory Bytecode → dbm A) (k : A → evm_prog R) mems t db r db' :
  replayable m → history mems → db_inv (mems t) db →
  db_bind (m (mems t)) (λ x, run_prog st mems (Datatypes.S t) (k x)) db = Some (Ok r, db') →
  (∀ x db1, db_inv (mems (Datatypes.S t)) db1 →
    run_prog st mems (Datatypes.S t) (k x) db1 = Some (Ok r, db') →
    same_tx db1 db' ∧ read_set db1 ⊆ read_set db' ∧
    ∀ M t', mem_ok M → (∀ t, later (mems t) M) → agrees M db1.(db_tx_idx) db'.(read_set) →
      run_prog st (λ _, M) t' (k x) db1 = Some (Ok r, db')) →
  same_tx db db' ∧ read_set db ⊆ read_set db' ∧
  ∀ M t', mem_ok M → (∀ t, later (mems t) M) → agrees M db.(db_tx_idx) db'.(read_set) →
    db_bind (m M) (λ x, run_prog st (λ _, M) (Datatypes.S t') (k x)) db = Some (Ok r, db').
Proof.
  intros Hm Hh Hinv. unfold db_bind at 1.
  destruct (m (mems t) db) as [[[x|] db1]|] eqn:Hq; [|done..]. intros Hr IH.
  destruct (Hm _ _ _ _ (history_ok _ Hh t) Hinv Hq) as (Hinv1 & Hs1 & Hr1 & Hrep1).
  destruct (IH x db1 (db_inv_later _ _ _ (history_later _ Hh t) Hinv1) Hr) as (Hs2 & Hr2 & Hrep2).
  split; [by eapply same_tx_trans|]. split; [by etrans|].
  intros M t' HM Hl Ha. unfold db_bind.
  rewrite (Hrep1 M HM (Hl t) (agrees_mono _ _ _ _ Hr2 Ha)). apply Hrep2; [done..|].
  destruct Hs1 as [-> _]. done.
Qed.

Lemma run_prog_replay {R} (p : evm_prog R) mems t db r db' :
  history mems → db_inv (mems t) db → run_prog st mems t p db = Some (Ok r, db') →
  same_tx db db' ∧ read_set db ⊆ read_set db' ∧
  ∀ M t', mem_ok M → (∀ t, later (mems t) M) → agrees M db.(db_tx_idx) db'.(read_set) →
    run_prog st (λ _, M) t' p db = Some (Ok r, db').
Proof.
  intros Hh. revert t db. induction p as [r'|a k IH|h k IH|a i k IH|n k IH]; intros t db Hinv;
    simpl.
  - unfold db_ret. intros. by simplify_eq.
  - intros Hr. eapply (run_step (λ mem, db_basic st mem a)); eauto using db_basic_replayable.
  - intros Hr. eapply (run_step (λ _, db_code_by_hash st h)); eauto using replayable_code_by_hash.
  - intros Hr. eapply (run_step (λ mem, db_storage st mem a i)); eauto using db_storage_replayable.
  - intros Hr. eapply (run_step (λ _, db_block_hash st n)); eauto.
    apply replayable_lift.
Qed.
Definition db_reset i tx hn : VmDb :=
  mkVmDb i tx (caller_hash tx) (recipient_hash tx) None false hn ∅ ∅.

Lemma db_reset_inv mem i tx hn : db_inv mem (db_reset i tx hn).
Proof. by split. Qed.

(** [set_tx] in terms of the code hash and the lazy test. *)
Lemma set_tx_split mem i tx hn db :
  set_tx st mem i tx (caller_hash tx) (recipient_hash tx) hn db =
    match tx.(tx_kind) with
    | Create => Some (Ok tt, db_reset i tx hn)
    | Call to =>
        db_bind (get_code_hash st mem to) (λ ch db,
          Some (Ok tt, set_is_lazy
            (match ch with Some _ => false
             | None => lazy_test mem (caller_hash tx) (recipient_hash tx) end)
            (set_to_code_hash ch db))) (db_reset i tx hn)
    end.
Proof.
  unfold set_tx, lazy_test, db_reset, recipient_hash.
  destruct (tx_kind tx) as [|to] eqn:Hk; [done|]. unfold db_bind.
  destruct (get_code_hash _ _ _ _) as [[[[h|]|] db1]|]; try done. by case_bool_decide.
Qed.

Lemma set_tx_replay mem i tx hn db db0 :
  mem_ok mem → set_tx st mem i tx (caller_hash tx) (recipient_hash tx) hn db = Some (Ok tt, db0) →
  db_inv mem db0 ∧ db0.(db_tx_idx) = i ∧
  ∀ M, mem_ok M → later mem M → agrees M i db0.(read_set) →
    (db0.(to_code_hash) = None →
     lazy_test M (caller_hash tx) (recipient_hash tx)
     = lazy_test mem (caller_hash tx) (recipient_hash tx)) →
    set_tx st M i tx (caller_hash tx) (recipient_hash tx) hn db = Some (Ok tt, db0).
Proof.
  intros Hok. setoid_rewrite set_tx_split.
  destruct (tx_kind tx) as [|to].
  { intros ?; simplify_eq. split; [apply db_reset_inv|]. done. }
  unfold db_bind at 1. pose proof (db_reset_inv mem i tx hn) as Hinv0.
  destruct (get_code_hash st mem to _) as [[[ch|] db1]|] eqn:Hg; [|done..]. intros ?; simplify_eq.
  destruct (get_code_hash_replayable to _ _ _ _ Hok Hinv0 Hg) as ([HF HT HO HC] & Hs & Hr & Hrep).
  split_and!; [split; simpl; try done|by destruct Hs|].
  - intros h ->. by eapply get_code_hash_known.
  - intros M HM Hl Ha Htest. unfold db_bind. simpl in *. rewrite (Hrep M HM Hl Ha).
    destruct ch; [done|]. by rewrite Htest.
Qed.

(** What validation compares. *)
Lemma validate_agrees i M ll :
  M.(last_locations) !! i = Some ll → validate_read_locations i M = Some (true, M) →
  agrees M i ll.(ll_read).
Proof.
  intros Hll. unfold validate_read_locations, lock_last_locations. stm_unfold. rewrite Hll.
  intros [= Hv] l os Hl. rewrite forallb_forall in Hv.
  apply check_location_walk, (Hv (l, os)), list_elem_of_In, elem_of_map_to_list, Hl.
Qed.

(** Suppose transaction [i] was set up and run to a result while the memory
    went through [mems], and its read set was recorded.  If
    [validate_read_locations i] accepts at a later memory [M], running the
    transaction again against [M] alone takes the same set-up, gets the same
    answers, and ends with the same result and database. *)
Lemma validated_replay {R} (p : evm_prog R) mems M i tx hn db db0 r db1 ll :
  history mems → mem_ok M → (∀ t, later (mems t) M) →
  set_tx st (mems 0) i tx (caller_hash tx) (recipient_hash tx) hn db = Some (Ok tt, db0) →
  run_prog st mems 1 p db0 = Some (Ok r, db1) →
  M.(last_locations) !! i = Some ll → ll.(ll_read) = db1.(read_set) →
  validate_read_locations i M = Some (true, M) →
  (db0.(to_code_hash) = None →
   lazy_test M (caller_hash tx) (recipient_hash tx)
   = lazy_test (mems 0) (caller_hash tx) (recipient_hash tx)) →
  set_tx st M i tx (caller_hash tx) (recipient_hash tx) hn db = Some (Ok tt, db0) ∧
  run_prog st (λ _, M) 1 p db0 = Some (Ok r, db1).
Proof.
  intros Hh HM Hl Hset Hrun Hll Hread Hval Hlazy.
  apply (validate_agrees _ _ _ Hll) in Hval. rewrite Hread in Hval.
  destruct (set_tx_replay _ _ _ _ _ _ (history_ok _ Hh 0) Hset) as (Hinv & <- & Hrep0).
  apply (db_inv_later _ _ _ (history_later _ Hh 0)) in Hinv.
  destruct (run_prog_replay p mems 1 db0 r db1 Hh Hinv Hrun) as (_ & Hsub & Hrep1). split.
  - apply Hrep0; [done..| |done]. by eapply agrees_mono.
  - by apply Hrep1.
Qed.

(** ** Validation accepts an undisturbed execution *)

Definition accepts mem (n : TxIdx) (rs : ReadSet) : Prop :=
  ∀ l os, rs !! l = Some os → check_location mem.(data) n l os = true.

(** No code-hash location carries an [Estimate] or a value of another kind
    below [n]. *)
Definition code_clean mem (n : TxIdx) : Prop :=
  ∀ a k e, k < n → entry_at mem.(data) (hash_deterministic (LocCodeHash a)) k = Some e →
    ∃ inc x, e = Data inc x ∧ (x = SelfDestructed ∨ ∃ h, x = ValCodeHash h).

Definition accepting {A} (m : MvMemory Bytecode → dbm A) : Prop :=
  ∀ mem db a db', mem_ok mem → db_inv mem db → code_clean mem db.(db_tx_idx) →
    accepts mem db.(db_tx_idx) db.(read_set) → m mem db = Some (Ok a, db') →
    accepts mem db.(db_tx_idx) db'.(read_set).

Lemma accepting_bind {A B} (m : MvMemory Bytecode → dbm A) (k : MvMemory Bytecode → A → dbm B) :
  replayable m → accepting m → (∀ a, accepting (λ mem, k mem a)) →
  accepting (λ mem, db_bind (m mem) (k mem)).
Proof.
  intros Hrep Hm Hk mem db b db' Hok Hinv Hc Ha. unfold db_bind.
  destruct (m mem db) as [[[a|] db1]|] eqn:Hm1; [|done..]. intros Hk1.
  destruct (Hrep _ _ _ _ Hok Hinv Hm1) as (Hinv1 & Hs1 & _).
  pose proof (Hm _ _ _ _ Hok Hinv Hc Ha Hm1) as Ha1. destruct Hs1 as [Hidx _].
  rewrite <-Hidx in *. by apply (Hk a mem db1 b db').
Qed.

Lemma accepting_same {A} (m : MvMemory Bytecode → dbm A) :
  (∀ mem db a db', m mem db = Some (Ok a, db') → db'.(read_set) = db.(read_set)) → accepting m.
Proof. intros Hm mem db a db' _ _ _ Ha Hr. by rewrite (Hm _ _ _ _ Hr). Qed.

Lemma accepts_one mem n db l o :
  accepts mem n db.(read_set) → check_location mem.(data) n l [o] = true →
  accepts mem n (one_origin db l o).(read_set).
Proof.
  intros Ha Hc l' os. simpl. rewrite lookup_insert_Some. intros [[<- <-]|[_ ?]]; [done|by apply Ha].
Qed.

Lemma check_location_mv mem n l k inc x es :
  walk mem l n = (k, Data inc x) :: es →
  check_location mem.(data) n l [FromMvMemory (mkTxVersion k inc)] = true.
Proof.
  unfold walk, check_location. destruct (data mem !! l); [|done]. intros ->. simpl.
  by rewrite !Nat.eqb_refl.
Qed.

Lemma check_location_storage mem n l :
  walk mem l n = [] → check_location mem.(data) n l [FromStorage] = true.
Proof. unfold walk, check_location. destruct (data mem !! l); [by intros ->|done]. Qed.

Lemma get_code_hash_accepting a : accepting (λ mem, get_code_hash st mem a).
Proof.
  intros mem db r db' Hok Hinv Hc Ha. rewrite (get_code_hash_seen _ _ _ Hinv).
  unfold code_hash_seen. set (l := hash_deterministic (LocCodeHash a)).
  destruct (walk mem l _) as [|[k e] es] eqn:Hw; simpl.
  { destruct (fits _ _ _); intros ?; simplify_eq. apply accepts_one; [done|].
    by apply check_location_storage. }
  destruct (elem_of_walk mem l (db_tx_idx db) k e) as [Hk He]; [rewrite Hw; left|].
  destruct (Hc _ _ _ Hk He) as (inc & x & -> & [->|[h ->]]); [done|].
  destruct (fits _ _ _); intros ?; simplify_eq. apply accepts_one; [done|].
  by eapply check_location_mv.
Qed.

Lemma db_storage_accepting a i : accepting (λ mem, db_storage st mem a i).
Proof.
  intros mem db r db' Hok Hinv Hc Ha. rewrite (db_storage_seen _ _ _ _ Hinv).
  unfold storage_seen. set (l := hash_deterministic (LocStorage a i)).
  destruct (walk mem l _) as [|[k [inc []|]] es] eqn:Hw; simpl; try done.
  - destruct (fits _ _ _); intros ?; simplify_eq. apply accepts_one; [done|].
    by apply check_location_storage.
  - destruct (fits _ _ _); intros ?; simplify_eq. apply accepts_one; [done|].
    by eapply check_location_mv.
Qed.

Lemma eval_lazy_check es e e' :
  e.(final_account) = None → eval_lazy None es e = Some (Ok e') →
  ∃ ext, e'.(new_origins) = e.(new_origins) ++ ext ∧ check_origins (ext ++ stop e') es = true.
Proof.
  revert e. induction es as [|[k [inc x|]] es IH]; intros e Hf; [|rewrite eval_lazy_cons; simpl|done].
  { intros ?; simplify_eq/=. exists []. unfold stop. by rewrite app_nil_r, Hf. }
  destruct (eval_value _ _ _) as [e1|] eqn:Hv; [|done].
  apply eval_value_origins in Hv as Hos. destruct (final_account e1) eqn:Hf1.
  - intros ?; simplify_eq. exists [FromMvMemory (mkTxVersion k inc)]. split; [done|].
    unfold stop. rewrite Hf1. simpl. by rewrite !Nat.eqb_refl.
  - intros Hr. destruct (IH _ Hf1 Hr) as (ext & He' & Hc).
    exists (FromMvMemory (mkTxVersion k inc) :: ext). split; [by rewrite He', Hos, <-app_assoc|].
    simpl. by rewrite !Nat.eqb_refl.
Qed.

Lemma account_read_accepting a : accepting (λ mem, account_read mem a).
Proof.
  intros mem db e db' Hok Hinv _ Ha. unfold account_read.
  set (l := hash_deterministic (LocBasic a)).
  destruct (account_found mem l a _ _) as [[e0|]|] eqn:Hf; [|done..]. intros ?; simplify_eq.
  intros l' os. simpl. rewrite lookup_insert_Some. intros [[<- <-]|[_ ?]]; [|by apply Ha].
  destruct (read_set db !! l) as [os|] eqn:Hl; simpl; [by apply Ha|].
  unfold account_found in Hf. destruct (eval_lazy _ _ _) as [[e0|]|] eqn:He; [|done..].
  injection Hf as Hst. apply basic_from_storage_origins in Hst as ->.
  destruct (eval_lazy_check _ lazy_eval_init _ eq_refl He) as (ext & Hos & Hc).
  rewrite Hos. unfold walk, check_location in *. destruct (data mem !! l); [done|].
  simpl in He. injection He as <-. simpl in Hos. by subst ext.
Qed.

Lemma code_read_accepting l a : accepting (λ mem, code_read mem l a).
Proof.
  apply accepting_bind; [apply code_hash_read_replayable| |].
  - intros mem db ch db' Hok Hinv Hc Ha. unfold code_hash_read. case_decide.
    + unfold db_ret. intros. by simplify_eq.
    + by apply get_code_hash_accepting.
  - intros ch. apply accepting_same. intros mem db r db'. unfold db_bind, db_lift, db_ret.
    destruct (lookup_code _ _ _); intros; by simplify_eq.
Qed.
Lemma account_use_accepting a e : accepting (λ mem, account_use mem a e).
Proof.
  unfold account_use. destruct (final_account e) as [account|].
  2: { apply accepting_same. unfold db_ret. intros. by simplify_eq. }
  set (l := hash_deterministic (LocBasic a)).
  intros mem db r db' Hok Hinv Hc Ha. unfold basic_finish.
  destruct (u64_max <? _)%N; [done|]. destruct (_ && _ && _).
  { destruct (0 <? _); unfold db_err; done. }
  unfold db_bind at 1. fold (code_hash_read mem l a db).
  destruct (code_hash_read mem l a db) as [[[ch|] db1]|] eqn:Hch; [|done..].
  unfold db_bind, db_lift. destruct (lookup_code _ _ _) as [code|] eqn:Hcode; intros Hr; simplify_eq.
  apply (code_read_accepting l a mem db (ch, code) db1 Hok Hinv Hc Ha).
  unfold code_read, db_bind, db_lift, db_ret. by rewrite Hch, Hcode.
Qed.

Lemma db_basic_accepting a : accepting (λ mem, db_basic st mem a).
Proof.
  intros mem db r db' Hok Hinv Hc Ha. rewrite (db_basic_split _ _ _ Hinv). simpl.
  do 2 (case_match; [intros; by simplify_eq|]).
  apply (accepting_bind (λ mem, account_read mem a) (λ mem, account_use mem a)); try done.
  - apply account_read_replayable.
  - apply account_read_accepting.
  - intros e. apply account_use_accepting.
Qed.

(** The undisturbed run of a program. *)
Lemma run_prog_accepting {R} (p : evm_prog R) t :
  accepting (λ mem, run_prog st (λ _, mem) t p).
Proof.
  revert t. induction p as [r'|a k IH|h k IH|a i k IH|n k IH]; intros t; simpl.
  - apply accepting_same. unfold db_ret. intros. by simplify_eq.
  - apply (accepting_bind (λ mem, db_basic st mem a)); auto using db_basic_accepting, db_basic_replayable.
  - apply (accepting_bind (λ _, db_code_by_hash st h)); auto using replayable_code_by_hash.
    apply accepting_same. unfold db_code_by_hash, from_storage, db_bind, db_lift, db_ret.
    intros. repeat case_match; by simplify_eq.
  - apply (accepting_bind (λ mem, db_storage st mem a i));
      auto using db_storage_accepting, db_storage_replayable.
  - apply (accepting_bind (λ _, db_block_hash st n)); [apply replayable_lift| |done].
    apply accepting_same. unfold db_block_hash, from_storage, db_lift. intros. by simplify_eq.
Qed.

Lemma set_tx_accepts M i tx hn db db0 :
  mem_ok M → code_clean M i →
  set_tx st M i tx (caller_hash tx) (recipient_hash tx) hn db = Some (Ok tt, db0) →
  accepts M i db0.(read_set).
Proof.
  intros HM Hc. rewrite set_tx_split.
  assert (accepts M i (db_reset i tx hn).(read_set)) as Ha by (intros l os; simpl; by rewrite lookup_empty).
  destruct (tx_kind tx) as [|to]; [intros; by simplify_eq|]. unfold db_bind.
  destruct (get_code_hash st M to _) as [[[ch|] db1]|] eqn:Hg; [|done..]. intros ?; simplify_eq.
  apply (get_code_hash_accepting to M (db_reset i tx hn) ch db1 HM); [|done..].
  apply db_reset_inv.
Qed.

End replay.

(** ** A concrete execution

    Transaction 1 calls a contract; transaction 0, which pays its sender and
    writes the slot it reads, is recorded after it was set up and before its
    first read. *)

Module Demo.
#[local] Existing Instance demo_revm.

Definition st : InMemoryStorage := mkInMemoryStorage _
  {[ 1%N := mkEvmAccount _ 100 0 None None ∅;
     2%N := mkEvmAccount _ 0 1 (Some 77%N) None {[ 5%N := 9%N ]} ]}
  {[ 77%N := Eip7702 8 ]} ∅.

Definition K (h : MemoryLocationHash) : loc_kind :=
  match (h mod 3)%N with 0%N => KBasic | 1%N => KCodeHash | _ => KStorage end.

Lemma hash_kind l : K (hash_deterministic l) = kind_of l.
Proof.
  assert (∀ a r, (r < 3)%N → ((3 * a + r) mod 3 = r)%N) as Hmod.
  { intros a r Hr. symmetry. by apply (N.mod_unique _ 3 a r). }
  destruct l as [a|a|a i]; unfold K; simpl; unfold demo_hash.
  - replace (3 * a)%N with (3 * a + 0)%N by lia. by rewrite Hmod.
  - by rewrite Hmod.
  - by rewrite Hmod.
Qed.

Definition tx : TxEnv := plain_tx 1 (Call 2) 0 0.
Definition slot : MemoryLocationHash := hash_deterministic (LocStorage 2 5).
Definition sender : MemoryLocationHash := hash_deterministic (LocBasic 1).

Definition data_after : gmap MemoryLocationHash (gmap nat MemoryEntry) :=
  {[ slot := {[ 0 := Data 0 (ValStorage 42) ]}; sender := {[ 0 := Data 0 (LazyRecipient 10) ]} ]}.

Definition memory d (rs : ReadSet) : MvMemory Bytecode :=
  mkMvMemory _ d [LastLocations_default; mkLastLocations rs []] ∅ ∅.

Definition mems (t : nat) : MvMemory Bytecode :=
  match t with O => memory ∅ ∅ | S _ => memory data_after ∅ end.

Definition V (l : MemoryLocationHash) (k : TxIdx) (inc : TxIncarnation) : option MemoryValue :=
  match entry_at data_after l k with
  | Some (Data inc' x) => if decide (inc' = inc) then Some x else None
  | _ => None
  end.

Lemma data_after_entry l k e :
  entry_at data_after l k = Some e →
  e = Data 0 (ValStorage 42) ∨ e = Data 0 (LazyRecipient 10).
Proof.
  unfold entry_at, data_after. intros He.
  apply bind_Some in He as (m & Hm & He). apply lookup_insert_Some in Hm as [[_ <-]|[_ Hm]].
  - apply lookup_singleton_Some in He as [_ <-]. by left.
  - apply lookup_singleton_Some in Hm as [_ <-].
    apply lookup_singleton_Some in He as [_ <-]. by right.
Qed.

Lemma memory_ok d rs : d = ∅ ∨ d = data_after → mem_ok st V (memory d rs).
Proof.
  intros Hd. assert (∀ l k e, entry_at d l k = Some e → entry_at data_after l k = Some e) as Hsub.
  { destruct Hd as [->| ->]; [|done]. intros l k e. unfold entry_at. by rewrite lookup_empty. }
  split; simpl.
  - intros l k [inc x|] He; [|done]. unfold entry_ok, V. simpl.
    by rewrite (Hsub _ _ _ He), decide_True.
  - intros l k inc h He%Hsub%data_after_entry. by destruct He.
  - intros a h b _ Hb. by rewrite lookup_empty in Hb.
Qed.

Lemma mems_history : history st V mems.
Proof. split; intros [|t]; try (apply memory_ok; by auto); done. Qed.

(** Read the sender and the slot. *)
Definition prog : evm_prog (option U256 * U256) :=
  EvmBasic 1 (λ acc, EvmStorage 2 5 (λ x, EvmDone (info_balance <$> acc, x))).

Definition run_of {A} (o : option (result ReadError A * VmDb)) : VmDb :=
  match o with Some (_, db) => db | None => db_reset 0 tx true end.
Definition db0 : VmDb := run_of (set_tx st (mems 0) 1 tx (caller_hash tx) (recipient_hash tx)
  true (db_reset 0 tx true)).
Definition db1 : VmDb := run_of (run_prog st mems 1 prog db0).
Definition M : MvMemory Bytecode := memory data_after db1.(read_set).
End Demo.

#[local] Existing Instance demo_revm.

