(* ===== verification/Lazy.v ===== *)
(** * Lazy account updates (vm.rs [VmDb::basic], pevm.rs post-processing)

    Beneficiaries and the two ends of raw transfers are not read when they
    change: the write set carries [LazyRecipient] and [LazySender] values.  A
    reader evaluates them from the latest entry down, with a sign and a
    magnitude ([VmDb::basic]); the end of the block evaluates them from the
    first entry up ([execute_revm_parallel]).  The two agree as long as no
    balance leaves the range of 256 bits. *)

From S2P Require Import Prelude Uint Types MvMemory Storage VmDb Validation.

(** ** The ascending evaluation *)

(** The three account arms of the post-processing [match]. *)
Definition apply_value (acc : AccountBasic) (x : MemoryValue) : AccountBasic :=
  match x with
  | ValBasic b => b
  | LazyRecipient addition =>
      mkAccountBasic (saturating_add U256_MAX acc.(ab_balance) addition) acc.(ab_nonce)
  | LazySender subtraction =>
      mkAccountBasic (saturating_sub acc.(ab_balance) subtraction) (acc.(ab_nonce) + 1)
  | _ => acc
  end.

Definition forward (acc : AccountBasic) (xs : list MemoryValue) : AccountBasic :=
  foldl apply_value acc xs.

(** No addition saturates and no subtraction does. *)
Definition exact_value (acc : AccountBasic) (x : MemoryValue) : Prop :=
  match x with
  | LazyRecipient addition => (acc.(ab_balance) + addition ≤ U256_MAX)%N
  | LazySender subtraction => (subtraction ≤ acc.(ab_balance))%N
  | _ => True
  end.

Fixpoint exact (acc : AccountBasic) (xs : list MemoryValue) : Prop :=
  (acc.(ab_balance) ≤ U256_MAX)%N ∧
  match xs with
  | [] => True
  | x :: xs' => exact_value acc x ∧ exact (apply_value acc x) xs'
  end.

Lemma exact_bound acc xs : exact acc xs → (acc.(ab_balance) ≤ U256_MAX)%N.
Proof. by destruct xs as [|??]; intros [? _]. Qed.

Lemma exact_snoc acc xs x :
  exact acc (xs ++ [x]) → exact acc xs ∧ exact_value (forward acc xs) x ∧
    ((forward acc (xs ++ [x])).(ab_balance) ≤ U256_MAX)%N.
Proof.
  unfold forward. revert acc. induction xs as [|y xs IH]; intros acc; simpl.
  - intros (Hb & Hx & Hb' & _). done.
  - intros (Hb & Hy & He). destruct (IH _ He) as (? & ? & ?). done.
Qed.

(** ** The descending evaluation *)

(** The lazy values on top of a location, latest first, and the absolute
    value below them. *)
Fixpoint lazies (es : list (TxIdx * MemoryEntry)) : list MemoryValue :=
  match es with
  | (_, Data _ (LazyRecipient n as x)) :: es' => x :: lazies es'
  | (_, Data _ (LazySender n as x)) :: es' => x :: lazies es'
  | _ => []
  end.

Fixpoint absolute (es : list (TxIdx * MemoryEntry)) : option AccountBasic :=
  match es with
  | (_, Data _ (LazyRecipient _)) :: es' => absolute es'
  | (_, Data _ (LazySender _)) :: es' => absolute es'
  | (_, Data _ (ValBasic b)) :: _ => Some b
  | _ => None
  end.

(** The amount that sign and magnitude stand for. *)
Definition signed (e : lazy_eval) : Z :=
  if e.(positive_addition) then Z.of_N e.(balance_addition) else - Z.of_N e.(balance_addition).

(** Adding the evaluated amount to a balance. *)
Definition settle (e : lazy_eval) (balance : U256) : U256 :=
  if e.(positive_addition) then saturating_add U256_MAX balance e.(balance_addition)
  else saturating_sub balance e.(balance_addition).

Lemma settle_signed e b c :
  (Z.of_N b + signed e = Z.of_N c)%Z → (c ≤ U256_MAX)%N → settle e b = c.
Proof.
  unfold settle, signed, saturating_add, saturating_sub. destruct (positive_addition e); lia.
Qed.

Definition senders (xs : list MemoryValue) : N :=
  foldr (λ x n, match x with LazySender _ => (n + 1)%N | _ => n end) 0%N xs.

(** One lazy value: the descending step undoes the last ascending one. *)
Lemma eval_value_signed o x acc e (c : N) :
  exact_value acc x → (acc.(ab_balance) ≤ U256_MAX)%N →
  match x with LazyRecipient _ | LazySender _ => True | _ => False end →
  (Z.of_N (apply_value acc x).(ab_balance) + signed e = Z.of_N c)%Z → (c ≤ U256_MAX)%N →
  ∃ e', eval_value o x e = Ok e' ∧ e'.(final_account) = None ∧
    (Z.of_N acc.(ab_balance) + signed e' = Z.of_N c)%Z ∧
    e'.(nonce_addition) = (e.(nonce_addition) + senders [x])%N.
Proof.
  intros Hx Hb Hl Hs Hc. unfold eval_value, signed, apply_value in *.
  destruct x; try done; simpl in *; unfold saturating_add, saturating_sub, abs_diff in *;
    destruct (positive_addition e) eqn:Hp; eexists; (split; [reflexivity|]); simpl;
    (split; [done|]);
    repeat match goal with |- context [(?a <=? ?b)%N] => destruct (N.leb_spec a b) end; split; lia.
Qed.

Lemma eval_lazy_signed es e base (c : N) e' :
  e.(final_account) = None → exact base (rev (lazies es)) →
  (Z.of_N (forward base (rev (lazies es))).(ab_balance) + signed e = Z.of_N c)%Z →
  (c ≤ U256_MAX)%N → eval_lazy None es e = Some (Ok e') →
  (Z.of_N base.(ab_balance) + signed e' = Z.of_N c)%Z ∧
  e'.(nonce_addition) = (e.(nonce_addition) + senders (lazies es))%N ∧
  e'.(final_account) = absolute es.
Proof.
  revert e. induction es as [|[k [inc x|]] es IH]; intros e Hf Hex Hs Hc;
    [|rewrite eval_lazy_cons; cbn [eval_guard]|done].
  { simpl. intros ?; simplify_eq. simpl in Hs. split; [done|]. split; [lia|done]. }
  set (o := FromMvMemory (mkTxVersion k inc)).
  assert (match x with LazyRecipient _ | LazySender _ => True | _ => False end →
    lazies ((k, Data inc x) :: es) = x :: lazies es ∧
    absolute ((k, Data inc x) :: es) = absolute es) as Hlz by by destruct x.
  destruct x as [b| | |n|n|]; try done.
  { simpl in *. intros ?; simplify_eq/=. split_and!; [done|lia|done]. }
  all: destruct (Hlz I) as [Hl Ha]; rewrite Hl in Hex, Hs; rewrite Hl, Ha; simpl rev in Hex, Hs;
    destruct (exact_snoc _ _ _ Hex) as (Hex' & Hx & _);
    unfold forward in Hs; rewrite foldl_app in Hs; simpl foldl in Hs.
  all: assert ((forward base (rev (lazies es))).(ab_balance) ≤ U256_MAX)%N as Hb
    by (destruct (rev (lazies es)) as [|y l' _] using rev_ind;
        [by eapply exact_bound|by apply exact_snoc in Hex' as (_ & _ & ?)]).
  - destruct (eval_value_signed o (LazyRecipient n) (forward base (rev (lazies es))) e c Hx Hb I Hs Hc)
      as (e1 & -> & Hf1 & Hs1 & Hn1). rewrite Hf1. intros Hr.
    destruct (IH e1 Hf1 Hex' Hs1 Hc Hr) as (? & Hn & ?). split_and!; [done| |done].
    rewrite Hn, Hn1. simpl. lia.
  - destruct (eval_value_signed o (LazySender n) (forward base (rev (lazies es))) e c Hx Hb I Hs Hc)
      as (e1 & -> & Hf1 & Hs1 & Hn1). rewrite Hf1. intros Hr.
    destruct (IH e1 Hf1 Hex' Hs1 Hc Hr) as (? & Hn & ?). split_and!; [done| |done].
    rewrite Hn, Hn1. simpl. lia.
Qed.

Lemma forward_nonce base es :
  (forward base (rev (lazies es))).(ab_nonce) = (base.(ab_nonce) + senders (lazies es))%N.
Proof.
  induction es as [|[k [inc []|]] es IH]; simpl; try lia;
    unfold forward in *; rewrite foldl_app; simpl; rewrite IH; lia.
Qed.

(** ** Account reads evaluate forward *)

Section reads.
Context `{Revm} {S : Type} `{!Storage S}.
Variable st : S.
Implicit Types (mem : MvMemory Bytecode) (db : VmDb).

(** The account below the lazy values: the absolute one, else storage's, else
    the default. *)
Definition base_account (a : Address) (es : list (TxIdx * MemoryEntry)) : AccountBasic :=
  match absolute es with
  | Some b => b
  | None => match Storage.basic st a with Ok (Some b) => b | _ => AccountBasic_default end
  end.

Lemma basic_finish_info mem l a acc e db info db' :
  basic_finish st mem l a acc e db = Some (Ok (Some info), db') →
  info.(info_balance) = settle e acc.(ab_balance) ∧
  info.(info_nonce) = (acc.(ab_nonce) + e.(nonce_addition))%N.
Proof.
  unfold basic_finish, settle. destruct (u64_max <? _)%N; [done|].
  destruct (_ && _ && _); [by destruct (0 <? _)|].
  unfold db_bind at 1. fold (code_hash_read st mem l a db).
  destruct (code_hash_read st mem l a db) as [[[ch|] db1]|]; [|done..].
  unfold db_bind, db_lift. destruct (lookup_code _ _ _); intros; by simplify_eq/=.
Qed.

(** A repeated read finds what the first one found. *)
Lemma eval_lazy_first prev es e e' :
  eval_lazy prev es e = Some (Ok e') → eval_lazy None es e = Some (Ok e').
Proof.
  revert e. induction es as [|[k [inc x|]] es IH]; intros e; [done| |done].
  rewrite !eval_lazy_cons. destruct (eval_guard prev _ _) as [[]|]; [|done..]. simpl.
  destruct (eval_value _ _ _) as [e1|]; [|done]. destruct (final_account e1); [done|apply IH].
Qed.

Lemma basic_from_storage_account prev a e e' es :
  e.(final_account) = absolute es → basic_from_storage st prev a e = Ok e' →
  match e'.(final_account) with
  | Some acc => acc = base_account a es
  | None => absolute es = None ∧ Storage.basic st a = Ok None ∧ e.(balance_addition) = 0%N
  end ∧
  e'.(nonce_addition) = e.(nonce_addition) ∧ ∀ b, settle e' b = settle e b.
Proof.
  unfold basic_from_storage, base_account. intros <-.
  destruct (final_account e) as [b|] eqn:Hf.
  { intros; simplify_eq. by rewrite Hf. }
  destruct (match prev with Some _ => _ | None => true end); [|done].
  destruct (Storage.basic st a) as [[b|]|]; intros; simplify_eq/=; [done|].
  destruct (N.ltb_spec 0 (balance_addition e)); split_and!; try done. lia.
Qed.

Lemma exact_forward_bound base xs :
  exact base xs → ((forward base xs).(ab_balance) ≤ U256_MAX)%N.
Proof.
  destruct xs as [|y xs _] using rev_ind; [apply exact_bound|].
  by intros (_ & _ & ?)%exact_snoc.
Qed.

(** The account a read comes to, with the lazy values applied in block order. *)
Definition evaluated (a : Address) (es : list (TxIdx * MemoryEntry)) : AccountBasic :=
  forward (base_account a es) (rev (lazies es)).

Lemma account_found_forward mem l a prev n e :
  let es := walk mem l n in
  exact (base_account a es) (rev (lazies es)) →
  account_found st mem l a prev n = Some (Ok e) →
  match e.(final_account) with
  | Some acc => settle e acc.(ab_balance) = (evaluated a es).(ab_balance) ∧
      (acc.(ab_nonce) + e.(nonce_addition))%N = (evaluated a es).(ab_nonce)
  | None => absolute es = None ∧ Storage.basic st a = Ok None ∧
      (evaluated a es).(ab_balance) = 0%N
  end.
Proof.
  intros es Hex. unfold account_found. fold es.
  destruct (eval_lazy prev es lazy_eval_init) as [[e0|]|] eqn:He; [|done..].
  intros [= Hst]. apply eval_lazy_first in He.
  pose proof (exact_forward_bound _ _ Hex) as Hc.
  destruct (eval_lazy_signed es lazy_eval_init (base_account a es) (evaluated a es).(ab_balance) e0)
    as (Hs & Hn & Hf); [done|done|apply Z.add_0_r|done|done|].
  destruct (basic_from_storage_account prev a e0 e es Hf Hst) as (Hacc & Hn1 & Hset).
  destruct (final_account e) as [acc|].
  - subst acc. split; [rewrite Hset; by apply settle_signed|].
    rewrite Hn1, Hn. unfold evaluated. rewrite forward_nonce. simpl. lia.
  - destruct Hacc as (Habs & Hnone & Hz). split_and!; [done..|].
    unfold base_account in Hs. rewrite Habs, Hnone in Hs. unfold signed in Hs. rewrite Hz in Hs.
    simpl in Hs. destruct (positive_addition e0); simpl in Hs; lia.
Qed.

(** C12. What [VmDb::basic] answers for an account with pending lazy updates
    is what applying them in block order to the account below them gives:
    the sign-and-magnitude evaluation from the latest entry down equals the
    evaluation from the first entry up that the end of the block performs, in
    balance and nonce, when no step of the latter leaves 256 bits. *)
Theorem lazy_read_forward K mem db a info db' :
  db_inv st K mem db → db.(is_lazy) = false →
  let es := walk mem (hash_deterministic (LocBasic a)) db.(db_tx_idx) in
  exact (base_account a es) (rev (lazies es)) →
  db_basic st mem a db = Some (Ok (Some info), db') →
  let account := forward (base_account a es) (rev (lazies es)) in
  info.(info_balance) = account.(ab_balance) ∧ info.(info_nonce) = account.(ab_nonce).
Proof.
  intros Hinv Hlazy es Hex. rewrite (db_basic_split _ _ _ _ _ Hinv). rewrite Hlazy. simpl.
  unfold db_bind, account_read.
  destruct (account_found _ _ _ _ _ _) as [[e|]|] eqn:Hf; [|done..].
  apply (account_found_forward _ _ _ _ _ _ Hex) in Hf. unfold account_use.
  destruct (final_account e) as [acc|]; [|done]. destruct Hf as [Hb Hn].
  intros [-> ->]%basic_finish_info. done.
Qed.

(** C37. An account that is not in storage, received an amount lazily and then
    sent exactly this amount lazily has balance 0 and nonce 1 after these two
    transactions, which is what the end of the block computes; a transaction
    that reads it in between is told that the account does not exist, so that
    it sees nonce 0. *)
Theorem swept_account_disappears K mem db a n k0 i0 k1 i1 :
  db_inv st K mem db → db.(is_lazy) = false →
  db.(read_set) !! hash_deterministic (LocBasic a) = None →
  Storage.basic st a = Ok None → (n ≤ U256_MAX)%N →
  walk mem (hash_deterministic (LocBasic a)) db.(db_tx_idx)
    = [(k1, Data i1 (LazySender n)); (k0, Data i0 (LazyRecipient n))] →
  (∃ db', db_basic st mem a db = Some (Ok None, db')) ∧
  forward AccountBasic_default [LazyRecipient n; LazySender n] = mkAccountBasic 0 1.
Proof.
  intros Hinv Hlazy Hrs Hst Hn Hw. split.
  - rewrite (db_basic_split _ _ _ _ _ Hinv), Hlazy. simpl. unfold db_bind, account_read.
    rewrite Hrs. unfold account_found. rewrite Hw.
    assert (abs_diff 0 n = n) as Ha0 by (unfold abs_diff; destruct (N.leb_spec 0 n); lia).
    assert (abs_diff n n = 0%N) as Ha by (unfold abs_diff; rewrite N.leb_refl; lia).
    unfold eval_lazy, eval_value; simpl. rewrite Ha0.
    destruct (N.leb_spec n 0) as [Hz|Hz]; unfold basic_from_storage; simpl.
    + assert (n = 0%N) as -> by lia. rewrite Hst. simpl. eauto.
    + rewrite Ha, Hst. simpl. eauto.
  - unfold forward. simpl. unfold saturating_add, saturating_sub. f_equal. simpl. lia.
Qed.
End reads.

(** ** Examples *)

Module LazyDemo.
#[local] Existing Instance demo_revm.

Definition tx : TxEnv := plain_tx 9 (Call 2) 0 0.

(** Account 1 is in storage; account 3 is not. *)
Definition st : InMemoryStorage := mkInMemoryStorage _
  {[ 1%N := mkEvmAccount _ 100 4 None None ∅ ]} ∅ ∅.

Definition history_of (xs : list MemoryValue) : gmap nat MemoryEntry :=
  list_to_map (imap (λ i x, (i, Data 0 x)) xs).

Definition memory (a : Address) (xs : list MemoryValue) : MvMemory Bytecode :=
  mkMvMemory _ {[ hash_deterministic (LocBasic a) := history_of xs ]} [] ∅ ∅.

Definition db : VmDb := db_reset 5 tx true.

(** Sent 30, received 200, sent 50: 220 and two nonces up. *)
Definition pending : list MemoryValue := [LazySender 30; LazyRecipient 200; LazySender 50].

(** Received 60 and sent 60. *)
Definition swept : list MemoryValue := [LazyRecipient 60; LazySender 60].
End LazyDemo.

#[local] Existing Instance demo_revm.

Lemma lazy_read_forward_witness :
  ∃ info db', db_basic LazyDemo.st (LazyDemo.memory 1 LazyDemo.pending) 1 LazyDemo.db
      = Some (Ok (Some info), db') ∧ info.(info_balance) = 220%N ∧ info.(info_nonce) = 6%N.
Proof.
  do 2 eexists. split; [vm_compute; reflexivity|].
  refine (lazy_read_forward LazyDemo.st (λ _, KBasic) (LazyDemo.memory 1 LazyDemo.pending)
    LazyDemo.db 1 _ _ _ _ _ _).
  - by split.
  - reflexivity.
  - vm_compute. repeat split; discriminate.
  - vm_compute. reflexivity.
Defined.

Lemma swept_account_disappears_witness :
  ∃ db', db_basic LazyDemo.st (LazyDemo.memory 3 LazyDemo.swept) 3 LazyDemo.db
      = Some (Ok None, db').
Proof.
  refine (proj1 (swept_account_disappears LazyDemo.st (λ _, KBasic)
    (LazyDemo.memory 3 LazyDemo.swept) LazyDemo.db 3 60 0 0 1 0 _ _ _ _ _ _)).
  - by split.
  - reflexivity.
  - reflexivity.
  - reflexivity.
  - vm_compute. discriminate.
  - vm_compute. reflexivity.
Defined.
