(* ===== verification/Chain.v ===== *)
(** * Chains (src/crates/pevm/src/chain.rs, chain/ethereum.rs, chain/rise.rs,
    compat.rs)

    The [PevmChain] trait as a class, with the promises the rest of the
    program relies on as a second class, [ChainLaws]; Ethereum and RISE are
    instances of both.  The EVM itself, RLP and the receipt trie are third
    party: their inputs are modelled, their outputs are parameters. *)

From stdpp Require Import sorting.
From S2P Require Import Prelude Uint Types MvMemory Storage VmDb.

(** ** Hard forks *)

(** The variants of revm's [SpecId] that the sources name. *)
Inductive SpecId : Type :=
  | FRONTIER | HOMESTEAD | TANGERINE | SPURIOUS_DRAGON | BYZANTIUM | PETERSBURG
  | ISTANBUL | BERLIN | LONDON | MERGE | SHANGHAI | CANCUN | PRAGUE.

#[export] Instance SpecId_eq_dec : EqDecision SpecId.
Proof. solve_decision. Defined.

(** revm orders the variants; the order is its own. *)
Class SpecOrder : Type := spec_rank : SpecId → nat.

Definition spec_ge `{SpecOrder} (s s' : SpecId) : bool := spec_rank s' <=? spec_rank s.

(** revm documents the order to be chronological. *)
Definition forks : list SpecId :=
  [FRONTIER; HOMESTEAD; TANGERINE; SPURIOUS_DRAGON; BYZANTIUM; PETERSBURG; ISTANBUL; BERLIN;
   LONDON; MERGE; SHANGHAI; CANCUN; PRAGUE].
Definition fork_index (s : SpecId) : nat :=
  match s with
  | FRONTIER => 0 | HOMESTEAD => 1 | TANGERINE => 2 | SPURIOUS_DRAGON => 3 | BYZANTIUM => 4
  | PETERSBURG => 5 | ISTANBUL => 6 | BERLIN => 7 | LONDON => 8 | MERGE => 9 | SHANGHAI => 10
  | CANCUN => 11 | PRAGUE => 12
  end.
Definition chronological `{SpecOrder} : Prop :=
  ∀ s s', spec_rank s ≤ spec_rank s' ↔ fork_index s ≤ fork_index s'.

(** ** Headers and block environments *)

(** The fields of alloy's [Header] that the sources read. *)
Record Header : Type := mkHeader {
  h_number : N;
  h_timestamp : N;
  h_beneficiary : Address;
  h_gas_limit : N;
  h_gas_used : N;
  h_base_fee_per_gas : option N;
  h_difficulty : U256;
  h_mix_hash : B256;
  h_excess_blob_gas : option N;
}.

(** [BlobExcessGasAndPrice::new(excess, fraction)]; the price is computed by
    revm from these two. *)
Inductive BlobFraction : Type := FRACTION_CANCUN | FRACTION_PRAGUE.
Record BlobExcessGasAndPrice : Type := mkBlobExcessGasAndPrice {
  excess_blob_gas : N;
  base_fee_update_fraction : BlobFraction;
}.

Record BlockEnv : Type := mkBlockEnv {
  b_number : U256;
  b_beneficiary : Address;
  b_timestamp : U256;
  b_gas_limit : N;
  b_basefee : N;
  b_difficulty : U256;
  b_prevrandao : option B256;
  b_blob_excess_gas_and_price : option BlobExcessGasAndPrice;
  b_slot_num : N;
}.

(** compat.rs [get_block_env] *)
Definition get_block_env `{SpecOrder} (header : Header) (spec_id : SpecId) : BlockEnv := {|
  b_number := header.(h_number);
  b_beneficiary := header.(h_beneficiary);
  b_timestamp := header.(h_timestamp);
  b_gas_limit := header.(h_gas_limit);
  b_basefee := default 0%N header.(h_base_fee_per_gas);
  b_difficulty := header.(h_difficulty);
  b_prevrandao := Some header.(h_mix_hash);
  b_blob_excess_gas_and_price :=
    (λ excess, mkBlobExcessGasAndPrice excess
       (if spec_ge spec_id PRAGUE then FRACTION_PRAGUE else FRACTION_CANCUN))
    <$> header.(h_excess_blob_gas);
  b_slot_num := 0;
|}.

(** ** Receipts *)

Record Receipt `{Revm} : Type := mkReceipt {
  r_status : bool;
  r_cumulative_gas_used : N;
  r_logs : list Log;
}.

(** [PevmTxExecutionResult]: the receipt and the state transitions; [None]
    marks an account for removal. *)
Record PevmTxExecutionResult `{Revm} : Type := mkTxResult {
  receipt : Receipt;
  result_state : gmap Address (option EvmAccount);
}.

Inductive CalculateReceiptRootError : Type :=
  | Unsupported
  | InvalidTxType (t : N)
  | CustomRootError (message : string)
  | OpDepositMissingSender.

(** Lexicographic order on byte strings and on pairs of them ([sort]). *)
Fixpoint bytes_le (a b : list N) : bool :=
  match a, b with
  | [], _ => true
  | _ :: _, [] => false
  | x :: a', y :: b' => (x <? y)%N || ((x =? y)%N && bytes_le a' b')
  end.
Definition leaf_le (p q : list N * list N) : bool :=
  if decide (p.1 = q.1) then bytes_le p.2 q.2 else bytes_le p.1 q.1.

Definition leaf_order (p q : list N * list N) : Prop := leaf_le p q = true.
#[export] Instance leaf_order_dec p q : Decision (leaf_order p q).
Proof. unfold leaf_order. apply _. Defined.
Definition sort_leaves : list (list N * list N) → list (list N * list N) :=
  merge_sort leaf_order.

(** ** The trait *)

(** The configuration a chain builds its EVM with, as far as the sources set it. *)
Inductive BlobLimit : Type := MAX_BLOBS_CANCUN | MAX_BLOBS_PRAGUE.
Record CfgEnv {Spec : Type} : Type := mkCfgEnv {
  cfg_spec : Spec;
  cfg_chain_id : N;
  cfg_max_blobs_per_tx : option BlobLimit;
  cfg_disable_nonce_check : bool;
}.
Arguments CfgEnv : clear implicits.

Class PevmChain `{Revm} (C : Type) : Type := {
  EvmTx : Type;
  EvmSpecId : Type;
  Transaction : Type;
  BlockSpecError : Type;
  TransactionParsingError : Type;
  chain_id : C → N;
  get_block_spec : C → Header → result BlockSpecError EvmSpecId;
  into_spec_id : EvmSpecId → SpecId;
  build_cfg : C → EvmSpecId → CfgEnv EvmSpecId;
  get_tx_env : C → Transaction → result TransactionParsingError EvmTx;
  tx_env : C → EvmTx → TxEnv;
  (** the nonce flag, and its effect on the EVM configuration *)
  chain_has_nonce : C → CfgEnv EvmSpecId → EvmTx → bool * CfgEnv EvmSpecId;
  build_mv_memory : C → BlockEnv → list EvmTx → MvMemory Bytecode;
  get_rewards : C → MemoryLocationHash → U256 → U256 → N → EvmTx
    → list (MemoryLocationHash * U256);
  is_eip_1559_enabled : C → EvmSpecId → bool;
  is_eip_161_enabled : C → EvmSpecId → bool;
}.

(** What the executor relies on. *)
Class ChainLaws `{Revm} (C : Type) `{!PevmChain C} : Prop := {
  (** the memory has an empty slot per transaction *)
  law_fresh (c : C) benv txs :
    (build_mv_memory c benv txs).(last_locations) = replicate (length txs) LastLocations_default;
  (** what is estimated is rewarded: the transaction will write there *)
  law_estimates_rewarded (c : C) benv txs l i e gas_used gas_price :
    entry_at (build_mv_memory c benv txs).(data) l i = Some e →
    ∃ tx, txs !! i = Some tx ∧ e = Estimate ∧
      l ∈ (get_rewards c (hash_deterministic (LocBasic benv.(b_beneficiary)))
             gas_used gas_price benv.(b_basefee) tx).*1;
  (** reward recipients are evaluated at the end of the block *)
  law_rewards_lazy (c : C) benv txs tx l gas_used gas_price :
    tx ∈ txs →
    l ∈ (get_rewards c (hash_deterministic (LocBasic benv.(b_beneficiary)))
           gas_used gas_price benv.(b_basefee) tx).*1 →
    ∃ a, a ∈ (build_mv_memory c benv txs).(lazy_addresses) ∧
      l = hash_deterministic (LocBasic a);
  (** nothing is deployed yet *)
  law_no_bytecodes (c : C) benv txs : (build_mv_memory c benv txs).(new_bytecodes) = ∅;
}.

(** ** What is used of alloy and op-revm *)

Inductive TxType : Type := TyLegacy | TyEip2930 | TyEip1559 | TyEip4844 | TyEip7702.
Inductive OpTxType : Type :=
  | OpLegacy | OpEip2930 | OpEip1559 | OpEip7702 | OpDeposit | OpPostExec.

#[export] Instance TxType_eq_dec : EqDecision TxType.
Proof. solve_decision. Defined.
#[export] Instance OpTxType_eq_dec : EqDecision OpTxType.
Proof. solve_decision. Defined.

(** [DepositTransactionParts::new(source_hash, mint, is_system_transaction)] *)
Record DepositParts : Type := mkDepositParts {
  source_hash : B256;
  mint : option N;
  is_system_transaction : bool;
}.

(** op-revm's [OpTransaction<TxEnv>]. *)
Record OpTransaction : Type := mkOpTransaction {
  op_base : TxEnv;
  op_enveloped_tx : option (list N);
  op_deposit : DepositParts;
}.

(** The receipt envelopes: the type tag and the receipt; the bloom is computed
    by alloy from the receipt. *)
Inductive OpReceiptEnvelope `{Revm} : Type :=
  | OpPlainReceipt (t : OpTxType) (r : Receipt)
  | OpDepositReceipt (r : Receipt) (deposit_nonce deposit_receipt_version : option N).

Class Alloy `{Revm} : Type := {
  (** the EIP-2718 type byte *)
  tx_type_byte : TxType → N;
  op_tx_type_byte : OpTxType → N;
  (** [OpTxTr::is_deposit] *)
  is_deposit : OpTransaction → bool;
  BASE_FEE_RECIPIENT : Address;
  L1_FEE_RECIPIENT : Address;
  OPERATOR_FEE_RECIPIENT : Address;
  (** RLP, EIP-2718 encodings and the trie root *)
  encode_index : nat → list N;
  encode_receipt : TxType → Receipt → list N;
  encode_op_receipt : OpReceiptEnvelope → list N;
  trie_root : list (list N * list N) → B256;
}.

(** What the [Transaction] trait of alloy answers for an RPC transaction. *)
Record RpcTx {Ty : Type} : Type := mkRpcTx {
  rpc_type : Ty;
  rpc_signer : Address;
  rpc_gas_limit : N;
  rpc_gas_price : option N;
  rpc_max_fee_per_gas : N;
  rpc_max_priority_fee_per_gas : option N;
  rpc_kind : TxKind;
  rpc_value : U256;
  rpc_input : list N;
  rpc_nonce : N;
  rpc_chain_id : option N;
  rpc_access_list : option (list (Address * list B256));
  rpc_blob_versioned_hashes : option (list B256);
  rpc_max_fee_per_blob_gas : option N;
  rpc_authorization_list : option (list SignedAuthorization);
}.
Arguments RpcTx : clear implicits.

(** An RPC transaction of an OP chain. *)
Record OpRpcTx : Type := mkOpRpcTx {
  op_rpc : RpcTx OpTxType;
  op_is_deposit : bool;
  op_as_deposit : option (B256 * N * bool);
  op_encoded_2718 : list N;
}.

Inductive GasPriceError : Type := MissingGasPrice.

(** The [TxEnv] both chains build. *)
Definition tx_env_of {Ty} (ty : N) (gas_price : N) (tx : RpcTx Ty) : TxEnv := {|
  tx_type := ty;
  caller := tx.(rpc_signer);
  tx_gas_limit := tx.(rpc_gas_limit);
  tx_gas_price := gas_price;
  tx_gas_priority_fee := tx.(rpc_max_priority_fee_per_gas);
  tx_kind := tx.(rpc_kind);
  tx_value := tx.(rpc_value);
  tx_data := tx.(rpc_input);
  tx_nonce := tx.(rpc_nonce);
  tx_chain_id := tx.(rpc_chain_id);
  tx_access_list := default [] tx.(rpc_access_list);
  tx_blob_hashes := default [] tx.(rpc_blob_versioned_hashes);
  tx_max_fee_per_blob_gas := default 0%N tx.(rpc_max_fee_per_blob_gas);
  tx_authorization_list := default [] tx.(rpc_authorization_list);
|}.

(** ** Ethereum *)

Record PevmEthereum : Type := mkPevmEthereum { eth_id : N }.
Definition mainnet : PevmEthereum := mkPevmEthereum 1.

Section ethereum.
Context `{Revm, !Alloy, SpecOrder}.

Definition get_ethereum_gas_price (tx : RpcTx TxType) : result GasPriceError N :=
  match tx.(rpc_type) with
  | TyLegacy | TyEip2930 =>
      match tx.(rpc_gas_price) with Some p => Ok p | None => Err MissingGasPrice end
  | TyEip1559 | TyEip4844 | TyEip7702 => Ok tx.(rpc_max_fee_per_gas)
  end.

Definition eth_get_block_spec (header : Header) : SpecId :=
  let ts := header.(h_timestamp) in
  let n := header.(h_number) in
  (if 1710338135 <=? ts then CANCUN
   else if 1681338455 <=? ts then SHANGHAI
   else if 15537394 <=? n then MERGE
   else if 12965000 <=? n then LONDON
   else if 12244000 <=? n then BERLIN
   else if 9069000 <=? n then ISTANBUL
   else if 7280000 <=? n then PETERSBURG
   else if 4370000 <=? n then BYZANTIUM
   else if 2675000 <=? n then SPURIOUS_DRAGON
   else if 2463000 <=? n then TANGERINE
   else if 1150000 <=? n then HOMESTEAD
   else FRONTIER)%N.

Definition eth_build_cfg (c : PevmEthereum) (spec_id : SpecId) : CfgEnv SpecId :=
  mkCfgEnv _ spec_id c.(eth_id)
    (if spec_ge spec_id PRAGUE then Some MAX_BLOBS_PRAGUE
     else if spec_ge spec_id CANCUN then Some MAX_BLOBS_CANCUN else None)
    false.

Definition eth_get_tx_env (tx : RpcTx TxType) : result GasPriceError TxEnv :=
  let? gas_price := get_ethereum_gas_price tx in
  Ok (tx_env_of (tx_type_byte tx.(rpc_type)) gas_price tx).

Definition eth_build_mv_memory (benv : BlockEnv) (txs : list TxEnv) : MvMemory Bytecode :=
  let block_size := length txs in
  let beneficiary_location_hash := hash_deterministic (LocBasic benv.(b_beneficiary)) in
  MvMemory.new block_size
    [(beneficiary_location_hash, seq 0 block_size)] [benv.(b_beneficiary)].

Definition eth_get_rewards (beneficiary_location_hash : MemoryLocationHash)
    (gas_used gas_price : U256) : list (MemoryLocationHash * U256) :=
  [(beneficiary_location_hash, u256_mul gas_price gas_used)].

(** [calculate_receipt_root]: one leaf per transaction, keyed by its encoded
    index, sorted, then handed to the trie. *)
Definition eth_receipt_leaves (types : list TxType) (tx_results : list PevmTxExecutionResult)
    : list (list N * list N) :=
  imap (λ index p, (encode_index index, encode_receipt p.1 p.2.(receipt)))
    (zip types tx_results).

Definition eth_calculate_receipt_root (spec_id : SpecId) (txs : list (RpcTx TxType))
    (tx_results : list PevmTxExecutionResult) : result CalculateReceiptRootError B256 :=
  if negb (spec_ge spec_id BYZANTIUM) then Err Unsupported
  else Ok (trie_root (sort_leaves (eth_receipt_leaves (rpc_type <$> txs) tx_results))).

#[export] Instance PevmEthereum_chain : PevmChain PevmEthereum := {|
  EvmTx := TxEnv;
  EvmSpecId := SpecId;
  Transaction := RpcTx TxType;
  BlockSpecError := Empty_set;
  TransactionParsingError := GasPriceError;
  chain_id := eth_id;
  get_block_spec _ header := Ok (eth_get_block_spec header);
  into_spec_id s := s;
  build_cfg := eth_build_cfg;
  get_tx_env _ := eth_get_tx_env;
  tx_env _ tx := tx;
  chain_has_nonce _ cfg _ := (true, cfg);
  build_mv_memory _ := eth_build_mv_memory;
  get_rewards _ h gas_used gas_price _ _ := eth_get_rewards h gas_used gas_price;
  is_eip_1559_enabled _ spec_id := spec_ge spec_id LONDON;
  is_eip_161_enabled _ spec_id := spec_ge spec_id SPURIOUS_DRAGON;
|}.
End ethereum.

(** ** RISE *)

Inductive PevmRise : Type := mkPevmRise.

(** The only [OpSpecId] the sources use. *)
Inductive OpSpecId : Type := JOVIAN.

Definition RISE_CHAIN_ID : N := 4153.

Section rise.
Context `{Revm, !Alloy}.
(** the Ethereum fork that op-revm maps [JOVIAN] to *)
Variable jovian_spec : SpecId.

Definition get_gas_price (tx : RpcTx OpTxType) : result GasPriceError N :=
  match tx.(rpc_type) with
  | OpLegacy | OpEip2930 =>
      match tx.(rpc_gas_price) with Some p => Ok p | None => Err MissingGasPrice end
  | OpEip1559 | OpEip7702 => Ok tx.(rpc_max_fee_per_gas)
  | OpDeposit | OpPostExec => Ok 0%N
  end.

Definition rise_get_tx_env (tx : OpRpcTx) : result GasPriceError OpTransaction :=
  let? gas_price := get_gas_price tx.(op_rpc) in
  Ok {|
    op_base := tx_env_of (op_tx_type_byte tx.(op_rpc).(rpc_type)) gas_price tx.(op_rpc);
    op_enveloped_tx := if tx.(op_is_deposit) then None else Some tx.(op_encoded_2718);
    op_deposit :=
      match tx.(op_as_deposit) with
      | Some (source_hash, mint, is_system) => mkDepositParts source_hash (Some mint) is_system
      | None => mkDepositParts 0 None false
      end;
  |}.

(** The four fee recipients. *)
Definition fee_recipients (benv : BlockEnv) : list Address :=
  [benv.(b_beneficiary); BASE_FEE_RECIPIENT; L1_FEE_RECIPIENT; OPERATOR_FEE_RECIPIENT].

(** [estimated_locations.entry(l).or_insert_with(..).push(index)] *)
Definition push_estimate (index : TxIdx) (est : gmap MemoryLocationHash (list TxIdx))
    (l : MemoryLocationHash) : gmap MemoryLocationHash (list TxIdx) :=
  <[l := default [] (est !! l) ++ [index]]> est.

Definition estimate_tx (benv : BlockEnv) (est : gmap MemoryLocationHash (list TxIdx))
    (p : TxIdx * OpTransaction) : gmap MemoryLocationHash (list TxIdx) :=
  if is_deposit p.2 then est
  else foldl (push_estimate p.1) est
         ((λ a, hash_deterministic (LocBasic a)) <$> fee_recipients benv).

Definition rise_build_mv_memory (benv : BlockEnv) (txs : list OpTransaction) : MvMemory Bytecode :=
  MvMemory.new (length txs)
    (map_to_list (foldl (estimate_tx benv) ∅ (imap pair txs)))
    (fee_recipients benv).

Definition rise_get_rewards (beneficiary_location_hash : MemoryLocationHash)
    (gas_used gas_price : U256) (basefee : N) (tx : OpTransaction)
    : list (MemoryLocationHash * U256) :=
  if is_deposit tx then []
  else
    [ (beneficiary_location_hash, u256_mul gas_price gas_used);
      (hash_deterministic (LocBasic BASE_FEE_RECIPIENT), u256_mul basefee gas_used);
      (hash_deterministic (LocBasic L1_FEE_RECIPIENT), 0%N);
      (hash_deterministic (LocBasic OPERATOR_FEE_RECIPIENT), 0%N) ].

(** The envelope of one receipt.  [account.nonce - 1] panics on a sender with
    nonce 0. *)
Definition rise_receipt_envelope (tx : OpRpcTx) (tx_result : PevmTxExecutionResult)
    : option (result CalculateReceiptRootError OpReceiptEnvelope) :=
  match tx.(op_rpc).(rpc_type) with
  | OpDeposit =>
      match tx_result.(result_state) !! tx.(op_rpc).(rpc_signer) with
      | Some (Some account) =>
          if (account.(ea_nonce) =? 0)%N then None
          else Some (Ok (OpDepositReceipt tx_result.(receipt)
                           (Some (account.(ea_nonce) - 1)%N) (Some 1%N)))
      | _ => Some (Err OpDepositMissingSender)
      end
  | t => Some (Ok (OpPlainReceipt t tx_result.(receipt)))
  end.

Fixpoint rise_receipt_leaves (index : nat) (l : list (OpRpcTx * PevmTxExecutionResult))
    : option (result CalculateReceiptRootError (list (list N * list N))) :=
  match l with
  | [] => Some (Ok [])
  | (tx, tx_result) :: l' =>
      match rise_receipt_envelope tx tx_result with
      | None => None
      | Some (Err e) => Some (Err e)
      | Some (Ok envelope) =>
          match rise_receipt_leaves (S index) l' with
          | Some (Ok leaves) =>
              Some (Ok ((encode_index index, encode_op_receipt envelope) :: leaves))
          | r => r
          end
      end
  end.

Definition rise_calculate_receipt_root (txs : list OpRpcTx)
    (tx_results : list PevmTxExecutionResult) : option (result CalculateReceiptRootError B256) :=
  match rise_receipt_leaves 0 (zip txs tx_results) with
  | Some (Ok leaves) => Some (Ok (trie_root (sort_leaves leaves)))
  | Some (Err e) => Some (Err e)
  | None => None
  end.

(** Deposits have no nonce; the nonce check of the EVM is set to match. *)
Definition rise_has_nonce (cfg : CfgEnv OpSpecId) (tx : OpTransaction) : bool * CfgEnv OpSpecId :=
  (negb (is_deposit tx),
   mkCfgEnv _ cfg.(cfg_spec) cfg.(cfg_chain_id) cfg.(cfg_max_blobs_per_tx) (is_deposit tx)).

Definition rise_chain : PevmChain PevmRise := {|
  EvmTx := OpTransaction;
  EvmSpecId := OpSpecId;
  Transaction := OpRpcTx;
  BlockSpecError := Empty_set;
  TransactionParsingError := GasPriceError;
  chain_id _ := RISE_CHAIN_ID;
  get_block_spec _ _ := Ok JOVIAN;
  into_spec_id _ := jovian_spec;
  build_cfg _ spec_id := mkCfgEnv _ spec_id RISE_CHAIN_ID None false;
  get_tx_env _ := rise_get_tx_env;
  tx_env _ tx := tx.(op_base);
  chain_has_nonce _ := rise_has_nonce;
  build_mv_memory _ := rise_build_mv_memory;
  get_rewards _ := rise_get_rewards;
  is_eip_1559_enabled _ _ := true;
  is_eip_161_enabled _ _ := true;
|}.
End rise.

(** ** The promises hold *)

(** C26. Ethereum keeps the promises of [ChainLaws]: a memory slot per
    transaction; the only location estimated in advance, the beneficiary's
    account, is rewarded by every transaction, so that every estimate is
    overwritten by the transaction it stands for; the rewarded account is
    evaluated at the end of the block. *)
Theorem ethereum_laws `{Revm, !Alloy, SpecOrder} : ChainLaws PevmEthereum.
Proof.
  split; simpl.
  - done.
  - intros _ benv txs l i e gu gp He.
    apply (entry_at_new (Bytecode:=Bytecode) (length txs) [(_, seq 0 (length txs))]
      [b_beneficiary benv]) in He as (-> & idxs & Hin%list_elem_of_singleton & Hi). simplify_eq.
    apply elem_of_seq in Hi as [_ Hi]. destruct (lookup_lt_is_Some_2 _ _ Hi) as [tx Htx].
    exists tx. split_and!; [done..|]. by left.
  - intros _ benv txs tx l gu gp _ ->%list_elem_of_singleton.
    exists (b_beneficiary benv). split; [set_solver|done].
  - done.
Qed.

Section rise_laws.
Context `{Revm, !Alloy}.
Implicit Types (est : gmap MemoryLocationHash (list TxIdx)).

Definition recipient_hashes (benv : BlockEnv) : list MemoryLocationHash :=
  (λ a, hash_deterministic (LocBasic a)) <$> fee_recipients benv.

Lemma push_estimates_elem i ls est l j :
  j ∈ default [] (foldl (push_estimate i) est ls !! l) →
  j ∈ default [] (est !! l) ∨ (j = i ∧ l ∈ ls).
Proof.
  revert est. induction ls as [|l0 ls IH]; intros est; simpl; [by left|].
  intros [Hj|[-> Hl]]%IH; [|right; split; [done|by right]].
  unfold push_estimate in Hj. destruct (decide (l0 = l)) as [->|].
  - rewrite lookup_insert_eq in Hj. simpl in Hj.
    apply elem_of_app in Hj as [?| ->%list_elem_of_singleton]; [by left|].
    right. split; [done|by left].
  - rewrite lookup_insert_ne in Hj by done. by left.
Qed.

Lemma estimate_txs_elem benv ps est l j :
  j ∈ default [] (foldl (estimate_tx benv) est ps !! l) →
  j ∈ default [] (est !! l) ∨
  ∃ tx, (j, tx) ∈ ps ∧ is_deposit tx = false ∧ l ∈ recipient_hashes benv.
Proof.
  revert est. induction ps as [|[i tx] ps IH]; intros est; simpl; [by left|].
  intros [Hj|(tx' & ? & ? & ?)]%IH.
  - unfold estimate_tx in Hj. cbn [fst snd] in Hj. destruct (is_deposit tx) eqn:Hd; [by left|].
    apply (push_estimates_elem i (recipient_hashes benv)) in Hj as [?|[-> ?]]; [by left|].
    right. exists tx. split_and!; [by left|done..].
  - right. exists tx'. split_and!; [by right|done..].
Qed.

Lemma rise_rewards_locations benv gu gp bf tx :
  is_deposit tx = false →
  (rise_get_rewards (hash_deterministic (LocBasic benv.(b_beneficiary))) gu gp bf tx).*1
  = recipient_hashes benv.
Proof. intros Hd. unfold rise_get_rewards. by rewrite Hd. Qed.

(** C27. RISE keeps them too: deposits are neither estimated nor rewarded,
    every other transaction rewards exactly the four fee recipients that are
    estimated for it and evaluated at the end of the block. *)
Theorem rise_laws jovian_spec : @ChainLaws _ PevmRise (rise_chain jovian_spec).
Proof.
  split; simpl.
  - done.
  - intros _ benv txs l i e gu gp He.
    apply (entry_at_new (Bytecode:=Bytecode) (length txs) (map_to_list _) (fee_recipients benv))
      in He as (-> & idxs & Hin%elem_of_map_to_list & Hi).
    destruct (estimate_txs_elem benv (imap pair txs) ∅ l i) as [Hj|(tx & Htx & Hd & Hl)].
    + by rewrite Hin.
    + rewrite lookup_empty in Hj. simpl in Hj. by apply elem_of_nil in Hj.
    + apply elem_of_lookup_imap in Htx as (j & tx' & [= -> ->] & Hj). exists tx'.
      split_and!; [done..|]. by rewrite rise_rewards_locations.
  - intros _ benv txs tx l gu gp _. destruct (is_deposit tx) eqn:Hd.
    + unfold rise_get_rewards. rewrite Hd. by intros ?%elem_of_nil.
    + rewrite rise_rewards_locations by done. intros (a & -> & Ha)%list_elem_of_fmap.
      exists a. split; [|done]. unfold fee_recipients in Ha. set_solver.
  - done.
Qed.
End rise_laws.

(** ** Hard forks follow the header *)

Section forks.
Context `{Revm, !Alloy, SpecOrder}.

Definition header_le (h h' : Header) : Prop :=
  (h.(h_number) ≤ h'.(h_number))%N ∧ (h.(h_timestamp) ≤ h'.(h_timestamp))%N.

Lemma eth_spec_index_mono h h' :
  header_le h h' → fork_index (eth_get_block_spec h) ≤ fork_index (eth_get_block_spec h').
Proof.
  destruct h as [n t], h' as [n' t']. intros [Hn Ht]. unfold eth_get_block_spec. simpl in *.
  repeat (match goal with |- context [if (?a <=? ?b)%N then _ else _] =>
    destruct (N.leb_spec a b) end; try (exfalso; lia); try (simpl; lia)).
Qed.

(** C28. The hard fork never goes back along the chain, and the two questions
    the executor asks about it have the answers of mainnet's history: EIP-161
    from block 2675000 on, EIP-1559 from block 12965000 on (or from the
    timestamps that select a later fork). *)
Theorem ethereum_forks (c : PevmEthereum) :
  chronological →
  (∀ h h', header_le h h' →
    spec_rank (eth_get_block_spec h) ≤ spec_rank (eth_get_block_spec h')) ∧
  ∀ h, (is_eip_161_enabled c (eth_get_block_spec h) = true ↔
          (2675000 ≤ h.(h_number) ∨ 1681338455 ≤ h.(h_timestamp))%N) ∧
       (is_eip_1559_enabled c (eth_get_block_spec h) = true ↔
          (12965000 ≤ h.(h_number) ∨ 1681338455 ≤ h.(h_timestamp))%N).
Proof.
  intros Hc. split; [intros h h' Hh; apply Hc; by apply eth_spec_index_mono|].
  intros h. simpl. unfold spec_ge. rewrite !Nat.leb_le, !(Hc _ _).
  unfold eth_get_block_spec.
  repeat match goal with |- context [(?a <=? ?b)%N] =>
    destruct (N.leb_spec a b); [simpl; split; split; intros; lia|] end.
  simpl. split; split; intros; lia.
Qed.
End forks.

(** ** Concrete parameters *)

Definition demo_alloy : @Alloy demo_revm := {|
  tx_type_byte t := match t with
    | TyLegacy => 0 | TyEip2930 => 1 | TyEip1559 => 2 | TyEip4844 => 3 | TyEip7702 => 4 end%N;
  op_tx_type_byte t := match t with
    | OpLegacy => 0 | OpEip2930 => 1 | OpEip1559 => 2 | OpEip7702 => 4 | OpDeposit => 126
    | OpPostExec => 127 end%N;
  is_deposit tx := (tx.(op_base).(tx_type) =? 126)%N;
  BASE_FEE_RECIPIENT := 901;
  L1_FEE_RECIPIENT := 902;
  OPERATOR_FEE_RECIPIENT := 903;
  encode_index i := [N.of_nat i];
  encode_receipt t r := [if r.(r_status) then 1%N else 0%N; r.(r_cumulative_gas_used)];
  encode_op_receipt e := [];
  trie_root leaves := N.of_nat (length leaves);
|}.

Definition demo_order : SpecOrder := fork_index.

Lemma ethereum_forks_witness :
  @is_eip_161_enabled demo_revm PevmEthereum
    (@PevmEthereum_chain demo_revm demo_alloy demo_order) mainnet
    (eth_get_block_spec (mkHeader 2675000 0 0 0 0 None 0 0 None)) = true.
Proof.
  apply (proj1 (proj2 (@ethereum_forks demo_revm demo_alloy demo_order mainnet
    (λ s s', iff_refl _)) _)).
  left. vm_compute. discriminate.
Defined.
