(* ===== verification/Vm.v ===== *)
(** * Executing one transaction (src/crates/pevm/src/vm.rs, [Vm::execute])

    The EVM is third party: a program over the database ([evm_prog], in
    [Validation.v]) that depends on the configuration, the block environment
    and the transaction.  It is run by a handler that skips the beneficiary
    reward ([NoBeneficiaryHandler]); the reward is added to the write set
    here.

    The queries of a run see a sequence of memories; the effects that follow
    (new codes, lazy addresses, [record]) are applied to the memory as it is
    when the run has ended. *)

From S2P Require Import Prelude Uint Types MvMemory Storage VmDb Validation Chain.

(** ** Results of the EVM *)

(** revm's [ExecutionResult] as the sources observe it. *)
Record ExecutionResult `{Revm} : Type := mkExecutionResult {
  is_success : bool;
  tx_gas_used : N;
  into_logs : list Log;
}.

(** The errors of the EVM itself; the other ones are those of the queries. *)
Inductive evm_error : Type :=
  | ErrTransaction (e : InvalidTransaction)
  | ErrOther (message : string).

Definition execution_error_of (e : evm_error) : ExecutionError :=
  match e with ErrTransaction e => EvmTransaction e | ErrOther m => EvmOther m end.

(** What the handler ends with when no query failed. *)
Inductive evm_outcome `{Revm} : Type :=
  | EvmExecuted (r : ExecutionResult) (state : EvmState)
  | EvmFailed (e : evm_error).

Definition receipt_from_revm `{Revm} (r : ExecutionResult) : Receipt :=
  mkReceipt _ r.(is_success) r.(tx_gas_used) r.(into_logs).

(** [state_transitions_from_revm]; the conversion of an account may panic. *)
Definition state_transition `{Revm} (is_eip_161_enabled : bool) (p : Address * Account)
    : option (Address * option EvmAccount) :=
  let '(address, account) := p in
  if account.(is_selfdestructed) || (account.(is_empty) && is_eip_161_enabled)
  then Some (address, None)
  else (λ a, (address, Some a)) <$> evm_account_from account.

Definition state_transitions_from_revm `{Revm} (is_eip_161_enabled : bool) (state : EvmState)
    : option (list (Address * option EvmAccount)) :=
  mapM (state_transition is_eip_161_enabled)
    (filter (λ p, p.2.(is_touched) = true) (map_to_list state)).

Section vm.
Context `{Revm}.
Abbreviation MvMemory := (MvMemory Bytecode).

(** ** The write set *)

(** The [Basic] location of a touched account. *)
Definition basic_write (db : VmDb) (is_eip_161_enabled : bool) (address : Address)
    (account : Account) (is_new_code : bool) : WriteSet :=
  let h := hash_deterministic (LocBasic address) in
  let read_account := db.(read_accounts) !! h in
  let changed :=
    is_new_code ||
    match read_account with
    | None => true
    | Some (b, _) =>
        negb (b.(ab_nonce) =? account.(info).(info_nonce))%N
        || negb (b.(ab_balance) =? account.(info).(info_balance))%N
    end in
  if changed then
    if db.(is_lazy) then
      if (h =? db.(from_hash))%N then
        [(h, LazySender (U256_MAX - account.(info).(info_balance)))]
      else if bool_decide (Some h = db.(to_hash)) then [(h, LazyRecipient db.(db_tx).(tx_value))]
      else []
    else if negb is_eip_161_enabled || negb account.(is_empty) then
      [(h, ValBasic (mkAccountBasic account.(info).(info_balance) account.(info).(info_nonce)))]
    else []
  else [].

(** [new_bytecodes.entry(code_hash).or_insert_with(|| code.clone().unwrap())] *)
Definition insert_bytecode (account : Account) : stm MvMemory unit := λ s,
  match s.(new_bytecodes) !! account.(info).(info_code_hash) with
  | Some _ => Some (tt, s)
  | None =>
      match account.(info).(info_code) with
      | Some code =>
          Some (tt, set_new_bytecodes
            (<[account.(info).(info_code_hash) := code]> s.(new_bytecodes)) s)
      | None => None
      end
  end.

(** The body of [for (address, account) in &state]. *)
Definition account_writes (db : VmDb) (is_eip_161_enabled : bool) (p : Address * Account)
    : stm MvMemory WriteSet :=
  let '(address, account) := p in
  let code_location := hash_deterministic (LocCodeHash address) in
  if account.(is_selfdestructed) then mret [(code_location, SelfDestructed)]
  else
    let slots := (λ sv, (hash_deterministic (LocStorage address sv.1), ValStorage sv.2))
                   <$> account.(changed_storage_slots) in
    if account.(is_touched) then
      let has_code := negb account.(is_empty_code_hash) in
      let is_new_code := has_code &&
        match db.(read_accounts) !! hash_deterministic (LocBasic address) with
        | Some (_, Some _) => false
        | _ => true
        end in
      let basics := basic_write db is_eip_161_enabled address account is_new_code in
      if is_new_code : bool then
        insert_bytecode account ;;
        mret (basics ++ [(code_location, ValCodeHash account.(info).(info_code_hash))] ++ slots)
      else mret (basics ++ slots)
    else mret slots.

Fixpoint state_writes (db : VmDb) (is_eip_161_enabled : bool) (l : list (Address * Account))
    : stm MvMemory WriteSet :=
  match l with
  | [] => mret []
  | p :: l' =>
      w ← account_writes db is_eip_161_enabled p;
      ws ← state_writes db is_eip_161_enabled l';
      mret (w ++ ws)
  end.

(** ** Rewards *)

Definition effective_gas_price (tx : TxEnv) (benv : BlockEnv) (is_eip_161_enabled : bool) : N :=
  let gas_price :=
    match tx.(tx_gas_priority_fee) with
    | Some priority_fee =>
        N.min tx.(tx_gas_price) (saturating_add u128_max priority_fee benv.(b_basefee))
    | None => tx.(tx_gas_price)
    end in
  if is_eip_161_enabled then saturating_sub gas_price benv.(b_basefee) else gas_price.

Definition reward_value (value : MemoryValue) (amount : U256) : result ReadError MemoryValue :=
  match value with
  | ValBasic b => Ok (ValBasic (mkAccountBasic (u256_add b.(ab_balance) amount) b.(ab_nonce)))
  | LazySender subtraction => Ok (LazySender (saturating_sub subtraction amount))
  | LazyRecipient addition => Ok (LazyRecipient (u256_add addition amount))
  | _ => Err InvalidMemoryValueType
  end.

(** Update the first entry of the recipient, or append one. *)
Fixpoint apply_reward (recipient : MemoryLocationHash) (amount : U256) (ws : WriteSet)
    : result ReadError WriteSet :=
  match ws with
  | [] => Ok [(recipient, LazyRecipient amount)]
  | (l, x) :: ws' =>
      if (l =? recipient)%N then let? x' := reward_value x amount in Ok ((l, x') :: ws')
      else let? ws'' := apply_reward recipient amount ws' in Ok ((l, x) :: ws'')
  end.

Fixpoint apply_rewards (rewards : list (MemoryLocationHash * U256)) (ws : WriteSet)
    : result ReadError WriteSet :=
  match rewards with
  | [] => Ok ws
  | (recipient, amount) :: rewards' =>
      let? ws' := apply_reward recipient amount ws in apply_rewards rewards' ws'
  end.

(** ** [Vm::execute] *)

(** Errors of the EVM that are not database errors: retry behind the previous
    transaction when funds or a nonce are missing. *)
Definition vm_error_from_evm (i : TxIdx) (err : evm_error) : VmExecutionError :=
  match err with
  | ErrTransaction (LackOfFundForMaxFee _ _) | ErrTransaction NonceTooHigh =>
      if 0 <? i then VmBlocking (i - 1) else VmExecutionFailed (execution_error_of err)
  | _ => VmExecutionFailed (execution_error_of err)
  end.

Context {S : Type} `{!Storage S} {C : Type} `{!PevmChain C}.
Variable evm : CfgEnv EvmSpecId → BlockEnv → EvmTx → evm_prog evm_outcome.

(** Everything that does not change during a block. *)
Record Vm : Type := mkVm {
  vm_chain : C;
  vm_spec : EvmSpecId;
  vm_block_env : BlockEnv;
  vm_txs : list EvmTx;
  vm_storage : S;
}.

Definition vm_is_eip_161_enabled (vm : Vm) : bool := is_eip_161_enabled vm.(vm_chain) vm.(vm_spec).
Definition beneficiary_location_hash (vm : Vm) : MemoryLocationHash :=
  hash_deterministic (LocBasic vm.(vm_block_env).(b_beneficiary)).

(** The memory-only part up to the end of [run]: the database after it, and
    what the EVM answered. *)
Definition run_tx (vm : Vm) (mems : nat → MvMemory) (i : TxIdx) (full_tx : EvmTx) (db : VmDb)
    : option (result ReadError evm_outcome * VmDb) :=
  let tx := tx_env vm.(vm_chain) full_tx in
  let '(has_nonce, cfg) := chain_has_nonce vm.(vm_chain) (build_cfg vm.(vm_chain) vm.(vm_spec)) full_tx in
  db_bind (set_tx vm.(vm_storage) (mems 0) i tx (caller_hash tx) (recipient_hash tx) has_nonce)
    (λ _, run_prog vm.(vm_storage) mems 1 (evm cfg vm.(vm_block_env) full_tx)) db.

(** The write set of a successful run, rewards included. *)
Definition tx_writes (vm : Vm) (full_tx : EvmTx) (db : VmDb) (r : ExecutionResult)
    (state : EvmState) : stm MvMemory (result ReadError WriteSet) :=
  let tx := tx_env vm.(vm_chain) full_tx in
  ws ← state_writes db (vm_is_eip_161_enabled vm) (map_to_list state);
  let gas_price := effective_gas_price tx vm.(vm_block_env) (vm_is_eip_161_enabled vm) in
  let rewards := get_rewards vm.(vm_chain) (beneficiary_location_hash vm) r.(tx_gas_used) gas_price
                   vm.(vm_block_env).(b_basefee) full_tx in
  mret (apply_rewards rewards ws).

(** [is_lazy]: remember the two ends of the transfer; [tx.kind.to().unwrap()]. *)
Definition register_lazy (db : VmDb) : stm MvMemory unit :=
  if db.(is_lazy) then
    match db.(db_tx).(tx_kind) with
    | Call to => add_lazy_addresses [db.(db_tx).(caller); to]
    | Create => stm_stuck
    end
  else mret tt.

Definition exec_flags (i : TxIdx) (db : VmDb) (wrote_new : bool) : FinishExecFlags :=
  let flags := if (0 <? i) && negb db.(is_lazy) then NeedValidation else flags_empty in
  if wrote_new then flags_union flags WroteNewLocation else flags.

(** The result slot: a result of an earlier incarnation is reused, its state
    cleared and extended. *)
Definition fill_slot (result_slot : option PevmTxExecutionResult) (receipt : Receipt)
    (state : list (Address * option EvmAccount)) : PevmTxExecutionResult :=
  match result_slot with
  | Some _ => mkTxResult _ receipt (foldl (λ m p, <[p.1 := p.2]> m) ∅ state)
  | None => mkTxResult _ receipt (list_to_map (rev state))
  end.

(** The answer, the database left behind and the result slot. *)
Definition execute (vm : Vm) (mems : nat → MvMemory) (v : TxVersion) (db : VmDb)
    (result_slot : option PevmTxExecutionResult)
    : stm MvMemory (result VmExecutionError FinishExecFlags * VmDb * option PevmTxExecutionResult) :=
  let i := v.(tx_idx) in
  match vm.(vm_txs) !! i with
  | None => stm_stuck
  | Some full_tx =>
      match run_tx vm mems i full_tx db with
      | None => stm_stuck
      | Some (Err e, db') => mret (Err (vm_error_from_read e), db', result_slot)
      | Some (Ok (EvmFailed e), db') => mret (Err (vm_error_from_evm i e), db', result_slot)
      | Some (Ok (EvmExecuted r state), db') =>
          ws ← tx_writes vm full_tx db' r state;
          match ws with
          | Err e => mret (Err (vm_error_from_read e), db', result_slot)
          | Ok write_set =>
              register_lazy db' ;;
              wrote_new ← record v db'.(read_set) write_set;
              match state_transitions_from_revm (vm_is_eip_161_enabled vm) state with
              | None => stm_stuck
              | Some transitions =>
                  mret (Ok (exec_flags i db' wrote_new), set_read_set ∅ db',
                    Some (fill_slot result_slot (receipt_from_revm r) transitions))
              end
          end
      end
  end.
End vm.

(** ** Blocking transactions are lower *)

(** A query keeps the transaction index and only reports lower ones as
    blocking. *)
Definition lower {A} (m : dbm A) : Prop :=
  ∀ db r db', m db = Some (r, db') →
    db'.(db_tx_idx) = db.(db_tx_idx) ∧ ∀ j, r = Err (Blocking j) → j < db.(db_tx_idx).

Lemma lower_bind {A B} (m : dbm A) (k : A → dbm B) :
  lower m → (∀ a, lower (k a)) → lower (db_bind m k).
Proof.
  intros Hm Hk db r db'. unfold db_bind.
  destruct (m db) as [[[a|e] db1]|] eqn:Hm1; [| |done].
  - intros Hk1. destruct (Hm _ _ _ Hm1) as [<- _]. by apply (Hk a).
  - intros ?; simplify_eq. destruct (Hm _ _ _ Hm1) as [? He]. split; [done|].
    intros j ?; simplify_eq. by apply He.
Qed.

Lemma lower_ret {A} (a : A) : lower (db_ret a).
Proof. intros db r db' Hr. unfold db_ret in Hr. by simplify_eq. Qed.

(** A query depending on the database it starts from. *)
Lemma lower_dep {A} (m : VmDb → dbm A) :
  (∀ db r db', m db db = Some (r, db') →
    db'.(db_tx_idx) = db.(db_tx_idx) ∧ ∀ j, r = Err (Blocking j) → j < db.(db_tx_idx)) →
  lower (λ db, m db db).
Proof. done. Qed.

Lemma lower_err {A} e : (∀ j, e ≠ Blocking j) → lower (@db_err A e).
Proof. intros He db r db' Hr. unfold db_err in Hr. simplify_eq. split; [done|]. naive_solver. Qed.

Lemma lower_read_origins l : lower (read_origins_entry l).
Proof. intros db r db' Hr. unfold read_origins_entry in Hr. by simplify_eq. Qed.

Lemma lower_put l os : lower (put_read_origins l os).
Proof. intros db r db' Hr. unfold put_read_origins in Hr. by simplify_eq. Qed.

Lemma lower_push l os o : lower (push_origin l os o).
Proof.
  unfold push_origin. destruct (last os); [|apply lower_put].
  case_decide; [by apply lower_err|apply lower_ret].
Qed.

Section lower_queries.
Context `{Revm} {S : Type} `{!Storage S}.
Variable st : S.
Implicit Types (mem : MvMemory Bytecode).

Lemma lower_from_storage {A} (r : result Error A) : lower (from_storage r).
Proof.
  intros db r' db' Hr. unfold from_storage, db_lift in Hr. simplify_eq. split; [done|].
  by destruct r.
Qed.

Lemma lower_push_then {A} l os o (k : dbm A) : lower k → lower (push_origin l os o ;; k).
Proof. intros Hk. apply lower_bind; [apply lower_push|done]. Qed.

Lemma lower_get_code_hash mem a : lower (get_code_hash st mem a).
Proof.
  apply lower_bind; [apply lower_read_origins|]. intros os db r db'.
  destruct (latest _ _ _) as [[i [inc []|]]|];
    try apply (lower_push_then _ _ FromStorage), lower_from_storage.
  - apply (lower_push_then _ _ (FromMvMemory _)), lower_ret.
  - by apply lower_err.
Qed.

Lemma latest_lt mem l n k e : latest mem l n = Some (k, e) → k < n.
Proof.
  rewrite latest_walk. destruct (walk mem l n) as [|[k' e'] es] eqn:Hw; [done|].
  intros ?; simplify_eq/=. apply (elem_of_walk mem l n k e). rewrite Hw. left.
Qed.

Lemma lower_db_storage mem a i : lower (db_storage st mem a i).
Proof.
  apply lower_bind; [apply lower_read_origins|]. intros os db r db'.
  destruct (0 <? _); [|apply (lower_push_then _ _ FromStorage), lower_from_storage].
  destruct (latest _ _ _) as [[k [inc []|]]|] eqn:Hl; try (by apply lower_err).
  - apply (lower_push_then _ _ (FromMvMemory _)), lower_ret.
  - unfold db_err. intros ?; simplify_eq. split; [done|]. intros j ?; simplify_eq.
    by eapply latest_lt.
  - apply (lower_push_then _ _ FromStorage), lower_from_storage.
Qed.

Lemma eval_lazy_blocking prev es e j :
  eval_lazy prev es e = Some (Err (Blocking j)) → ∃ en, (j, en) ∈ es.
Proof.
  revert e. induction es as [|[k [inc x|]] es IH]; intros e; [done| |].
  - rewrite eval_lazy_cons. destruct (eval_guard _ _ _) as [[]|]; [|done..].
    destruct (eval_value _ _ _) as [e'|err] eqn:Hv.
    + destruct (final_account e'); [done|]. intros [en Hen]%IH. exists en. by right.
    + unfold eval_value in Hv. intros ?; simplify_eq. destruct x; simplify_eq; case_match; done.
  - simpl. intros ?; simplify_eq. eexists. by left.
Qed.

Lemma basic_from_storage_blocking prev a e j : basic_from_storage st prev a e ≠ Err (Blocking j).
Proof. unfold basic_from_storage. repeat case_match; done. Qed.

Lemma lower_basic_finish mem l a acc e : lower (basic_finish st mem l a acc e).
Proof.
  intros db r db'. unfold basic_finish. destruct (u64_max <? _)%N; [done|].
  destruct (_ && _ && _).
  - destruct (Nat.ltb_spec 0 (db_tx_idx db)); unfold db_err; intros ?; simplify_eq;
      (split; [done|]); intros j ?; simplify_eq. lia.
  - apply lower_bind.
    + case_decide; [apply lower_ret|apply lower_get_code_hash].
    + intros ch. apply lower_bind.
      * intros db1 r1 db2. unfold db_lift, lookup_code. intros ?; simplify_eq. split; [done|].
        repeat case_match; done.
      * intros code db1 r1 db2 ?. by simplify_eq.
Qed.

Lemma lower_db_basic mem a : lower (db_basic st mem a).
Proof.
  intros db r db'. unfold db_basic. destruct (hash_basic db a) as [l|]; [|done].
  do 2 (case_match; [intros; by simplify_eq|]).
  apply lower_bind; [apply lower_read_origins|]. intros os db1 r1 db1'.
  set (prev := if decide (os = []) then None else Some os).
  set (es := if 0 <? _ then _ else _).
  destruct (eval_lazy prev es lazy_eval_init) as [[e|err]|] eqn:He; [| |done].
  - destruct (basic_from_storage st prev a e) as [e'|err] eqn:Hs.
    + apply lower_bind; [destruct prev; [apply lower_ret|apply lower_put]|].
      intros _. destruct (final_account e'); [apply lower_basic_finish|apply lower_ret].
    + intros ?; simplify_eq. split; [done|]. intros j ?; simplify_eq.
      by apply basic_from_storage_blocking in Hs.
  - intros ?; simplify_eq. split; [done|]. intros j ?; simplify_eq.
    apply eval_lazy_blocking in He as [en Hen]. subst es.
    destruct (0 <? _); [|by apply elem_of_nil in Hen].
    destruct (data mem !! l) as [m|]; [by apply elem_of_range_rev in Hen as [? _]|].
    by apply elem_of_nil in Hen.
Qed.

Lemma lower_run_prog {R} mems t (p : evm_prog R) : lower (run_prog st mems t p).
Proof.
  revert t. induction p as [r|a k IH|h k IH|a i k IH|n k IH]; intros t; simpl.
  - apply lower_ret.
  - apply lower_bind; auto using lower_db_basic.
  - apply lower_bind; [|auto]. apply lower_bind; [apply lower_from_storage|].
    intros c. apply lower_ret.
  - apply lower_bind; auto using lower_db_storage.
  - apply lower_bind; auto. apply lower_from_storage.
Qed.

Lemma set_tx_idx mem i tx fh th hn db r db' :
  set_tx st mem i tx fh th hn db = Some (r, db') →
  db'.(db_tx_idx) = i ∧ ∀ j, r = Err (Blocking j) → j < i.
Proof.
  unfold set_tx. destruct (tx_kind tx) as [|to]; [intros; by simplify_eq|].
  unfold db_bind.
  destruct (get_code_hash st mem to _) as [[[ch|e] db1]|] eqn:Hg; [| |done];
    destruct (lower_get_code_hash _ _ _ _ _ Hg) as [Hi Hb]; simpl in Hi, Hb.
  - intros Hr. repeat case_match; simplify_eq/=; done.
  - intros ?; simplify_eq. split; [done|]. intros j ?; simplify_eq. by apply Hb.
Qed.
End lower_queries.

(** ** What an execution leaves *)

Section execution.
Context `{Revm} {S : Type} `{!Storage S} {C : Type} `{!PevmChain C}.
Variable evm : CfgEnv EvmSpecId → BlockEnv → EvmTx → evm_prog evm_outcome.
Implicit Types (mem : MvMemory Bytecode) (vm : Vm (S:=S) (C:=C)).

Lemma run_tx_blocking vm mems i full_tx db r db' :
  run_tx evm vm mems i full_tx db = Some (r, db') →
  db'.(db_tx_idx) = i ∧ ∀ j, r = Err (Blocking j) → j < i.
Proof.
  unfold run_tx. destruct (chain_has_nonce _ _ _) as [hn cfg]. unfold db_bind.
  destruct (set_tx _ _ _ _ _ _ _ _) as [[[[]|e] db1]|] eqn:Hs; [| |done];
    destruct (set_tx_idx _ _ _ _ _ _ _ _ _ _ Hs) as [Hi Hb].
  - intros [-> Hl]%lower_run_prog. by rewrite Hi in *.
  - intros ?; simplify_eq. split; [done|]. intros j ?; simplify_eq. by apply Hb.
Qed.

(** The memory grows new codes only, and the codes of what is written. *)
Record codes_grow mem mem' : Prop := {
  grow_data : mem'.(data) = mem.(data);
  grow_last : mem'.(last_locations) = mem.(last_locations);
  grow_lazy : mem'.(lazy_addresses) = mem.(lazy_addresses);
  grow_codes : mem.(new_bytecodes) ⊆ mem'.(new_bytecodes);
}.

Lemma codes_grow_refl mem : codes_grow mem mem.
Proof. done. Qed.

Lemma codes_grow_trans mem1 mem2 mem3 :
  codes_grow mem1 mem2 → codes_grow mem2 mem3 → codes_grow mem1 mem3.
Proof. intros [] []. split; try congruence. by etrans. Qed.

Definition codes_known mem (ws : WriteSet) : Prop :=
  ∀ l h, (l, ValCodeHash h) ∈ ws → is_Some (mem.(new_bytecodes) !! h).

Lemma insert_bytecode_grow account mem u mem' :
  insert_bytecode account mem = Some (u, mem') →
  codes_grow mem mem' ∧ is_Some (mem'.(new_bytecodes) !! account.(info).(info_code_hash)).
Proof.
  unfold insert_bytecode. destruct (new_bytecodes mem !! _) eqn:Hc.
  - intros ?; simplify_eq. split; [done|eauto].
  - destruct (info_code _); intros ?; simplify_eq. split; [split; try done; simpl|].
    + by apply insert_subseteq.
    + simpl. rewrite lookup_insert_eq. eauto.
Qed.

Lemma basic_write_no_code db b a account nc l h :
  (l, ValCodeHash h) ∉ basic_write db b a account nc.
Proof.
  unfold basic_write. repeat case_match; rewrite ?list_elem_of_singleton, ?elem_of_nil; naive_solver.
Qed.

Lemma account_writes_codes db b p mem ws mem' :
  account_writes db b p mem = Some (ws, mem') → codes_grow mem mem' ∧ codes_known mem' ws.
Proof.
  destruct p as [a account]. unfold account_writes, mret, stm_ret.
  assert (∀ mem, codes_known mem ((λ sv, (hash_deterministic (LocStorage a sv.1), ValStorage sv.2))
                   <$> account.(changed_storage_slots))) as Hslots.
  { intros m l h (sv & ? & _)%list_elem_of_fmap. done. }
  assert (∀ mem nc, codes_known mem (basic_write db b a account nc)) as Hbasic.
  { intros m nc l h Hin. by apply basic_write_no_code in Hin. }
  assert (∀ mem ws1 ws2, codes_known mem ws1 → codes_known mem ws2 → codes_known mem (ws1 ++ ws2))
    as Happ by (intros m ws1 ws2 H1 H2 l h [?|?]%elem_of_app; eauto).
  destruct (is_selfdestructed account).
  { intros ?; simplify_eq. split; [done|]. by intros l h ?%list_elem_of_singleton. }
  destruct (is_touched account); [|intros ?; simplify_eq; by split; [|apply Hslots]].
  destruct (negb _ && _);
    [|intros ?; simplify_eq; split; [done|by apply Happ; [apply Hbasic|apply Hslots]]].
  intros (u & mem1 & [Hg Hc]%insert_bytecode_grow & Hr)%stm_bind_Some. simplify_eq. split; [done|]. apply Happ; [apply Hbasic|].
  apply Happ; [|apply Hslots].  intros l h [= -> ->]%list_elem_of_singleton. done.
Qed.

Lemma codes_known_grow mem mem' ws : codes_grow mem mem' → codes_known mem ws → codes_known mem' ws.
Proof. intros [_ _ _ Hg] Hk l h [c Hc]%Hk. exists c. by eapply lookup_weaken. Qed.

Lemma state_writes_codes db b ps mem ws mem' :
  state_writes db b ps mem = Some (ws, mem') → codes_grow mem mem' ∧ codes_known mem' ws.
Proof.
  revert mem ws mem'. induction ps as [|p ps IH]; intros mem ws mem'; simpl.
  { unfold mret, stm_ret. intros ?; simplify_eq. split; [done|]. by intros l h ?%elem_of_nil. }
  intros (w1 & mem1 & [Hg1 Hk1]%account_writes_codes & Hr)%stm_bind_Some.
  apply stm_bind_Some in Hr as (w2 & mem2 & [Hg2 Hk2]%IH & Hr).
  unfold mret, stm_ret in Hr. simplify_eq. split; [by eapply codes_grow_trans|].
  intros l h [?|?]%elem_of_app; [|eauto]. by eapply (codes_known_grow mem1 mem').
Qed.

(** ** Rewards *)

Lemma apply_reward_spec recipient amount ws ws' :
  apply_reward recipient amount ws = Ok ws' →
  recipient ∈ locations ws' ∧ (∀ l, l ∈ locations ws → l ∈ locations ws') ∧
  ∀ l h, (l, ValCodeHash h) ∈ ws' → (l, ValCodeHash h) ∈ ws.
Proof.
  revert ws'. induction ws as [|[l0 x] ws IH]; intros ws'; simpl.
  { intros ?; simplify_eq. split_and!; [by left|by intros ? ?%elem_of_nil|].
    by intros l h ?%list_elem_of_singleton. }
  destruct (N.eqb_spec l0 recipient) as [->|Hne].
  - destruct (reward_value x amount) as [x'|] eqn:Hx; simpl; intros ?; simplify_eq.
    split_and!; [by left|done|]. intros l h [Heq|?]%elem_of_cons; [|by right].
    simplify_eq. destruct x; done.
  - destruct (apply_reward recipient amount ws) as [ws1|] eqn:Hws; simpl; intros ?; simplify_eq.
    destruct (IH _ eq_refl) as (Hr & Hl & Hc). unfold locations in *. csimpl. split_and!.
    + by right.
    + intros l. rewrite !elem_of_cons. naive_solver.
    + intros l h. rewrite !elem_of_cons. naive_solver.
Qed.

Lemma apply_rewards_spec rewards ws ws' :
  apply_rewards rewards ws = Ok ws' →
  (∀ l, l ∈ rewards.*1 → l ∈ locations ws') ∧ (∀ l, l ∈ locations ws → l ∈ locations ws') ∧
  ∀ l h, (l, ValCodeHash h) ∈ ws' → (l, ValCodeHash h) ∈ ws.
Proof.
  revert ws. induction rewards as [|[r a] rewards IH]; intros ws; simpl.
  { intros ?; simplify_eq. split_and!; [by intros ? ?%elem_of_nil|done..]. }
  destruct (apply_reward r a ws) as [ws1|] eqn:H1; simpl; [|done]. intros H2.
  destruct (apply_reward_spec _ _ _ _ H1) as (Hr & Hl & Hc).
  destruct (IH _ H2) as (Hr' & Hl' & Hc'). split_and!; [|eauto..].
  intros l [->|?]%elem_of_cons; eauto.
Qed.
Definition tx_rewards vm (full_tx : EvmTx) (r : ExecutionResult) : list (MemoryLocationHash * U256) :=
  get_rewards vm.(vm_chain) (beneficiary_location_hash vm) r.(tx_gas_used)
    (effective_gas_price (tx_env vm.(vm_chain) full_tx) vm.(vm_block_env) (vm_is_eip_161_enabled vm))
    vm.(vm_block_env).(b_basefee) full_tx.

Lemma tx_writes_spec vm full_tx db r state mem res mem' :
  tx_writes vm full_tx db r state mem = Some (res, mem') →
  codes_grow mem mem' ∧
  match res with
  | Err e => e = InvalidMemoryValueType
  | Ok ws => codes_known mem' ws ∧ ∀ l, l ∈ (tx_rewards vm full_tx r).*1 → l ∈ locations ws
  end.
Proof.
  unfold tx_writes. intros (ws0 & mem1 & [Hg Hk]%state_writes_codes & Hr)%stm_bind_Some.
  unfold mret, stm_ret in Hr. fold (tx_rewards vm full_tx r) in Hr. simplify_eq. split; [done|].
  destruct (apply_rewards _ ws0) as [ws|e] eqn:Ha.
  - destruct (apply_rewards_spec _ _ _ Ha) as (Hr & _ & Hc). split; [|done].
    intros l h Hin. eauto.
  - revert ws0 Hk Ha. induction (tx_rewards vm full_tx r) as [|[l a] rs IH]; intros ws0 Hk; simpl; [done|].
    destruct (apply_reward l a ws0) as [ws1|e1] eqn:H1; simpl.
    + apply IH. intros l' h Hin. eapply Hk. by apply (apply_reward_spec _ _ _ _ H1).
    + intros ?; simplify_eq. clear IH Hk. revert H1. induction ws0 as [|[l0 x] ws0 IHw]; simpl; [done|].
      destruct (_ =? _)%N; [by destruct x; intros ?; simplify_eq/=|].
      destruct (apply_reward l a ws0); intros ?; simplify_eq/=. by apply IHw.
Qed.

(** A successful execution, taken apart: the run, its write set, and the
    memory after [record]. *)
Inductive executed vm mems (v : TxVersion) db mem
    : FinishExecFlags → VmDb → option PevmTxExecutionResult → MvMemory Bytecode → Prop :=
  | executed_intro full_tx r state db1 ws mem1 u mem2 ll wrote mem3 transitions :
      vm.(vm_txs) !! v.(tx_idx) = Some full_tx →
      run_tx evm vm mems v.(tx_idx) full_tx db = Some (Ok (EvmExecuted r state), db1) →
      tx_writes vm full_tx db1 r state mem = Some (Ok ws, mem1) →
      register_lazy db1 mem1 = Some (u, mem2) →
      codes_grow mem mem1 → codes_known mem1 ws →
      (∀ l, l ∈ (tx_rewards vm full_tx r).*1 → l ∈ locations ws) →
      mem2.(data) = mem1.(data) → mem2.(last_locations) = mem1.(last_locations) →
      mem2.(new_bytecodes) = mem1.(new_bytecodes) →
      mem2.(last_locations) !! v.(tx_idx) = Some ll →
      recorded v db1.(read_set) ws ll mem2 wrote mem3 →
      state_transitions_from_revm (vm_is_eip_161_enabled vm) state = Some transitions →
      executed vm mems v db mem (exec_flags v.(tx_idx) db1 wrote) (set_read_set ∅ db1)
        (Some (mkTxResult _ (receipt_from_revm r) (list_to_map (rev transitions)))) mem3.

Lemma register_lazy_frame db mem u mem' :
  register_lazy db mem = Some (u, mem') →
  mem'.(data) = mem.(data) ∧ mem'.(last_locations) = mem.(last_locations) ∧
  mem'.(new_bytecodes) = mem.(new_bytecodes).
Proof.
  unfold register_lazy. destruct (is_lazy db); [|unfold mret, stm_ret; intros; by simplify_eq].
  destruct (tx_kind _); [done|]. unfold add_lazy_addresses, stm_modify. intros. by simplify_eq.
Qed.

(** Whichever way the slot is filled. *)
Lemma fill_slot_eq slot receipt state :
  fill_slot slot receipt state = mkTxResult _ receipt (list_to_map (rev state)).
Proof.
  destruct slot as [old|]; [|done]. simpl. f_equal.
  induction state as [|[a x] state IH] using rev_ind; [done|].
  rewrite foldl_snoc, rev_app_distr. simpl. by rewrite IH.
Qed.

Lemma execute_inv vm mems v db slot mem r db' slot' mem' :
  execute evm vm mems v db slot mem = Some ((r, db', slot'), mem') →
  match r with
  | Err e => codes_grow mem mem' ∧ slot' = slot ∧ ∀ j, e = VmBlocking j → j < v.(tx_idx)
  | Ok flags => executed vm mems v db mem flags db' slot' mem'
  end.
Proof.
  unfold execute. destruct (vm_txs vm !! _) as [full_tx|] eqn:Htx; [|done].
  destruct (run_tx _ _ _ _ _ _) as [[res db1]|] eqn:Hrun; [|done].
  destruct (run_tx_blocking _ _ _ _ _ _ _ Hrun) as [_ Hlow].
  assert (∀ e, (∀ j, e = Blocking j → j < v.(tx_idx)) →
    ∀ j, vm_error_from_read e = VmBlocking j → j < v.(tx_idx)) as Hread.
  { intros e He j Hj. apply He. destruct e; simplify_eq/=; done. }
  destruct res as [[er state|err]|e].
  - intros (ws & mem1 & Hws & Hk)%stm_bind_Some.
    destruct (tx_writes_spec _ _ _ _ _ _ _ _ Hws) as [Hg Hspec].
    destruct ws as [ws|e].
    + destruct Hspec as [Hcodes Hrew].
      apply stm_bind_Some in Hk as (u & mem2 & Hreg & Hk).
      destruct (register_lazy_frame _ _ _ _ Hreg) as (Hd & Hl & Hc).
      apply stm_bind_Some in Hk as (wrote & mem3 & Hrec & Hk).
      destruct (last_locations mem2 !! tx_idx v) as [ll|] eqn:Hll.
      2: { unfold record, lock_last_locations in Hrec. stm_unfold. by rewrite Hll in Hrec. }
      destruct (record_recorded v db1.(read_set) ws mem2 ll Hll) as (w & m & Hr' & Hrecd).
      rewrite Hrec in Hr'. simplify_eq.
      destruct (state_transitions_from_revm _ _) eqn:Hst; [|done].
      unfold mret, stm_ret in Hk. simplify_eq. rewrite fill_slot_eq. by econstructor.
    + unfold mret, stm_ret in Hk. simplify_eq. split_and!; [done..|]. by apply Hread.
  - unfold mret, stm_ret. intros ?; simplify_eq. split_and!; [done..|].
    intros j Hj. unfold vm_error_from_evm in Hj.
    destruct (Nat.ltb_spec 0 (tx_idx v)); repeat case_match; simplify_eq/=; lia.
  - unfold mret, stm_ret. intros ?; simplify_eq. split_and!; [done..|]. apply Hread.
    intros j ->. by apply Hlow.
Qed.
End execution.
