(* ===== verification/Soundness.v ===== *)
(** * Executions on the shared memory

    [Vm::execute] against the promises of the chain and the invariants of the
    multi-version memory: what a successful or failed execution leaves, the
    invariants of every memory the workers can reach, and that a validated
    execution is as good as one that ran alone. *)

From S2P Require Import Prelude Uint Types Pool MvMemory Storage VmDb Validation Chain Vm.

(** The five cases [Pevm::try_execute] distinguishes. *)
Definition outcome_of (r : result VmExecutionError FinishExecFlags) : Pool.vm_outcome :=
  match r with
  | Ok flags => Pool.VmOk flags
  | Err VmDb.Retry => Pool.VmRetry
  | Err VmDb.FallbackToSequential => Pool.VmFallbackToSequential
  | Err (VmDb.VmBlocking i) => Pool.VmBlocking i
  | Err (VmExecutionFailed _) => Pool.VmExecutionError
  end.

(** ** What the workers do to the memory *)

Section soundness.
Context `{Revm} {S : Type} `{!Storage S} {C : Type} `{!PevmChain C, !ChainLaws C}.
Variable evm : CfgEnv EvmSpecId → BlockEnv → EvmTx → evm_prog evm_outcome.
Variable vm : Vm (S:=S) (C:=C).
Implicit Types (mem : MvMemory Bytecode).

Definition initial_memory : MvMemory Bytecode :=
  build_mv_memory vm.(vm_chain) vm.(vm_block_env) vm.(vm_txs).

(** An execution of some version, whatever the memories its queries saw, or
    the abort of a failed validation. *)
Inductive mem_step mem : MvMemory Bytecode → Prop :=
  | step_execute mems v db slot r mem' :
      execute evm vm mems v db slot mem = Some (r, mem') → mem_step mem mem'
  | step_convert i u mem' :
      convert_writes_to_estimates i mem = Some (u, mem') → mem_step mem mem'.

Definition mem_reachable mem : Prop := rtc mem_step initial_memory mem.

(** Estimates are those of the last write set or of the initial memory. *)
Definition accounted mem : Prop :=
  ∀ i l, entry_at mem.(data) l i = Some Estimate →
    (∃ ll, mem.(last_locations) !! i = Some ll ∧ l ∈ ll.(ll_write)) ∨
    entry_at initial_memory.(data) l i = Some Estimate.

(** A code hash in the memory has its code. *)
Definition deployed mem : Prop :=
  ∀ l k inc h, entry_at mem.(data) l k = Some (Data inc (ValCodeHash h)) →
    is_Some (mem.(new_bytecodes) !! h).

Record mem_inv mem : Prop := {
  mi_ok : mv_ok mem;
  mi_size : length mem.(last_locations) = length vm.(vm_txs);
  mi_accounted : accounted mem;
  mi_deployed : deployed mem;
}.

Lemma mem_inv_initial : mem_inv initial_memory.
Proof.
  assert (∀ l i e, entry_at initial_memory.(data) l i = Some e →
    i < length vm.(vm_txs) ∧ e = Estimate) as He.
  { intros l i e (tx & Htx & -> & _)%(law_estimates_rewarded _ _ _ _ _ _ 0%N 0%N).
    split; [by eapply lookup_lt_Some|done]. }
  assert (∀ i ll, initial_memory.(last_locations) !! i = Some ll → ll = LastLocations_default)
    as Hll.
  { intros i ll. unfold initial_memory. rewrite law_fresh. intros [-> _]%lookup_replicate. done. }
  assert (length initial_memory.(last_locations) = length vm.(vm_txs)) as Hlen.
  { unfold initial_memory. rewrite law_fresh. apply length_replicate. }
  split; [split|done| |].
  - intros l i e [? _]%He. lia.
  - intros i ll ->%Hll. constructor.
  - by intros i ll l ->%Hll ?%elem_of_nil.
  - by intros i ll l inc x _ [_ ?]%He.
  - intros i l ?. by right.
  - by intros l k inc h [_ ?]%He.
Qed.

Lemma last_value_elem (ws : WriteSet) l x : last_value ws l = Some x → (l, x) ∈ ws.
Proof.
  unfold last_value. intros ([l' x'] & Hl & ->)%fmap_Some.
  apply last_Some_elem_of, list_elem_of_filter in Hl as [Hl ?]. simpl in *. by subst.
Qed.

Lemma mem_inv_codes_grow mem mem' : codes_grow mem mem' → mem_inv mem → mem_inv mem'.
Proof.
  intros [Hd Hl _ Hc] [[B N W D] Hs Ha Hdep].
  split; [split|by rewrite Hl| |]; rewrite ?Hd, ?Hl; try done.
  - intros i l. rewrite Hd, Hl. apply Ha.
  - intros l k inc h. rewrite Hd. intros [c Hc']%Hdep. exists c. by eapply lookup_weaken.
Qed.

(** The state right before [record]. *)
Lemma mem_inv_same mem mem' :
  mem'.(data) = mem.(data) → mem'.(last_locations) = mem.(last_locations) →
  mem'.(new_bytecodes) = mem.(new_bytecodes) → mem_inv mem → mem_inv mem'.
Proof.
  intros Hd Hl Hc [[B N W D] Hs Ha Hdep].
  split; [split|by rewrite Hl| |]; rewrite ?Hd, ?Hl; try done.
  - intros i l. rewrite Hd, Hl. apply Ha.
  - intros l k inc h. rewrite Hd, Hc. apply Hdep.
Qed.

Lemma mem_inv_record v rs ws ll mem b mem' :
  mem.(last_locations) !! v.(tx_idx) = Some ll → recorded v rs ws ll mem b mem' →
  codes_known mem ws → mem_inv mem → mem_inv mem'.
Proof.
  intros Hll Hrec Hk [Hok Hs Ha Hdep].
  pose proof Hrec as [He _ (w & Hw & _ & Hlast) _ [_ Hcodes]].
  split; [by eapply mv_ok_record|by rewrite Hlast, length_insert| |].
  - intros i l. rewrite He. case_decide as Hi; [subst i|].
    + destruct (last_value ws l); [done|]. case_decide as Hin; [done|]. intros Hest.
      destruct (Ha _ _ Hest) as [(ll' & ? & ?)|?]; [by simplify_eq|by right].
    + intros [(ll' & ? & ?)|?]%Ha; [left|by right]. exists ll'. split; [|done].
      by rewrite Hlast, list_lookup_insert_ne.
  - intros l k inc h. rewrite He, Hcodes. case_decide; [|apply Hdep].
    destruct (last_value ws l) as [x|] eqn:Hx; [|case_decide; [done|apply Hdep]].
    intros [= _ ->]. eapply Hk. by apply last_value_elem.
Qed.

Lemma mem_inv_convert i u mem mem' :
  convert_writes_to_estimates i mem = Some (u, mem') → mem_inv mem → mem_inv mem'.
Proof.
  intros Hc [Hok Hs Ha Hdep]. pose proof (mv_ok_convert _ _ _ _ Hc Hok) as Hok'.
  unfold convert_writes_to_estimates, lock_last_locations in Hc. stm_unfold.
  destruct (last_locations mem !! i) as [ll|] eqn:Hll; [|done]. simplify_eq.
  split; [done..| |]; simpl.
  - intros j l. simpl. rewrite foldl_estimates. case_decide as Hd; [|apply Ha].
    destruct Hd as [-> ?]. eauto.
  - intros l k inc h. simpl. rewrite foldl_estimates. case_decide; [|apply Hdep].
    by destruct (_ !! l).
Qed.

Lemma executed_mem_inv mems v db mem flags db' slot' mem' :
  executed evm vm mems v db mem flags db' slot' mem' → mem_inv mem → mem_inv mem'.
Proof.
  destruct 1 as [full_tx r state db1 ws mem1 u mem2 ll wrote mem3 tr ? ? ? ? Hg Hk ? Hd Hl Hc Hll Hrec].
  intros Hinv. apply (mem_inv_codes_grow _ _ Hg), (mem_inv_same _ _ Hd Hl Hc) in Hinv.
  eapply mem_inv_record; [done..| |done]. intros l h. rewrite Hc. apply Hk.
Qed.

Lemma mem_step_inv mem mem' : mem_step mem mem' → mem_inv mem → mem_inv mem'.
Proof.
  destruct 1 as [mems v db slot [[r db'] slot'] mem' Hex|i u mem' Hc]; [|by eapply mem_inv_convert].
  apply execute_inv in Hex. destruct r as [flags|e].
  - exact (executed_mem_inv _ _ _ _ _ _ _ _ Hex).
  - apply (mem_inv_codes_grow _ _ (proj1 Hex)).
Qed.

Lemma mem_reachable_inv mem : mem_reachable mem → mem_inv mem.
Proof.
  intros Hr. assert (mem_inv initial_memory) as H0 by apply mem_inv_initial.
  revert H0. unfold mem_reachable in Hr. induction Hr; eauto using mem_step_inv.
Qed.

(** Among the entries of a transaction, the values are the recorded ones. *)
Lemma recorded_values v rs ws ll mem b mem' l inc x :
  mv_ok mem → mem.(last_locations) !! v.(tx_idx) = Some ll → recorded v rs ws ll mem b mem' →
  entry_at mem'.(data) l v.(tx_idx) = Some (Data inc x) ↔
    last_value ws l = Some x ∧ inc = v.(tx_incarnation).
Proof.
  intros Hok Hll [He _ _ _ _]. rewrite He, decide_True by done.
  destruct (last_value ws l) as [y|]; [naive_solver|]. split; [|naive_solver].
  case_decide; [done|]. intros Hd. by apply (mv_data _ Hok _ _ _ _ _ Hll) in Hd.
Qed.

(** The entries of a transaction right after [record] are its write set: no
    [Estimate] is left. *)
Lemma recorded_entries v rs ws ll mem b mem' full_tx r l :
  mem_inv mem → mem.(last_locations) !! v.(tx_idx) = Some ll → recorded v rs ws ll mem b mem' →
  vm.(vm_txs) !! v.(tx_idx) = Some full_tx →
  (∀ l, l ∈ (tx_rewards vm full_tx r).*1 → l ∈ locations ws) →
  entry_at mem'.(data) l v.(tx_idx) = Data v.(tx_incarnation) <$> last_value ws l.
Proof.
  intros Hinv Hll Hrec Htx Hrew.
  pose proof Hrec as [He _ _ _ _]. rewrite He, decide_True by done.
  destruct (last_value ws l) eqn:Hx; [done|]. case_decide as Hin; [done|]. simpl.
  destruct (entry_at (data mem) l (tx_idx v)) as [[inc x|]|] eqn:Hest; [| |done].
  { by apply (mv_data _ (mi_ok _ Hinv) _ _ _ _ _ Hll) in Hest. }
  destruct (mi_accounted _ Hinv _ _ Hest) as [(ll' & ? & ?)|Hini]; [by simplify_eq|].
  destruct (law_estimates_rewarded _ _ _ _ _ _ r.(tx_gas_used)
    (effective_gas_price (tx_env vm.(vm_chain) full_tx) vm.(vm_block_env) (vm_is_eip_161_enabled vm))
    Hini) as (tx & Htx' & _ & Hl'). rewrite Htx in Htx'. simplify_eq.
  apply Hrew, last_value_is_Some in Hl' as [x ?]. congruence.
Qed.

(** ** The claims on one execution *)

(** C16. In every memory the workers can reach, entries carry indexes of the
    block, values sit at locations of the last write sets only, every code
    hash has its code in [new_bytecodes], and an [Estimate] is either in the
    last write set of its transaction or one the chain set up. *)
Theorem reachable_memory_inv mem : mem_reachable mem → mem_inv mem.
Proof. apply mem_reachable_inv. Qed.

(** C7. A transaction that has executed leaves no [Estimate] behind: those of
    its previous incarnation are overwritten or removed by [record], and those
    the chain set up are overwritten because the chain only estimates what it
    rewards.  So no reader is ever blocked by a transaction that has executed. *)
Theorem executed_no_estimate mem mems v db slot flags db' slot' mem' l :
  mem_reachable mem →
  execute evm vm mems v db slot mem = Some ((Ok flags, db', slot'), mem') →
  entry_at mem'.(data) l v.(tx_idx) ≠ Some Estimate.
Proof.
  intros Hinv%mem_reachable_inv Hex%execute_inv. simpl in Hex.
  destruct Hex as [full_tx r state db1 ws mem1 u mem2 ll wrote mem3 tr Htx ? ? ? Hg _ Hrew Hd Hl Hc
    Hll Hrec _].
  apply (mem_inv_codes_grow _ _ Hg), (mem_inv_same _ _ Hd Hl Hc) in Hinv.
  rewrite (recorded_entries _ _ _ _ _ _ _ full_tx r l Hinv Hll Hrec Htx Hrew).
  by destruct (last_value ws l).
Qed.

(** C17. A failed execution changes nothing but the set of known codes: the
    entries, the last read and write sets, the lazy addresses and the result
    slot stay.  And whatever an execution answers, the scheduler can take it:
    a transaction is only blocked by a lower one. *)
Theorem execute_error mem mems v db slot r db' slot' mem' :
  execute evm vm mems v db slot mem = Some ((r, db', slot'), mem') →
  Pool.vm_outcome_ok v (outcome_of r) = true ∧
  (∀ e, r = Err e → codes_grow mem mem' ∧ slot' = slot).
Proof.
  intros Hex%execute_inv. destruct r as [flags|e]; [by split|].
  destruct Hex as (Hg & -> & Hb). split; [|by intros].
  destruct e; try done. simpl. apply bool_decide_eq_true. by apply Hb.
Qed.

(** ** Validated executions *)

Lemma insert_bytecode_later account mem u mem1 M :
  insert_bytecode account mem = Some (u, mem1) → mem1.(new_bytecodes) ⊆ M.(new_bytecodes) →
  insert_bytecode account M = Some (u, M).
Proof.
  intros Hi Hs. destruct (insert_bytecode_grow _ _ _ _ Hi) as [_ [c Hc]].
  unfold insert_bytecode. rewrite (lookup_weaken _ _ _ _ Hc Hs). by destruct u.
Qed.

Lemma account_writes_later db b p mem ws mem1 M :
  account_writes db b p mem = Some (ws, mem1) → mem1.(new_bytecodes) ⊆ M.(new_bytecodes) →
  account_writes db b p M = Some (ws, M).
Proof.
  destruct p as [a account]. unfold account_writes, mret, stm_ret.
  destruct (is_selfdestructed account); [intros; by simplify_eq|].
  destruct (is_touched account); [|intros; by simplify_eq].
  destruct (negb _ && _); [|intros; by simplify_eq].
  intros (u & mem2 & Hi & Hr)%stm_bind_Some Hs. simplify_eq.
  apply stm_bind_Some. exists u, M. split; [|done]. by eapply insert_bytecode_later.
Qed.

Lemma state_writes_later db b ps mem ws mem1 (M : MvMemory Bytecode) :
  state_writes db b ps mem = Some (ws, mem1) → mem1.(new_bytecodes) ⊆ M.(new_bytecodes) →
  state_writes db b ps M = Some (ws, M).
Proof.
  revert mem ws. induction ps as [|p ps IH]; intros mem ws; simpl.
  { unfold mret, stm_ret. intros; by simplify_eq. }
  intros (w1 & mem2 & H1 & Hr)%stm_bind_Some Hs.
  apply stm_bind_Some in Hr as (w2 & mem3 & H2 & Hr). unfold mret, stm_ret in Hr. simplify_eq.
  destruct (state_writes_codes _ _ _ _ _ _ H2) as [[_ _ _ Hg] _].
  apply stm_bind_Some. exists w1, M. split.
  - eapply account_writes_later; [done|]. by etrans.
  - apply stm_bind_Some. exists w2, M. split; [by eapply IH|done].
Qed.

Lemma tx_writes_later full_tx db r state mem res mem1 M :
  tx_writes vm full_tx db r state mem = Some (res, mem1) →
  mem1.(new_bytecodes) ⊆ M.(new_bytecodes) →
  tx_writes vm full_tx db r state M = Some (res, M).
Proof.
  unfold tx_writes. intros (ws & mem2 & Hw & Hr)%stm_bind_Some Hs.
  unfold mret, stm_ret in Hr. simplify_eq. apply stm_bind_Some.
  exists ws, M. split; [by eapply state_writes_later|done].
Qed.

Lemma register_lazy_later db mem u mem1 M :
  register_lazy db mem = Some (u, mem1) →
  ∃ M1, register_lazy db M = Some (tt, M1) ∧ M1.(data) = M.(data) ∧
    M1.(last_locations) = M.(last_locations).
Proof.
  unfold register_lazy, mret, stm_ret, stm_stuck, add_lazy_addresses, stm_modify.
  destruct (is_lazy db); [|eauto]. destruct (tx_kind _); [done|]. eauto.
Qed.

Lemma mv_ok_frame mem mem' :
  mem'.(data) = mem.(data) → mem'.(last_locations) = mem.(last_locations) → mv_ok mem → mv_ok mem'.
Proof. intros Hd Hl [B N W D]. split; rewrite ?Hd, ?Hl; done. Qed.

(** The run of a transaction, replayed. *)
Lemma run_tx_replay K V mems M i full_tx db r db1 ll :
  (∀ l, K (hash_deterministic l) = kind_of l) →
  history vm.(vm_storage) V mems → mem_ok vm.(vm_storage) V M → (∀ t, later (mems t) M) →
  (db1.(to_code_hash) = None → let tx := tx_env vm.(vm_chain) full_tx in
   lazy_test M (caller_hash tx) (recipient_hash tx)
   = lazy_test (mems 0) (caller_hash tx) (recipient_hash tx)) →
  run_tx evm vm mems i full_tx db = Some (Ok r, db1) →
  M.(last_locations) !! i = Some ll → ll.(ll_read) = db1.(read_set) →
  validate_read_locations i M = Some (true, M) →
  run_tx evm vm (λ _, M) i full_tx db = Some (Ok r, db1).
Proof.
  intros HK Hh HM Hlater Hlazy. unfold run_tx.
  destruct (chain_has_nonce _ _ _) as [hn cfg]. unfold db_bind.
  destruct (set_tx _ _ _ _ _ _ _ _) as [[[[]|e] db0]|] eqn:Hset; [|done..].
  intros Hrun Hll Hread Hval.
  destruct (set_tx_replay _ _ HK _ _ _ _ _ _ _ (history_ok _ _ _ Hh 0) Hset) as (Hinv & _).
  apply (db_inv_later _ _ _ _ _ (history_later _ _ _ Hh 0)) in Hinv.
  destruct (run_prog_replay _ _ HK _ _ _ _ _ _ _ Hh Hinv Hrun) as ((_ & _ & _ & _ & Hto & _) & _).
  rewrite Hto in Hlazy.
  destruct (validated_replay vm.(vm_storage) K HK V _ mems M i _ hn db db0 r db1 ll
    Hh HM Hlater Hset Hrun Hll Hread Hval Hlazy) as [-> ->]. done.
Qed.

End soundness.

(** ** A concrete block

    Two calls of the same contract and a raw transfer under a toy EVM.  A call
    reads the sender, the contract and slot 5 of the contract, increments the
    slot and charges the sender; the transfer is updated lazily.  The second
    transaction is set up first, then the first one executes, then the second
    one asks its queries, then the third one executes. *)

Module SoundDemo.
#[local] Existing Instances demo_revm demo_alloy demo_order.

Definition st : InMemoryStorage := mkInMemoryStorage _
  {[ 1%N := mkEvmAccount _ 100 0 None None ∅;
     2%N := mkEvmAccount _ 0 1 (Some 77%N) None {[ 5%N := 9%N ]};
     3%N := mkEvmAccount _ 100 0 None None ∅ ]}
  {[ 77%N := Eip7702 8 ]} ∅.

(** The sender after a transaction, the contract, and who got [value]. *)
Definition charged (acc : AccountInfo) (value : U256) : Account := mkAccount _
  (mkAccountInfo _ (acc.(info_balance) - 10 - value) (acc.(info_nonce) + 1) 0 None)
  true true false false [] [].
Definition contract (x : U256) : Account := mkAccount _
  (mkAccountInfo _ 0 1 77 (Some (DemoEip7702 8))) false true false false [(5, x)%N] [(5, x)%N].
Definition credited (acc : option AccountInfo) (value : U256) : Account := mkAccount _
  (mkAccountInfo _ (default 0 (info_balance <$> acc) + value) (default 0 (info_nonce <$> acc)) 0 None)%N
  true true false false [] [].

Definition evm (cfg : CfgEnv SpecId) (benv : BlockEnv) (tx : TxEnv) : evm_prog evm_outcome :=
  EvmBasic tx.(caller) (λ acc,
    match acc with
    | None => EvmDone (EvmFailed (ErrTransaction (LackOfFundForMaxFee 10 0)))
    | Some acc =>
        match tx.(tx_kind) with
        | Create => EvmDone (EvmFailed (ErrOther EmptyString))
        | Call to => EvmBasic to (λ recipient,
            if decide (to = 2%N) then EvmStorage to 5 (λ x,
              EvmDone (EvmExecuted (mkExecutionResult _ true 21000 [])
                {[ tx.(caller) := charged acc 0; 2%N := contract (x + 1) ]}))
            else EvmDone (EvmExecuted (mkExecutionResult _ true 21000 [])
              {[ tx.(caller) := charged acc tx.(tx_value); to := credited recipient tx.(tx_value) ]}))
        end
    end).

Definition vm : Vm (S:=InMemoryStorage) (C:=PevmEthereum) := mkVm mainnet LONDON
  (get_block_env (mkHeader 13000000 0 50 30000000 42000 (Some 1%N) 0 0 None) LONDON)
  [plain_tx 1 (Call 2) 0 0; plain_tx 3 (Call 2) 0 0; plain_tx 1 (Call 3) 1 5] st.

Definition db : VmDb := db_reset 0 (plain_tx 1 (Call 2) 0 0) true.

Definition memory_of {A} (o : option (A * MvMemory Bytecode)) : MvMemory Bytecode :=
  match o with Some (_, mem) => mem | None => MvMemory.new 0 [] [] end.
Definition answer_of {A} (o : option (A * MvMemory Bytecode)) : option A := fst <$> o.

Definition mem0 : MvMemory Bytecode := initial_memory vm.
Definition run0 := execute evm vm (λ _, mem0) (mkTxVersion 0 0) db None mem0.
Definition mem1 : MvMemory Bytecode := memory_of run0.
Definition mems (t : nat) : MvMemory Bytecode := match t with O => mem0 | S _ => mem1 end.
Definition run1 := execute evm vm mems (mkTxVersion 1 0) db None mem1.
Definition mem2 : MvMemory Bytecode := memory_of run1.
Definition run2 := execute evm vm (λ _, mem2) (mkTxVersion 2 0) db None mem2.
Definition mem3 : MvMemory Bytecode := memory_of run2.

(** After a failed validation of the first transaction. *)
Definition aborted : MvMemory Bytecode := memory_of (convert_writes_to_estimates 0 mem1).

(** The values of the final memory. *)
Definition V (l : MemoryLocationHash) (k : TxIdx) (inc : TxIncarnation) : option MemoryValue :=
  match entry_at mem3.(data) l k with
  | Some (Data inc' x) => if decide (inc' = inc) then Some x else None
  | _ => None
  end.

Definition value_ok (l : MemoryLocationHash) (k : TxIdx) (e : MemoryEntry) : Prop :=
  match e with
  | Data inc x => V l k inc = Some x ∧ (∀ h, x ≠ ValCodeHash h)
  | Estimate => True
  end.

Definition value_ok_dec (l : MemoryLocationHash) (k : TxIdx) (e : MemoryEntry) : bool :=
  match e with
  | Data inc x => bool_decide (V l k inc = Some x) &&
      match x with ValCodeHash _ => false | _ => true end
  | Estimate => true
  end.

Lemma check_entries (d : gmap MemoryLocationHash (gmap nat MemoryEntry)) :
  forallb (λ p, forallb (λ q, value_ok_dec p.1 q.1 q.2) (map_to_list p.2)) (map_to_list d) = true →
  ∀ l k e, entry_at d l k = Some e → value_ok l k e.
Proof.
  intros Hd l k e (m & Hm & He)%bind_Some. rewrite forallb_forall in Hd.
  apply elem_of_map_to_list, list_elem_of_In in Hm. specialize (Hd _ Hm). simpl in Hd.
  rewrite forallb_forall in Hd. apply elem_of_map_to_list, list_elem_of_In in He.
  specialize (Hd _ He). destruct e as [inc x|]; [|done].
  apply andb_prop in Hd as [Hv Hx]. apply bool_decide_eq_true in Hv.
  split; [exact Hv|]. intros h ->. discriminate Hx.
Qed.

Lemma mem_ok_of mem :
  forallb (λ p, forallb (λ q, value_ok_dec p.1 q.1 q.2) (map_to_list p.2)) (map_to_list mem.(data))
    = true →
  mem.(new_bytecodes) = ∅ → mem_ok st V mem.
Proof.
  intros Hd Hc. pose proof (check_entries _ Hd) as Hv. split.
  - intros l k [inc x|] He; [|done]. by apply Hv in He as [? _].
  - intros l k inc h He. apply Hv in He as [_ Hx]. by destruct (Hx h).
  - intros a h b _. rewrite Hc. by rewrite lookup_empty.
Qed.

Lemma mem_ok_0 : mem_ok st V mem0.
Proof. apply mem_ok_of; vm_compute; reflexivity. Qed.
Lemma mem_ok_1 : mem_ok st V mem1.
Proof. apply mem_ok_of; vm_compute; reflexivity. Qed.
Lemma mem_ok_2 : mem_ok st V mem2.
Proof. apply mem_ok_of; vm_compute; reflexivity. Qed.
Lemma mem_ok_3 : mem_ok st V mem3.
Proof. apply mem_ok_of; vm_compute; reflexivity. Qed.

Lemma step_of mem mems' v slot p :
  execute evm vm mems' v db slot mem = p → is_Some p → mem_step evm vm mem (memory_of p).
Proof. intros <- [[r mem'] Hp]. rewrite Hp. by eapply step_execute. Qed.

Lemma reach_1 : mem_reachable evm vm mem1.
Proof.
  apply rtc_once. apply (step_of mem0 (λ _, mem0) (mkTxVersion 0 0) None run0 eq_refl).
  vm_compute. eauto.
Qed.

Lemma reach_2 : mem_reachable evm vm mem2.
Proof.
  eapply rtc_r; [apply reach_1|].
  apply (step_of mem1 mems (mkTxVersion 1 0) None run1 eq_refl). vm_compute. eauto.
Qed.

Lemma reach_3 : mem_reachable evm vm mem3.
Proof.
  eapply rtc_r; [apply reach_2|].
  apply (step_of mem2 (λ _, mem2) (mkTxVersion 2 0) None run2 eq_refl). vm_compute. eauto.
Qed.

Lemma block_history : history st V mems.
Proof.
  split; intros [|t]; try apply mem_ok_0; try apply mem_ok_1;
    apply map_subseteq_spec; intros h c Hc; vm_compute in Hc; discriminate Hc.
Qed.
End SoundDemo.

#[local] Existing Instances demo_revm demo_alloy demo_order.

Lemma reachable_memory_inv_witness : mem_inv SoundDemo.vm SoundDemo.mem2.
Proof.
  refine (@reachable_memory_inv demo_revm _ _ _ _ ethereum_laws SoundDemo.evm SoundDemo.vm
    SoundDemo.mem2 _).
  apply SoundDemo.reach_2.
Defined.

Lemma executed_no_estimate_witness :
  entry_at SoundDemo.mem1.(data) (hash_deterministic (LocBasic 50)) 0 ≠ Some Estimate.
Proof.
  refine (@executed_no_estimate demo_revm _ _ _ _ ethereum_laws SoundDemo.evm SoundDemo.vm
    SoundDemo.mem0 (λ _, SoundDemo.mem0) (mkTxVersion 0 0) SoundDemo.db None _ _ _
    SoundDemo.mem1 _ _ _).
  - apply rtc_refl.
  - vm_compute. reflexivity.
Defined.

(** The second transaction when the first is only an estimate: blocked by it,
    nothing changed. *)
Lemma execute_error_witness :
  ∃ db' slot' mem',
    execute SoundDemo.evm SoundDemo.vm (λ _, SoundDemo.aborted) (mkTxVersion 1 0) SoundDemo.db None
      SoundDemo.aborted = Some ((Err (VmDb.VmBlocking 0), db', slot'), mem') ∧
    codes_grow SoundDemo.aborted mem' ∧ slot' = None.
Proof.
  do 3 eexists. split; [vm_compute; reflexivity|].
  refine (proj2 (execute_error SoundDemo.evm SoundDemo.vm SoundDemo.aborted
    (λ _, SoundDemo.aborted) (mkTxVersion 1 0) SoundDemo.db None
    (Err (VmDb.VmBlocking 0)) _ _ _ _) _ eq_refl).
  vm_compute. reflexivity.
Defined.

