(* ===== verification/Block.v ===== *)
(** * Executing a block (src/crates/pevm/src/pevm.rs)

    The dispatch between sequential and parallel execution, the result
    buffer, the post-processing that turns a finished multi-version memory
    into block results, and the sequential executor.  The worker threads in
    between are [Pool.v].

    [None] is a panic or undefined behaviour ([unwrap_unchecked] on an empty
    slot, [unreachable!], a failed [debug_assert!], an unchecked index). *)

From S2P Require Import Prelude Uint Types MvMemory Storage VmDb Validation Lazy Chain Vm.

(** ** The result buffer *)

Section results.
Context `{Revm}.
Abbreviation slots := (list (option PevmTxExecutionResult)) (only parsing).

(** [ExecutionResults::grow_to]: [resize_with] fills with [None]. *)
Definition grow_to (block_size : nat) (s : slots) : slots :=
  if length s <? block_size then s ++ replicate (block_size - length s) None else s.

(** [take_slot]: [take().unwrap_unchecked()] of an unchecked index. *)
Definition take_slot (i : TxIdx) : stm slots PevmTxExecutionResult := λ s,
  match s !! i with
  | Some (Some r) => Some (r, <[i := None]> s)
  | _ => None
  end.

Definition set_cumulative_gas (gas : N) (r : PevmTxExecutionResult) : PevmTxExecutionResult :=
  mkTxResult _ (mkReceipt _ r.(receipt).(r_status) gas r.(receipt).(r_logs)) r.(result_state).

(** The collection loop over [0..block_size]. *)
Fixpoint collect_from (i n : nat) (cumulative_gas_used : N)
    : stm slots (list PevmTxExecutionResult) :=
  match n with
  | O => mret []
  | S n' =>
      r ← take_slot i;
      let gas := saturating_add u64_max cumulative_gas_used r.(receipt).(r_cumulative_gas_used) in
      rs ← collect_from (S i) n' gas;
      mret (set_cumulative_gas gas r :: rs)
  end.

Definition collect_results (block_size : nat) : stm slots (list PevmTxExecutionResult) :=
  collect_from 0 block_size 0.
End results.

(** ** Post-processing *)

(** [BTreeMap::iter]: ascending. *)
Definition max_key (m : gmap nat MemoryEntry) : nat := foldr Nat.max 0 ((map_to_list m).*1).
Definition btree_iter (m : gmap nat MemoryEntry) : list (TxIdx * MemoryEntry) :=
  rev (range_rev m (S (max_key m))).

Inductive PevmError {BlockSpecError ParsingError : Type} : Type :=
  | PevmBlockSpecError (e : BlockSpecError)
  | MissingTransactionData
  | PevmInvalidTransaction (e : ParsingError)
  | NonceMismatch (i : TxIdx) (tx_nonce executed_nonce : N)
  | PevmStorageError (message : string)
  | PevmExecutionError (e : ExecutionError)
  | UnreachableError.
Arguments PevmError : clear implicits.

Section post.
Context `{Revm} {S : Type} `{!Storage S} {C : Type} `{!PevmChain C}.
Abbreviation Error := (PevmError BlockSpecError TransactionParsingError) (only parsing).
Variable chain : C.
Variable st : S.
Variable txs : list EvmTx.
Variable eip_161 : bool.

(** The fee a lazy sender must be able to pay. *)
Definition max_fee (tx : TxEnv) : U256 :=
  u256_add
    (u256_add (u256_mul tx.(tx_gas_limit) tx.(tx_gas_price)) tx.(tx_value))
    (u256_mul (total_blob_gas tx.(tx_blob_hashes)) tx.(tx_max_fee_per_blob_gas)).

(** One entry of the write history: the new balance and nonce. *)
Definition eval_entry (tx : TxEnv) (acc : AccountBasic) (entry : MemoryEntry)
    : option (result Error AccountBasic) :=
  match entry with
  | Data _ (ValBasic b) =>
      (* [debug_assert!(!(info.balance.is_zero() && info.nonce == 0))] *)
      if (b.(ab_balance) =? 0)%N && (b.(ab_nonce) =? 0)%N then None else Some (Ok b)
  | Data _ (LazyRecipient addition) =>
      Some (Ok (mkAccountBasic (u256_add acc.(ab_balance) addition) acc.(ab_nonce)))
  | Data _ (LazySender subtraction) =>
      if (acc.(ab_balance) <? max_fee tx)%N then
        Some (Err (PevmExecutionError
          (EvmTransaction (LackOfFundForMaxFee (max_fee tx) acc.(ab_balance)))))
      else if (u64_max <? acc.(ab_nonce) + 1)%N then None
      else Some (Ok (mkAccountBasic (saturating_sub acc.(ab_balance) subtraction)
                       (acc.(ab_nonce) + 1)))
  | _ => None
  end.

(** "Assert that evaluated nonce is correct when address is caller." *)
Definition check_nonce (address : Address) (i : TxIdx) (tx : TxEnv) (nonce : N)
    : result Error unit :=
  if decide (tx.(caller) = address) then
    if (nonce =? 0)%N then Err UnreachableError
    else if (tx.(tx_nonce) =? nonce - 1)%N then Ok tt
    else Err (NonceMismatch i tx.(tx_nonce) (nonce - 1)%N)
  else Ok tt.

(** The account in the state transitions of one transaction. *)
Definition merge_account (code_hash : option B256) (code : option EvmCode) (acc : AccountBasic)
    (old : option EvmAccount) : option EvmAccount :=
  if eip_161 && bool_decide (code_hash = None) && (acc.(ab_nonce) =? 0)%N
     && (acc.(ab_balance) =? 0)%N
  then None
  else
    match old with
    | Some a => Some (mkEvmAccount _ acc.(ab_balance) acc.(ab_nonce) a.(ea_code_hash) a.(ea_code)
                        a.(ea_storage))
    | None => Some (mkEvmAccount _ acc.(ab_balance) acc.(ab_nonce) code_hash code ∅)
    end.

Definition update_result (address : Address) (code_hash : option B256) (code : option EvmCode)
    (acc : AccountBasic) (r : PevmTxExecutionResult) : PevmTxExecutionResult :=
  mkTxResult _ r.(receipt)
    (<[address := merge_account code_hash code acc (default None (r.(result_state) !! address))]>
       r.(result_state)).

(** The loop over [write_history.iter()]. *)
Fixpoint eval_history (address : Address) (code_hash : option B256) (code : option EvmCode)
    (acc : AccountBasic) (history : list (TxIdx * MemoryEntry))
    (results : list PevmTxExecutionResult)
    : option (result Error (list PevmTxExecutionResult)) :=
  match history with
  | [] => Some (Ok results)
  | (i, entry) :: history' =>
      match txs !! i with
      | None => None
      | Some full_tx =>
          let tx := tx_env chain full_tx in
          match eval_entry tx acc entry with
          | None => None
          | Some (Err e) => Some (Err e)
          | Some (Ok acc') =>
              match check_nonce address i tx acc'.(ab_nonce) with
              | Err e => Some (Err e)
              | Ok _ =>
                  match results !! i with
                  | None => None
                  | Some r =>
                      eval_history address code_hash code acc' history'
                        (<[i := update_result address code_hash code acc' r]> results)
                  end
              end
          end
      end
  end.

(** Where the evaluation starts: zero when the first entry is absolute or
    storage has no (readable) account. *)
Definition start_account (address : Address) (history : list (TxIdx * MemoryEntry))
    : AccountBasic :=
  match head history with
  | Some (_, Data _ (ValBasic _)) => AccountBasic_default
  | _ => match Storage.basic st address with Ok (Some b) => b | _ => AccountBasic_default end
  end.

(** The body of [for address in mv_memory.consume_lazy_addresses()]. *)
Definition evaluate_address (mem : MvMemory Bytecode) (address : Address)
    (results : list PevmTxExecutionResult)
    : option (result Error (list PevmTxExecutionResult)) :=
  match mem.(data) !! hash_deterministic (LocBasic address) with
  | None => Some (Ok results)
  | Some write_history =>
      let history := btree_iter write_history in
      match code_hash st address with
      | Err e => Some (Err (PevmStorageError (error_to_string e)))
      | Ok ch =>
          match (match ch with Some h => code_by_hash st h | None => Ok None end) with
          | Err e => Some (Err (PevmStorageError (error_to_string e)))
          | Ok code =>
              eval_history address ch code (start_account address history) history results
          end
      end
  end.

Fixpoint evaluate_addresses (mem : MvMemory Bytecode) (addresses : list Address)
    (results : list PevmTxExecutionResult)
    : option (result Error (list PevmTxExecutionResult)) :=
  match addresses with
  | [] => Some (Ok results)
  | a :: addresses' =>
      match evaluate_address mem a results with
      | Some (Ok results') => evaluate_addresses mem addresses' results'
      | r => r
      end
  end.
End post.

(** ** Sequential execution *)

Section sequential.
Context `{Revm} {C : Type} `{!PevmChain C}.
Abbreviation Error := (PevmError BlockSpecError TransactionParsingError) (only parsing).

(** revm's [CacheDB] over [StorageWrapper], and the EVM over it, which leaves
    what it read in the cache. *)
Variable CacheDB : Type.
Variable transact : CacheDB → EvmTx → result string (ExecutionResult * EvmState * CacheDB).
Variable commit : EvmState → CacheDB → CacheDB.

Fixpoint sequential_from (eip_161 : bool) (db : CacheDB) (cumulative_gas_used : N)
    (txs : list EvmTx) : option (result Error (list PevmTxExecutionResult)) :=
  match txs with
  | [] => Some (Ok [])
  | tx :: txs' =>
      match transact db tx with
      | Err message => Some (Err (PevmExecutionError (EvmOther message)))
      | Ok (r, state, db) =>
          match state_transitions_from_revm eip_161 state with
          | None => None
          | Some transitions =>
              let gas := saturating_add u64_max cumulative_gas_used r.(tx_gas_used) in
              let result := set_cumulative_gas gas
                (mkTxResult _ (receipt_from_revm r) (list_to_map (rev transitions))) in
              match sequential_from eip_161 (commit state db) gas txs' with
              | Some (Ok results) => Some (Ok (result :: results))
              | r => r
              end
          end
      end
  end.

Definition execute_revm_sequential (chain : C) (spec_id : EvmSpecId) (db : CacheDB)
    (txs : list EvmTx) : option (result Error (list PevmTxExecutionResult)) :=
  sequential_from (is_eip_161_enabled chain spec_id) db 0 txs.
End sequential.

(** ** The dispatch and the parallel executor *)

Inductive BlockAbort : Type :=
  | AbortFallbackToSequential
  | AbortExecutionError (e : ExecutionError).

Section block.
Context `{Revm, SpecOrder} {S : Type} `{!Storage S} {C : Type} `{!PevmChain C}.
Abbreviation Error := (PevmError BlockSpecError TransactionParsingError) (only parsing).

(** Which executor [Pevm::execute] runs, and with what. *)
Inductive plan : Type :=
  | RunSequential (spec_id : EvmSpecId) (benv : BlockEnv) (txs : list EvmTx)
  | RunParallel (spec_id : EvmSpecId) (benv : BlockEnv) (txs : list EvmTx).

(** [.map(|tx| chain.get_tx_env(tx)).collect::<Result<Vec<_>, _>>()] *)
Fixpoint get_tx_envs (chain : C) (txs : list Transaction)
    : result TransactionParsingError (list EvmTx) :=
  match txs with
  | [] => Ok []
  | tx :: txs' =>
      let? e := get_tx_env chain tx in
      let? es := get_tx_envs chain txs' in Ok (e :: es)
  end.

(** [Pevm::execute] up to the executor; [None] transactions are hashes only. *)
Definition dispatch (chain : C) (header : Header) (transactions : option (list Transaction))
    (concurrency_level : nat) (force_sequential : bool) : result Error plan :=
  let? spec_id := map_err PevmBlockSpecError (get_block_spec chain header) in
  let block_env := get_block_env header (into_spec_id spec_id) in
  match transactions with
  | None => Err MissingTransactionData
  | Some txs =>
      let? tx_envs := map_err PevmInvalidTransaction (get_tx_envs chain txs) in
      if force_sequential || (length tx_envs <? concurrency_level)
         || (header.(h_gas_used) <? 4000000)%N
      then Ok (RunSequential spec_id block_env tx_envs)
      else Ok (RunParallel spec_id block_env tx_envs)
  end.

(** [execute_revm_parallel] after the worker threads have joined; [sequential]
    is the fall-back. *)
Definition finish_parallel (chain : C) (st : S) (spec_id : EvmSpecId) (txs : list EvmTx)
    (sequential : option (result Error (list PevmTxExecutionResult)))
    (abort_reason : option BlockAbort) (mem : MvMemory Bytecode)
    : stm (list (option PevmTxExecutionResult)) (result Error (list PevmTxExecutionResult)) := λ slots,
  match abort_reason with
  | Some AbortFallbackToSequential => (λ r, (r, slots)) <$> sequential
  | Some (AbortExecutionError e) => Some (Err (PevmExecutionError e), slots)
  | None =>
      match collect_results (length txs) slots with
      | None => None
      | Some (results, slots') =>
          (λ r, (r, slots')) <$>
            evaluate_addresses chain st txs (is_eip_161_enabled chain spec_id) mem
              (elements mem.(lazy_addresses)) results
      end
  end.
End block.

(** ** Cumulative gas *)

Section gas.
Context `{Revm}.

Definition gas_of (r : PevmTxExecutionResult) : N := r.(receipt).(r_cumulative_gas_used).
Definition total_gas (rs : list PevmTxExecutionResult) : N :=
  foldr (λ r n, (gas_of r + n)%N) 0%N rs.

(** Each receipt gets the gas of the block up to and including it. *)
Definition accumulate (start : N) (rs : list PevmTxExecutionResult) : list PevmTxExecutionResult :=
  imap (λ i r, set_cumulative_gas (N.min (start + total_gas (take (S i) rs)) u64_max) r) rs.

Lemma accumulate_cons start r rs :
  (start ≤ u64_max)%N →
  accumulate start (r :: rs) =
    set_cumulative_gas (saturating_add u64_max start (gas_of r)) r
    :: accumulate (saturating_add u64_max start (gas_of r)) rs.
Proof.
  intros Hs. unfold accumulate. simpl. f_equal.
  - f_equal. unfold saturating_add. lia.
  - apply imap_ext. intros i r' _. simpl. f_equal. unfold saturating_add. lia.
Qed.

Lemma collect_from_spec pre rs rest start :
  (start ≤ u64_max)%N →
  collect_from (length pre) (length rs) start (pre ++ (Some <$> rs) ++ rest)
  = Some (accumulate start rs, pre ++ replicate (length rs) None ++ rest).
Proof.
  revert pre start. induction rs as [|r rs IH]; intros pre start Hs; csimpl; [done|].
  unfold mbind, stm_bind, take_slot. rewrite list_lookup_middle by done.
  rewrite insert_app_r_alt, Nat.sub_diag by done. csimpl.
  specialize (IH (pre ++ [None]) (saturating_add u64_max start (gas_of r))).
  rewrite length_app, Nat.add_comm, <-!app_assoc in IH. csimpl in IH.
  fold (gas_of r). rewrite IH by (unfold saturating_add; lia). unfold mret, stm_ret.
  by rewrite accumulate_cons by done.
Qed.

(** C23. When every slot of the block is filled, the collection loop takes
    each result once, leaves the slots empty for the next block, keeps the
    slots beyond the block, and turns the gas of the transactions into
    cumulative gas, saturating at 64 bits. *)
Theorem collect_results_spec rs rest :
  collect_results (length rs) ((Some <$> rs) ++ rest)
  = Some (accumulate 0 rs, replicate (length rs) None ++ rest).
Proof. apply (collect_from_spec [] rs rest 0). vm_compute. discriminate. Qed.

(** The sequential loop numbers the gas in the same way. *)
Lemma sequential_from_gas `{!PevmChain C} (DB : Type) transact commit eip (db : DB) start txs rs :
  (start ≤ u64_max)%N →
  sequential_from DB transact commit eip db start txs = Some (Ok rs) →
  ∃ rs0, rs = accumulate start rs0 ∧ length rs0 = length txs.
Proof.
  revert db start rs. induction txs as [|tx txs IH]; intros db start rs Hs; simpl.
  { intros [= <-]. by exists []. }
  destruct (transact db tx) as [[[r state] db']|] eqn:Ht; [|done].
  destruct (state_transitions_from_revm _ _) as [tr|]; [|done].
  destruct (sequential_from _ _ _ _ _ _ txs) as [[rs1|]|] eqn:Hr; [|done..].
  intros [= <-]. apply IH in Hr as (rs0 & -> & Hlen); [|unfold saturating_add; lia].
  exists (mkTxResult _ (receipt_from_revm r) (list_to_map (rev tr)) :: rs0).
  rewrite accumulate_cons by done. simpl. auto.
Qed.
End gas.

(** ** Ascending histories *)

Lemma range_rev_above (m : gmap nat MemoryEntry) k n :
  k ≤ n → ∃ above, range_rev m n = above ++ range_rev m k.
Proof.
  induction n as [|n IH]; intros Hk.
  - assert (k = 0) as -> by lia. by exists [].
  - destruct (decide (k = S n)) as [->|]; [by exists []|].
    destruct IH as [above Ha]; [lia|]. simpl. rewrite Ha.
    destruct (m !! n) as [e|]; [by exists ((n, e) :: above)|by exists above].
Qed.

Lemma NoDup_range_rev (m : gmap nat MemoryEntry) n : NoDup (range_rev m n).*1.
Proof.
  induction n as [|n IH]; simpl; [constructor|]. destruct (m !! n) as [e|]; [|done].
  csimpl. constructor; [|done]. intros ([k e'] & -> & [Hk _]%elem_of_range_rev)%list_elem_of_fmap.
  simpl in Hk. lia.
Qed.

Lemma max_key_ge (m : gmap nat MemoryEntry) k e : m !! k = Some e → k ≤ max_key m.
Proof.
  intros Hk. unfold max_key. apply elem_of_map_to_list in Hk.
  apply (list_elem_of_fmap_2 fst) in Hk. simpl in Hk.
  induction (map_to_list m).*1 as [|k' ks IH]; simpl; [by apply elem_of_nil in Hk|].
  apply elem_of_cons in Hk as [->|Hk]; [lia|]. specialize (IH Hk). lia.
Qed.

(** The entries up to and including [k], in block order. *)
Definition upto (m : gmap nat MemoryEntry) (k : TxIdx) : list (TxIdx * MemoryEntry) :=
  rev (range_rev m (S k)).

Lemma btree_iter_split (m : gmap nat MemoryEntry) k e :
  m !! k = Some e → ∃ p, btree_iter m !! p = Some (k, e) ∧ take (S p) (btree_iter m) = upto m k.
Proof.
  intros Hk. destruct (range_rev_above m (S k) (S (max_key m))) as [above Ha].
  { apply max_key_ge in Hk. lia. }
  exists (length (range_rev m k)). unfold btree_iter, upto. rewrite Ha, rev_app_distr.
  assert (rev (range_rev m (S k)) = rev (range_rev m k) ++ [(k, e)]) as ->
    by (simpl; by rewrite Hk).
  split.
  - rewrite <-app_assoc. apply list_lookup_middle. by rewrite length_rev.
  - rewrite take_app_length'; [done|]. rewrite length_app, length_rev. simpl. lia.
Qed.

Lemma elem_of_btree_iter (m : gmap nat MemoryEntry) k e :
  (k, e) ∈ btree_iter m ↔ m !! k = Some e.
Proof.
  unfold btree_iter. rewrite list_elem_of_In, <-in_rev, <-list_elem_of_In, elem_of_range_rev.
  split; [naive_solver|]. intros Hk. split; [|done]. apply max_key_ge in Hk. lia.
Qed.

Definition values (history : list (TxIdx * MemoryEntry)) : list MemoryValue :=
  omap (λ p, match p.2 with Data _ x => Some x | Estimate => None end) history.

(** ** What the post-processing computes *)

Section post_spec.
Context `{Revm} {S : Type} `{!Storage S} {C : Type} `{!PevmChain C}.
Variable chain : C.
Variable st : S.
Variable txs : list EvmTx.
Variable eip_161 : bool.

Lemma eval_entry_forward tx acc entry acc' :
  eval_entry tx acc entry = Some (Ok (E:=PevmError BlockSpecError TransactionParsingError) acc') →
  ∃ inc x, entry = Data inc x ∧ acc' = apply_value acc x.
Proof.
  unfold eval_entry. intros He. repeat case_match; simplify_eq/=; eauto.
Qed.

Lemma eval_history_spec a ch code acc history results results' :
  NoDup history.*1 →
  eval_history chain txs eip_161 a ch code acc history results = Some (Ok results') →
  length results' = length results ∧
  (∀ k, k ∉ history.*1 → results' !! k = results !! k) ∧
  ∀ p k e, history !! p = Some (k, e) → ∃ r, results !! k = Some r ∧
    results' !! k = Some (update_result eip_161 a ch code
      (forward acc (values (take (Datatypes.S p) history))) r).
Proof.
  revert acc results. induction history as [|[i e0] history IH]; intros acc results Hnd; simpl.
  { intros [= <-]. split_and!; [done..|]. by intros [|p] k e. }
  csimpl in Hnd. apply NoDup_cons in Hnd as [Hi Hnd].
  destruct (txs !! i) as [tx|]; [|done].
  destruct (eval_entry _ _ _) as [[acc'|]|] eqn:He; [|done..].
  destruct (check_nonce _ _ _ _); [|done]. destruct (results !! i) as [r|] eqn:Hr; [|done].
  apply eval_entry_forward in He as (inc & x & -> & ->). intros Hev.
  apply IH in Hev as (Hlen & Hsame & Hev); [|done]. rewrite length_insert in Hlen.
  pose proof (lookup_lt_Some _ _ _ Hr) as Hlt. split_and!; [done|..].
  - intros k. rewrite not_elem_of_cons. intros [Hne Hk].
    rewrite Hsame by done. by apply list_lookup_insert_ne.
  - intros [|p] k e Hp; simplify_eq/=.
    + exists r. split; [done|]. rewrite Hsame by done. by rewrite list_lookup_insert_eq.
    + destruct (Hev _ _ _ Hp) as (r' & Hr' & Hres).
      assert (i ≠ k) as Hik.
      { intros ->. apply Hi. apply list_elem_of_lookup_2 in Hp.
        by apply (list_elem_of_fmap_2 fst) in Hp. }
      rewrite list_lookup_insert_ne in Hr' by done. eauto.
Qed.

End post_spec.

(** ** Dispatch *)

Section dispatch_spec.
Context `{Revm, SpecOrder} {C : Type} `{!PevmChain C}.
Implicit Types (chain : C).

Lemma get_tx_envs_spec chain txs :
  match get_tx_envs chain txs with
  | Ok es => Forall2 (λ tx e, get_tx_env chain tx = Ok e) txs es
  | Err err => ∃ i tx, txs !! i = Some tx ∧ get_tx_env chain tx = Err err ∧
      ∀ j tx', j < i → txs !! j = Some tx' → ∃ e, get_tx_env chain tx' = Ok e
  end.
Proof.
  induction txs as [|tx txs IH]; simpl; [constructor|].
  destruct (get_tx_env chain tx) as [e|err] eqn:He; simpl.
  - destruct (get_tx_envs chain txs) as [es|err]; simpl; [by constructor|].
    destruct IH as (i & tx' & Hi & Herr & Hlow). exists (S i), tx'. split_and!; [done..|].
    intros [|j] tx'' Hj Hlk; simplify_eq/=; [eauto|]. eapply Hlow; [|done]. lia.
  - exists 0, tx. split_and!; [done..|]. intros; lia.
Qed.

(** C25. [Pevm::execute] refuses a block whose spec cannot be derived, one with
    transaction hashes only, and one with a transaction that cannot be parsed
    (reporting the first); every other block is executed whole and in order,
    sequentially exactly when forced, when it has fewer transactions than
    workers, or when it used less than four million gas. *)
Theorem dispatch_spec chain header transactions level force spec_id :
  get_block_spec chain header = Ok spec_id →
  let benv := get_block_env header (into_spec_id spec_id) in
  match transactions with
  | None => dispatch chain header transactions level force = Err MissingTransactionData
  | Some txs =>
      (∃ i tx err, txs !! i = Some tx ∧ get_tx_env chain tx = Err err ∧
        (∀ j tx', j < i → txs !! j = Some tx' → ∃ e, get_tx_env chain tx' = Ok e) ∧
        dispatch chain header transactions level force = Err (PevmInvalidTransaction err)) ∨
      (∃ es, Forall2 (λ tx e, get_tx_env chain tx = Ok e) txs es ∧
        dispatch chain header transactions level force =
          Ok (if decide (force = true ∨ length txs < level ∨ (header.(h_gas_used) < 4000000)%N)
              then RunSequential spec_id benv es else RunParallel spec_id benv es))
  end.
Proof.
  intros Hspec. simpl. unfold dispatch. rewrite Hspec. simpl.
  destruct transactions as [txs|]; [|done]. pose proof (get_tx_envs_spec chain txs) as Htx.
  destruct (get_tx_envs chain txs) as [es|err]; simpl.
  - right. exists es. split; [done|]. apply Forall2_length in Htx as Hlen. rewrite <-Hlen.
    destruct (Nat.ltb_spec (length txs) level),
      (N.ltb_spec (h_gas_used header) 4000000), force; case_decide as Hd; try done; exfalso;
      first [by apply Hd; auto | destruct Hd as [?|[?|?]]; [done|lia..]].
  - left. destruct Htx as (i & tx & Hi & He & Hlow). by exists i, tx, err.
Qed.
End dispatch_spec.

(** ** Transactions without a nonce *)


(** ** Examples *)

Module BlockDemo.
#[local] Existing Instances demo_revm demo_alloy demo_order.

Definition st : InMemoryStorage := mkInMemoryStorage _
  {[ 1%N := mkEvmAccount _ 1000000 4 None None ∅ ]} ∅ ∅.

(** Account 1 sends, receives, and sends again. *)
Definition txs : list TxEnv :=
  [plain_tx 1 (Call 7) 4 30; plain_tx 7 (Call 1) 0 200; plain_tx 1 (Call 7) 5 50].
Definition history : gmap nat MemoryEntry := LazyDemo.history_of LazyDemo.pending.
Definition mem : MvMemory Bytecode := LazyDemo.memory 1 LazyDemo.pending.

Definition empty_result : PevmTxExecutionResult := mkTxResult _ (mkReceipt _ true 21000 []) ∅.
Definition results : list PevmTxExecutionResult := replicate 3 empty_result.

Definition final : list PevmTxExecutionResult :=
  match evaluate_address mainnet st txs true mem 1 results with
  | Some (Ok rs) => rs
  | _ => []
  end.

Definition deposit : OpTransaction := mkOpTransaction
  (mkTxEnv 126 1 0 0 None (Call 7) 0 [] 0 None [] [] 0 []) None (mkDepositParts 9 (Some 5%N) false).

Definition header : Header := mkHeader 13000000 0 50 30000000 5000000 (Some 1%N) 0 0 None.
Definition rpc_tx : RpcTx TxType :=
  mkRpcTx _ TyLegacy 1 21000 (Some 7%N) 7 None (Call 2) 0 [] 0 None None None None None.
End BlockDemo.

#[local] Existing Instances demo_revm demo_alloy demo_order.


Lemma dispatch_spec_witness :
  ∃ es, dispatch (PevmChain0:=PevmEthereum_chain) mainnet BlockDemo.header (Some [BlockDemo.rpc_tx; BlockDemo.rpc_tx]) 2 false
    = Ok (RunParallel LONDON (get_block_env BlockDemo.header LONDON) es).
Proof.
  destruct (dispatch_spec (PevmChain0:=PevmEthereum_chain) mainnet BlockDemo.header (Some [BlockDemo.rpc_tx; BlockDemo.rpc_tx]) 2
    false LONDON eq_refl) as [(i & tx & err & Hi & He & _)|(es & _ & Hd)].
  - exfalso. destruct i as [|[|i]]; simplify_eq/=.
  - exists es. rewrite Hd, decide_False; [done|]. clear Hd. intros [Hf|[Hl|Hg]].
    + discriminate Hf.
    + cbn in Hl. lia.
    + unfold BlockDemo.header in Hg. cbn [h_gas_used] in Hg. lia.
Defined.

