(* ===== verification/Snapshot.v ===== *)
(** * The sequential meaning of a multi-version memory

    A [Snapshot] is the plain chain state: accounts, code hashes, slots.  The
    snapshot of a memory at index [n] is the state after the first [n]
    transactions.  [VmDb] at index [n] refines it: whatever a program is told
    through [VmDb], origins, lazy evaluation and all, it is told by the
    snapshot.  Along a block the snapshots follow the write sets, so that a
    block in which every transaction is valid against the final memory is a
    sequential execution. *)

From S2P Require Import Prelude Uint Types MvMemory Storage VmDb Validation Lazy Chain Vm.

(** ** Snapshots *)

Record Snapshot `{Revm} : Type := mkSnapshot {
  sn_account : Address → option AccountBasic;
  sn_code_hash : Address → option B256;
  sn_slot : Address → U256 → U256;
  sn_code : B256 → option Bytecode;
}.

(** Snapshots are equal when they answer the same. *)
#[export] Instance Snapshot_equiv `{Revm} : Equiv Snapshot := λ s s',
  (∀ a, s.(sn_account) a = s'.(sn_account) a) ∧
  (∀ a, s.(sn_code_hash) a = s'.(sn_code_hash) a) ∧
  (∀ a i, s.(sn_slot) a i = s'.(sn_slot) a i) ∧
  (∀ h, s.(sn_code) h = s'.(sn_code) h).

#[export] Instance Snapshot_equivalence `{Revm} : Equivalence (≡@{Snapshot}).
Proof.
  split.
  - by intros s.
  - intros s s' (H1 & H2 & H3 & H4). split_and!; intros; symmetry; auto.
  - intros s1 s2 s3 (H1 & H2 & H3 & H4) (H1' & H2' & H3' & H4').
    split_and!; intros; etrans; eauto.
Qed.

(** ** Programs on a snapshot *)

Section direct.
Context `{Revm} {S : Type} `{!Storage S}.
Variable st : S.

(** A lazily updated transaction sees its mock sender and no recipient. *)
Definition direct_basic (sn : Snapshot) (lazy : bool) (tx : TxEnv) (a : Address)
    : option AccountInfo :=
  if lazy && bool_decide (a = tx.(caller)) then
    Some (mkAccountInfo _ U256_MAX tx.(tx_nonce) KECCAK_EMPTY None)
  else if lazy && bool_decide (tx.(tx_kind) = Call a) then None
  else
    (λ acc, mkAccountInfo _ acc.(ab_balance) acc.(ab_nonce)
       (default KECCAK_EMPTY (sn.(sn_code_hash) a)) (sn.(sn_code_hash) a ≫= sn.(sn_code)))
    <$> sn.(sn_account) a.

Definition direct_code_by_hash (h : B256) : Bytecode :=
  match code_by_hash st h with
  | Ok (Some c) => bytecode_from_evm_code c
  | _ => bytecode_default
  end.

Definition direct_block_hash (n : N) : B256 :=
  match block_hash st n with Ok h => h | Err _ => 0%N end.

Fixpoint run_direct {R} (sn : Snapshot) (lazy : bool) (tx : TxEnv) (p : evm_prog R) : R :=
  match p with
  | EvmDone r => r
  | EvmBasic a k => run_direct sn lazy tx (k (direct_basic sn lazy tx a))
  | EvmCodeByHash h k => run_direct sn lazy tx (k (direct_code_by_hash h))
  | EvmStorage a i k => run_direct sn lazy tx (k (sn.(sn_slot) a i))
  | EvmBlockHash n k => run_direct sn lazy tx (k (direct_block_hash n))
  end.

Lemma direct_basic_proper sn sn' lazy tx a :
  sn ≡ sn' → direct_basic sn lazy tx a = direct_basic sn' lazy tx a.
Proof.
  intros (H1 & H2 & H3 & H4). unfold direct_basic. rewrite H1, H2.
  destruct (sn_code_hash sn' a); simpl; [by rewrite H4|done].
Qed.

#[export] Instance run_direct_proper {R} :
  Proper ((≡) ==> (=) ==> (=) ==> (=) ==> (=)) (@run_direct R).
Proof.
  intros sn sn' Hsn lazy ? <- tx ? <- p ? <-.
  induction p as [r|a k IH|h k IH|a i k IH|n k IH]; simpl; [done|..].
  - by rewrite (direct_basic_proper _ _ _ _ _ Hsn).
  - done.
  - destruct Hsn as (_ & _ & -> & _). done.
  - done.
Qed.

(** ** The snapshot of a memory *)

Implicit Types (mem : MvMemory Bytecode) (db : VmDb).

Definition basic_walk mem (a : Address) (n : TxIdx) : list (TxIdx * MemoryEntry) :=
  walk mem (hash_deterministic (LocBasic a)) n.

Definition view_account mem (n : TxIdx) (a : Address) : option AccountBasic :=
  let es := basic_walk mem a n in
  match absolute es, Storage.basic st a, lazies es with
  | None, Ok (Some _), _ | Some _, _, _ | None, _, _ :: _ => Some (evaluated st a es)
  | _, _, _ => None
  end.

Definition view_code_hash mem (n : TxIdx) (a : Address) : option B256 :=
  match code_hash_seen st mem a n with Some (Ok ch, _) => ch | _ => None end.

Definition view_slot mem (n : TxIdx) (a : Address) (i : U256) : U256 :=
  match storage_seen st mem a i n with Ok (Ok x, _) => x | _ => 0%N end.

Definition view_code mem (h : B256) : option Bytecode :=
  match lookup_code st mem (Some h) with Ok c => c | Err _ => None end.

Definition snapshot_of mem (n : TxIdx) : Snapshot :=
  mkSnapshot _ (view_account mem n) (view_code_hash mem n) (view_slot mem n) (view_code mem).

(** ** [VmDb] refines the snapshot *)

Variable K : MemoryLocationHash → loc_kind.
Hypothesis hash_kind : ∀ l, K (hash_deterministic l) = kind_of l.
Hypothesis hash_basic_inj : ∀ a b,
  hash_deterministic (LocBasic a) = hash_deterministic (LocBasic b) → a = b.
Variable V : MemoryLocationHash → TxIdx → TxIncarnation → option MemoryValue.

(** Every account can be evaluated exactly, and none has been swept (see
    [Lazy.swept_account_disappears]). *)
Record readable mem (n : TxIdx) : Prop := {
  rd_exact a : exact (base_account st a (basic_walk mem a n)) (rev (lazies (basic_walk mem a n)));
  rd_swept a : absolute (basic_walk mem a n) = None → Storage.basic st a = Ok None →
    (evaluated st a (basic_walk mem a n)).(ab_balance) = 0%N → lazies (basic_walk mem a n) = [];
}.

(** The recipient's code hash, read by [set_tx], is that of the snapshot. *)
Definition recipient_known mem db : Prop :=
  ∀ to, db.(db_tx).(tx_kind) = Call to →
    db.(to_code_hash) = view_code_hash mem db.(db_tx_idx) to.

(** The accounts noted while reading are those of the snapshot; the two ends
    of a lazy update are not noted. *)
Definition mocked db (a : Address) : bool :=
  db.(is_lazy) && (bool_decide (a = db.(db_tx).(caller))
                   || bool_decide (db.(db_tx).(tx_kind) = Call a)).

Definition accounts_known mem db : Prop :=
  ∀ a p, db.(read_accounts) !! hash_deterministic (LocBasic a) = Some p →
    view_account mem db.(db_tx_idx) a = Some p.1 ∧
    view_code_hash mem db.(db_tx_idx) a = p.2 ∧ mocked db a = false.

Lemma code_hash_read_view mem a db ch db' :
  db_inv st K mem db → recipient_known mem db →
  code_hash_read st mem (hash_deterministic (LocBasic a)) a db = Some (Ok ch, db') →
  ch = view_code_hash mem db.(db_tx_idx) a ∧ db'.(read_accounts) = db.(read_accounts) ∧
  same_tx db db'.
Proof.
  intros Hinv Hto. unfold code_hash_read. case_decide as Hd.
  - unfold db_ret. intros [= <- <-]. split; [|done]. rewrite (inv_to _ _ _ _ Hinv) in Hd.
    destruct (tx_kind (db_tx db)) as [|to] eqn:Hk; [done|].
    injection Hd as Hd. apply hash_basic_inj in Hd as ->. by apply Hto.
  - rewrite (get_code_hash_seen _ _ hash_kind _ _ _ Hinv). unfold view_code_hash.
    destruct (code_hash_seen _ _ _ _) as [[r o]|]; [|done].
    destruct (fits _ _ _); [|done]. by intros [= -> <-].
Qed.

(** An account that was found is in the snapshot. *)
Lemma eval_lazy_nothing es e e' :
  absolute es = None → lazies es = [] → eval_lazy None es e = Some (Ok e') → e' = e.
Proof. destruct es as [|[k [inc []|]] es]; simpl; intros; by simplify_eq. Qed.

Lemma account_found_view mem a prev n e acc :
  account_found st mem (hash_deterministic (LocBasic a)) a prev n = Some (Ok e) →
  e.(final_account) = Some acc →
  view_account mem n a = Some (evaluated st a (basic_walk mem a n)).
Proof.
  unfold account_found, view_account. fold (basic_walk mem a n).
  destruct (absolute (basic_walk mem a n)) eqn:Ha; [done|].
  destruct (lazies (basic_walk mem a n)) eqn:Hl; [|by destruct (Storage.basic st a) as [[]|]].
  destruct (eval_lazy prev _ _) as [[e0|]|] eqn:He; [|done..].
  apply eval_lazy_first, (eval_lazy_nothing _ _ _ Ha Hl) in He as ->.
  unfold basic_from_storage. simpl. destruct (match prev with None => true | _ => _ end); [|done].
  destruct (Storage.basic st a) as [[]|]; intros; by simplify_eq/=.
Qed.

(** A read leaves origins, whatever it found. *)
Lemma account_read_inv mem a db e :
  db_inv st K mem db →
  account_found st mem (hash_deterministic (LocBasic a)) a
    (db.(read_set) !! hash_deterministic (LocBasic a)) db.(db_tx_idx) = Some (Ok e) →
  db_inv st K mem (set_read_set (<[hash_deterministic (LocBasic a) :=
    origins_left (db.(read_set) !! hash_deterministic (LocBasic a)) e]> db.(read_set)) db).
Proof.
  intros [HF HT HO HC] Hf. split; try done. simpl. intros l os.
  rewrite lookup_insert_Some. intros [[<- <-]|[_ ?]]; [|by apply HO]. split.
  - eapply origins_left_nonempty; [|exact Hf]. intros os Hos. by eapply HO.
  - by rewrite hash_kind.
Qed.

Lemma db_basic_view mem a db info db' :
  readable mem db.(db_tx_idx) → db_inv st K mem db → recipient_known mem db →
  accounts_known mem db → db_basic st mem a db = Some (Ok info, db') →
  info = direct_basic (snapshot_of mem db.(db_tx_idx)) db.(is_lazy) db.(db_tx) a ∧
  accounts_known mem db'.
Proof.
  intros Hrd Hinv Hto Hac. rewrite (db_basic_split _ _ _ _ _ Hinv). simpl. unfold direct_basic.
  assert ((hash_deterministic (LocBasic a) =? from_hash db)%N = bool_decide (a = caller (db_tx db)))
    as ->.
  { rewrite (inv_from _ _ _ _ Hinv). apply eq_true_iff_eq.
    rewrite N.eqb_eq, bool_decide_eq_true. naive_solver. }
  assert (bool_decide (Some (hash_deterministic (LocBasic a)) = to_hash db)
          = bool_decide (tx_kind (db_tx db) = Call a)) as ->.
  { rewrite (inv_to _ _ _ _ Hinv). apply bool_decide_ext.
    destruct (tx_kind (db_tx db)); naive_solver. }
  destruct (is_lazy db && bool_decide (a = _)) eqn:Hfrom; [by intros [= <- <-]|].
  destruct (is_lazy db && bool_decide (tx_kind _ = _)) eqn:Hcall; [by intros [= <- <-]|].
  unfold db_bind, account_read.
  destruct (account_found _ _ _ _ _ _) as [[e|]|] eqn:Hf; [|done..].
  pose proof (account_found_forward _ _ _ _ _ _ _ (rd_exact _ _ Hrd a) Hf) as Hfw.
  pose proof (account_read_inv mem a db e Hinv Hf) as Hinv1.
  set (db1 := set_read_set _ db) in *.
  assert (recipient_known mem db1) as Hto1 by done.
  unfold account_use. destruct (final_account e) as [acc|] eqn:Hacc.
  - destruct Hfw as [Hb Hn]. simpl. unfold basic_finish.
    destruct (u64_max <? _)%N; [done|]. destruct (_ && _ && _); [by destruct (0 <? _)|].
    unfold db_bind at 1. fold (code_hash_read st mem (hash_deterministic (LocBasic a)) a db1).
    destruct (code_hash_read _ _ _ _ db1) as [[[ch|] db2]|] eqn:Hch; [|done..].
    apply (code_hash_read_view mem a db1 ch db2 Hinv1 Hto1) in Hch as (Hch & Hacc2 & Hs2).
    simpl in Hch, Hacc2. destruct Hs2 as (Hi2 & Ht2 & _ & _ & _ & Hl2 & _).
    simpl in Hi2, Ht2, Hl2. unfold db_bind, db_lift. destruct (lookup_code st mem ch) as [code|] eqn:Hcode; [|done].
    pose proof (account_found_view _ _ _ _ _ _ Hf Hacc) as Hview.
    intros [= <- <-]. fold (settle e (ab_balance acc)). rewrite Hb, Hn. split.
    + rewrite <-Hch, Hview. simpl. do 2 f_equal.
      destruct ch as [h|]; [|by injection Hcode]. simpl. unfold view_code. by rewrite Hcode.
    + intros a' p. unfold mocked. simpl. rewrite Hacc2, Hi2, Ht2, Hl2, lookup_insert_Some.
      intros [[->%hash_basic_inj <-]|[_ Hp]]; [|by apply Hac]. simpl.
      rewrite Hview, <-Hch. split_and!; [by destruct (evaluated _ _ _)|done|].
      by rewrite andb_orb_distrib_r, Hfrom, Hcall.
  - destruct Hfw as (Ha & Hs & Hz). intros [= <- <-]. split; [|done]. simpl. unfold view_account.
    fold (basic_walk mem a (db_tx_idx db)) in Ha, Hz.
    by rewrite Ha, Hs, (rd_swept _ _ Hrd a Ha Hs Hz).
Qed.

Lemma db_storage_view mem a i db x db' :
  db_inv st K mem db → db_storage st mem a i db = Some (Ok x, db') →
  x = view_slot mem db.(db_tx_idx) a i ∧ db'.(read_accounts) = db.(read_accounts) ∧
  same_tx db db'.
Proof.
  intros Hinv. rewrite (db_storage_seen _ _ hash_kind _ _ _ _ Hinv). unfold view_slot.
  destruct (storage_seen _ _ _ _ _) as [[r o]|]; [|done].
  destruct (fits _ _ _); [|done]. by intros [= -> <-].
Qed.

Lemma recipient_known_same mem db db' :
  same_tx db db' → recipient_known mem db → recipient_known mem db'.
Proof. intros (Hi & Ht & _ & _ & Hc & _) Hk to. rewrite Hi, Ht, Hc. apply Hk. Qed.

Lemma accounts_known_same mem db db' :
  db'.(read_accounts) = db.(read_accounts) → same_tx db db' →
  accounts_known mem db → accounts_known mem db'.
Proof.
  intros Ha (Hi & Ht & _ & _ & _ & Hl & _) Hk a p. unfold mocked. rewrite Ha, Hi, Ht, Hl. apply Hk.
Qed.

(** What a run starts from and keeps. *)
Record db_view mem db : Prop := {
  view_inv : db_inv st K mem db;
  view_recipient : recipient_known mem db;
  view_accounts : accounts_known mem db;
}.

(** One query, then the rest of the program. *)
Lemma run_prog_view_step {A R} (m : MvMemory Bytecode → dbm A) mem (k : A → dbm R)
    (g : A) (f : A → R) db r db' :
  replayable st K V m → mem_ok st V mem → db_view mem db →
  (∀ x db1, m mem db = Some (Ok x, db1) → x = g ∧ accounts_known mem db1) →
  (∀ x db1, db_view mem db1 → same_tx db db1 → k x db1 = Some (Ok r, db') →
    r = f x ∧ db_view mem db' ∧ same_tx db1 db') →
  db_bind (m mem) k db = Some (Ok r, db') →
  r = f g ∧ db_view mem db' ∧ same_tx db db'.
Proof.
  intros Hm Hok [Hinv Hto Hac] Hg IH. unfold db_bind.
  destruct (m mem db) as [[[x|] db1]|] eqn:Hq; [|done..].
  destruct (Hm _ _ _ _ Hok Hinv Hq) as (Hinv1 & Hs & _).
  destruct (Hg _ _ eq_refl) as [<- Hac1]. intros Hr.
  destruct (IH x db1) as (? & ? & ?);
    [split; eauto using recipient_known_same|done|done|]. eauto using same_tx_trans.
Qed.

(** A program that ends ends as on the snapshot. *)
Lemma run_prog_view {R} (p : evm_prog R) mem t db r db' :
  readable mem db.(db_tx_idx) → mem_ok st V mem → db_view mem db →
  run_prog st (λ _, mem) t p db = Some (Ok r, db') →
  r = run_direct (snapshot_of mem db.(db_tx_idx)) db.(is_lazy) db.(db_tx) p ∧
  db_view mem db' ∧ same_tx db db'.
Proof.
  intros Hrd Hok. revert t db Hrd.
  induction p as [r'|a k IH|h k IH|a i k IH|n k IH]; intros t db Hrd Hv; simpl.
  { by intros [= <- <-]. }
  all: set (sn := snapshot_of _ _);
    set (f := λ x, run_direct sn db.(is_lazy) db.(db_tx) (k x)).
  all: assert (∀ x db1, db_view mem db1 → same_tx db db1 →
    run_prog st (λ _, mem) (Datatypes.S t) (k x) db1 = Some (Ok r, db') →
    r = f x ∧ db_view mem db' ∧ same_tx db1 db') as Hk
    by (intros x db1 Hv1 (Hi & Ht & _ & _ & _ & Hlz & _) Hr; subst f sn; simpl;
        rewrite <-Hi, <-Ht, <-Hlz; rewrite <-Hi in Hrd; by eapply IH).
  all: pose proof Hv as [Hinv Hto Hac].
  - apply (run_prog_view_step (λ mem, db_basic st mem a) mem _ _ f); try done.
    + by apply db_basic_replayable.
    + intros x db1. by apply db_basic_view.
  - apply (run_prog_view_step (λ _, db_code_by_hash st h) mem _ _ f); try done.
    + apply replayable_code_by_hash.
    + unfold db_code_by_hash, from_storage, db_bind, db_lift, db_ret, direct_code_by_hash.
      intros x db1. destruct (code_by_hash st h) as [[]|]; simpl; intros; by simplify_eq.
  - apply (run_prog_view_step (λ mem, db_storage st mem a i) mem _ _ f); try done.
    + by apply db_storage_replayable.
    + intros x db1 Hx. destruct (db_storage_view _ _ _ _ _ _ Hinv Hx) as (? & ? & ?).
      split; [done|]. by eapply accounts_known_same.
  - apply (run_prog_view_step (λ _, db_block_hash st n) mem _ _ f); try done.
    + apply replayable_lift.
    + unfold db_block_hash, from_storage, db_lift, direct_block_hash.
      intros x db1. destruct (block_hash st n); simpl; intros; by simplify_eq.
Qed.

(** The lazy-update decision of [set_tx]. *)
Definition lazy_update mem (i : TxIdx) (tx : TxEnv) : bool :=
  match tx.(tx_kind) with
  | Create => false
  | Call to => match view_code_hash mem i to with
               | Some _ => false
               | None => lazy_test mem (caller_hash tx) (recipient_hash tx) end
  end.

Lemma set_tx_view mem i tx hn db db0 :
  mem_ok st V mem →
  set_tx st mem i tx (caller_hash tx) (recipient_hash tx) hn db = Some (Ok tt, db0) →
  db_view mem db0 ∧ db0.(db_tx_idx) = i ∧ db0.(db_tx) = tx ∧ db0.(is_lazy) = lazy_update mem i tx.
Proof.
  intros Hok Hset. destruct (set_tx_replay _ _ hash_kind _ _ _ _ _ _ _ Hok Hset) as (Hinv0 & Hi & _).
  revert Hset. rewrite set_tx_split. unfold lazy_update.
  assert (∀ db, db.(read_accounts) = ∅ → accounts_known mem db) as Hnone.
  { intros db' He a p. by rewrite He, lookup_empty. }
  destruct (tx_kind tx) as [|to] eqn:Hkind.
  { intros [= <-]. split_and!; [|done..]. split; [done| |by apply Hnone].
    intros to. simpl. by rewrite Hkind. }
  unfold db_bind. pose proof (db_reset_inv st K mem i tx hn) as Hinv.
  rewrite (get_code_hash_seen _ _ hash_kind _ _ _ Hinv). simpl. unfold view_code_hash.
  destruct (code_hash_seen _ _ _ _) as [[r o]|] eqn:Hs; [|done].
  unfold fits. simpl. rewrite lookup_empty. destruct r as [ch|]; [|done].
  intros [= <-]. split_and!; [|done..]. split; [done| |by apply Hnone].
  intros to'. simpl. rewrite Hkind. intros [= <-]. unfold view_code_hash. by rewrite Hs.
Qed.

(** The set-up of a transaction, seen from a later memory that agrees with
    its origins; the lazy-update decision stays the one it took. *)
Lemma set_tx_view_later mem M i tx hn db db0 :
  mem_ok st V mem → mem_ok st V M → later mem M →
  set_tx st mem i tx (caller_hash tx) (recipient_hash tx) hn db = Some (Ok tt, db0) →
  agrees M i db0.(read_set) →
  db_view M db0 ∧ db0.(db_tx_idx) = i ∧ db0.(db_tx) = tx.
Proof.
  intros Hok HM Hl Hset Ha.
  destruct (set_tx_replay _ _ hash_kind _ _ _ _ _ _ _ Hok Hset) as (Hinv0 & Hi & _).
  apply (db_inv_later _ _ _ _ _ Hl) in Hinv0.
  assert (∀ db, db.(read_accounts) = ∅ → accounts_known M db) as Hnone.
  { intros db' He a p. by rewrite He, lookup_empty. }
  revert Hset. rewrite set_tx_split. destruct (tx_kind tx) as [|to] eqn:Hkind.
  { intros [= <-]. split_and!; [|done..]. split; [done| |by apply Hnone].
    intros to. simpl. by rewrite Hkind. }
  unfold db_bind. pose proof (db_reset_inv st K mem i tx hn) as Hinv.
  destruct (get_code_hash st mem to _) as [[[ch|] db1]|] eqn:Hg; [|done..]. intros [= <-]. simpl in Ha.
  destruct (get_code_hash_replayable _ _ hash_kind _ to _ _ _ _ Hok Hinv Hg) as (_ & Hs & _ & Hrep).
  specialize (Hrep M HM Hl Ha). destruct Hs as (Hi1 & Ht1 & _).
  assert (db1.(read_accounts) = ∅ ∧ view_code_hash M i to = ch) as [Hra Hch].
  { rewrite (get_code_hash_seen _ _ hash_kind _ _ _ (db_reset_inv st K M i tx hn)) in Hrep.
    unfold view_code_hash. simpl in Hrep. destruct (code_hash_seen _ _ _ _) as [[r o]|]; [|done].
    destruct (fits _ _ _); [|done]. by injection Hrep as -> <-. }
  split_and!; [|by rewrite <-Hi|done]. split; [done| |by apply Hnone].
  intros to'. simpl. rewrite Ht1, Hi1. simpl. rewrite Hkind. by intros [= <-].
Qed.
End direct.

(** ** [Vm::execute] up to the end of the run *)

Section refinement.
Context `{Revm} {S : Type} `{!Storage S} {C : Type} `{!PevmChain C}.
Variable evm : CfgEnv EvmSpecId → BlockEnv → EvmTx → evm_prog evm_outcome.
Variable vm : Vm (S:=S) (C:=C).
Variable K : MemoryLocationHash → loc_kind.
Hypothesis hash_kind : ∀ l, K (hash_deterministic l) = kind_of l.
Hypothesis hash_basic_inj : ∀ a b,
  hash_deterministic (LocBasic a) = hash_deterministic (LocBasic b) → a = b.
Variable V : MemoryLocationHash → TxIdx → TxIncarnation → option MemoryValue.

(** The run of a transaction on a snapshot. *)
Definition direct_tx (sn : Snapshot) (lazy : bool) (full_tx : EvmTx) : evm_outcome :=
  let tx := tx_env vm.(vm_chain) full_tx in
  let cfg := snd (chain_has_nonce vm.(vm_chain) (build_cfg vm.(vm_chain) vm.(vm_spec)) full_tx) in
  run_direct vm.(vm_storage) sn lazy tx (evm cfg vm.(vm_block_env) full_tx).

Lemma run_tx_view mem i full_tx db o db' :
  let st := vm.(vm_storage) in
  let tx := tx_env vm.(vm_chain) full_tx in
  mem_ok st V mem → readable st mem i →
  run_tx evm vm (λ _, mem) i full_tx db = Some (Ok o, db') →
  o = direct_tx (snapshot_of st mem i) (lazy_update st mem i tx) full_tx ∧
  db_view st K mem db' ∧ db'.(db_tx_idx) = i ∧ db'.(db_tx) = tx ∧
  db'.(is_lazy) = lazy_update st mem i tx.
Proof.
  intros st tx Hok Hrd. unfold run_tx, direct_tx. fold tx.
  destruct (chain_has_nonce _ _ _) as [hn cfg]. unfold db_bind.
  destruct (set_tx _ _ _ _ _ _ _ _) as [[[[]|] db0]|] eqn:Hset; [|done..]. intros Hrun.
  destruct (set_tx_view _ K hash_kind V _ _ _ _ _ _ Hok Hset) as (Hv & Hi & Ht & Hl).
  rewrite <-Hi in Hrd.
  destruct (run_prog_view _ _ hash_kind hash_basic_inj _ _ _ _ _ _ _ Hrd Hok Hv Hrun)
    as (-> & Hv' & (Hi' & Ht' & _ & _ & _ & Hl' & _)).
  rewrite Hi', Ht', Hl', Hi, Ht, Hl. done.
Qed.

(** The same for a run that saw the memories [mems], from a later memory that
    agrees with its origins. *)
Lemma run_tx_view_later mems M i full_tx db o db' :
  let st := vm.(vm_storage) in
  history st V mems → mem_ok st V M → (∀ t, later (mems t) M) → readable st M i →
  run_tx evm vm mems i full_tx db = Some (Ok o, db') → agrees M i db'.(read_set) →
  o = direct_tx (snapshot_of st M i) db'.(is_lazy) full_tx ∧
  db_view st K M db' ∧ db'.(db_tx_idx) = i ∧ db'.(db_tx) = tx_env vm.(vm_chain) full_tx.
Proof.
  intros st Hh HM Hl Hrd. unfold run_tx, direct_tx.
  destruct (chain_has_nonce _ _ _) as [hn cfg]. unfold db_bind.
  destruct (set_tx _ _ _ _ _ _ _ _) as [[[[]|] db0]|] eqn:Hset; [|done..]. intros Hrun Ha.
  pose proof (history_ok _ _ _ Hh 0) as Hok0.
  destruct (set_tx_replay _ _ hash_kind _ _ _ _ _ _ _ Hok0 Hset) as (Hinv & Hi0 & _).
  apply (db_inv_later _ _ _ _ _ (history_later _ _ _ Hh 0)) in Hinv.
  destruct (run_prog_replay _ _ hash_kind _ _ _ _ _ _ _ Hh Hinv Hrun) as (_ & Hsub & Hrep).
  rewrite Hi0 in Hrep. specialize (Hrep M 1 HM Hl Ha).
  destruct (set_tx_view_later _ K hash_kind V _ M _ _ _ _ _ Hok0 HM (Hl 0) Hset
    (agrees_mono _ _ _ _ Hsub Ha)) as (Hv & Hi & Ht).
  rewrite <-Hi in Hrd.
  destruct (run_prog_view _ _ hash_kind hash_basic_inj _ _ _ _ _ _ _ Hrd HM Hv Hrep)
    as (-> & Hv' & (Hi' & Ht' & _ & _ & _ & Hl' & _)).
  rewrite Hi', Ht', Hl', Hi, Ht. done.
Qed.

End refinement.
