(* ===== verification/Serial.v ===== *)
(** * Serializability of a block

    The snapshots of a memory follow the write sets of its transactions.  The
    write set [Vm::execute] extracts from the EVM state has the effect of
    committing that state and paying the rewards.  Together with
    [Soundness.v] and [Snapshot.v]: the results of a block in which every
    transaction is validated are those of executing its transactions one
    after the other. *)

From S2P Require Import Prelude Uint Types MvMemory Storage VmDb Validation Lazy Chain Vm Soundness Snapshot.

(** ** The effect of a write set on a snapshot *)

Section effect.
Context `{Revm}.

Definition write_account (acc : option AccountBasic) (x : option MemoryValue)
    : option AccountBasic :=
  match x with
  | Some x => Some (apply_value (default AccountBasic_default acc) x)
  | None => acc
  end.

Definition apply_writes (w : MemoryLocationHash → option MemoryValue) (sn : Snapshot) : Snapshot :=
  mkSnapshot _
    (λ a, write_account (sn.(sn_account) a) (w (hash_deterministic (LocBasic a))))
    (λ a, match w (hash_deterministic (LocCodeHash a)) with
          | Some (ValCodeHash h) => Some h
          | _ => sn.(sn_code_hash) a
          end)
    (λ a i, match w (hash_deterministic (LocStorage a i)) with
            | Some (ValStorage x) => x
            | _ => sn.(sn_slot) a i
            end)
    sn.(sn_code).

#[export] Instance apply_writes_proper :
  Proper (pointwise_relation _ (=) ==> (≡) ==> (≡)) apply_writes.
Proof.
  intros w w' Hw sn sn' (H1 & H2 & H3 & H4). split_and!; intros; simpl; [..|done];
    by rewrite Hw, ?H1, ?H2, ?H3.
Qed.

(** ** Snapshots follow the write sets *)

Context {S : Type} `{!Storage S}.
Variable st : S.
Implicit Types (mem : MvMemory Bytecode).

(** The chain state before the block. *)
Definition base_snapshot mem : Snapshot :=
  mkSnapshot _
    (λ a, match Storage.basic st a with Ok x => x | Err _ => None end)
    (λ a, match code_hash st a with Ok x => x | Err _ => None end)
    (λ a i, match storage st a i with Ok x => x | Err _ => 0%N end)
    (view_code st mem).

(** What transaction [n] has written. *)
Definition written mem (n : TxIdx) (l : MemoryLocationHash) : option MemoryValue :=
  match entry_at mem.(data) l n with Some (Data _ x) => Some x | _ => None end.

(** Values sit at locations of their kind. *)
Definition value_kind_ok (k : loc_kind) (x : MemoryValue) : bool :=
  match k, x with
  | KBasic, (ValBasic _ | LazyRecipient _ | LazySender _)
  | KCodeHash, ValCodeHash _ | KStorage, ValStorage _ => true
  | _, _ => false
  end.

Definition typed_at mem (n : TxIdx) : Prop :=
  ∀ loc e, entry_at mem.(data) (hash_deterministic loc) n = Some e →
    ∃ inc x, e = Data inc x ∧ value_kind_ok (kind_of loc) x = true.

Lemma walk_S mem l n :
  walk mem l (Datatypes.S n) =
    match entry_at mem.(data) l n with Some e => [(n, e)] | None => [] end ++ walk mem l n.
Proof.
  unfold walk, entry_at. destruct (data mem !! l) as [m|]; simpl; [|done]. by destruct (m !! n).
Qed.

Lemma evaluated_cons a n inc x es :
  value_kind_ok KBasic x = true →
  evaluated st a ((n, Data inc x) :: es) = apply_value (evaluated st a es) x.
Proof.
  destruct x; simpl; try done; intros _; unfold evaluated, base_account, forward; simpl;
    by rewrite ?foldl_app.
Qed.

Lemma view_account_default mem n a :
  default AccountBasic_default (view_account st mem n a) = evaluated st a (basic_walk mem a n).
Proof.
  unfold view_account, evaluated, base_account.
  destruct (absolute _) eqn:Ha; [done|].
  destruct (Storage.basic st a) as [[]|] eqn:Hs; [done|..]; by destruct (lazies _).
Qed.

Lemma snapshot_of_zero mem : snapshot_of st mem 0 ≡ base_snapshot mem.
Proof.
  split_and!; [intros a|intros a|intros a i|done]; simpl.
  - unfold view_account, basic_walk, evaluated, base_account. rewrite walk_zero. simpl.
    by destruct (Storage.basic st a) as [[]|].
  - unfold view_code_hash, code_hash_seen. rewrite walk_zero. simpl. by destruct (code_hash st a).
  - unfold view_slot, storage_seen. rewrite walk_zero. simpl. by destruct (storage st a i).
Qed.

Lemma snapshot_of_S mem n :
  typed_at mem n →
  snapshot_of st mem (Datatypes.S n) ≡ apply_writes (written mem n) (snapshot_of st mem n).
Proof.
  intros Ht. split_and!; [intros a|intros a|intros a i|done]; simpl; unfold written.
  - unfold write_account. rewrite (view_account_default mem n a).
    pose proof (walk_S mem (hash_deterministic (LocBasic a)) n) as Hw.
    specialize (Ht (LocBasic a)). destruct (entry_at _ _ _) as [e|].
    2: { unfold view_account, basic_walk. by rewrite Hw. }
    destruct (Ht e eq_refl) as (inc & x & -> & Hx). cbn [app] in Hw.
    change (basic_walk mem a (Datatypes.S n) = (n, Data inc x) :: basic_walk mem a n) in Hw.
    unfold view_account. rewrite Hw.
    rewrite (evaluated_cons a n inc x _ Hx).
    destruct x; simpl in *; try done; destruct (absolute _); try done;
      by destruct (Storage.basic st a) as [[]|].
  - unfold view_code_hash, code_hash_seen. rewrite walk_S. specialize (Ht (LocCodeHash a)).
    destruct (entry_at _ _ _) as [e|]; [|done].
    destruct (Ht e eq_refl) as (inc & x & -> & Hx). by destruct x.
  - unfold view_slot, storage_seen. rewrite walk_S. specialize (Ht (LocStorage a i)).
    destruct (entry_at _ _ _) as [e|]; [|done].
    destruct (Ht e eq_refl) as (inc & x & -> & Hx). by destruct x.
Qed.
End effect.

(** ** The write set of an execution *)

Section pieces.
Context `{Revm}.
Hypothesis hash_inj : ∀ l l', hash_deterministic l = hash_deterministic l' → l = l'.
Implicit Types (mem : MvMemory Bytecode) (db : VmDb) (ws : WriteSet).

Lemma last_value_app ws ws' l :
  last_value (ws ++ ws') l =
    match last_value ws' l with Some x => Some x | None => last_value ws l end.
Proof.
  induction ws as [|p ws IH]; simpl; [by destruct (last_value ws' l)|].
  rewrite !last_value_cons, IH. by destruct (last_value ws' l).
Qed.

Lemma last_value_None ws l : l ∉ locations ws → last_value ws l = None.
Proof. rewrite <-last_value_is_Some, <-eq_None_not_Some. done. Qed.

Lemma last_value_unique ws l x :
  NoDup (locations ws) → last_value ws l = Some x ↔ (l, x) ∈ ws.
Proof.
  intros Hnd. split; [apply last_value_elem|]. unfold locations in Hnd.
  induction ws as [|[l0 x0] ws IH]; [by intros ?%elem_of_nil|]. csimpl in *.
  apply NoDup_cons in Hnd as [Hl0 Hnd]. rewrite last_value_cons.
  intros [Heq|Hin]%elem_of_cons; [|by rewrite (IH Hnd Hin)]. simplify_eq.
  rewrite last_value_None by done. simpl. by rewrite decide_True.
Qed.

(** What one account contributes, without the codes. *)
Definition slot_writes (a : Address) (account : Account) : WriteSet :=
  (λ sv, (hash_deterministic (LocStorage a sv.1), ValStorage sv.2))
    <$> account.(changed_storage_slots).

Definition new_code db (a : Address) (account : Account) : bool :=
  negb account.(is_empty_code_hash) &&
  match db.(read_accounts) !! hash_deterministic (LocBasic a) with
  | Some (_, Some _) => false
  | _ => true
  end.

Definition code_writes db (a : Address) (account : Account) : WriteSet :=
  if new_code db a account
  then [(hash_deterministic (LocCodeHash a), ValCodeHash account.(info).(info_code_hash))] else [].

Definition account_piece db (b : bool) (p : Address * Account) : WriteSet :=
  let '(a, account) := p in
  if account.(is_selfdestructed) then [(hash_deterministic (LocCodeHash a), SelfDestructed)]
  else if account.(is_touched) then
    basic_write db b a account (new_code db a account) ++ code_writes db a account ++
    slot_writes a account
  else slot_writes a account.

Lemma state_writes_pieces db b ps mem ws mem' :
  state_writes db b ps mem = Some (ws, mem') → ws = ps ≫= account_piece db b.
Proof.
  revert mem ws mem'. induction ps as [|[a account] ps IH]; intros mem ws mem'; simpl.
  { unfold mret, stm_ret. by intros [= <- _]. }
  intros (w1 & mem1 & H1 & Hr)%stm_bind_Some.
  apply stm_bind_Some in Hr as (w2 & mem2 & ->%IH & Hr). unfold mret, stm_ret in Hr.
  simplify_eq. f_equal. unfold account_writes, mret, stm_ret, account_piece, code_writes, new_code in *.
  destruct (is_selfdestructed account); [by simplify_eq|].
  destruct (is_touched account); [|by simplify_eq]. destruct (negb _ && _); [|by simplify_eq].
  apply stm_bind_Some in H1 as (u & mem3 & _ & H1). by simplify_eq.
Qed.

(** Locations of an account. *)
Definition loc_address (l : MemoryLocation) : Address :=
  match l with LocBasic a | LocCodeHash a | LocStorage a _ => a end.

Lemma basic_write_location db b a account nc l :
  l ∈ locations (basic_write db b a account nc) → l = hash_deterministic (LocBasic a).
Proof.
  unfold basic_write, locations. repeat case_match; csimpl;
    rewrite ?list_elem_of_singleton, ?elem_of_nil; naive_solver.
Qed.

Lemma code_writes_location db a account l :
  l ∈ locations (code_writes db a account) → l = hash_deterministic (LocCodeHash a).
Proof.
  unfold code_writes, locations. destruct (new_code _ _ _); csimpl;
    rewrite ?list_elem_of_singleton, ?elem_of_nil; naive_solver.
Qed.

Lemma slot_writes_location a account l :
  l ∈ locations (slot_writes a account) →
  ∃ i, l = hash_deterministic (LocStorage a i) ∧ i ∈ account.(changed_storage_slots).*1.
Proof.
  unfold locations, slot_writes. rewrite <-list_fmap_compose.
  intros ([i x] & -> & Hin)%list_elem_of_fmap. simpl. exists i. split; [done|].
  by apply (list_elem_of_fmap_2 fst _ (i, x)).
Qed.

Lemma account_piece_location db b a account l :
  l ∈ locations (account_piece db b (a, account)) →
  ∃ loc, l = hash_deterministic loc ∧ loc_address loc = a.
Proof.
  unfold account_piece, locations.
  destruct (is_selfdestructed account).
  { csimpl. intros ->%list_elem_of_singleton. by exists (LocCodeHash a). }
  assert (l ∈ (slot_writes a account).*1 → ∃ loc, l = hash_deterministic loc ∧ loc_address loc = a)
    as Hs by (intros (i & -> & _)%slot_writes_location; by exists (LocStorage a i)).
  destruct (is_touched account); [|done]. rewrite !fmap_app, !elem_of_app.
  intros [->%basic_write_location|[->%code_writes_location|Hc]];
    [by exists (LocBasic a)|by exists (LocCodeHash a)|by apply Hs].
Qed.

Lemma slot_writes_NoDup a account :
  NoDup account.(changed_storage_slots).*1 → NoDup (locations (slot_writes a account)).
Proof.
  intros Hnd.
  assert (locations (slot_writes a account)
    = (λ i, hash_deterministic (LocStorage a i)) <$> account.(changed_storage_slots).*1) as ->.
  { unfold locations, slot_writes. by rewrite <-!list_fmap_compose. }
  apply NoDup_fmap_2; [|done]. intros i j Hij%hash_inj. congruence.
Qed.

Lemma account_piece_NoDup db b a account :
  NoDup account.(changed_storage_slots).*1 →
  NoDup (locations (account_piece db b (a, account))).
Proof.
  intros Hnd%(slot_writes_NoDup a). unfold account_piece, locations in *.
  destruct (is_selfdestructed account); [apply NoDup_singleton|].
  destruct (is_touched account); [|done]. rewrite !fmap_app.
  apply NoDup_app. split_and!.
  - unfold basic_write. repeat case_match; csimpl; auto using NoDup_singleton, NoDup_nil_2.
  - intros l ->%basic_write_location. rewrite elem_of_app.
    by intros [?%code_writes_location%hash_inj|(i & ?%hash_inj & _)%slot_writes_location].
  - apply NoDup_app. split_and!; [| |done].
    + unfold code_writes. destruct (new_code _ _ _); [apply NoDup_singleton|apply NoDup_nil_2].
    + by intros l ->%code_writes_location (i & ?%hash_inj & _)%slot_writes_location.
Qed.

Lemma pieces_location db b ps l :
  l ∈ locations (ps ≫= account_piece db b) →
  ∃ loc, l = hash_deterministic loc ∧ loc_address loc ∈ ps.*1.
Proof.
  induction ps as [|[a account] ps IH]; [by intros ?%elem_of_nil|]. unfold locations in *.
  csimpl. rewrite fmap_app, elem_of_app.
  intros [(loc & -> & <-)%account_piece_location|(loc & -> & ?)%IH]; exists loc; split; try done.
  - by left.
  - by right.
Qed.

(** The slots of every account are listed once. *)
Definition slots_once (state : EvmState) : Prop :=
  ∀ a account, state !! a = Some account → NoDup account.(changed_storage_slots).*1.

Lemma pieces_NoDup db b ps :
  NoDup ps.*1 → (∀ a account, (a, account) ∈ ps → NoDup account.(changed_storage_slots).*1) →
  NoDup (locations (ps ≫= account_piece db b)).
Proof.
  induction ps as [|[a account] ps IH]; intros Hnd Hs; [apply NoDup_nil_2|]. csimpl in *.
  apply NoDup_cons in Hnd as [Ha Hnd].
  unfold locations in *. csimpl. rewrite fmap_app. apply NoDup_app. split_and!.
  - apply account_piece_NoDup, (Hs a). by left.
  - intros l (loc & -> & <-)%account_piece_location (loc' & ->%hash_inj & ?)%pieces_location. done.
  - apply IH; [done|]. intros a' account' Hin. apply (Hs a'). by right.
Qed.

Definition state_pieces db b (state : EvmState) : WriteSet :=
  map_to_list state ≫= account_piece db b.

Lemma state_pieces_NoDup db b state : slots_once state → NoDup (locations (state_pieces db b state)).
Proof.
  intros Hs. apply pieces_NoDup; [apply NoDup_fst_map_to_list|].
  intros a account. rewrite elem_of_map_to_list. apply Hs.
Qed.

(** A location is written by its account only. *)
Lemma last_value_state_pieces db b state loc :
  slots_once state →
  last_value (state_pieces db b state) (hash_deterministic loc) =
    state !! loc_address loc ≫= λ account,
      last_value (account_piece db b (loc_address loc, account)) (hash_deterministic loc).
Proof.
  intros Hs. apply option_eq. intros x.
  rewrite (last_value_unique _ _ _ (state_pieces_NoDup db b state Hs)). unfold state_pieces.
  rewrite list_elem_of_bind, bind_Some. split.
  - intros ([a account] & Hin & Hst). rewrite elem_of_map_to_list in Hst.
    assert (a = loc_address loc) as ->.
    { apply (list_elem_of_fmap_2 fst) in Hin.
      apply account_piece_location in Hin as (loc' & Heq%hash_inj & ?). simpl in Heq. by subst. }
    exists account. split; [done|]. apply last_value_unique; [|done].
    by apply account_piece_NoDup, (Hs (loc_address loc)).
  - intros (account & Hst & Hin). exists (loc_address loc, account).
    rewrite elem_of_map_to_list. split; [|done]. by apply last_value_elem.
Qed.
End pieces.
Arguments account_piece : simpl never.

(** ** Committing the state of the EVM *)

Section commit.
Context `{Revm}.
Hypothesis hash_inj : ∀ l l', hash_deterministic l = hash_deterministic l' → l = l'.
Implicit Types (sn : Snapshot) (db : VmDb) (ws : WriteSet).

Definition changed_slots (account : Account) : gmap U256 U256 :=
  list_to_map (rev account.(changed_storage_slots)).

(** Touched accounts are stored, or cleared when empty under EIP-161; codes
    and changed slots go with them. *)
Definition commit (is_eip_161_enabled : bool) (state : EvmState) sn : Snapshot :=
  mkSnapshot _
    (λ a, match state !! a with
          | Some account =>
              if account.(is_touched) then
                if is_eip_161_enabled && account.(is_empty) then None
                else Some (mkAccountBasic account.(info).(info_balance) account.(info).(info_nonce))
              else sn.(sn_account) a
          | None => sn.(sn_account) a
          end)
    (λ a, match state !! a with
          | Some account =>
              if account.(is_touched) && negb account.(is_empty_code_hash)
              then Some account.(info).(info_code_hash) else sn.(sn_code_hash) a
          | None => sn.(sn_code_hash) a
          end)
    (λ a i, match state !! a with
            | Some account =>
                if account.(is_touched)
                then default (sn.(sn_slot) a i) (changed_slots account !! i)
                else sn.(sn_slot) a i
            | None => sn.(sn_slot) a i
            end)
    sn.(sn_code).

(** A raw transfer that was run on a mock sender: what left the sender, whose
    nonce goes up, and what the recipient got. *)
Definition commit_transfer (tx : TxEnv) (state : EvmState) sn : Snapshot :=
  let old a := default AccountBasic_default (sn.(sn_account) a) in
  mkSnapshot _
    (λ a, match state !! a with
          | Some account =>
              if decide (a = tx.(caller)) then
                Some (mkAccountBasic ((old a).(ab_balance) - (U256_MAX - account.(info).(info_balance)))
                        ((old a).(ab_nonce) + 1))
              else if decide (tx.(tx_kind) = Call a) then
                Some (mkAccountBasic (u256_add (old a).(ab_balance) tx.(tx_value)) (old a).(ab_nonce))
              else sn.(sn_account) a
          | None => sn.(sn_account) a
          end)
    sn.(sn_code_hash) sn.(sn_slot) sn.(sn_code).

#[export] Instance commit_proper b state : Proper ((≡) ==> (≡)) (commit b state).
Proof.
  intros sn sn' (H1 & H2 & H3 & H4). split_and!; intros; simpl; rewrite ?H1, ?H2, ?H3; done.
Qed.

#[export] Instance commit_transfer_proper tx state : Proper ((≡) ==> (≡)) (commit_transfer tx state).
Proof.
  intros sn sn' (H1 & H2 & H3 & H4). split_and!; intros; simpl; rewrite ?H1; done.
Qed.

(** What is used of the states the EVM answers with, apart from
    self-destruction, which the executor leaves to the sequential fallback. *)
Record state_ok (is_eip_161_enabled : bool) sn (state : EvmState) : Prop := {
  so_slots : slots_once state;
  so_alive a account : state !! a = Some account → account.(is_selfdestructed) = false;
  so_untouched a account : state !! a = Some account → account.(is_touched) = false →
    account.(changed_storage_slots) = [];
  (** a code never changes *)
  so_code a account h : state !! a = Some account → account.(is_touched) = true →
    account.(is_empty_code_hash) = false → sn.(sn_code_hash) a = Some h →
    account.(info).(info_code_hash) = h;
  (** accounts do not become empty *)
  so_cleared a account : state !! a = Some account → account.(is_touched) = true →
    is_eip_161_enabled = true → account.(is_empty) = true → sn.(sn_account) a = None;
}.

(** A transfer between accounts without code touches its two ends only. *)
Record transfer_ok (tx : TxEnv) (state : EvmState) : Prop := {
  to_slots a account : state !! a = Some account → account.(changed_storage_slots) = [];
  to_alive a account : state !! a = Some account → account.(is_selfdestructed) = false;
  to_touched a account : state !! a = Some account → account.(is_touched) = true;
  to_code a account : state !! a = Some account → account.(is_empty_code_hash) = true;
}.

(** The accounts noted while reading. *)
Definition noted sn db : Prop :=
  ∀ a p, db.(read_accounts) !! hash_deterministic (LocBasic a) = Some p →
    sn.(sn_account) a = Some p.1 ∧ sn.(sn_code_hash) a = p.2 ∧ mocked db a = false.

(** *** The three kinds of locations of an account *)

Lemma slot_writes_None a account loc :
  kind_of loc ≠ KStorage → last_value (slot_writes a account) (hash_deterministic loc) = None.
Proof.
  intros Hk. apply last_value_None. intros (i & ->%hash_inj & _)%slot_writes_location. done.
Qed.

Lemma slot_writes_value a account i :
  last_value (slot_writes a account) (hash_deterministic (LocStorage a i))
  = ValStorage <$> (changed_slots account !! i).
Proof.
  unfold slot_writes, changed_slots. induction (changed_storage_slots account) as [|[j x] l IH]; [done|]. csimpl.
  rewrite last_value_cons, IH, list_to_map_app, lookup_union. simpl.
  rewrite insert_empty. destruct (list_to_map (rev l) !! i) as [y|]; simpl.
  - by destruct (_ !! i).
  - case_decide as Hd.
    + apply hash_inj in Hd as [= ->]. by rewrite lookup_singleton_eq.
    + rewrite lookup_singleton_ne; [done|]. intros ->. done.
Qed.

Lemma basic_write_None db b a account nc loc :
  kind_of loc ≠ KBasic →
  last_value (basic_write db b a account nc) (hash_deterministic loc) = None.
Proof. intros Hk. apply last_value_None. intros ->%basic_write_location%hash_inj. done. Qed.

Lemma code_writes_None db a account loc :
  kind_of loc ≠ KCodeHash →
  last_value (code_writes db a account) (hash_deterministic loc) = None.
Proof. intros Hk. apply last_value_None. intros ->%code_writes_location%hash_inj. done. Qed.

Lemma piece_basic db b a account :
  account.(is_selfdestructed) = false → account.(is_touched) = true →
  last_value (account_piece db b (a, account)) (hash_deterministic (LocBasic a)) =
  last_value (basic_write db b a account (new_code db a account)) (hash_deterministic (LocBasic a)).
Proof.
  intros Hd Ht. unfold account_piece. rewrite Hd, Ht, !last_value_app.
  by rewrite slot_writes_None, code_writes_None by done.
Qed.

Lemma piece_code db b a account :
  account.(is_selfdestructed) = false → account.(is_touched) = true →
  last_value (account_piece db b (a, account)) (hash_deterministic (LocCodeHash a)) =
  if new_code db a account then Some (ValCodeHash account.(info).(info_code_hash)) else None.
Proof.
  intros Hd Ht. unfold account_piece. rewrite Hd, Ht, !last_value_app.
  rewrite slot_writes_None, basic_write_None by done. unfold code_writes.
  destruct (new_code _ _ _); [|done]. rewrite last_value_cons. simpl. by rewrite decide_True.
Qed.

Lemma piece_slot db b a account i :
  account.(is_selfdestructed) = false →
  last_value (account_piece db b (a, account)) (hash_deterministic (LocStorage a i)) =
  ValStorage <$> (changed_slots account !! i).
Proof.
  intros Hd. unfold account_piece. rewrite Hd, <-(slot_writes_value a).
  destruct (is_touched account); [|done].
  rewrite !last_value_app, basic_write_None, code_writes_None by done.
  by destruct (last_value _ _).
Qed.

Lemma piece_untouched db b a account loc :
  account.(is_selfdestructed) = false → account.(is_touched) = false →
  account.(changed_storage_slots) = [] →
  last_value (account_piece db b (a, account)) (hash_deterministic loc) = None.
Proof. intros Hd Ht Hs. unfold account_piece, slot_writes. by rewrite Hd, Ht, Hs. Qed.

(** *** Write set and commit agree *)

Lemma commit_basic db b sn state a account :
  db.(is_lazy) = false → noted sn db → state_ok b sn state → state !! a = Some account →
  account.(is_touched) = true →
  write_account (sn.(sn_account) a)
    (last_value (basic_write db b a account (new_code db a account)) (hash_deterministic (LocBasic a)))
  = if b && account.(is_empty) then None
    else Some (mkAccountBasic account.(info).(info_balance) account.(info).(info_nonce)).
Proof.
  intros Hlazy Hn Hok Ha Ht. unfold basic_write. rewrite Hlazy.
  assert (b && account.(is_empty) = true → sn.(sn_account) a = None) as Hclr.
  { intros [-> He]%andb_prop. by eapply so_cleared. }
  destruct (_ || _) eqn:Hch.
  - destruct b, (is_empty account); simpl in *; [by apply Hclr|..];
      rewrite last_value_cons; simpl; by rewrite decide_True.
  - apply orb_false_elim in Hch as [_ Hch]. change (last_value [] _) with (@None MemoryValue). simpl.
    destruct (read_accounts db !! _) as [[old ch]|] eqn:Hr; [|done].
    apply orb_false_elim in Hch as [?%negb_false_iff%N.eqb_eq ?%negb_false_iff%N.eqb_eq].
    destruct (b && is_empty account); [by apply Hclr|].
    apply Hn in Hr as [-> _]. simpl. destruct old. simpl in *. by subst.
Qed.

Lemma commit_code db b sn state a account :
  noted sn db → state_ok b sn state → state !! a = Some account → account.(is_touched) = true →
  match (if new_code db a account then Some (ValCodeHash account.(info).(info_code_hash)) else None)
  with Some (ValCodeHash h) => Some h | _ => sn.(sn_code_hash) a end
  = if negb account.(is_empty_code_hash) then Some account.(info).(info_code_hash)
    else sn.(sn_code_hash) a.
Proof.
  intros Hn Hok Ha Ht. unfold new_code. destruct (is_empty_code_hash account) eqn:He; simpl; [done|].
  destruct (read_accounts db !! _) as [[old [h|]]|] eqn:Hr; [|done..].
  apply Hn in Hr as (_ & Hh & _). simpl in Hh. rewrite Hh. by erewrite (so_code _ _ _ Hok a account).
Qed.

Lemma state_pieces_commit db b sn state :
  db.(is_lazy) = false → noted sn db → state_ok b sn state →
  apply_writes (last_value (state_pieces db b state)) sn ≡ commit b state sn.
Proof.
  intros Hlazy Hn Hok. pose proof (so_slots _ _ _ Hok) as Hs.
  split_and!; [intros a|intros a|intros a i|done]; simpl;
    rewrite (last_value_state_pieces hash_inj _ _ _ _ Hs); simpl;
    destruct (state !! a) as [account|] eqn:Ha; [|done| |done| |done]; simpl;
    pose proof (so_alive _ _ _ Hok _ _ Ha) as Hd;
    pose proof (so_untouched _ _ _ Hok _ _ Ha) as Hu;
    destruct (is_touched account) eqn:Ht;
    try (rewrite (piece_untouched db b a account _ Hd Ht (Hu eq_refl)); done).
  - rewrite (piece_basic _ _ _ _ Hd Ht). by apply (commit_basic db b sn state).
  - rewrite (piece_code _ _ _ _ Hd Ht). by apply (commit_code db b sn state).
  - rewrite (piece_slot _ _ _ _ _ Hd). by destruct (changed_slots account !! i).
Qed.

Lemma state_pieces_transfer db b sn state :
  db.(is_lazy) = true → db.(from_hash) = caller_hash db.(db_tx) →
  db.(to_hash) = recipient_hash db.(db_tx) → noted sn db → transfer_ok db.(db_tx) state →
  apply_writes (last_value (state_pieces db b state)) sn ≡ commit_transfer db.(db_tx) state sn.
Proof.
  intros Hlazy Hfrom Hto Hn Hok.
  assert (slots_once state) as Hs.
  { intros a account Ha. rewrite (to_slots _ _ Hok _ _ Ha). apply NoDup_nil_2. }
  split_and!; [intros a|intros a|intros a i|done]; simpl;
    rewrite (last_value_state_pieces hash_inj _ _ _ _ Hs); simpl;
    destruct (state !! a) as [account|] eqn:Ha; [|done| |done| |done]; simpl;
    pose proof (to_alive _ _ Hok _ _ Ha) as Hd; pose proof (to_touched _ _ Hok _ _ Ha) as Ht.
  - rewrite (piece_basic _ _ _ _ Hd Ht). unfold basic_write. rewrite Hlazy.
    assert (mocked db a = true → read_accounts db !! hash_deterministic (LocBasic a) = None) as Hm.
    { intros Hm. apply eq_None_not_Some. intros [p Hp]. apply Hn in Hp as (_ & _ & ?). congruence. }
    unfold mocked in Hm. rewrite Hlazy in Hm.
    rewrite Hfrom, Hto. unfold caller_hash, recipient_hash.
    destruct (decide (a = caller (db_tx db))) as [->|Hne].
    { rewrite bool_decide_true in Hm by done. rewrite (Hm eq_refl), orb_true_r, N.eqb_refl.
      rewrite last_value_cons. simpl. by rewrite decide_True. }
    destruct (N.eqb_spec (hash_deterministic (LocBasic a))
      (hash_deterministic (LocBasic (caller (db_tx db))))) as [?%hash_inj|_]; [congruence|].
    destruct (decide (tx_kind (db_tx db) = Call a)) as [Hk|Hk].
    + rewrite (bool_decide_true (tx_kind _ = _)), orb_true_r in Hm by done.
      rewrite (Hm eq_refl), orb_true_r, Hk, bool_decide_true by done.
      rewrite last_value_cons. simpl. by rewrite decide_True.
    + clear Hm. rewrite bool_decide_false; [by destruct (_ || _)|]. destruct (tx_kind _); [done|].
      intros [= ?%hash_inj]. congruence.
  - rewrite (piece_code _ _ _ _ Hd Ht). unfold new_code. by rewrite (to_code _ _ Hok _ _ Ha).
  - rewrite (piece_slot _ _ _ _ _ Hd). unfold changed_slots. by rewrite (to_slots _ _ Hok _ _ Ha).
Qed.
End commit.

(** ** Rewards *)

Section rewards.
Context `{Revm}.
Hypothesis hash_inj : ∀ l l', hash_deterministic l = hash_deterministic l' → l = l'.
Implicit Types (sn : Snapshot) (ws : WriteSet) (r : MemoryLocationHash).

Definition pay r (amount : U256) sn : Snapshot :=
  mkSnapshot _
    (λ a, if (hash_deterministic (LocBasic a) =? r)%N then
            let old := default AccountBasic_default (sn.(sn_account) a) in
            Some (mkAccountBasic (u256_add old.(ab_balance) amount) old.(ab_nonce))
          else sn.(sn_account) a)
    sn.(sn_code_hash) sn.(sn_slot) sn.(sn_code).

Definition pay_all (rewards : list (MemoryLocationHash * U256)) sn : Snapshot :=
  foldl (λ sn p, pay p.1 p.2 sn) sn rewards.

#[export] Instance pay_proper r amount : Proper ((≡) ==> (≡)) (pay r amount).
Proof. intros sn sn' (H1 & H2 & H3 & H4). split_and!; intros; simpl; by rewrite ?H1. Qed.

#[export] Instance pay_all_proper rewards : Proper ((≡) ==> (≡)) (pay_all rewards).
Proof.
  unfold pay_all. induction rewards as [|p rewards IH]; intros sn sn' Hsn; simpl; [done|].
  apply IH. by rewrite Hsn.
Qed.

Definition rewarded (x : option MemoryValue) (amount : U256) : option MemoryValue :=
  match x with
  | None => Some (LazyRecipient amount)
  | Some x => match reward_value x amount with Ok x' => Some x' | Err _ => None end
  end.

Lemma apply_reward_locations r amount ws ws' :
  apply_reward r amount ws = Ok ws' →
  locations ws' = if decide (r ∈ locations ws) then locations ws else locations ws ++ [r].
Proof.
  revert ws'. unfold locations. induction ws as [|[l x] ws IH]; intros ws'; csimpl.
  { by intros [= <-]. }
  destruct (N.eqb_spec l r) as [->|Hne].
  - destruct (reward_value x amount); simpl; [|done]. intros [= <-]. rewrite decide_True by by left.
    done.
  - destruct (apply_reward r amount ws) as [ws1|]; simpl; [|done]. intros [= <-]. csimpl.
    rewrite (IH _ eq_refl).
    destruct (decide (r ∈ ws.*1)); [rewrite decide_True by (by right); done|].
    rewrite decide_False; [done|]. by rewrite elem_of_cons; intros [?|?].
Qed.

Lemma apply_reward_value r amount ws ws' l :
  NoDup (locations ws) → apply_reward r amount ws = Ok ws' →
  last_value ws' l = if decide (l = r) then rewarded (last_value ws r) amount else last_value ws l.
Proof.
  revert ws'. unfold locations. induction ws as [|[l0 x] ws IH]; intros ws' Hnd; csimpl in *.
  { intros [= <-]. rewrite last_value_cons. unfold last_value. simpl.
    repeat case_decide; naive_solver. }
  apply NoDup_cons in Hnd as [Hl0 Hnd]. destruct (N.eqb_spec l0 r) as [->|Hne].
  - destruct (reward_value x amount) as [x'|] eqn:Hx; simpl; [|done]. intros [= <-].
    rewrite !last_value_cons. rewrite (last_value_None ws r Hl0). simpl.
    destruct (decide (r = r)) as [_|]; [|done]. unfold rewarded. rewrite Hx.
    case_decide; [subst l; by rewrite (last_value_None ws r Hl0), decide_True|].
    by rewrite !decide_False by done.
  - destruct (apply_reward r amount ws) as [ws1|]; simpl; [|done]. intros [= <-].
    rewrite !last_value_cons, (IH _ Hnd eq_refl). simpl.
    rewrite (decide_False (P:=l0 = r)) by done.
    case_decide as Hlr; [subst l|done]. rewrite (decide_False (P:=l0 = r)) by done.
    destruct (last_value ws r) as [y|]; simpl; [|done].
    unfold rewarded. by destruct (reward_value y amount).
Qed.

Lemma apply_reward_NoDup r amount ws ws' :
  NoDup (locations ws) → apply_reward r amount ws = Ok ws' → NoDup (locations ws').
Proof.
  intros Hnd Ha. rewrite (apply_reward_locations _ _ _ _ Ha). case_decide; [done|].
  apply NoDup_app. split_and!; [done| |apply NoDup_singleton].
  by intros l ? ->%list_elem_of_singleton.
Qed.

(** What is due to [r]. *)
Definition total r (rewards : list (MemoryLocationHash * U256)) : N :=
  foldr (λ p n, if (p.1 =? r)%N then (p.2 + n)%N else n) 0%N rewards.

(** A lazy sender spends at least what it is rewarded, and has it. *)
Definition covered (rewards : list (MemoryLocationHash * U256)) ws sn : Prop :=
  ∀ a s, last_value ws (hash_deterministic (LocBasic a)) = Some (LazySender s) →
    (total (hash_deterministic (LocBasic a)) rewards ≤ s)%N ∧
    (s ≤ (default AccountBasic_default (sn.(sn_account) a)).(ab_balance) ≤ U256_MAX)%N.

Lemma rewarded_account acc x amount :
  (∀ s, x = Some (LazySender s) →
    (amount ≤ s ≤ (default AccountBasic_default acc).(ab_balance))%N ∧
    ((default AccountBasic_default acc).(ab_balance) ≤ U256_MAX)%N) →
  is_Some (rewarded x amount) →
  write_account acc (rewarded x amount) =
    let old := default AccountBasic_default (write_account acc x) in
    Some (mkAccountBasic (u256_add old.(ab_balance) amount) old.(ab_nonce)).
Proof.
  intros Hs Hx. destruct x as [[b| | |n|n|]|]; simpl in *; try done;
    try by destruct Hx; simplify_eq/=.
  - f_equal. f_equal. symmetry. apply saturating_add_assoc.
  - destruct (Hs n eq_refl). f_equal. f_equal. unfold u256_add, saturating_sub, saturating_add. lia.
Qed.

Lemma apply_reward_pay r a0 amount rewards ws ws' sn :
  r = hash_deterministic (LocBasic a0) → NoDup (locations ws) → apply_reward r amount ws = Ok ws' →
  covered ((r, amount) :: rewards) ws sn →
  apply_writes (last_value ws') sn ≡ pay r amount (apply_writes (last_value ws) sn) ∧
  covered rewards ws' sn.
Proof.
  intros Hr Hnd Ha Hc.
  pose proof (λ l, apply_reward_value r amount ws ws' l Hnd Ha) as Hv.
  assert (is_Some (rewarded (last_value ws r) amount)) as Hsome.
  { rewrite <-(decide_True (P:=r = r) _ (last_value ws r)) by done. rewrite <-Hv.
    apply last_value_is_Some. rewrite (apply_reward_locations _ _ _ _ Ha).
    case_decide; [done|]. apply elem_of_app. right. by apply list_elem_of_singleton. }
  assert (∀ loc, kind_of loc ≠ KBasic →
    last_value ws' (hash_deterministic loc) = last_value ws (hash_deterministic loc)) as Hother.
  { intros loc Hk. rewrite Hv. rewrite decide_False; [done|]. rewrite Hr. intros ->%hash_inj. done. }
  split; [split_and!; [intros a|intros a|intros a i|done]|].
  - simpl. rewrite Hv. destruct (N.eqb_spec (hash_deterministic (LocBasic a)) r) as [Hl|Hne];
      [|by rewrite decide_False].
    rewrite decide_True, <-Hl by done. rewrite <-Hl in Hsome. apply rewarded_account; [|done].
    intros s Hs. destruct (Hc a s Hs) as [Ht ?]. simpl in Ht.
    rewrite (proj2 (N.eqb_eq _ _) (eq_sym Hl)) in Ht. lia.
  - simpl. by rewrite Hother.
  - simpl. by rewrite Hother.
  - intros a s. rewrite Hv. case_decide as Hl; simpl.
    + destruct (last_value ws r) as [[b| | |n|n|]|] eqn:Hx; simpl; intros ?; simplify_eq.
      destruct (Hc a n) as [Ht ?]; [congruence|]. simpl in Ht.
      rewrite (proj2 (N.eqb_eq _ _) (eq_sym Hl)) in Ht. unfold saturating_sub. lia.
    + intros Hs. destruct (Hc a s Hs) as [Ht ?]. simpl in Ht.
      destruct (N.eqb_spec r (hash_deterministic (LocBasic a))); [congruence|]. done.
Qed.

Lemma apply_rewards_pay rewards ws ws' sn :
  (∀ r, r ∈ rewards.*1 → ∃ a, r = hash_deterministic (LocBasic a)) →
  NoDup (locations ws) → apply_rewards rewards ws = Ok ws' → covered rewards ws sn →
  apply_writes (last_value ws') sn ≡ pay_all rewards (apply_writes (last_value ws) sn).
Proof.
  revert ws. induction rewards as [|[r amount] rewards IH]; intros ws Hr Hnd; simpl.
  { by intros [= <-]. }
  destruct (apply_reward r amount ws) as [ws1|] eqn:H1; simpl; [|done]. intros H2 Hc.
  destruct (Hr r) as [a0 Ha0]; [by left|].
  destruct (apply_reward_pay r a0 amount rewards ws ws1 sn Ha0 Hnd H1 Hc) as [He Hc1].
  change (pay_all ((r, amount) :: rewards) ?x) with (pay_all rewards (pay r amount x)).
  rewrite <-He. apply (IH ws1); [|by eapply apply_reward_NoDup|done..].
  intros r' ?. apply Hr. by right.
Qed.
End rewards.

(** ** The effect of one transaction *)

Section transaction.
Context `{Revm} {S : Type} `{!Storage S} {C : Type} `{!PevmChain C, !ChainLaws C}.
Hypothesis hash_inj : ∀ l l', hash_deterministic l = hash_deterministic l' → l = l'.
Variable vm : Vm (S:=S) (C:=C).
Implicit Types (sn : Snapshot) (mem : MvMemory Bytecode) (db : VmDb) (ws : WriteSet).

(** What an executed transaction does to the chain state. *)
Definition commit_tx (lazy : bool) (full_tx : EvmTx) (r : ExecutionResult) (state : EvmState) sn
    : Snapshot :=
  pay_all (tx_rewards vm full_tx r)
    (if lazy then commit_transfer (tx_env vm.(vm_chain) full_tx) state sn
     else commit (vm_is_eip_161_enabled vm) state sn).

#[export] Instance commit_tx_proper lazy full_tx r state :
  Proper ((≡) ==> (≡)) (commit_tx lazy full_tx r state).
Proof. intros sn sn' Hsn. unfold commit_tx. destruct lazy; by rewrite Hsn. Qed.

(** What is used of the EVM's answer; a lazy sender can pay for the transfer
    and pays for what it is rewarded itself. *)
Definition answer_ok sn (lazy : bool) (full_tx : EvmTx) (r : ExecutionResult) (state : EvmState)
    : Prop :=
  let tx := tx_env vm.(vm_chain) full_tx in
  if lazy then
    transfer_ok tx state ∧
    ∀ account, state !! tx.(caller) = Some account →
      let spent := (U256_MAX - account.(info).(info_balance))%N in
      (total (caller_hash tx) (tx_rewards vm full_tx r) ≤ spent)%N ∧
      (spent ≤ (default AccountBasic_default (sn.(sn_account) tx.(caller))).(ab_balance) ≤ U256_MAX)%N
  else state_ok (vm_is_eip_161_enabled vm) sn state.

(** Lazy senders come from lazy updates only. *)
Lemma state_pieces_sender db b state l s :
  (l, LazySender s) ∈ state_pieces db b state →
  db.(is_lazy) = true ∧ l = db.(from_hash) ∧
  ∃ a account, state !! a = Some account ∧ l = hash_deterministic (LocBasic a) ∧
    s = (U256_MAX - account.(info).(info_balance))%N.
Proof.
  unfold state_pieces. rewrite list_elem_of_bind. intros ([a account] & Hin & Ha).
  rewrite elem_of_map_to_list in Ha. unfold account_piece in Hin.
  assert ((l, LazySender s) ∉ slot_writes a account) as Hslot.
  { unfold slot_writes. by intros (sv & ? & _)%list_elem_of_fmap. }
  assert ((l, LazySender s) ∉ code_writes db a account) as Hcode.
  { unfold code_writes. destruct (new_code _ _ _); rewrite ?list_elem_of_singleton; [done|].
    apply not_elem_of_nil. }
  destruct (is_selfdestructed account); [by apply list_elem_of_singleton in Hin|].
  destruct (is_touched account); [|done].
  apply elem_of_app in Hin as [Hin|[?|?]%elem_of_app]; [|done..]. revert Hin. unfold basic_write.
  destruct (_ || _); [|by intros ?%elem_of_nil].
  destruct (is_lazy db); [|case_match; [by intros ?%list_elem_of_singleton|by intros ?%elem_of_nil]].
  destruct (N.eqb_spec (hash_deterministic (LocBasic a)) (from_hash db)) as [Hf|].
  - intros [= -> ->]%list_elem_of_singleton. split_and!; [done..|]. eauto.
  - case_match; [by intros ?%list_elem_of_singleton|by intros ?%elem_of_nil].
Qed.

(** The facts on the database after a run that its write set depends on. *)
Record db_after sn (full_tx : EvmTx) db : Prop := {
  da_tx : db.(db_tx) = tx_env vm.(vm_chain) full_tx;
  da_from : db.(from_hash) = caller_hash (tx_env vm.(vm_chain) full_tx);
  da_to : db.(to_hash) = recipient_hash (tx_env vm.(vm_chain) full_tx);
  da_noted : noted sn db;
}.

Lemma answer_slots sn lazy full_tx r state : answer_ok sn lazy full_tx r state → slots_once state.
Proof.
  destruct lazy; [intros [Hok _]|apply so_slots]. intros a account Ha.
  rewrite (to_slots _ _ Hok _ _ Ha). apply NoDup_nil_2.
Qed.

Lemma tx_writes_pieces full_tx db r state mem ws mem' :
  tx_writes vm full_tx db r state mem = Some (Ok ws, mem') →
  apply_rewards (tx_rewards vm full_tx r) (state_pieces db (vm_is_eip_161_enabled vm) state) = Ok ws.
Proof.
  unfold tx_writes. intros (ws0 & mem1 & ->%state_writes_pieces & Hr)%stm_bind_Some.
  unfold mret, stm_ret in Hr. by simplify_eq.
Qed.

(** The write set has the effect of the commit and of the rewards. *)
Lemma tx_writes_effect sn full_tx db r state mem ws mem' :
  full_tx ∈ vm.(vm_txs) → db_after sn full_tx db → answer_ok sn db.(is_lazy) full_tx r state →
  tx_writes vm full_tx db r state mem = Some (Ok ws, mem') →
  apply_writes (last_value ws) sn ≡ commit_tx db.(is_lazy) full_tx r state sn.
Proof.
  intros Hin [Htx Hfrom Hto Hn] Hok Hw%tx_writes_pieces.
  pose proof (state_pieces_NoDup hash_inj db (vm_is_eip_161_enabled vm) state
    (answer_slots _ _ _ _ _ Hok)) as Hnd.
  pose proof (λ Hr, apply_rewards_pay hash_inj _ _ _ sn Hr Hnd Hw) as Hpay.
  etrans; [apply Hpay|]; clear Hpay.
  - intros l Hl. destruct (law_rewards_lazy _ _ _ _ _ _ _ Hin Hl) as (a & _ & ->). eauto.
  - intros a s Hs%last_value_elem.
    apply state_pieces_sender in Hs as (Hlazy & Ha & a' & account & Ha' & Heq%hash_inj & ->).
    injection Heq as <-. rewrite Hfrom in Ha. apply hash_inj in Ha as [= ->].
    unfold answer_ok in Hok. rewrite Hlazy in Hok. by apply Hok.
  - unfold commit_tx, answer_ok in *. apply pay_all_proper. destruct (is_lazy db) eqn:Hlazy.
    + rewrite <-Htx. apply state_pieces_transfer; try done; [by rewrite Htx..|].
      rewrite Htx. apply Hok.
    + by apply state_pieces_commit.
Qed.

(** *** Values sit at locations of their kind *)

Definition typed ws : Prop :=
  ∀ loc x, last_value ws (hash_deterministic loc) = Some x → value_kind_ok (kind_of loc) x = true.

Lemma basic_write_typed db b a account nc l x :
  (l, x) ∈ basic_write db b a account nc → value_kind_ok KBasic x = true.
Proof.
  unfold basic_write. repeat case_match; rewrite ?list_elem_of_singleton, ?elem_of_nil; naive_solver.
Qed.

Lemma account_piece_typed db b a account loc x :
  account.(is_selfdestructed) = false →
  (hash_deterministic loc, x) ∈ account_piece db b (a, account) →
  value_kind_ok (kind_of loc) x = true.
Proof.
  intros Hd. unfold account_piece. rewrite Hd.
  assert ((hash_deterministic loc, x) ∈ slot_writes a account → value_kind_ok (kind_of loc) x = true)
    as Hslot.
  { unfold slot_writes. intros (sv & [= ->%hash_inj ->] & _)%list_elem_of_fmap. done. }
  destruct (is_touched account); [|done]. rewrite !elem_of_app. intros [Hb|[Hc|?]]; [..|auto].
  - pose proof (basic_write_typed _ _ _ _ _ _ _ Hb).
    apply (list_elem_of_fmap_2 fst), basic_write_location in Hb. by apply hash_inj in Hb as ->.
  - unfold code_writes in Hc. destruct (new_code _ _ _); [|by apply elem_of_nil in Hc].
    by apply list_elem_of_singleton in Hc as [= ->%hash_inj ->].
Qed.

Lemma state_pieces_typed db b (state : EvmState) :
  (∀ a account, state !! a = Some account → account.(is_selfdestructed) = false) →
  typed (state_pieces db b state).
Proof.
  intros Hd loc x Hx%last_value_elem. unfold state_pieces in Hx.
  apply list_elem_of_bind in Hx as ([a account] & Hx & Ha). rewrite elem_of_map_to_list in Ha.
  eapply account_piece_typed; eauto.
Qed.

Lemma apply_rewards_typed rewards ws ws' :
  (∀ r, r ∈ rewards.*1 → ∃ a, r = hash_deterministic (LocBasic a)) →
  NoDup (locations ws) → apply_rewards rewards ws = Ok ws' → typed ws → typed ws'.
Proof.
  revert ws. induction rewards as [|[r amount] rewards IH]; intros ws Hr Hnd; simpl.
  { by intros [= <-]. }
  destruct (apply_reward r amount ws) as [ws1|] eqn:H1; simpl; [|done]. intros H2 Ht.
  apply (IH ws1); [|by eapply apply_reward_NoDup|done|].
  { intros r' ?. apply Hr. by right. }
  destruct (Hr r) as [a0 Ha0]; [by left|].
  intros loc x. rewrite (apply_reward_value _ _ _ _ _ Hnd H1). case_decide as Hl; [|apply Ht].
  rewrite Ha0 in Hl. apply hash_inj in Hl as ->.
  destruct (last_value ws r) as [[]|]; simpl; intros; by simplify_eq.
Qed.

Lemma answer_alive sn lazy full_tx r state a account :
  answer_ok sn lazy full_tx r state → state !! a = Some account →
  account.(is_selfdestructed) = false.
Proof. destruct lazy; [intros [Hok _]; apply (to_alive _ _ Hok)|intros Hok; apply (so_alive _ _ _ Hok)]. Qed.

Lemma tx_writes_typed sn full_tx db r state mem ws mem' :
  full_tx ∈ vm.(vm_txs) → answer_ok sn db.(is_lazy) full_tx r state →
  tx_writes vm full_tx db r state mem = Some (Ok ws, mem') → typed ws.
Proof.
  intros Hin Hok Hw%tx_writes_pieces. eapply apply_rewards_typed; [|..|exact Hw|].
  - intros l Hl. destruct (law_rewards_lazy _ _ _ _ _ _ _ Hin Hl) as (a & _ & ->). eauto.
  - by eapply state_pieces_NoDup, answer_slots.
  - apply state_pieces_typed. intros a account. by eapply answer_alive.
Qed.

(** C38. A code that replaces another one is lost.  For a touched account whose
    code hash was read as [Some h], the write set has no entry at its code
    hash location, whatever code the EVM left it with: later transactions of
    the block still see [h], while committing the state gives the new one.
    An account gets a second code when it is delegated again under EIP-7702. *)
Theorem redelegation_lost sn db b (state : EvmState) mem ws mem' a account basic h :
  state_writes db b (map_to_list state) mem = Some (ws, mem') → slots_once state →
  state !! a = Some account → account.(is_selfdestructed) = false → account.(is_touched) = true →
  account.(is_empty_code_hash) = false →
  db.(read_accounts) !! hash_deterministic (LocBasic a) = Some (basic, Some h) →
  (apply_writes (last_value ws) sn).(sn_code_hash) a = sn.(sn_code_hash) a ∧
  (commit b state sn).(sn_code_hash) a = Some account.(info).(info_code_hash).
Proof.
  intros ->%state_writes_pieces Hs Ha Hd Ht He Hr. simpl. split.
  - fold (state_pieces db b state). rewrite (last_value_state_pieces hash_inj _ _ _ _ Hs). simpl.
    rewrite Ha. simpl. rewrite (piece_code hash_inj _ _ _ _ Hd Ht). unfold new_code. by rewrite Hr, andb_false_r.
  - by rewrite Ha, Ht, He.
Qed.
End transaction.

(** ** The block *)

Section serial.
Context `{Revm} {S : Type} `{!Storage S} {C : Type} `{!PevmChain C, !ChainLaws C}.
Variable evm : CfgEnv EvmSpecId → BlockEnv → EvmTx → evm_prog evm_outcome.
Variable vm : Vm (S:=S) (C:=C).
Variable K : MemoryLocationHash → loc_kind.
Hypothesis hash_kind : ∀ l, K (hash_deterministic l) = kind_of l.
Hypothesis hash_inj : ∀ l l', hash_deterministic l = hash_deterministic l' → l = l'.
Variable V : MemoryLocationHash → TxIdx → TxIncarnation → option MemoryValue.
Implicit Types (sn : Snapshot) (M : MvMemory Bytecode).

(** The result of an executed transaction. *)
Definition tx_result (r : ExecutionResult) (state : EvmState) : option PevmTxExecutionResult :=
  (λ transitions, mkTxResult _ (receipt_from_revm r) (list_to_map (rev transitions)))
  <$> state_transitions_from_revm (vm_is_eip_161_enabled vm) state.

(** One transaction after the other on plain chain states, each marked as
    lazily updated or not. *)
Fixpoint serial_run (txs : list (bool * EvmTx)) sn : option (list PevmTxExecutionResult) :=
  match txs with
  | [] => Some []
  | (lazy, full_tx) :: txs' =>
      match direct_tx evm vm sn lazy full_tx with
      | EvmFailed _ => None
      | EvmExecuted r state =>
          result ← tx_result r state;
          results ← serial_run txs' (commit_tx vm lazy full_tx r state sn);
          Some (result :: results)
      end
  end.

Lemma serial_run_proper txs sn sn' : sn ≡ sn' → serial_run txs sn = serial_run txs sn'.
Proof.
  revert sn sn'. induction txs as [|[lazy full_tx] txs IH]; intros sn sn' Hsn; simpl; [done|].
  assert (direct_tx evm vm sn lazy full_tx = direct_tx evm vm sn' lazy full_tx) as ->.
  { unfold direct_tx. by rewrite Hsn. }
  destruct (direct_tx _ _ _ _ _) as [r state|]; [|done]. destruct (tx_result r state); simpl; [|done].
  rewrite (IH _ _ (commit_tx_proper vm lazy full_tx r state _ _ Hsn)). done.
Qed.

Definition state_at M (i : TxIdx) : Snapshot := snapshot_of vm.(vm_storage) M i.

(** Transaction [i] was executed at some time, updated lazily or not, and [M]
    holds what it wrote, its read set, and would accept it. *)
Inductive committed M (i : TxIdx) (full_tx : EvmTx) : bool * PevmTxExecutionResult → Prop :=
  | committed_intro inc mems db slot mem flags db' result mem' ll ll' :
      let v := mkTxVersion i inc in
      execute evm vm mems v db slot mem = Some ((Ok flags, db', Some result), mem') →
      history vm.(vm_storage) V mems → (∀ t, later (mems t) M) → later mem' M →
      mem_reachable evm vm mem →
      mem'.(last_locations) !! i = Some ll' →
      M.(last_locations) !! i = Some ll → ll.(ll_read) = ll'.(ll_read) →
      (∀ l, entry_at M.(data) l i = entry_at mem'.(data) l i) →
      validate_read_locations i M = Some (true, M) →
      committed M i full_tx (db'.(is_lazy), result).

Lemma committed_run M i full_tx out :
  vm.(vm_txs) !! i = Some full_tx → mem_ok vm.(vm_storage) V M → readable vm.(vm_storage) M i →
  committed M i full_tx out →
  ∃ inc r state db1 ws,
    EvmExecuted r state = direct_tx evm vm (state_at M i) db1.(is_lazy) full_tx ∧
    out.1 = db1.(is_lazy) ∧ db_view vm.(vm_storage) K M db1 ∧ db1.(db_tx_idx) = i ∧
    db1.(db_tx) = tx_env vm.(vm_chain) full_tx ∧
    tx_writes vm full_tx db1 r state M = Some (Ok ws, M) ∧ tx_result r state = Some out.2 ∧
    ∀ l, entry_at M.(data) l i = Data inc <$> last_value ws l.
Proof.
  intros Htx HM Hrd [inc mems db slot mem flags db' result mem' ll ll' v Hex Hh Hlater Hlater' Hinv Hll'
    Hll Hread Hsame Hval].
  apply mem_reachable_inv in Hinv. apply execute_inv in Hex. simpl in Hex.
  inversion Hex as [full_tx' r state db1 ws mem1 u mem2 ll0 wrote mem3 tr Htx' Hrun Hw Hreg Hg Hk Hrew
    Hd Hl Hc Hll0 Hrec Htr]; simplify_eq/=.
  apply (mem_inv_codes_grow _ _ _ Hg), (mem_inv_same _ _ _ Hd Hl Hc) in Hinv.
  pose proof Hrec as [_ _ (w & _ & _ & Hlast) _ [_ Hcodes]].
  rewrite Hlast, list_lookup_insert_eq in Hll' by (by eapply lookup_lt_Some). simplify_eq.
  apply (validate_agrees _ _ _ Hll) in Hval. rewrite Hread in Hval.
  assert (∀ a b, hash_deterministic (LocBasic a) = hash_deterministic (LocBasic b) → a = b) as Hinj
    by (intros a b ?%hash_inj; congruence).
  destruct (run_tx_view_later evm vm K hash_kind Hinj V _ _ _ _ _ _ _ Hh HM Hlater Hrd Hrun Hval)
    as (Ho & Hv & Hi & Ht).
  exists inc, r, state, db1, ws. split_and!; [done..| | |].
  - eapply tx_writes_later; [done|]. rewrite <-Hc, <-Hcodes. done.
  - unfold tx_result. by rewrite Htr.
  - intros l. rewrite Hsame. by apply (recorded_entries vm v _ _ _ _ _ _ full_tx r l Hinv Hll0 Hrec).
Qed.

(** The lazy-update decision on the final memory. *)
Definition lazy_mark M (i : TxIdx) (full_tx : EvmTx) : bool :=
  lazy_update vm.(vm_storage) M i (tx_env vm.(vm_chain) full_tx).

(** The EVM answers as assumed on the states along the block; [lazy] are the
    decisions the executions took. *)
Definition answers_ok M (lazy : list bool) : Prop :=
  ∀ i full_tx b r state, vm.(vm_txs) !! i = Some full_tx → lazy !! i = Some b →
    direct_tx evm vm (state_at M i) b full_tx = EvmExecuted r state →
    answer_ok vm (state_at M i) b full_tx r state.

Lemma committed_step M i full_tx out :
  vm.(vm_txs) !! i = Some full_tx → mem_ok vm.(vm_storage) V M → readable vm.(vm_storage) M i →
  (∀ r state, direct_tx evm vm (state_at M i) out.1 full_tx = EvmExecuted r state →
    answer_ok vm (state_at M i) out.1 full_tx r state) →
  committed M i full_tx out →
  ∃ r state,
    direct_tx evm vm (state_at M i) out.1 full_tx = EvmExecuted r state ∧
    tx_result r state = Some out.2 ∧
    commit_tx vm out.1 full_tx r state (state_at M i) ≡ state_at M (Datatypes.S i).
Proof.
  intros Htx HM Hrd Hans Hc.
  destruct (committed_run _ _ _ _ Htx HM Hrd Hc) as (inc & r & state & db1 & ws & Ho & Hl &
    [[Hfrom Hto _ _] _ Hac] & Hi & Ht & Hw & Hres & He).
  rewrite <-Hl in Ho. exists r, state. split_and!; [done..|]. symmetry.
  pose proof (Hans _ _ (eq_sym Ho)) as Hok. rewrite Hl in Hok |- *.
  apply list_elem_of_lookup_2 in Htx as Hin.
  assert (typed_at M i) as Hty.
  { intros loc e. rewrite He. intros (x & Hx & ->)%fmap_Some. exists inc, x. split; [done|].
    by eapply (tx_writes_typed hash_inj vm). }
  unfold state_at at 1. rewrite (snapshot_of_S _ _ _ Hty).
  rewrite <-(tx_writes_effect hash_inj vm (state_at M i) full_tx db1 r state M ws M Hin); [| |done..].
  - apply apply_writes_proper; [|done]. intros l. unfold written. rewrite He.
    by destruct (last_value ws l).
  - split; [done|by rewrite Hfrom, Ht|by rewrite Hto, Ht|].
    intros a p Hp. rewrite <-Hi. unfold state_at. by apply Hac.
Qed.

Lemma serial_suffix M (outs : list (bool * PevmTxExecutionResult)) n :
  mem_ok vm.(vm_storage) V M → (∀ i, i < length vm.(vm_txs) → readable vm.(vm_storage) M i) →
  answers_ok M outs.*1 →
  Forall2 (λ p out, committed M p.1 p.2 out) (imap pair vm.(vm_txs)) outs →
  serial_run (drop n (zip outs.*1 vm.(vm_txs))) (state_at M n) = Some (drop n outs.*2).
Proof.
  intros HM Hrd Hans Hall.
  assert (length outs = length vm.(vm_txs)) as Hlen.
  { by rewrite <-(Forall2_length _ _ _ Hall), length_imap. }
  remember (length vm.(vm_txs) - n) as k eqn:Hk. revert n Hk.
  induction k as [|k IH]; intros n Hk.
  { rewrite !drop_ge; [done|rewrite length_fmap; lia|]. rewrite length_zip, length_fmap. lia. }
  destruct (lookup_lt_is_Some_2 vm.(vm_txs) n) as [full_tx Htx]; [lia|].
  destruct (lookup_lt_is_Some_2 outs n) as [out Hout]; [lia|].
  assert (outs.*1 !! n = Some out.1) as H1 by by rewrite list_lookup_fmap, Hout.
  assert (outs.*2 !! n = Some out.2) as H2 by by rewrite list_lookup_fmap, Hout.
  rewrite (drop_S (zip outs.*1 vm.(vm_txs)) (out.1, full_tx) n).
  2: { apply lookup_zip_with_Some. eauto. }
  rewrite (drop_S _ _ n H2). simpl.
  destruct (committed_step M n full_tx out Htx HM (Hrd n (lookup_lt_Some _ _ _ Htx)))
    as (r & state & -> & -> & Hst).
  { intros r state. by apply (Hans n). }
  { apply (Forall2_lookup_lr _ _ _ n (n, full_tx) out Hall); [|done].
    by rewrite list_lookup_imap, Htx. }
  simpl. rewrite (serial_run_proper _ _ _ Hst), (IH (Datatypes.S n)) by lia. done.
Qed.

(** What [block_serializable] and the whole parallel executor rest on. *)
Lemma serial_block M (outs : list (bool * PevmTxExecutionResult)) :
  mem_ok vm.(vm_storage) V M → (∀ i, i < length vm.(vm_txs) → readable vm.(vm_storage) M i) →
  answers_ok M outs.*1 →
  Forall2 (λ p out, committed M p.1 p.2 out) (imap pair vm.(vm_txs)) outs →
  serial_run (zip outs.*1 vm.(vm_txs)) (base_snapshot vm.(vm_storage) M) = Some outs.*2.
Proof.
  intros HM Hrd Hans Hall. rewrite <-(serial_run_proper _ _ _ (snapshot_of_zero vm.(vm_storage) M)).
  exact (serial_suffix M outs 0 HM Hrd Hans Hall).
Qed.

End serial.

(** ** The concrete block of [Soundness.v] *)

#[export] Instance exact_dec acc xs : Decision (exact acc xs).
Proof.
  revert acc. induction xs as [|x xs IH]; intros acc; simpl; [apply _|].
  apply and_dec; [apply _|]. apply and_dec; [unfold exact_value; destruct x; apply _|apply IH].
Defined.

Module SerialDemo.
#[local] Existing Instances demo_revm demo_alloy demo_order.
Import SoundDemo.

Definition result_of (o : option ((result VmExecutionError FinishExecFlags * VmDb
    * option PevmTxExecutionResult) * MvMemory Bytecode)) : PevmTxExecutionResult :=
  default (mkTxResult _ (mkReceipt _ false 0 []) ∅) (answer_of o ≫= snd).

Definition db_of (o : option ((result VmExecutionError FinishExecFlags * VmDb
    * option PevmTxExecutionResult) * MvMemory Bytecode)) : VmDb :=
  match o with Some ((_, db', _), _) => db' | None => db end.
Definition out_of o : bool * PevmTxExecutionResult := ((db_of o).(is_lazy), result_of o).

Definition outs : list (bool * PevmTxExecutionResult) := [out_of run0; out_of run1; out_of run2].

Lemma outs_lazy : outs.*1 = [false; false; true].
Proof. vm_compute. reflexivity. Qed.

(** The accounts of the block, decidably. *)
Definition addresses : list Address := [1; 3; 50]%N.

Definition account_ok (mem : MvMemory Bytecode) (n : TxIdx) (a : Address) : bool :=
  let es := basic_walk mem a n in
  bool_decide (exact (base_account st a es) (rev (lazies es))) &&
  (bool_decide (lazies es = []) || negb ((evaluated st a es).(ab_balance) =? 0)%N).

Definition covers_accounts {A} (d : gmap MemoryLocationHash A) : bool :=
  forallb (λ p, negb (p.1 mod 3 =? 0)%N || bool_decide (p.1 / 3 ∈ addresses)%N) (map_to_list d).

Lemma covers_accounts_None {A} (d : gmap MemoryLocationHash A) a :
  covers_accounts d = true → a ∉ addresses → d !! hash_deterministic (LocBasic a) = None.
Proof.
  intros Hall Ha. apply eq_None_not_Some. intros [m Hm]. unfold covers_accounts in Hall.
  rewrite forallb_forall in Hall. apply elem_of_map_to_list, list_elem_of_In in Hm.
  specialize (Hall _ Hm). cbn [fst] in Hall.
  change (hash_deterministic (LocBasic a)) with (3 * a)%N in Hall.
  rewrite (N.mul_comm 3 a), N.Div0.mod_mul, N.div_mul in Hall by done.
  by apply bool_decide_eq_true in Hall.
Qed.

Lemma stored_balance a b : Storage.basic st a = Ok (Some b) → (b.(ab_balance) ≤ U256_MAX)%N.
Proof.
  assert (forallb (λ p : N * EvmAccount, (p.2.(ea_balance) <=? U256_MAX)%N)
    (map_to_list st.(accounts)) = true) as Hall by (vm_compute; reflexivity).
  rewrite forallb_forall in Hall. cbn [Storage.basic InMemoryStorage_Storage].
  destruct (accounts st !! a) as [acc|] eqn:Ha; [|done].
  apply elem_of_map_to_list, list_elem_of_In, Hall, N.leb_le in Ha. intros ?; by simplify_eq/=.
Qed.

Lemma readable_check mem n :
  covers_accounts mem.(data) = true → forallb (account_ok mem n) addresses = true →
  readable st mem n.
Proof.
  intros Hcov Hall. rewrite forallb_forall in Hall.
  assert (∀ a, a ∈ addresses ∨ basic_walk mem a n = []) as Hcase.
  { intros a. destruct (decide (a ∈ addresses)) as [|Ha]; [by left|right].
    unfold basic_walk, walk. by rewrite (covers_accounts_None _ a Hcov Ha). }
  split; intros a; destruct (Hcase a) as [Ha|Hw].
  - apply list_elem_of_In, Hall, andb_prop in Ha as [Ha _]. by apply bool_decide_eq_true in Ha.
  - rewrite Hw. cbn [lazies rev exact]. split; [|done]. unfold base_account. cbn [absolute].
    destruct (Storage.basic st a) as [[b|]|] eqn:Hb; [exact (stored_balance a b Hb)|apply N.le_0_l..].
  - intros _ _ Hz. apply list_elem_of_In, Hall, andb_prop in Ha as [_ Ha].
    rewrite Hz in Ha. rewrite orb_false_r in Ha. by apply bool_decide_eq_true in Ha.
  - by rewrite Hw.
Qed.

Lemma readable_at n : n < length vm.(vm_txs) → readable st mem3 n.
Proof.
  intros Hn. apply readable_check; [vm_compute; reflexivity|].
  destruct n as [|[|[|n]]]; [vm_compute; reflexivity..|simpl in Hn; lia].
Qed.

(** The state of a call: sender and contract. *)
Lemma call_ok sn from acc x :
  from ≠ 2%N → (∀ h, sn.(sn_code_hash) 2%N = Some h → h = 77%N) →
  state_ok true sn {[ from := charged acc 0; 2%N := contract x ]}.
Proof.
  intros Hf Hc.
  assert (∀ a account, ({[ from := charged acc 0; 2%N := contract x ]} : gmap N Account) !! a
      = Some account → account = charged acc 0 ∨ a = 2%N ∧ account = contract x) as Hcase.
  { intros a account [[_ <-]|[_ [<- <-]%lookup_singleton_Some]]%lookup_insert_Some; auto. }
  split.
  - intros a account [->|[_ ->]]%Hcase; [apply NoDup_nil_2|apply NoDup_singleton].
  - by intros a account [->|[_ ->]]%Hcase.
  - by intros a account [->|[_ ->]]%Hcase.
  - intros a account h [->|[-> ->]]%Hcase _ He Hh; [discriminate He|]. symmetry. by apply Hc.
  - by intros a account [->|[_ ->]]%Hcase.
Qed.

(** The state of a transfer. *)
Lemma transfer_state_ok tx to acc acc' x y :
  transfer_ok tx {[ tx.(caller) := charged acc x; to := credited acc' y ]}.
Proof.
  assert (∀ a account, ({[ tx.(caller) := charged acc x; to := credited acc' y ]} : gmap N Account)
      !! a = Some account → account = charged acc x ∨ account = credited acc' y) as Hcase.
  { intros a account [[_ <-]|[_ [_ <-]%lookup_singleton_Some]]%lookup_insert_Some; auto. }
  split; by intros a account [->| ->]%Hcase.
Qed.

Definition plain_info (balance nonce : N) : AccountInfo :=
  mkAccountInfo _ balance nonce KECCAK_EMPTY None.
Definition done_21000 : ExecutionResult := mkExecutionResult _ true 21000 [].

(** What the EVM answers on the states along a memory that ends the block. *)
Record answered (M : MvMemory Bytecode) : Prop := {
  answered_0 : direct_tx evm vm (state_at vm M 0) false (plain_tx 1 (Call 2) 0 0)
    = EvmExecuted done_21000 {[ 1%N := charged (plain_info 100 0) 0; 2%N := contract 10 ]};
  answered_1 : direct_tx evm vm (state_at vm M 1) false (plain_tx 3 (Call 2) 0 0)
    = EvmExecuted done_21000 {[ 3%N := charged (plain_info 100 0) 0; 2%N := contract 11 ]};
  answered_2 : direct_tx evm vm (state_at vm M 2) true (plain_tx 1 (Call 3) 1 5)
    = EvmExecuted done_21000 {[ 1%N := charged (plain_info U256_MAX 1) 5; 3%N := credited None 5 ]};
  answered_code : sn_code_hash (state_at vm M 0) 2%N = Some 77%N ∧
    sn_code_hash (state_at vm M 1) 2%N = Some 77%N;
  answered_sender :
    (default AccountBasic_default (sn_account (state_at vm M 2) 1%N)).(ab_balance) = 90%N;
}.

Lemma answered_ok M : answered M → answers_ok evm vm M [false; false; true].
Proof.
  intros [H0 H1 H2 [Hc0 Hc1] Hs] i full_tx b r state Htx Hb.
  destruct i as [|[|[|i]]]; [injection Htx as <-..|discriminate Htx]; injection Hb as <-.
  - rewrite H0. intros [= <- <-]. apply call_ok; [discriminate|]. intros h. congruence.
  - rewrite H1. intros [= <- <-]. apply call_ok; [discriminate|]. intros h. congruence.
  - rewrite H2. intros [= <- <-]. split; [apply (transfer_state_ok (plain_tx 1 (Call 3) 1 5))|].
    intros account [= <-]. cbn [caller tx_env]. change (tx_env _ _) with (plain_tx 1 (Call 3) 1 5).
    change (caller _) with 1%N. rewrite Hs. vm_compute. repeat split; discriminate.
Qed.

Lemma answered_mem3 : answered mem3.
Proof. split; [| | |split|]; vm_compute; reflexivity. Qed.

(** The entries of one transaction. *)
Definition entries_of (mem : MvMemory Bytecode) (i : TxIdx) : gmap MemoryLocationHash MemoryEntry :=
  omap (λ m : gmap nat MemoryEntry, m !! i) mem.(data).

Lemma entries_of_eq mem mem' i :
  entries_of mem i = entries_of mem' i → ∀ l, entry_at mem.(data) l i = entry_at mem'.(data) l i.
Proof.
  intros He l. apply (f_equal (.!! l)) in He. unfold entries_of in He. by rewrite !lookup_omap in He.
Qed.

Lemma later_empty mem M : mem.(new_bytecodes) = ∅ → later mem M.
Proof. unfold later. intros ->. apply map_empty_subseteq. Qed.

Lemma constant_history mem : mem_ok st V mem → history st V (λ _, mem).
Proof. intros Hm. split; intros _; [exact Hm|]. unfold later. reflexivity. Qed.

Lemma committed_0 : committed evm vm V mem3 0 (plain_tx 1 (Call 2) 0 0) (out_of run0).
Proof.
  refine (committed_intro evm vm V mem3 0 _ 0 (λ _, mem0) db None mem0 _ (db_of run0) (result_of run0) mem1
    _ _ _ _ _ _ _ _ _ _ _ _).
  - vm_compute. reflexivity.
  - apply constant_history, mem_ok_0.
  - intros _. apply later_empty. vm_compute. reflexivity.
  - apply later_empty. vm_compute. reflexivity.
  - apply rtc_refl.
  - vm_compute. reflexivity.
  - vm_compute. reflexivity.
  - reflexivity.
  - apply entries_of_eq. vm_compute. reflexivity.
  - vm_compute. reflexivity.
Qed.

Lemma committed_1 : committed evm vm V mem3 1 (plain_tx 3 (Call 2) 0 0) (out_of run1).
Proof.
  refine (committed_intro evm vm V mem3 1 _ 0 mems db None mem1 _ (db_of run1) (result_of run1) mem2
    _ _ _ _ _ _ _ _ _ _ _ _).
  - vm_compute. reflexivity.
  - apply block_history.
  - intros [|t]; apply later_empty; vm_compute; reflexivity.
  - apply later_empty. vm_compute. reflexivity.
  - apply reach_1.
  - vm_compute. reflexivity.
  - vm_compute. reflexivity.
  - reflexivity.
  - apply entries_of_eq. vm_compute. reflexivity.
  - vm_compute. reflexivity.
Qed.

Lemma committed_2 : committed evm vm V mem3 2 (plain_tx 1 (Call 3) 1 5) (out_of run2).
Proof.
  refine (committed_intro evm vm V mem3 2 _ 0 (λ _, mem2) db None mem2 _ (db_of run2) (result_of run2) mem3
    _ _ _ _ _ _ _ _ _ _ _ _).
  - vm_compute. reflexivity.
  - apply constant_history, mem_ok_2.
  - intros _. apply later_empty. vm_compute. reflexivity.
  - apply later_empty. vm_compute. reflexivity.
  - apply reach_2.
  - vm_compute. reflexivity.
  - vm_compute. reflexivity.
  - reflexivity.
  - auto.
  - vm_compute. reflexivity.
Qed.

(** The second call, run alone on the final memory. *)
Definition tx_1 : TxEnv := plain_tx 3 (Call 2) 0 0.
Definition state_1 : gmap Address Account :=
  {[ 3%N := charged (plain_info 100 0) 0; 2%N := contract 11 ]}.
Definition after_1 : VmDb := Demo.run_of (run_tx evm vm (λ _, mem3) 1 tx_1 db).

Lemma demo_basic_inj a b :
  hash_deterministic (LocBasic a) = hash_deterministic (LocBasic b) → a = b.
Proof. intros Hab. injection (demo_hash_inj _ _ Hab). auto. Qed.

Lemma after_1_ok :
  db_after vm (state_at vm mem3 1) tx_1 after_1 ∧ after_1.(is_lazy) = lazy_mark vm mem3 1 tx_1.
Proof.
  destruct (run_tx_view (PevmChain0:=PevmEthereum_chain) evm vm Demo.K Demo.hash_kind
    demo_basic_inj V mem3 1 tx_1 db
    (EvmExecuted done_21000 state_1) after_1 mem_ok_3 (readable_at 1 ltac:(simpl; lia)))
    as (_ & [[Hf Ht _ _] _ Hac] & Hi & Htx & Hl); [vm_compute; reflexivity|].
  split; [|exact Hl]. rewrite Htx in Hf, Ht. split; [exact Htx|exact Hf|exact Ht|].
  intros a p Hp. apply Hac in Hp. rewrite Hi in Hp. exact Hp.
Qed.

(** Contract 2 after a second delegation. *)
Definition account_2 : Account :=
  mkAccount _ (mkAccountInfo _ 0 2 88 (Some (DemoEip7702 9))) false true false false [] [].
Definition redelegated : gmap Address Account := {[ 2%N := account_2 ]}.
Definition has_read_2 : VmDb := set_read_accounts
  {[ hash_deterministic (LocBasic 2) := (mkAccountBasic 0 1, Some 77%N) ]} db.
End SerialDemo.

#[local] Existing Instances demo_revm demo_alloy demo_order.




Lemma redelegation_lost_witness :
  ∃ ws mem', state_writes SerialDemo.has_read_2 true (map_to_list SerialDemo.redelegated)
      SoundDemo.mem3 = Some (ws, mem') ∧
    sn_code_hash (apply_writes (last_value ws) (state_at SoundDemo.vm SoundDemo.mem3 1)) 2
      = sn_code_hash (state_at SoundDemo.vm SoundDemo.mem3 1) 2 ∧
    sn_code_hash (commit true SerialDemo.redelegated (state_at SoundDemo.vm SoundDemo.mem3 1)) 2
      = Some 88%N.
Proof.
  do 2 eexists. split; [vm_compute; reflexivity|].
  refine (redelegation_lost demo_hash_inj (state_at SoundDemo.vm SoundDemo.mem3 1)
    SerialDemo.has_read_2 true SerialDemo.redelegated SoundDemo.mem3 _ _ 2 SerialDemo.account_2
    (mkAccountBasic 0 1) 77 _ _ _ _ _ _ _).
  - vm_compute. reflexivity.
  - unfold SerialDemo.redelegated. intros a account [_ <-]%lookup_singleton_Some. apply NoDup_nil_2.
  - reflexivity.
  - reflexivity.
  - reflexivity.
  - reflexivity.
  - reflexivity.
Defined.
