(* ===== verification/Skipped.v ===== *)
(** * Transactions that skip validation (vm.rs [Vm::execute], scheduler.rs)

    [execute] asks for validation except for the first transaction and for
    lazily updated ones.  The first transaction reads from storage only, so
    that validation would always accept it.  A lazily updated transaction
    depends on the memory through the code hash of its recipient; a recipient
    that the first transaction deploys meanwhile goes unnoticed. *)

From S2P Require Import Prelude Uint Types Scheduler MvMemory Storage VmDb Validation Chain Vm Soundness.

Section first.
Context `{Revm} {S : Type} `{!Storage S}.
Variable st : S.
Variable K : MemoryLocationHash → loc_kind.
Hypothesis hash_kind : ∀ l, K (hash_deterministic l) = kind_of l.
Variable V : MemoryLocationHash → TxIdx → TxIncarnation → option MemoryValue.
Implicit Types (mem : MvMemory Bytecode) (db : VmDb).

(** Everything read came from storage. *)
Definition storage_only db : Prop :=
  db.(db_tx_idx) = 0 ∧ ∀ l os, db.(read_set) !! l = Some os → os = [FromStorage].

Lemma storage_only_insert db l :
  storage_only db → storage_only (set_read_set (<[l := [FromStorage]]> db.(read_set)) db).
Proof.
  intros [Hi Hs]. split; [done|]. intros l' os. simpl. rewrite lookup_insert_Some.
  intros [[_ <-]|[_ ?]]; eauto.
Qed.

(** A query of the first transaction. *)
Definition stays {A} (m : MvMemory Bytecode → dbm A) : Prop :=
  ∀ mem db a db', mem_ok st V mem → db_inv st K mem db → storage_only db →
    m mem db = Some (Ok a, db') → storage_only db'.

Lemma stays_same {A} (m : MvMemory Bytecode → dbm A) :
  (∀ mem db a db', m mem db = Some (Ok a, db') →
    db'.(read_set) = db.(read_set) ∧ db'.(db_tx_idx) = db.(db_tx_idx)) → stays m.
Proof.
  intros Hm mem db a db' _ _ [Hi Hs] [Hr Hi']%Hm. split; [congruence|]. by rewrite Hr.
Qed.

Lemma stays_bind {A B} (m : MvMemory Bytecode → dbm A) (k : MvMemory Bytecode → A → dbm B) :
  replayable st K V m → stays m → (∀ a, stays (λ mem, k mem a)) →
  stays (λ mem, db_bind (m mem) (k mem)).
Proof.
  intros Hrep Hm Hk mem db b db' Hok Hinv Hs. unfold db_bind.
  destruct (m mem db) as [[[a|] db1]|] eqn:Hm1; [|done..].
  destruct (Hrep _ _ _ _ Hok Hinv Hm1) as (Hinv1 & _).
  apply (Hk a mem db1); eauto.
Qed.

Lemma get_code_hash_stays a : stays (λ mem, get_code_hash st mem a).
Proof.
  intros mem db r db' Hok Hinv Hs. rewrite (get_code_hash_seen _ _ hash_kind _ _ _ Hinv).
  destruct Hs as [Hi Hs]. rewrite Hi. unfold code_hash_seen. rewrite walk_zero. simpl.
  destruct (fits _ _ _); [|done]. intros [= _ <-]. by apply (storage_only_insert db).
Qed.

Lemma db_storage_stays a i : stays (λ mem, db_storage st mem a i).
Proof.
  intros mem db r db' Hok Hinv Hs. rewrite (db_storage_seen _ _ hash_kind _ _ _ _ Hinv).
  destruct Hs as [Hi Hs]. rewrite Hi. unfold storage_seen. rewrite walk_zero. simpl.
  destruct (fits _ _ _); [|done]. intros [= _ <-]. by apply (storage_only_insert db).
Qed.

Lemma account_read_stays a : stays (λ mem, account_read st mem a).
Proof.
  intros mem db e db' Hok Hinv Hs. unfold account_read, account_found.
  destruct Hs as [Hi Hs]. rewrite Hi, walk_zero. simpl.
  set (l := hash_deterministic (LocBasic a)).
  destruct (basic_from_storage st _ a lazy_eval_init) as [e0|] eqn:Hst; [|done]. intros [= _ <-].
  apply basic_from_storage_origins in Hst. unfold origins_left.
  destruct (read_set db !! l) as [os|] eqn:Hl.
  - rewrite (Hs _ _ Hl). by apply (storage_only_insert db).
  - rewrite Hst. by apply (storage_only_insert db).
Qed.

Lemma code_read_stays l a : stays (λ mem, code_read st mem l a).
Proof.
  apply stays_bind; [by apply code_hash_read_replayable| |].
  - intros mem db ch db' Hok Hinv Hs. unfold code_hash_read. case_decide.
    + unfold db_ret. by intros [= _ <-].
    + by apply get_code_hash_stays.
  - intros ch. apply stays_same. intros mem db r db'. unfold db_bind, db_lift, db_ret.
    destruct (lookup_code _ _ _); intros; by simplify_eq.
Qed.

Lemma account_use_stays a e : stays (λ mem, account_use st mem a e).
Proof.
  unfold account_use. destruct (final_account e) as [account|].
  2: { apply stays_same. unfold db_ret. intros. by simplify_eq. }
  intros mem db r db' Hok Hinv Hs. unfold basic_finish. set (l := hash_deterministic (LocBasic a)).
  destruct (u64_max <? _)%N; [done|]. destruct (_ && _ && _); [by destruct (0 <? _)|].
  unfold db_bind at 1. fold (code_hash_read st mem l a db).
  destruct (code_hash_read st mem l a db) as [[[ch|] db1]|] eqn:Hch; [|done..].
  unfold db_bind, db_lift. destruct (lookup_code _ _ _) as [code|] eqn:Hcode; [|done].
  intros [= _ <-]. apply (code_read_stays l a mem db (ch, code) db1 Hok Hinv Hs).
  unfold code_read, db_bind, db_lift, db_ret. by rewrite Hch, Hcode.
Qed.

Lemma db_basic_stays a : stays (λ mem, db_basic st mem a).
Proof.
  intros mem db r db' Hok Hinv Hs. rewrite (db_basic_split _ _ _ _ _ Hinv). simpl.
  do 2 (case_match; [intros; by simplify_eq|]).
  apply (stays_bind (λ mem, account_read st mem a) (λ mem, account_use st mem a)); try done.
  - by apply account_read_replayable.
  - apply account_read_stays.
  - intros e. apply account_use_stays.
Qed.

(** One query, then the rest of the run. *)
Lemma run_step_stays {A R} (m : MvMemory Bytecode → dbm A) (k : A → dbm R) mem mem' db r db' :
  replayable st K V m → stays m → mem_ok st V mem → later mem mem' →
  db_inv st K mem db → storage_only db →
  (∀ x db1, db_inv st K mem' db1 → storage_only db1 → k x db1 = Some (Ok r, db') → storage_only db') →
  db_bind (m mem) k db = Some (Ok r, db') → storage_only db'.
Proof.
  intros Hrep Hm Hok Hl Hinv Hs Hk. unfold db_bind.
  destruct (m mem db) as [[[x|] db1]|] eqn:Hq; [|done..].
  destruct (Hrep _ _ _ _ Hok Hinv Hq) as (Hinv1 & _).
  intros Hr. apply (Hk x db1); [by eapply db_inv_later|by eapply (Hm mem db)|done].
Qed.

Lemma run_prog_stays {R} (p : evm_prog R) mems t db r db' :
  history st V mems → db_inv st K (mems t) db → storage_only db →
  run_prog st mems t p db = Some (Ok r, db') → storage_only db'.
Proof.
  intros Hh. pose proof (history_ok _ _ _ Hh) as Hok. pose proof (history_later _ _ _ Hh) as Hl.
  revert t db. induction p as [r'|a k IH|h k IH|a i k IH|n k IH]; intros t db Hinv Hs; simpl.
  - unfold db_ret. by intros [= _ <-].
  - apply (run_step_stays (λ mem, db_basic st mem a) _ (mems t) (mems (Datatypes.S t)));
      eauto using db_basic_replayable, db_basic_stays.
  - apply (run_step_stays (λ _, db_code_by_hash st h) _ (mems t) (mems (Datatypes.S t)));
      eauto using replayable_code_by_hash.
    apply stays_same. unfold db_code_by_hash, from_storage, db_bind, db_lift, db_ret.
    intros. repeat case_match; by simplify_eq.
  - apply (run_step_stays (λ mem, db_storage st mem a i) _ (mems t) (mems (Datatypes.S t)));
      eauto using db_storage_replayable, db_storage_stays.
  - apply (run_step_stays (λ _, db_block_hash st n) _ (mems t) (mems (Datatypes.S t)));
      eauto using replayable_lift.
    apply stays_same. unfold db_block_hash, from_storage, db_lift. intros. by simplify_eq.
Qed.

Lemma set_tx_stays mem tx hn db db0 :
  mem_ok st V mem →
  set_tx st mem 0 tx (caller_hash tx) (recipient_hash tx) hn db = Some (Ok tt, db0) → storage_only db0.
Proof.
  intros Hok. rewrite set_tx_split.
  assert (storage_only (db_reset 0 tx hn)) as Hs by (split; [done|]; intros l os; simpl; by rewrite lookup_empty).
  destruct (tx_kind tx) as [|to]; [by intros [= <-]|]. unfold db_bind.
  destruct (get_code_hash st mem to _) as [[[ch|] db1]|] eqn:Hg; [|done..]. intros [= <-].
  apply (get_code_hash_stays to mem (db_reset 0 tx hn) ch db1 Hok); [|done..]. apply db_reset_inv.
Qed.

(** Validation at index 0 accepts reads from storage. *)
Lemma storage_only_valid (rs : ReadSet) (M : MvMemory Bytecode) ll :
  (∀ l os, rs !! l = Some os → os = [FromStorage]) →
  M.(last_locations) !! 0 = Some ll → ll.(ll_read) = rs →
  validate_read_locations 0 M = Some (true, M).
Proof.
  intros Hs Hll Hr. unfold validate_read_locations, lock_last_locations. stm_unfold. rewrite Hll.
  do 2 f_equal. apply forallb_forall. intros [l os] Hl%list_elem_of_In. simpl.
  apply elem_of_map_to_list in Hl. rewrite Hr in Hl. apply Hs in Hl as ->.
  unfold check_location. by destruct (data M !! l).
Qed.
End first.

Section transactions.
Context `{Revm} {S : Type} `{!Storage S} {C : Type} `{!PevmChain C}.
Variable evm : CfgEnv EvmSpecId → BlockEnv → EvmTx → evm_prog evm_outcome.
Variable vm : Vm (S:=S) (C:=C).

Lemma first_valid K V mems mem mem' (M : MvMemory Bytecode) v db slot flags db' slot' ll ll' :
  (∀ l, K (hash_deterministic l) = kind_of l) → history vm.(vm_storage) V mems →
  v.(tx_idx) = 0 → execute evm vm mems v db slot mem = Some ((Ok flags, db', slot'), mem') →
  mem'.(last_locations) !! 0 = Some ll' →
  M.(last_locations) !! 0 = Some ll → ll.(ll_read) = ll'.(ll_read) →
  validate_read_locations 0 M = Some (true, M).
Proof.
  intros HK Hh Hv Hex%execute_inv Hll' Hll Hread. simpl in Hex.
  destruct Hex as [full_tx r state db1 ws mem1 u mem2 ll0 wrote mem3 tr _ Hrun _ _ _ _ _ _ _ _ Hll0 Hrec _].
  rewrite Hv in *. destruct Hrec as [_ _ (w & _ & _ & Hlast) _ _]. rewrite Hv in Hlast.
  rewrite Hlast, list_lookup_insert_eq in Hll' by (by eapply lookup_lt_Some). injection Hll' as <-.
  eapply storage_only_valid; [|exact Hll|exact Hread]. simpl.
  revert Hrun. unfold run_tx. destruct (chain_has_nonce _ _ _) as [hn cfg]. unfold db_bind.
  destruct (set_tx _ _ _ _ _ _ _ _) as [[[[]|] db0]|] eqn:Hset; [|done..]. intros Hrun.
  pose proof (history_ok _ _ _ Hh 0) as Hok.
  destruct (set_tx_replay _ _ HK _ _ _ _ _ _ _ Hok Hset) as (Hinv & _).
  apply (db_inv_later _ _ _ _ _ (history_later _ _ _ Hh 0)) in Hinv.
  apply (set_tx_stays _ _ HK _ _ _ _ _ _ Hok) in Hset.
  by apply (run_prog_stays _ _ HK _ _ _ _ _ _ _ Hh Hinv Hset) in Hrun as [_ ?].
Qed.

(** C18. The first transaction needs no validation: whatever the memory went
    through while it ran, and whatever it has become since,
    [validate_read_locations] accepts its recorded read set.  [Vm::execute]
    therefore never asks to validate it. *)
Theorem first_transaction_valid K V mems mem mem' (M : MvMemory Bytecode) v db slot flags db' slot' ll ll' :
  (∀ l, K (hash_deterministic l) = kind_of l) → history vm.(vm_storage) V mems →
  v.(tx_idx) = 0 → execute evm vm mems v db slot mem = Some ((Ok flags, db', slot'), mem') →
  mem'.(last_locations) !! 0 = Some ll' →
  M.(last_locations) !! 0 = Some ll → ll.(ll_read) = ll'.(ll_read) →
  validate_read_locations 0 M = Some (true, M) ∧
  flags_contains flags NeedValidation = false.
Proof.
  intros HK Hh Hv Hex Hll' Hll Hread. split; [by eapply first_valid|].
  apply execute_inv in Hex. destruct Hex as [full_tx r state db1 ws mem1 u mem2 ll0 wrote].
  unfold exec_flags. rewrite Hv. by destruct wrote.
Qed.
End transactions.

(** ** A deployment that goes unnoticed

    Transaction 0 deploys a contract at address 9; transaction 1, from the
    beneficiary, sends 5 to address 9.  The toy EVM lets the contract revert.
    Transaction 1 is executed first: address 9 has no code yet and the
    beneficiary's location is in the memory, so it is a lazily updated
    transfer and asks for no validation. *)

Module RaceDemo.
#[local] Existing Instances demo_revm demo_alloy demo_order.
Import SoundDemo.

Definition st : InMemoryStorage := mkInMemoryStorage _
  {[ 1%N := mkEvmAccount _ 100 0 None None ∅; 50%N := mkEvmAccount _ 100 0 None None ∅ ]} ∅ ∅.

Definition deployed_9 : Account := mkAccount _
  (mkAccountInfo _ 0 1 55 (Some (DemoEip7702 4))) false true false false [] [].

Definition evm (cfg : CfgEnv SpecId) (benv : BlockEnv) (tx : TxEnv) : evm_prog evm_outcome :=
  EvmBasic tx.(caller) (λ acc,
    let acc := default (mkAccountInfo _ 0 0 0 None) acc in
    match tx.(tx_kind) with
    | Create => EvmDone (EvmExecuted (mkExecutionResult _ true 21000 [])
        {[ tx.(caller) := charged acc 0; 9%N := deployed_9 ]})
    | Call to => EvmBasic to (λ recipient,
        match recipient ≫= info_code with
        | Some _ => EvmDone (EvmExecuted (mkExecutionResult _ false 21000 [])
            {[ tx.(caller) := charged acc 0 ]})
        | None => EvmDone (EvmExecuted (mkExecutionResult _ true 21000 [])
            {[ tx.(caller) := charged acc tx.(tx_value); to := credited recipient tx.(tx_value) ]})
        end)
    end).

Definition vm : Vm (S:=InMemoryStorage) (C:=PevmEthereum) := mkVm mainnet LONDON
  (get_block_env (mkHeader 13000000 0 50 30000000 42000 (Some 1%N) 0 0 None) LONDON)
  [plain_tx 1 Create 0 0; plain_tx 50 (Call 9) 0 5] st.

Definition mem0 : MvMemory Bytecode := initial_memory vm.
Definition run1 := execute evm vm (λ _, mem0) (mkTxVersion 1 0) db None mem0.
Definition mem1 : MvMemory Bytecode := memory_of run1.
Definition run0 := execute evm vm (λ _, mem1) (mkTxVersion 0 0) db None mem1.
Definition mem2 : MvMemory Bytecode := memory_of run0.
Definition again := execute evm vm (λ _, mem2) (mkTxVersion 1 1) db None mem2.

Definition execution : Type := option ((result VmExecutionError FinishExecFlags * VmDb
  * option PevmTxExecutionResult) * MvMemory Bytecode).
Definition flags_of (o : execution) : option FinishExecFlags :=
  match o with Some ((Ok flags, _, _), _) => Some flags | _ => None end.
Definition success (o : execution) : option bool :=
  match o with Some ((_, _, Some r), _) => Some r.(receipt).(r_status) | _ => None end.

(** What the scheduler makes of it: both tasks are handed out, transaction 1
    finishes, transaction 0 finishes, a worker asks for more. *)
Definition schedule (flags1 flags0 : FinishExecFlags)
    : stm Scheduler (list next_task_result * list (option Task)) :=
  t0 ← next_task 4;
  t1 ← next_task 4;
  r1 ← finish_execution (mkTxVersion 1 0) flags1;
  r0 ← finish_execution (mkTxVersion 0 0) flags0;
  t2 ← next_task 4;
  mret ([t0; t1; t2], [r1; r0]).
End RaceDemo.

#[local] Existing Instances demo_revm demo_alloy demo_order.


Lemma first_transaction_valid_witness :
  validate_read_locations 0 SoundDemo.mem3 = Some (true, SoundDemo.mem3).
Proof.
  refine (proj1 (first_transaction_valid (PevmChain0:=PevmEthereum_chain) SoundDemo.evm SoundDemo.vm
    Demo.K SoundDemo.V (λ _, SoundDemo.mem0) SoundDemo.mem0 SoundDemo.mem1 SoundDemo.mem3
    (mkTxVersion 0 0) SoundDemo.db None _ _ _ _ _ _ _ _ _ _ _ _)).
  - apply Demo.hash_kind.
  - split; intros t; [apply SoundDemo.mem_ok_0|]. unfold later. reflexivity.
  - reflexivity.
  - vm_compute. reflexivity.
  - vm_compute. reflexivity.
  - vm_compute. reflexivity.
  - reflexivity.
Defined.
