(* ===== verification/Machine.v ===== *)
(** * The parallel executor (pevm.rs [execute_revm_parallel])

    The worker pool of [Pool.v] running on the multi-version memory: the
    answers that [Pool.v] and [PoolFresh.v] leave to the environment are those
    of [Vm::execute], [MvMemory::validate_read_locations] and
    [MvMemory::convert_writes_to_estimates] on one shared memory, one result
    slot per transaction and one database per worker.

    An execution is one step of its worker, which applies its writes; the
    queries before that see any earlier memories in order.  Validation and the
    conversion to estimates are one step each. *)

From S2P Require Import Prelude Uint Types Scheduler Pool PoolSafety PoolFresh PoolLife MvMemory Storage VmDb Validation Lazy Chain Vm Soundness Block Snapshot Serial Skipped.

(** ** Validation and changes of the memory *)

Section validation.
Context {Bytecode : Type}.
Implicit Types (mem : MvMemory Bytecode).

Lemma validate_soft mem mem' i ll ll' :
  mem.(last_locations) !! i = Some ll → mem'.(last_locations) !! i = Some ll' →
  ll'.(ll_read) = ll.(ll_read) → dom mem.(data) ⊆ dom mem'.(data) → soft i mem mem' →
  validate_read_locations i mem = Some (true, mem) →
  validate_read_locations i mem' = Some (true, mem').
Proof.
  intros Hll Hll' Hr Hd Hs. unfold validate_read_locations, lock_last_locations. stm_unfold.
  rewrite Hll, Hll', Hr. intros [= Hv]. do 2 f_equal.
  rewrite forallb_forall in *. intros [l os] Hin. specialize (Hv _ Hin). simpl in *.
  by eapply check_location_soft.
Qed.

(** [i] would not pass validation now. *)
Definition stale_in mem (i : TxIdx) : Prop := validate_read_locations i mem ≠ Some (true, mem).

(** What an execution of [i], or its conversion to estimates, may change. *)
Record changes_at (i : TxIdx) mem mem' : Prop := {
  ch_entry l j : j ≠ i → entry_at mem'.(data) l j = entry_at mem.(data) l j;
  ch_last j : j ≠ i → mem'.(last_locations) !! j = mem.(last_locations) !! j;
  ch_dom : dom mem.(data) ⊆ dom mem'.(data);
  ch_later : mem.(new_bytecodes) ⊆ mem'.(new_bytecodes);
}.

(** Its own entries go from estimates to anything, or stay. *)
Definition refines_estimates (i : TxIdx) mem mem' : Prop :=
  ∀ l, entry_at mem'.(data) l i = entry_at mem.(data) l i ∨ entry_at mem.(data) l i = Some Estimate.

(** A transaction goes stale by a change below it only, and not when that
    only fills in estimates. *)
Lemma stale_changes i mem mem' j :
  changes_at i mem mem' → mem'.(last_locations) !! j = mem.(last_locations) !! j →
  j ≤ i ∨ refines_estimates i mem mem' → stale_in mem' j → stale_in mem j.
Proof.
  intros [He _ Hd _] Hl Hc Hst Hval. apply Hst. clear Hst.
  assert (∃ ll, mem.(last_locations) !! j = Some ll) as [ll Hll].
  { unfold validate_read_locations, lock_last_locations in Hval. stm_unfold.
    destruct (last_locations mem !! j); [eauto|done]. }
  eapply validate_soft; [exact Hll|by rewrite Hl|done|done| |done].
  intros l k Hk. destruct (decide (k = i)) as [->|]; [|left; by apply He].
  destruct Hc as [|Hc]; [lia|apply Hc].
Qed.
End validation.

(** ** The machine *)

Section machine.
Context `{Revm} {S : Type} `{!Storage S} {C : Type} `{!PevmChain C, !ChainLaws C}.
Variable evm : CfgEnv EvmSpecId → BlockEnv → EvmTx → evm_prog evm_outcome.
Variable vm : Vm (S:=S) (C:=C).
Implicit Types (mem M : MvMemory Bytecode) (v : TxVersion).

(** Two fields are there for the statements only: [past] are the memories so
    far, oldest first, and [marks] tells the transactions whose last execution
    was a lazy update. *)
Record Machine : Type := mkMachine {
  pool : Pool;
  memory : MvMemory Bytecode;
  slots : list (option PevmTxExecutionResult);
  dbs : list VmDb;
  past : list (MvMemory Bytecode);
  marks : list bool;
}.

(** The database of [Vm::new], with mock values. *)
Definition new_db (first : EvmTx) : VmDb :=
  mkVmDb 0 (tx_env vm.(vm_chain) first) 0 None None false true ∅ ∅.

(** [concurrency_level] workers on a new scheduler, memory and result buffer;
    an empty block starts none. *)
Definition start (concurrency_level : nat) (results : list (option PevmTxExecutionResult))
    : option Machine :=
  let block_size := length vm.(vm_txs) in
  first ← vm.(vm_txs) !! 0;
  Some (mkMachine (init block_size concurrency_level) (initial_memory vm)
    (grow_to block_size results) (replicate concurrency_level (new_db first)) [initial_memory vm]
    (replicate block_size false)).

(** The memory each query of an execution sees: [f t] is the time of query
    [t]. *)
Definition seen (m : Machine) (f : nat → nat) (t : nat) : MvMemory Bytecode :=
  default m.(memory) (m.(past) !! f t).

(** What the next step of worker [w] at [p] does outside the scheduler, and
    the answer it gets. *)
Definition effect (w : nat) (f : nat → nat) (p : pc) (m : Machine)
    : option (choice * (MvMemory Bytecode * list (option PevmTxExecutionResult) * list bool * list VmDb)) :=
  match p with
  | Exec v =>
      db ← m.(dbs) !! w;
      slot ← m.(slots) !! v.(tx_idx);
      x ← execute evm vm (seen m f) v db slot m.(memory);
      let '((r, db', slot'), mem') := x in
      Some (VmAnswer (outcome_of r),
        (mem', <[v.(tx_idx) := slot']> m.(slots),
         match r with Ok _ => <[v.(tx_idx) := db'.(is_lazy)]> m.(marks) | Err _ => m.(marks) end,
         <[w := db']> m.(dbs)))
  | Validate v =>
      x ← validate_read_locations v.(tx_idx) m.(memory);
      Some (ReadSetValid x.1, (x.2, m.(slots), m.(marks), m.(dbs)))
  | Convert v =>
      x ← convert_writes_to_estimates v.(tx_idx) m.(memory);
      Some (Tau, (x.2, m.(slots), m.(marks), m.(dbs)))
  | _ => Some (Tau, (m.(memory), m.(slots), m.(marks), m.(dbs)))
  end.

Definition mstep (w : nat) (f : nat → nat) (m : Machine) : option Machine :=
  p ← m.(pool).(workers) !! w;
  x ← effect w f p m;
  let '(c, (mem', slots', marks', dbs')) := x in
  match pstep w c m.(pool) with
  | Next P' => Some (mkMachine P' mem' slots' dbs' (m.(past) ++ [mem']) marks')
  | _ => None
  end.

Inductive machine_step (m m' : Machine) : Prop :=
  | machine_step_intro w f :
      (∀ t, f t ≤ f (Datatypes.S t)) → mstep w f m = Some m' → machine_step m m'.

Definition machine_reachable (n : nat) (results : list (option PevmTxExecutionResult))
    (m : Machine) : Prop :=
  ∃ m0, start n results = Some m0 ∧ rtc machine_step m0 m.

(** ** What the steps do to the memory *)

Lemma codes_grow_changes i mem mem' : codes_grow mem mem' → changes_at i mem mem'.
Proof. intros [Hd Hl _ Hc]. split; [by rewrite Hd|by rewrite Hl|by rewrite Hd|done]. Qed.

(** A successful execution. *)
Record applied v mem (flags : FinishExecFlags) (db' : VmDb)
    (slot' : option PevmTxExecutionResult) mem' : Prop := {
  ap_changes : changes_at v.(tx_idx) mem mem';
  ap_bound : v.(tx_idx) < length vm.(vm_txs);
  ap_slot : is_Some slot';
  ap_last : is_Some (mem'.(last_locations) !! v.(tx_idx));
  ap_own l inc x : entry_at mem'.(data) l v.(tx_idx) = Some (Data inc x) → inc = v.(tx_incarnation);
  ap_need : flags_contains flags NeedValidation = (0 <? v.(tx_idx)) && negb db'.(is_lazy);
  ap_known : flags_contains flags WroteNewLocation = false →
    (∀ l inc x, entry_at mem.(data) l v.(tx_idx) ≠ Some (Data inc x)) →
    refines_estimates v.(tx_idx) mem mem';
}.

Lemma exec_flags_need i db wrote :
  flags_contains (exec_flags i db wrote) NeedValidation = (0 <? i) && negb db.(is_lazy).
Proof. unfold exec_flags. by destruct (_ && _), wrote. Qed.
Lemma exec_flags_wrote i db wrote :
  flags_contains (exec_flags i db wrote) WroteNewLocation = wrote.
Proof. unfold exec_flags. by destruct (_ && _), wrote. Qed.

Lemma execute_applied mems v db slot mem flags db' slot' mem' :
  mem_reachable evm vm mem →
  execute evm vm mems v db slot mem = Some ((Ok flags, db', slot'), mem') →
  applied v mem flags db' slot' mem'.
Proof.
  intros Hinv%mem_reachable_inv Hex%execute_inv. simpl in Hex.
  destruct Hex as [full_tx r state db1 ws mem1 u mem2 ll wrote mem3 tr Htx _ _ _ Hg _ _ Hd Hl Hc Hll
    Hrec _].
  apply (mem_inv_codes_grow _ _ _ Hg), (mem_inv_same _ _ _ Hd Hl Hc) in Hinv.
  destruct Hg as [Hgd Hgl _ Hgc]. pose proof Hrec as [He Hdom (w & _ & _ & Hlast) Hnew [_ Hcodes]].
  rewrite Hgd in Hd. rewrite Hgl in Hl. pose proof (lookup_lt_Some _ _ _ Hll).
  split; [split|by eapply lookup_lt_Some|by eexists|..].
  - intros l j Hj. by rewrite He, decide_False, Hd.
  - intros j Hj. by rewrite Hlast, list_lookup_insert_ne, Hl.
  - rewrite Hdom, Hd. set_solver.
  - by rewrite Hcodes, Hc.
  - rewrite Hlast, list_lookup_insert_eq by done. by eexists.
  - intros l inc x Hx. by apply (recorded_values _ _ _ _ _ _ _ _ _ _ (mi_ok _ _ Hinv) Hll Hrec) in Hx as [_ ?].
  - simpl. apply exec_flags_need.
  - rewrite exec_flags_wrote. intros -> Hno l. rewrite He, decide_True by done. rewrite Hd.
    destruct (entry_at (data mem) l _) as [[inc x|]|] eqn:Hm; [by destruct (Hno l inc x)|by right|left].
    assert (l ∉ ll.(ll_write)) as Hn.
    { intros Hin. destruct (mv_written _ (mi_ok _ _ Hinv) _ _ _ Hll Hin) as [e Hy].
      rewrite Hd, Hm in Hy. done. }
    destruct (last_value ws l) as [x|] eqn:Hx; [|by rewrite decide_False].
    assert (false = true) as [=]. apply Hnew. exists l. split; [|done].
    apply last_value_is_Some. by eexists.
Qed.

(** The conversion to estimates. *)
Lemma convert_changes i mem u mem' :
  mem_reachable evm vm mem → convert_writes_to_estimates i mem = Some (u, mem') →
  changes_at i mem mem' ∧ mem'.(last_locations) = mem.(last_locations) ∧
  ∀ l inc x, entry_at mem'.(data) l i ≠ Some (Data inc x).
Proof.
  intros Hinv%mem_reachable_inv. unfold convert_writes_to_estimates, lock_last_locations. stm_unfold.
  destruct (last_locations mem !! i) as [ll|] eqn:Hll; [|done]. intros [= <- <-].
  split_and!; [split|done|]; simpl; try done.
  - intros l j Hj. rewrite foldl_estimates, decide_False; [done|]. naive_solver.
  - generalize mem.(data). clear. induction (ll_write ll) as [|l ls IH]; intros d; simpl; [done|].
    etrans; [|apply IH]. by rewrite dom_alter.
  - intros l inc x. rewrite foldl_estimates. case_decide as Hd; [by destruct (_ !! l)|].
    intros Hx. destruct Hd. split; [done|]. by eapply (mv_data _ (mi_ok _ _ Hinv)).
Qed.
(** ** The steps of the machine *)

(** What a step does outside the scheduler: nothing but learn codes, apply an
    execution, or turn a write set into estimates. *)
Inductive acts (m : Machine) (mems : nat → MvMemory Bytecode)
    : pc → choice → MvMemory Bytecode → list (option PevmTxExecutionResult) → list bool → Prop :=
  | acts_quiet p c mem' :
      (∀ v f, p = Exec v → c ≠ VmAnswer (VmOk f)) → (∀ v, p ≠ Convert v) →
      (∀ v b, p = Validate v → c = ReadSetValid b →
        validate_read_locations v.(tx_idx) m.(memory) = Some (b, m.(memory))) →
      codes_grow m.(memory) mem' → (mem_reachable evm vm m.(memory) → mem_reachable evm vm mem') →
      acts m mems p c mem' m.(slots) m.(marks)
  | acts_record v db slot flags db' slot' mem' :
      execute evm vm mems v db slot m.(memory) = Some ((Ok flags, db', slot'), mem') →
      v.(tx_idx) < length m.(slots) →
      acts m mems (Exec v) (VmAnswer (VmOk flags)) mem' (<[v.(tx_idx) := slot']> m.(slots))
        (<[v.(tx_idx) := db'.(is_lazy)]> m.(marks))
  | acts_convert v c u mem' :
      convert_writes_to_estimates v.(tx_idx) m.(memory) = Some (u, mem') →
      acts m mems (Convert v) c mem' m.(slots) m.(marks).

Lemma acts_still m mems p c :
  (∀ v, p ≠ Exec v) → (∀ v, p ≠ Convert v) →
  (∀ v b, p = Validate v → c = ReadSetValid b →
    validate_read_locations v.(tx_idx) m.(memory) = Some (b, m.(memory))) →
  acts m mems p c m.(memory) m.(slots) m.(marks).
Proof. intros He Hc Hv. by apply acts_quiet; [intros v f ->; by destruct (He v)|..]. Qed.

Lemma mem_step_reachable mem mem' :
  mem_step evm vm mem mem' → mem_reachable evm vm mem → mem_reachable evm vm mem'.
Proof. intros Hs Hr. by eapply rtc_r. Qed.

Lemma effect_acts w f p m c mem' slots' marks' dbs' :
  effect w f p m = Some (c, (mem', slots', marks', dbs')) →
  acts m (seen m f) p c mem' slots' marks'.
Proof.
  destruct p; simpl; try (intros [= <- <- <- <- <-]; by apply acts_still).
  - intros (db & _ & Hk)%bind_Some. apply bind_Some in Hk as (slot & Hslot & Hk).
    apply bind_Some in Hk as ([[[r db'] slot'] mem1] & Hex & [= <- <- <- <- _]).
    pose proof (execute_inv _ _ _ _ _ _ _ _ _ _ _ Hex) as Hinv. destruct r as [flags|e].
    + eapply acts_record; [exact Hex|by eapply lookup_lt_Some].
    + destruct Hinv as (Hg & -> & _). rewrite list_insert_id by done. apply acts_quiet; try done.
      * intros v0 f0 _. by destruct e.
      * apply mem_step_reachable. by econstructor.
  - intros ([b mem1] & Hv & [= <- <- <- <- _])%bind_Some.
    assert (mem1 = m.(memory)) as ->.
    { unfold validate_read_locations, lock_last_locations in Hv. stm_unfold.
      by destruct (_ !! _); simplify_eq. }
    apply acts_still; try done. intros v0 b0 [= <-] [= <-]. done.
  - intros ([u mem1] & Hv & [= <- <- <- <- _])%bind_Some. by eapply acts_convert.
Qed.

Lemma acts_reachable m mems p c mem' slots' marks' :
  acts m mems p c mem' slots' marks' → mem_reachable evm vm m.(memory) → mem_reachable evm vm mem'.
Proof.
  destruct 1 as [|v db slot flags db' slot' mem' Hex|v c u mem' Hc]; [done|..];
    apply mem_step_reachable; by econstructor.
Qed.

(** The transaction whose entries a step may change. *)
Definition target (p : pc) : TxIdx :=
  match p with Exec v | Convert v => v.(tx_idx) | _ => 0 end.

Lemma acts_changes m mems p c mem' slots' marks' :
  acts m mems p c mem' slots' marks' → mem_reachable evm vm m.(memory) →
  changes_at (target p) m.(memory) mem'.
Proof.
  destruct 1 as [p c mem' _ _ _ Hg|v db slot flags db' slot' mem' Hex|v c u mem' Hc]; intros Hr.
  - by apply codes_grow_changes.
  - by eapply ap_changes, execute_applied.
  - by eapply convert_changes.
Qed.

(** Values are kept, or are those of the version recorded now. *)
Lemma acts_values m mems p c mem' slots' marks' l i inc x :
  acts m mems p c mem' slots' marks' → mem_reachable evm vm m.(memory) →
  entry_at mem'.(data) l i = Some (Data inc x) →
  (entry_at m.(memory).(data) l i = Some (Data inc x) ∧ ∀ v, p = Convert v → v.(tx_idx) ≠ i) ∨
  ∃ f, p = Exec (mkTxVersion i inc) ∧ c = VmAnswer (VmOk f).
Proof.
  destruct 1 as [p c mem' _ Hnc _ [Hd _ _ _]|v db slot flags db' slot' mem' Hex|v c u mem' Hc]; intros Hr Hx.
  - left. rewrite <-Hd. split; [done|]. intros v Hv. by destruct (Hnc v).
  - destruct (execute_applied _ _ _ _ _ _ _ _ _ Hr Hex) as [[He _ _ _] _ _ _ Ho _ _].
    destruct (decide (i = v.(tx_idx))) as [->|Hne].
    + right. apply Ho in Hx as ->. exists flags. by destruct v.
    + left. by rewrite <-He by done.
  - destruct (convert_changes _ _ _ _ Hr Hc) as ([He _ _ _] & _ & Hno).
    destruct (decide (i = v.(tx_idx))) as [->|Hne]; [by destruct (Hno _ _ _ Hx)|].
    left. rewrite <-He by done. split; [done|]. intros v0 [= ->]. congruence.
Qed.

(** The memory is an instance of the environment of [PoolFresh.v]. *)
Lemma acts_ghost m mems p c mem' slots' marks' (need : TxIdx → Prop) :
  let g := mkGhost (stale_in m.(memory)) need in
  acts m mems p c mem' slots' marks' → mem_reachable evm vm m.(memory) →
  (∀ v l inc x, p = Exec v → entry_at m.(memory).(data) l v.(tx_idx) ≠ Some (Data inc x)) →
  ghost_step c p g (mkGhost (stale_in mem') (need_after c p g)).
Proof.
  intros g Hact Hr Hno. pose proof (acts_changes _ _ _ _ _ _ _ Hact Hr) as Hch. split; simpl; [|done|].
  - intros i Hst. destruct Hact as [p c mem' Hne Hnc _ [Hd Hl _ _]|v db slot flags db' slot' mem' Hex|v c u mem' Hc].
    + left. revert Hst. apply (stale_changes _ _ _ _ Hch); [by rewrite Hl|].
      right. intros l. left. by rewrite Hd.
    + destruct (execute_applied _ _ _ _ _ _ _ _ _ Hr Hex) as [[_ Hl _ _] _ _ _ _ _ Hk]. simpl in *.
      destruct (decide (i = v.(tx_idx))) as [|Hne]; [by right; left|].
      destruct (flags_contains flags WroteNewLocation) eqn:Hf.
      * destruct (decide (v.(tx_idx) < i)); [by right; right|left].
        revert Hst. apply (stale_changes _ _ _ _ Hch); [by apply Hl|lia].
      * left. revert Hst. apply (stale_changes _ _ _ _ Hch); [by apply Hl|]. right. apply Hk; [done|].
        intros l inc x. by apply Hno.
    + destruct (convert_changes _ _ _ _ Hr Hc) as (_ & Hl & _). simpl in *.
      destruct (decide (v.(tx_idx) < i)); [by right|left].
      revert Hst. apply (stale_changes _ _ _ _ Hch); [by rewrite Hl|lia].
  - intros v -> -> Hst. apply Hst. inversion Hact; subst. eauto.
Qed.

(** ** The invariant of the executor *)

(** [m] holds what the last execution of [i] read, wrote and answered, with
    the flags it ended with and its lazy-update decision. *)
Inductive ran (m : Machine) (i : TxIdx) : FinishExecFlags → bool * PevmTxExecutionResult → Prop :=
  | ran_intro inc mems db slot mem flags db' result mem' ll ll' :
      execute evm vm mems (mkTxVersion i inc) db slot mem = Some ((Ok flags, db', Some result), mem') →
      (∀ t, mems t ∈ m.(past)) → (∀ t, later (mems t) (mems (Datatypes.S t))) →
      mem ∈ m.(past) → mem' ∈ m.(past) →
      mem'.(last_locations) !! i = Some ll' →
      m.(memory).(last_locations) !! i = Some ll → ll.(ll_read) = ll'.(ll_read) →
      (∀ l, entry_at m.(memory).(data) l i = entry_at mem'.(data) l i) →
      m.(slots) !! i = Some (Some result) → m.(marks) !! i = Some db'.(is_lazy) →
      ran m i flags (db'.(is_lazy), result).

Record MInv (m : Machine) (need : TxIdx → Prop) : Prop := {
  mc_last : last m.(past) = Some m.(memory);
  mc_marks : length m.(marks) = length vm.(vm_txs);
  mc_reach mem : mem ∈ m.(past) → mem_reachable evm vm mem;
  mc_later a b mem mem' : a ≤ b → m.(past) !! a = Some mem → m.(past) !! b = Some mem' →
    later mem mem';
  (** an incarnation has one value per location *)
  mc_coherent mem mem' l i inc x y : mem ∈ m.(past) → mem' ∈ m.(past) →
    entry_at mem.(data) l i = Some (Data inc x) → entry_at mem'.(data) l i = Some (Data inc y) →
    x = y;
  mc_used mem l i inc x : mem ∈ m.(past) → entry_at mem.(data) l i = Some (Data inc x) →
    used m.(pool).(sched) m.(pool).(workers) (mkTxVersion i inc);
  mc_dead i l inc x : ¬ live m.(pool).(sched) m.(pool).(workers) i →
    entry_at m.(memory).(data) l i ≠ Some (Data inc x);
  mc_live i : live m.(pool).(sched) m.(pool).(workers) i →
    ∃ flags out, ran m i flags out ∧ (need i ↔ flags_contains flags NeedValidation = true);
}.

Lemma mc_now m need : MInv m need → m.(memory) ∈ m.(past).
Proof. intros HM. eapply last_Some_elem_of, mc_last, HM. Qed.

Lemma mc_seen m need f t : MInv m need → seen m f t ∈ m.(past).
Proof.
  intros HM. unfold seen. destruct (past m !! f t) as [x|] eqn:Hx; simpl; [by eapply list_elem_of_lookup_2|].
  eapply mc_now, HM.
Qed.

Lemma mc_before m need mem : MInv m need → mem ∈ m.(past) → later mem m.(memory).
Proof.
  intros HM [a Ha]%list_elem_of_lookup_1. pose proof (mc_last _ _ HM) as Hl.
  rewrite last_lookup in Hl. apply lookup_lt_Some in Ha as Hlt.
  by eapply (mc_later _ _ HM a (pred (length m.(past)))); [lia|..].
Qed.

Lemma mc_seen_later m need f t :
  MInv m need → f t ≤ f (Datatypes.S t) → later (seen m f t) (seen m f (Datatypes.S t)).
Proof.
  intros HM Hf. unfold seen at 2. destruct (past m !! f (Datatypes.S t)) as [y|] eqn:Hy; simpl.
  - unfold seen. destruct (past m !! f t) as [x|] eqn:Hx; simpl; [by eapply (mc_later _ _ HM)|].
    apply lookup_ge_None in Hx. apply lookup_lt_Some in Hy. lia.
  - eapply mc_before; [done|]. by eapply mc_seen.
Qed.

Section step.
Context (m : Machine) (need : TxIdx → Prop) (w : nat) (f : nat → nat) (c : choice) (p p' : pc).
Context (s' : Scheduler) (ar' : option AbortReason).
Context (mem' : MvMemory Bytecode) (slots' : list (option PevmTxExecutionResult)).
Context (marks' : list bool) (dbs' : list VmDb).
Abbreviation s := m.(pool).(sched).
Abbreviation ws := m.(pool).(workers).
Abbreviation ws' := (<[w := p']> ws).
Abbreviation m' := (mkMachine (mkPool s' ar' ws') mem' slots' dbs' (m.(past) ++ [mem']) marks').
Abbreviation need' := (need_after c p (mkGhost (stale_in m.(memory)) need)).
Hypothesis HI : Inv s m.(pool).(abort_reason) ws.
Hypothesis Hw : ws !! w = Some p.
Hypothesis Hfree : existsb (locked ws) (needs_locks p) = false.
Hypothesis Hstep : wstep c p s m.(pool).(abort_reason) = Next (p', s', ar').
Hypothesis Har : m.(pool).(abort_reason) = None.
Hypothesis HM : MInv m need.
Hypothesis Hf : ∀ t, f t ≤ f (Datatypes.S t).
Hypothesis Hact : acts m (seen m f) p c mem' slots' marks'.

Lemma step_reachable : mem_reachable evm vm m.(memory).
Proof. eapply mc_reach; [exact HM|]. eapply mc_now, HM. Qed.

Lemma step_later a b mem1 mem2 :
  a ≤ b → (m.(past) ++ [mem']) !! a = Some mem1 → (m.(past) ++ [mem']) !! b = Some mem2 →
  later mem1 mem2.
Proof.
  pose proof (ch_later _ _ _ (acts_changes _ _ _ _ _ _ _ Hact step_reachable)) as Hc.
  intros Hab Ha Hb. destruct (decide (b < length m.(past))).
  - rewrite lookup_app_l in Ha, Hb by lia. exact (mc_later _ _ HM a b _ _ Hab Ha Hb).
  - rewrite lookup_app_r in Hb by lia. apply list_lookup_singleton_Some in Hb as [_ <-].
    destruct (decide (a < length m.(past))).
    + rewrite lookup_app_l in Ha by lia. unfold later. etrans; [|exact Hc].
      eapply mc_before; [exact HM|]. by eapply list_elem_of_lookup_2.
    + rewrite lookup_app_r in Ha by lia. apply list_lookup_singleton_Some in Ha as [_ <-]. unfold later. done.
Qed.

(** A value of the new memory is an old one, or of a version unused so far. *)
Lemma new_value l i inc x :
  entry_at mem'.(data) l i = Some (Data inc x) →
  (∃ mem, mem ∈ m.(past) ∧ entry_at mem.(data) l i = Some (Data inc x)) ∨
  ¬ used s ws (mkTxVersion i inc).
Proof.
  intros [[Hx _]|(f0 & Hp & _)]%(acts_values _ _ _ _ _ _ _ _ _ _ _ Hact step_reachable).
  - left. exists m.(memory). split; [eapply mc_now, HM|done].
  - right. by eapply exec_unused.
Qed.

Lemma step_coherent mem1 mem2 l i inc x y :
  mem1 ∈ m.(past) ++ [mem'] → mem2 ∈ m.(past) ++ [mem'] →
  entry_at mem1.(data) l i = Some (Data inc x) → entry_at mem2.(data) l i = Some (Data inc y) →
  x = y.
Proof.
  assert (∀ mem x y, mem ∈ m.(past) → entry_at mem.(data) l i = Some (Data inc x) →
    entry_at mem'.(data) l i = Some (Data inc y) → x = y) as Hmix.
  { intros mem x0 y0 Hin Hx [(mem0 & Hin0 & Hy)|Hu]%new_value.
    { exact (mc_coherent _ _ HM _ _ _ _ _ _ _ Hin Hin0 Hx Hy). }
    destruct Hu. eapply (mc_used _ _ HM); eassumption. }
  rewrite !elem_of_app, !list_elem_of_singleton. intros [H1| ->] [H2| ->] Hx Hy.
  - exact (mc_coherent _ _ HM _ _ _ _ _ _ _ H1 H2 Hx Hy).
  - by eapply Hmix.
  - symmetry. by eapply Hmix.
  - congruence.
Qed.

Lemma step_used mem l i inc x :
  mem ∈ m.(past) ++ [mem'] → entry_at mem.(data) l i = Some (Data inc x) →
  used s' ws' (mkTxVersion i inc).
Proof.
  rewrite elem_of_app, list_elem_of_singleton. intros Hin Hx.
  assert (∀ mem, mem ∈ m.(past) → entry_at mem.(data) l i = Some (Data inc x) →
    used s' ws' (mkTxVersion i inc)) as Hold.
  { intros mem0 Hin0 Hx0. eapply (used_step s); eauto. eapply (mc_used _ _ HM); eassumption. }
  destruct Hin as [?| ->]; [by eapply Hold|].
  apply (acts_values _ _ _ _ _ _ _ _ _ _ _ Hact step_reachable) in Hx as [[Hx _]|(f0 & Hp & Hc)].
  - eapply Hold; [eapply mc_now, HM|done].
  - by eapply exec_used.
Qed.

Lemma step_dead i l inc x : ¬ live s' ws' i → entry_at mem'.(data) l i ≠ Some (Data inc x).
Proof.
  intros Hnl [[Hx Hnc]|(f0 & Hp & Hc)]%(acts_values _ _ _ _ _ _ _ _ _ _ _ Hact step_reachable).
  - eapply (mc_dead _ _ HM i); [|done]. intros Hl.
    destruct (dead_step s s' _ _ ws c w p p' HI Hw Hfree Hstep Har i Hl) as [|(v & Hp & Hi)]; [done|].
    by apply (Hnc v).
  - apply Hnl. right; left. eapply some_worker_self; [done|].
    pose proof Hstep as Hs. rewrite Hp, Hc in Hs. simpl in Hs. injection Hs as <- _ _.
    unfold finishes. simpl. by apply bool_decide_eq_true.
Qed.

Lemma ran_kept i flags out :
  (i = target p → ∀ v, p = Exec v ∨ p = Convert v → False) →
  ran m i flags out → ran m' i flags out.
Proof.
  intros Hi [inc mems db slot mem fl db' result mem1 ll ll' Hex Hin Hl Hin1 Hin2 Hll' Hll Hr He Hs Hmk].
  assert (∀ mem, mem ∈ m.(past) → mem ∈ m.(past) ++ [mem']) as Hmono by set_solver.
  assert (mem'.(last_locations) !! i = m.(memory).(last_locations) !! i ∧
    (∀ l, entry_at mem'.(data) l i = entry_at m.(memory).(data) l i) ∧
    slots' !! i = m.(slots) !! i ∧ marks' !! i = m.(marks) !! i) as (Hl' & He' & Hs' & Hmk').
  { pose proof (acts_changes _ _ _ _ _ _ _ Hact step_reachable) as [Hce Hcl _ _]. clear Hin.
    destruct Hact as [p0 c0 mem0 _ _ _ [Hd Hla _ _]|v db0 slot0 flags0 db0' slot' mem0 Hx|v c0 u mem0 Hx].
    - split_and!; [by rewrite Hla|by rewrite Hd|done|done].
    - assert (i ≠ v.(tx_idx)) as Hne by (intros ->; by eapply (Hi eq_refl v); left).
      split_and!; [by apply Hcl|intros l; by apply Hce|by rewrite list_lookup_insert_ne..].
    - assert (i ≠ v.(tx_idx)) as Hne by (intros ->; by eapply (Hi eq_refl v); right).
      split_and!; [by apply Hcl|intros l; by apply Hce|done|done]. }
  refine (ran_intro m' i inc mems db slot mem fl db' result mem1 ll ll' Hex _ Hl _ _ Hll' _ Hr _ _ _); simpl.
  - auto.
  - auto.
  - auto.
  - congruence.
  - intros l. by rewrite He'.
  - congruence.
  - congruence.
Qed.

(** A worker that records leaves what it recorded. *)
Lemma ran_now v flags :
  p = Exec v → c = VmAnswer (VmOk flags) → ∃ out, ran m' v.(tx_idx) flags out.
Proof.
  intros Hp Hc. pose proof step_reachable as Hr.
  destruct Hact as [p0 c0 mem0 Hne _ _ _|v0 db0 slot0 flags0 db0' slot' mem0 Hx Hlt|]; simplify_eq.
  - by destruct (Hne v flags).
  - destruct (execute_applied _ _ _ _ _ _ _ _ _ Hr Hx) as [_ Hbd [result ->] [ll Hll] _ _ _].
    eexists. eapply (ran_intro _ _ v.(tx_incarnation) (seen m f)); simpl.
    + by destruct v.
    + intros t. apply elem_of_app. left. eapply mc_seen, HM.
    + intros t. eapply mc_seen_later; [exact HM|apply Hf].
    + apply elem_of_app. left. eapply mc_now, HM.
    + apply elem_of_app. right. by apply list_elem_of_singleton.
    + done.
    + done.
    + done.
    + done.
    + by apply list_lookup_insert_eq.
    + apply list_lookup_insert_eq. by rewrite (mc_marks _ _ HM).
Qed.

Lemma need_kept i : (∀ v, p = Exec v → v.(tx_idx) ≠ i) → need' i ↔ need i.
Proof.
  intros Hne. clear - Hne. unfold need_after. destruct p; try done.
  destruct c as [|[fl| | | |]|]; try done. case_decide; [|done]. by destruct (Hne v).
Qed.

Lemma step_live i :
  live s' ws' i →
  ∃ flags out, ran m' i flags out ∧ (need' i ↔ flags_contains flags NeedValidation = true).
Proof.
  intros Hl'.
  destruct (live_step s s' _ _ ws c w p p' HI Hw Hfree Hstep Har i Hl') as [Hl|(v & fl & Hp & Hc & Hi)].
  - destruct (mc_live _ _ HM _ Hl) as (flags & out & Hran & Hn). exists flags, out.
    assert (∀ v, p = Exec v → v.(tx_idx) ≠ i) as Hne.
    { intros v Hp <-. by eapply exec_not_live. }
    rewrite need_kept by done. split; [|done]. apply ran_kept; [|done].
    intros Hi v [Hp|Hp]; rewrite Hp in Hi; simpl in Hi; [by apply (Hne v)|].
    subst i. by eapply converted_not_live.
  - destruct (ran_now v fl Hp Hc) as [out Hran]. subst i. exists fl, out. split; [done|].
    unfold need_after. by rewrite Hp, Hc, decide_True.
Qed.

Lemma step_marks : length marks' = length vm.(vm_txs).
Proof. rewrite <-(mc_marks _ _ HM). clear HM. destruct Hact; by rewrite ?length_insert. Qed.

Lemma MInv_step : MInv m' need'.
Proof.
  split; simpl.
  - apply last_snoc.
  - exact step_marks.
  - intros mem [Hin| ->%list_elem_of_singleton]%elem_of_app; [exact (mc_reach _ _ HM _ Hin)|].
    exact (acts_reachable _ _ _ _ _ _ _ Hact step_reachable).
  - exact step_later.
  - exact step_coherent.
  - exact step_used.
  - exact step_dead.
  - exact step_live.
Qed.

Lemma MInv_ghost :
  ghost_step c p (mkGhost (stale_in m.(memory)) need) (mkGhost (stale_in mem') need').
Proof.
  apply (acts_ghost _ _ _ _ _ _ _ _ Hact step_reachable). intros v l inc x Hp.
  apply (mc_dead _ _ HM). by eapply exec_not_live.
Qed.
End step.

Lemma start_init n results m :
  start n results = Some m →
  m.(pool) = init (length vm.(vm_txs)) n ∧ MInv m (λ _, False).
Proof.
  unfold start. intros (first & _ & [= <-])%bind_Some. split; [done|].
  assert (∀ mem l i inc x, mem ∈ [initial_memory vm] → entry_at mem.(data) l i ≠ Some (Data inc x)) as Hno.
  { intros mem l i inc x ->%list_elem_of_singleton Hx. unfold initial_memory in Hx.
    by apply (law_estimates_rewarded _ _ _ _ _ _ 0%N 0%N) in Hx as (? & _ & ? & _). }
  split; simpl.
  - done.
  - apply length_replicate.
  - intros mem ->%list_elem_of_singleton. apply rtc_refl.
  - intros a b mem mem' _ [_ <-]%list_lookup_singleton_Some [_ <-]%list_lookup_singleton_Some.
    unfold later. done.
  - intros mem mem' l i inc x y Hin _ Hx. by destruct (Hno mem l i inc x).
  - intros mem l i inc x Hin Hx. by destruct (Hno mem l i inc x).
  - intros i l inc x _. apply Hno. by apply list_elem_of_singleton.
  - intros i [(t & [-> _]%lookup_replicate_1 & Ht)|[(w & q & [-> _]%lookup_replicate_1 & Hq)
      |(w & q & [-> _]%lookup_replicate_1 & Hq)]]; done.
Qed.

(** Every machine that has not aborted is a pool with the memory as its
    environment, and keeps the invariant. *)
Lemma machine_invariant n results m :
  0 < n → machine_reachable n results m → m.(pool).(sched).(aborted) = false →
  ∃ need, fresh_reachable (length vm.(vm_txs)) n m.(pool) (mkGhost (stale_in m.(memory)) need) ∧
    MInv m need.
Proof.
  intros Hn (m0 & H0 & Hr).
  revert m Hr. apply (rtc_ind_r (λ m, m.(pool).(sched).(aborted) = false → ∃ need,
    fresh_reachable (length vm.(vm_txs)) n m.(pool) (mkGhost (stale_in m.(memory)) need) ∧ MInv m need)).
  - intros _. destruct (start_init _ _ _ H0) as [Hp HM]. exists (λ _, False). split; [|done].
    eexists. rewrite Hp. apply rtc_refl.
  - intros m1 m2 _ [w f Hf Hs] IH Hab. unfold mstep in Hs.
    apply bind_Some in Hs as (p & Hw & Hs). apply bind_Some in Hs as ([c [[[mem' slots'] marks'] dbs']] & He & Hs).
    destruct (pstep w c (pool m1)) as [| |P'] eqn:HP; simplify_eq/=.
    pose proof HP as (p0 & p' & Hw0 & Hl & Hst & Hws)%pstep_Next. simplify_eq.
    destruct (IH (wstep_aborted _ _ _ _ _ _ _ Hst Hab)) as (need & Hfr & HM).
    destruct (fresh_invariant _ _ _ _ Hn Hfr) as [Hrp _].
    destruct (PLive_reachable _ _ _ Hn Hrp) as [HI HL].
    destruct P' as [s' ar' ws']. simpl in *. subst ws'.
    pose proof (live_reason _ _ _ (HL (wstep_aborted _ _ _ _ _ _ _ Hst Hab))) as Har.
    apply effect_acts in He. eexists. split.
    + destruct Hfr as [g0 Hfr]. exists g0. eapply rtc_r; [exact Hfr|].
      econstructor; [exact Hw|exact HP|]. by eapply MInv_ghost.
    + by eapply MInv_step.
Qed.

(** ** Serializability of the parallel execution *)

(** The value a version wrote to a location, from the memories so far. *)
Definition value_of (mems : list (MvMemory Bytecode)) (l : MemoryLocationHash) (i : TxIdx)
    (inc : TxIncarnation) : option MemoryValue :=
  head (omap (λ mem, match entry_at mem.(data) l i with
                     | Some (Data inc' x) => if decide (inc' = inc) then Some x else None
                     | _ => None
                     end) mems).

Lemma value_of_entry m need mem l i inc x :
  MInv m need → mem ∈ m.(past) → entry_at mem.(data) l i = Some (Data inc x) →
  value_of m.(past) l i inc = Some x.
Proof.
  intros HM Hin Hx. unfold value_of. set (g := λ mem, _).
  assert (x ∈ omap g m.(past)) as Hox.
  { apply list_elem_of_omap. exists mem. split; [done|]. unfold g. by rewrite Hx, decide_True. }
  destruct (omap g m.(past)) as [|y ys] eqn:Ho; [by apply elem_of_nil in Hox|]. simpl. f_equal.
  assert (y ∈ omap g m.(past)) as (mem' & Hin' & Hy)%list_elem_of_omap by (rewrite Ho; by left).
  unfold g in Hy. destruct (entry_at (data mem') l i) as [[inc' y'|]|] eqn:He; [|done..].
  case_decide; simplify_eq. exact (mc_coherent _ _ HM _ _ _ _ _ _ _ Hin' Hin He Hx).
Qed.

(** Codes deployed in the block are the ones storage knows under the same
    hash. *)
Definition codes_agree mem : Prop :=
  ∀ a h b, code_hash vm.(vm_storage) a = Ok (Some h) → mem.(new_bytecodes) !! h = Some b →
    ∃ c, code_by_hash vm.(vm_storage) h = Ok (Some c) ∧ bytecode_from_evm_code c = b.

Lemma past_ok m need mem :
  MInv m need → codes_agree m.(memory) → mem ∈ m.(past) →
  mem_ok vm.(vm_storage) (value_of m.(past)) mem.
Proof.
  intros HM Hc Hin. pose proof (mem_reachable_inv _ _ _ (mc_reach _ _ HM _ Hin)) as [_ _ _ Hd].
  split; [|done|].
  - intros l k [inc x|] He; [|done]. exact (value_of_entry _ _ _ _ _ _ _ HM Hin He).
  - intros a h b Ha Hb. eapply Hc; [done|]. eapply lookup_weaken; [exact Hb|].
    exact (mc_before _ _ _ HM Hin).
Qed.

Lemma ran_history m need mems :
  MInv m need → codes_agree m.(memory) → (∀ t, mems t ∈ m.(past)) →
  (∀ t, later (mems t) (mems (Datatypes.S t))) →
  history vm.(vm_storage) (value_of m.(past)) mems.
Proof. intros HM Hc Hin Hl. split; [|done]. intros t. by eapply past_ok. Qed.

(** A transaction that ran and would pass validation is committed in the
    sense of [Serial.v]. *)
Lemma not_stale_valid mem i ll :
  mem.(last_locations) !! i = Some ll → ¬ stale_in mem i →
  validate_read_locations i mem = Some (true, mem).
Proof.
  intros Hll Hst. unfold stale_in, validate_read_locations, lock_last_locations in *. stm_unfold.
  rewrite Hll in *. destruct (forallb _ _); [done|]. by destruct Hst.
Qed.

Lemma ran_committed m need i full_tx flags out :
  MInv m need → codes_agree m.(memory) → ran m i flags out → ¬ stale_in m.(memory) i →
  committed evm vm (value_of m.(past)) m.(memory) i full_tx out.
Proof.
  intros HM Hc [inc mems db slot mem fl db' result mem1 ll ll' Hex Hin Hl Hin1 Hin2 Hll' Hll Hr He Hs _] Hst.
  eapply (committed_intro _ _ _ _ _ _ inc mems db slot mem fl db' result mem1 ll ll'); try done.
  - by eapply ran_history.
  - intros t. eapply mc_before; [exact HM|apply Hin].
  - eapply mc_before; [exact HM|exact Hin2].
  - exact (mc_reach _ _ HM _ Hin1).
  - by eapply not_stale_valid.
Qed.

(** The flags of a run ask for validation, or the run is the first
    transaction or a lazy update. *)
Lemma ran_flags m need i flags out :
  MInv m need → ran m i flags out →
  flags_contains flags NeedValidation = (0 <? i) && negb out.1.
Proof.
  intros HM [inc mems db slot mem fl db' result mem1 ll ll' Hex Hin Hl Hin1 Hin2 Hll' Hll Hr He Hs _].
  exact (ap_need _ _ _ _ _ _ (execute_applied _ _ _ _ _ _ _ _ _ (mc_reach _ _ HM _ Hin1) Hex)).
Qed.

Section final.
Variable K : MemoryLocationHash → loc_kind.
Hypothesis hash_kind : ∀ l, K (hash_deterministic l) = kind_of l.
Hypothesis hash_inj : ∀ l l', hash_deterministic l = hash_deterministic l' → l = l'.
Context (n : nat) (results : list (option PevmTxExecutionResult)) (m : Machine).
Hypothesis Hn : 0 < n.
Hypothesis Hr : machine_reachable n results m.
Hypothesis Hexit : all_exited m.(pool).
Hypothesis Hab : m.(pool).(sched).(aborted) = false.
Hypothesis Hcodes : codes_agree m.(memory).
Hypothesis Hlazy : ∀ i, m.(marks) !! i = Some true →
  validate_read_locations i m.(memory) = Some (true, m.(memory)).

Lemma first_not_stale need flags out :
  MInv m need → ran m 0 flags out → ¬ stale_in m.(memory) 0.
Proof.
  intros HM [inc mems db slot mem fl db' result mem1 ll ll' Hex Hin Hl Hin1 Hin2 Hll' Hll Hrd He Hs _] Hst.
  apply Hst. eapply first_valid; [exact hash_kind|by eapply ran_history| |exact Hex|exact Hll'|exact Hll|exact Hrd].
  done.
Qed.

Lemma settled_runs i :
  i < length vm.(vm_txs) →
  ∃ need flags out, MInv m need ∧ ran m i flags out ∧ ¬ stale_in m.(memory) i.
Proof.
  intros Hi. destruct (machine_invariant n results m Hn Hr Hab) as (need & Hfr & HM).
  destruct (fresh_invariant _ _ _ _ Hn Hfr) as [Hrp _].
  destruct (quiescent_validated _ _ _ Hn Hrp Hexit Hab i Hi) as [inc Ht].
  destruct (mc_live _ _ HM i) as (flags & out & Hran & Hneed).
  { left. eexists. split; [exact Ht|done]. }
  exists need, flags, out. split_and!; [done..|].
  destruct (decide (i = 0)) as [->|Hne]; [by eapply first_not_stale|].
  rewrite (ran_flags _ _ _ _ _ HM Hran) in Hneed. destruct (out.1) eqn:Hout.
  - inversion Hran; subst. simpl in Hout. intros Hst. apply Hst, Hlazy. congruence.
  - eapply (no_stale _ _ _ _ Hn Hfr Hexit Hab i Hi). apply Hneed.
    apply andb_true_iff. split; [|done]. apply Nat.ltb_lt. lia.
Qed.

Lemma ran_slot i flags out :
  ran m i flags out → m.(slots) !! i = Some (Some out.2) ∧ m.(marks) !! i = Some out.1.
Proof. by destruct 1. Qed.

(** What the executions left in the slots, and their lazy-update decisions. *)
Lemma settled_outs :
  ∃ outs : list (bool * PevmTxExecutionResult),
    m.(marks) = outs.*1 ∧ take (length vm.(vm_txs)) m.(slots) = Some <$> outs.*2 ∧
    mem_ok vm.(vm_storage) (value_of m.(past)) m.(memory) ∧
    Forall2 (λ p out, committed evm vm (value_of m.(past)) m.(memory) p.1 p.2 out)
      (imap pair vm.(vm_txs)) outs.
Proof.
  destruct (machine_invariant n results m Hn Hr Hab) as (need & _ & HM).
  destruct (list_of_choices (length vm.(vm_txs)) (λ i (out : bool * PevmTxExecutionResult),
    ∃ need flags, MInv m need ∧ ran m i flags out ∧ ¬ stale_in m.(memory) i)) as (outs & Hlen & Hout).
  { intros i (need' & flags & out & ?)%settled_runs. by exists out, need', flags. }
  assert (∀ i out, outs !! i = Some out →
    m.(slots) !! i = Some (Some out.2) ∧ m.(marks) !! i = Some out.1) as Hsl.
  { intros i out (? & ? & _ & ? & _)%Hout. by eapply ran_slot. }
  exists outs. split_and!.
  - apply (list_eq_same_length _ _ (length outs)); [by rewrite length_fmap|by rewrite (mc_marks _ _ HM)|].
    intros i b b' _ Hb (out & -> & [_ Ho]%Hsl)%list_lookup_fmap_Some. congruence.
  - apply list_eq. intros i. rewrite !list_lookup_fmap.
    destruct (outs !! i) as [out|] eqn:Ho; simpl.
    + apply lookup_lt_Some in Ho as Hi. rewrite lookup_take_lt by lia. by apply Hsl in Ho as [-> _].
    + apply lookup_ge_None in Ho. apply lookup_ge_None. rewrite length_take. lia.
  - eapply past_ok; [exact HM|done|]. eapply mc_now, HM.
  - apply Forall2_same_length_lookup_2; [by rewrite length_imap|].
    intros i [j full_tx] out Hp Ho. rewrite list_lookup_imap in Hp.
    apply fmap_Some in Hp as (tx & _ & [= -> ->]). destruct (Hout _ _ Ho) as (need' & flags & HM' & Hran & Hst).
    by eapply ran_committed.
Qed.
End final.

End machine.

(** ** A run with a conflict

    The block of [Soundness.v] on two workers.  Worker 0 takes transaction 0
    and pauses; worker 1 executes transaction 1, which reads the slot that
    transaction 0 will write, validates it, and looks for more.  Then both
    alternate: transaction 0 is recorded, transaction 1 fails the second
    validation, is turned into estimates and executed again. *)

Module MachineDemo.
#[local] Existing Instances demo_revm demo_alloy demo_order.
Import SoundDemo.

(** Queries see the current memory. *)
Definition now : nat → nat := λ _, 1000.

(** Move worker [w], if it can. *)
Definition go (m : Machine) (w : nat) : Machine := default m (mstep evm vm w now m).

Definition first : Machine :=
  default (mkMachine (init 0 0) mem0 [] [] [] []) (start vm 2 []).
Definition schedule : list nat := replicate 5 0 ++ replicate 15 1 ++ concat (replicate 100 [0; 1]).
Definition final : Machine := foldl go first schedule.

Lemma go_steps l m : rtc (machine_step evm vm) m (foldl go m l).
Proof.
  revert m. induction l as [|w l IH]; intros m; simpl; [apply rtc_refl|].
  etrans; [|apply IH]. unfold go. destruct (mstep _ _ w now m) as [m1|] eqn:Hm; simpl; [|apply rtc_refl].
  apply rtc_once. exists w now; [done|exact Hm].
Qed.

Lemma final_reachable : machine_reachable evm vm 2 [] final.
Proof. exists first. split; [reflexivity|apply go_steps]. Qed.

Definition exited (p : pc) : bool := match p with Exit _ => true | _ => false end.
Lemma exited_all P : forallb exited P.(workers) = true → all_exited P.
Proof.
  intros Hall w p Hw. rewrite forallb_forall in Hall.
  apply list_elem_of_lookup_2, list_elem_of_In, Hall in Hw. destruct p; try done. by eexists.
Qed.

Lemma final_exited : all_exited final.(pool).
Proof. apply exited_all. vm_compute. reflexivity. Qed.

(** Transaction 1 has been executed twice. *)
Lemma final_status : final.(pool).(sched).(transactions_status) =
  [mkTxStatus 0 Validated; mkTxStatus 1 Validated; mkTxStatus 0 Validated].
Proof. vm_compute. reflexivity. Qed.

Lemma final_marks : final.(marks) = [false; false; true].
Proof. vm_compute. reflexivity. Qed.

Lemma final_codes : codes_agree vm final.(memory).
Proof.
  assert (final.(memory).(new_bytecodes) = ∅) as He by (vm_compute; reflexivity).
  intros a h b _. rewrite He, lookup_empty. done.
Qed.

Definition valid_in (i : TxIdx) (mem : MvMemory Bytecode) : bool :=
  match validate_read_locations i mem with Some (b, _) => b | None => false end.
Lemma valid_in_ok i mem : valid_in i mem = true → validate_read_locations i mem = Some (true, mem).
Proof.
  unfold valid_in, validate_read_locations, lock_last_locations. stm_unfold.
  destruct (_ !! i); [|done]. by intros ->.
Qed.

Lemma final_lazy i : final.(marks) !! i = Some true →
  validate_read_locations i final.(memory) = Some (true, final.(memory)).
Proof.
  rewrite final_marks. destruct i as [|[|[|i]]]; try discriminate. intros _. apply valid_in_ok.
  vm_compute. reflexivity.
Qed.

Lemma final_readable i : i < length vm.(vm_txs) → readable st final.(memory) i.
Proof.
  intros Hi. apply SerialDemo.readable_check; [vm_compute; reflexivity|].
  destruct i as [|[|[|i]]]; [vm_compute; reflexivity..|simpl in Hi; lia].
Qed.

Lemma final_answered : SerialDemo.answered final.(memory).
Proof. split; [| | |split|]; vm_compute; reflexivity. Qed.
End MachineDemo.

#[local] Existing Instances demo_revm demo_alloy demo_order.


(** In the same run, transaction 1 asked for validation. *)
Lemma pool_no_stale_witness :
  let m := MachineDemo.final in
  ∃ need : TxIdx → Prop, need 1 ∧ ∀ i, i < 3 → need i → ¬ stale_in m.(memory) i.
Proof.
  destruct (@machine_invariant demo_revm _ _ _ _ ethereum_laws SoundDemo.evm SoundDemo.vm 2 []
    MachineDemo.final (ltac:(lia)) MachineDemo.final_reachable) as (need & Hfr & HM); [vm_compute; reflexivity|].
  exists need. split.
  - destruct (mc_live _ _ _ _ HM 1) as (flags & out & Hran & Hneed).
    { left. exists (mkTxStatus 1 Validated). rewrite MachineDemo.final_status. done. }
    apply Hneed. rewrite (ran_flags (ChainLaws0:=ethereum_laws) _ _ _ _ _ _ _ HM Hran).
    destruct (ran_slot _ _ _ _ _ _ Hran) as [_ Hm]. rewrite MachineDemo.final_marks in Hm.
    injection Hm as <-. reflexivity.
  - exact (pool_no_stale 3 2 MachineDemo.final.(pool) _ (ltac:(lia)) Hfr MachineDemo.final_exited
      (ltac:(vm_compute; reflexivity))).
Defined.
