(* ===== verification/Fetch.v ===== *)
(** * pevm-fetch (src/bins/fetch/src/main.rs)

    The binary downloads a block, executes it once with the sequential
    executor over [RpcStorage], which thereby learns the part of the state
    the block needs, and adds block, state, codes and block hashes to the
    data directory that tests and benchmarks read.

    The EVM over revm's [CacheDB] is a program over the database interface
    that [StorageWrapper] offers; serde, bincode and gzip are parameters;
    every file operation may fail. *)

From S2P Require Import Prelude Uint Types MvMemory Storage Rpc VmDb Validation Lazy Chain Vm Block.

(** ** Programs over a storage *)

Fixpoint evm_bind `{Revm} {A B} (p : evm_prog A) (k : A → evm_prog B) : evm_prog B :=
  match p with
  | EvmDone a => k a
  | EvmBasic a c => EvmBasic a (λ x, evm_bind (c x) k)
  | EvmCodeByHash h c => EvmCodeByHash h (λ x, evm_bind (c x) k)
  | EvmStorage a i c => EvmStorage a i (λ x, evm_bind (c x) k)
  | EvmBlockHash n c => EvmBlockHash n (λ x, evm_bind (c x) k)
  end.

(** Run a program through [StorageWrapper]; an error of the storage ends the
    run. *)
Fixpoint run_ref `{Revm} {S R} `{!Storage S} (st : S) (p : evm_prog R) : result Storage.Error R :=
  match p with
  | EvmDone r => Ok r
  | EvmBasic a k => let? x := basic_ref st a in run_ref st (k x)
  | EvmCodeByHash h k => let? x := code_by_hash_ref st h in run_ref st (k x)
  | EvmStorage a i k => let? x := storage_ref st a i in run_ref st (k x)
  | EvmBlockHash n k => let? x := block_hash_ref st n in run_ref st (k x)
  end.

Lemma run_ref_bind `{Revm} {S A B} `{!Storage S} (st : S) (p : evm_prog A) (k : A → evm_prog B) :
  run_ref st (evm_bind p k) = let? x := run_ref st p in run_ref st (k x).
Proof.
  induction p as [r|a c IH|h c IH|a i c IH|n c IH]; simpl; [done|..];
    (match goal with |- and_then ?m _ = _ => destruct m as [x|e]; simpl; [apply IH|done] end).
Qed.

Section rpc_programs.
Context `{Provider}.

(** [StorageWrapper] over [RpcStorage]. *)
Definition rpc_basic_ref (address : Address) : rpcm (option AccountInfo) :=
  try? b := rpc_basic address in
  match b with
  | None => try_ret None
  | Some b =>
      try? ch := rpc_code_hash address in
      try? code := match ch with
                   | Some h => try? c := rpc_code_by_hash h in try_ret (bytecode_from_evm_code <$> c)
                   | None => try_ret None
                   end in
      try_ret (Some (mkAccountInfo _ b.(ab_balance) b.(ab_nonce) (default KECCAK_EMPTY ch) code))
  end.

Definition rpc_code_by_hash_ref (h : B256) : rpcm Bytecode :=
  try? c := rpc_code_by_hash h in
  try_ret (default bytecode_default (bytecode_from_evm_code <$> c)).

Fixpoint rpc_run {R} (p : evm_prog R) : rpcm R :=
  match p with
  | EvmDone r => try_ret r
  | EvmBasic a k => try? x := rpc_basic_ref a in rpc_run (k x)
  | EvmCodeByHash h k => try? x := rpc_code_by_hash_ref h in rpc_run (k x)
  | EvmStorage a i k => try? x := rpc_storage a i in rpc_run (k x)
  | EvmBlockHash n k => try? x := rpc_block_hash n in rpc_run (k x)
  end.

(** *** Cached accounts carry no code of their own *)

Definition no_inline (s : RpcStorage) : Prop :=
  ∀ a account, s.(cache_accounts) !! a = Some account → account.(ea_code) = None.

Definition keeps {A} (m : rpcm A) : Prop :=
  ∀ s r s', m s = Some (r, s') → no_inline s → no_inline s'.

Lemma keeps_ret {A} (x : A) : keeps (try_ret x).
Proof. by intros s r s' [= _ <-]. Qed.

Lemma keeps_bind {A B} (m : rpcm A) (k : A → rpcm B) :
  keeps m → (∀ x, keeps (k x)) → keeps (try_bind m k).
Proof.
  intros Hm Hk s r s'. unfold try_bind. destruct (m s) as [[[x|e] s1]|] eqn:Hs; [|intros [= _ <-]|done].
  - intros Hr Hn. eapply Hk; [exact Hr|]. by eapply Hm.
  - by eapply Hm.
Qed.

Lemma keeps_fetch {T} (request : nat → nat → result TransportError T) : keeps (fetch request).
Proof. by intros s r s' [= _ <-]. Qed.

Lemma no_inline_insert s a b n ch st :
  no_inline s → no_inline (set_cache_accounts (<[a := mkEvmAccount _ b n ch None st]> s.(cache_accounts)) s).
Proof.
  intros Hn a' account. simpl. rewrite lookup_insert_Some. intros [[_ <-]|[_ ?]]; [done|by eapply Hn].
Qed.

Lemma keeps_basic a : keeps (rpc_basic a).
Proof.
  intros s r s'. unfold rpc_basic. destruct (cache_accounts s !! a) as [account|]; [by intros [= _ <-]|].
  revert s r s'. apply keeps_bind; [by intros s r s' [= _ <-]|]. intros [[nonce balance] code] s r s'.
  destruct (_ && _ && _ && _); [by intros [= _ <-]|]. simpl. destruct (bytecode_is_empty _).
  - intros [= _ <-]. apply no_inline_insert.
  - destruct (evm_code_from_bytecode _) as [c|]; [|done]. intros [= _ <-] Hn.
    by apply (no_inline_insert (set_cache_bytecodes _ s)).
Qed.

Lemma keeps_code_hash a : keeps (rpc_code_hash a).
Proof. apply keeps_bind; [apply keeps_basic|]. by intros _ s r s' [= _ <-]. Qed.

Lemma keeps_storage a i : keeps (rpc_storage a i).
Proof.
  intros s r s'. unfold rpc_storage. destruct (_ ≫= _) as [x|]; [by intros [= _ <-]|].
  revert s r s'. apply keeps_bind; [apply keeps_fetch|]. intros x.
  apply keeps_bind; [apply keeps_basic|]. intros _ s r s' [= _ <-] Hn. unfold cache_slot.
  destruct (cache_accounts s !! a) as [account|] eqn:Ha; [|done].
  rewrite (Hn _ _ Ha). by apply no_inline_insert.
Qed.

Lemma keeps_block_hash n : keeps (rpc_block_hash n).
Proof.
  intros s r s'. unfold rpc_block_hash. destruct (_ !! n); [by intros [= _ <-]|].
  revert s r s'. apply keeps_bind; [apply keeps_fetch|]. intros [h|] s r s'; [by intros [= _ <-]|done].
Qed.

Lemma keeps_run {A} (p : evm_prog A) : keeps (rpc_run p).
Proof.
  induction p as [x|a k IH|h k IH|a i k IH|n k IH]; simpl.
  - apply keeps_ret.
  - apply keeps_bind; [|done]. apply keeps_bind; [apply keeps_basic|]. intros [b|]; [|apply keeps_ret].
    apply keeps_bind; [apply keeps_code_hash|]. intros ch. apply keeps_bind; [|intros; apply keeps_ret].
    destruct ch; [|apply keeps_ret]. by intros s r s' [= _ <-].
  - apply keeps_bind; [by intros s r s' [= _ <-]|done].
  - apply keeps_bind; [apply keeps_storage|done].
  - apply keeps_bind; [apply keeps_block_hash|done].
Qed.

(** *** Replay *)

(** A program that asks for a code by hash only after it was given an account
    with that hash and its code; [known] are the hashes so far. *)
Fixpoint asks_known {R} (known : gset B256) (p : evm_prog R) : Prop :=
  match p with
  | EvmDone _ => True
  | EvmBasic a k => ∀ x, asks_known
      (match x with
       | Some i => match i.(info_code) with Some _ => {[ i.(info_code_hash) ]} ∪ known | None => known end
       | None => known
       end) (k x)
  | EvmCodeByHash h k => h ∈ known ∧ ∀ x, asks_known known (k x)
  | EvmStorage _ _ k => ∀ x, asks_known known (k x)
  | EvmBlockHash _ k => ∀ x, asks_known known (k x)
  end.

Lemma asks_known_bind {A B} (p : evm_prog A) (k : A → evm_prog B) known :
  asks_known known p → (∀ x known', known ⊆ known' → asks_known known' (k x)) →
  asks_known known (evm_bind p k).
Proof.
  revert known. induction p as [r|a c IH|h c IH|a i c IH|n c IH]; simpl; intros known Hp Hk; eauto.
  - intros x. apply IH; [done|]. intros y known' Hsub. apply Hk.
    destruct x as [[? ? ? [?|]]|]; simpl in *; set_solver.
  - destruct Hp as [Hh Hp]. split; [done|]. intros x. by apply IH.
Qed.

Variable R : Remote.
Context `{!Honest R, !BytecodeLaws}.
(** Accounts that do not exist have no storage; codes do not collide. *)
Hypothesis no_storage : ∀ a i, remote_basic R a = None → R.(r_slot) a i = 0%N.
Hypothesis hash_slow_inj : Inj (=) (=) hash_slow.

Lemma same_code s s' h c c' :
  cache_ok R s → cache_ok R s' →
  s.(cache_bytecodes) !! h = Some c → s'.(cache_bytecodes) !! h = Some c' → c = c'.
Proof.
  intros Hs Hs' Hc Hc'.
  destruct (co_bytecodes _ _ Hs _ _ Hc) as (a & Ha & Hca), (co_bytecodes _ _ Hs' _ _ Hc') as (a' & Ha' & Hca').
  assert (new_raw (R.(r_code) a) = new_raw (R.(r_code) a')) by (apply hash_slow_inj; congruence).
  congruence.
Qed.

(** What a query leaves behind for the rest of the run and for the replay. *)
Definition leaves {A} (m : rpcm A) (answer : InMemoryStorage → result (Storage.Error (S:=InMemoryStorage)) A)
    (Q : A → RpcStorage → Prop) (P : RpcStorage → Prop) : Prop :=
  ∀ s x s', cache_ok R s → P s → m s = Some (Ok x, s') →
    cache_ok R s' ∧ grows s s' ∧ Q x s' ∧
    ∀ s'' im, cache_ok R s'' → grows s' s'' → covers im s'' → answer im = Ok x.

Definition cached (known : gset B256) (s : RpcStorage) : Prop := known ⊆ dom s.(cache_bytecodes).

Lemma cached_grows known s s' : grows s s' → cached known s → cached known s'.
Proof. intros Hg Hk. unfold cached. etrans; [exact Hk|apply (gr_bytecodes _ _ Hg)]. Qed.

Lemma code_lookup s s' im h c :
  cache_ok R s → cache_ok R s' → grows s s' → covers im s' →
  s.(cache_bytecodes) !! h = Some c → Storage.code_by_hash im h = Ok (Some c).
Proof.
  intros Hs Hs' Hg Hc Hh. simpl. f_equal.
  assert (is_Some (s'.(cache_bytecodes) !! h)) as [c' Hc'].
  { apply elem_of_dom, (gr_bytecodes _ _ Hg), elem_of_dom. eauto. }
  rewrite (same_code _ _ _ _ _ Hs Hs' Hh Hc'). by eapply lookup_weaken, cv_bytecodes.
Qed.

(** The code of an account comes from the cache. *)
Definition code_cached (x : option AccountInfo) (s : RpcStorage) : Prop :=
  match x with
  | Some i => is_Some i.(info_code) → is_Some (s.(cache_bytecodes) !! i.(info_code_hash))
  | None => True
  end.

Lemma rpc_basic_ref_leaves a :
  leaves (rpc_basic_ref a) (λ im, basic_ref im a) code_cached (λ _, True).
Proof.
  intros s x s' Hs _ (b & s1 & Hb & Hx)%try_bind_Ok.
  destruct (answers_inv _ _ _ _ _ _ _ _ (rpc_basic_answers R a) Hs Hb) as (_ & Hs1 & Hg1 & _).
  destruct b as [b|].
  2: { injection Hx as <- <-. split_and!; [done..|]. intros s'' im Hs'' Hg Hc.
    unfold basic_ref. by rewrite (basic_replays R s s1 s'' im Hs Hs'' Hg Hc _ _ Hb). }
  apply try_bind_Ok in Hx as (ch & s2 & Hch & Hx).
  destruct (answers_inv _ _ _ _ _ _ _ _ (rpc_code_hash_answers R a) Hs1 Hch)
    as (Hr & Hs2 & Hg2 & _ & Hcode).
  apply try_bind_Ok in Hx as (code & s3 & Hc3 & Hx). injection Hx as <- <-.
  assert (s3 = s2 ∧ code = (h ← ch; bytecode_from_evm_code <$> s2.(cache_bytecodes) !! h)) as [-> ->].
  { destruct ch as [h|]; [|by injection Hc3 as <- <-].
    apply try_bind_Ok in Hc3 as (c & s4 & Hc4 & Hc5). injection Hc5 as <- <-.
    by injection Hc4 as <- <-. }
  split_and!; [done|by etrans| |].
  { destruct ch as [h|]; simpl; [intros _; by apply Hcode|by intros []]. }
  intros s'' im Hs'' Hg Hc. unfold basic_ref. assert (grows s1 s'') as Hg1' by (by etrans).
  rewrite (basic_replays R s s1 s'' im Hs Hs'' Hg1' Hc _ _ Hb). cbn [and_then].
  rewrite (code_hash_replays R s1 s2 s'' im Hs1 Hs'' Hg Hc _ _ Hch). cbn [and_then].
  destruct ch as [h|]; [|done]. destruct (Hcode h) as [c Hh]; [done|].
  rewrite (code_lookup s2 s'' im h c Hs2 Hs'' Hg Hc Hh). simpl. by rewrite Hh.
Qed.

Lemma rpc_code_by_hash_ref_leaves h :
  leaves (rpc_code_by_hash_ref h) (λ im, code_by_hash_ref im h) (λ _ _, True)
    (λ s, is_Some (s.(cache_bytecodes) !! h)).
Proof.
  intros s x s' Hs [c Hh] [= <- <-]. split_and!; [done..|]. intros s'' im Hs'' Hg Hc.
  unfold code_by_hash_ref. rewrite (code_lookup s s'' im h c Hs Hs'' Hg Hc Hh). simpl. by rewrite Hh.
Qed.

Lemma rpc_storage_leaves a i :
  leaves (rpc_storage a i) (λ im, storage_ref im a i) (λ _ _, True) (λ _, True).
Proof.
  intros s x s' Hs _ Hx.
  destruct (answers_inv _ _ _ _ _ _ _ _ (rpc_storage_answers R a i) Hs Hx) as (_ & ? & ? & _).
  split_and!; [done..|]. intros s'' im Hs'' Hg Hc. by apply (storage_replays R s s' s''); auto.
Qed.

Lemma rpc_block_hash_leaves n :
  leaves (rpc_block_hash n) (λ im, block_hash_ref im n) (λ _ _, True) (λ _, True).
Proof.
  intros s x s' Hs _ Hx.
  destruct (answers_inv _ _ _ _ _ _ _ _ (rpc_block_hash_answers R n) Hs Hx) as (_ & ? & ? & _).
  split_and!; [done..|]. intros s'' im Hs'' Hg Hc. by apply (block_hash_replays R s s' s'').
Qed.

(** One query, then the rest of the run. *)
Lemma leaves_bind {A B} (m : rpcm A) (k : A → rpcm B) answer
    (rest : A → InMemoryStorage → result (Storage.Error (S:=InMemoryStorage)) B) Q P s y s' :
  leaves m answer Q P → cache_ok R s → P s →
  (∀ x s1, cache_ok R s1 → grows s s1 → Q x s1 → k x s1 = Some (Ok y, s') →
    cache_ok R s' ∧ grows s1 s' ∧ ∀ s'' im, cache_ok R s'' → grows s' s'' → covers im s'' → rest x im = Ok y) →
  try_bind m k s = Some (Ok y, s') →
  cache_ok R s' ∧ grows s s' ∧ ∀ s'' im, cache_ok R s'' → grows s' s'' → covers im s'' →
    and_then (answer im) (λ x, rest x im) = Ok y.
Proof.
  intros Hm Hs HP Hk (x & s1 & Hx & Hy)%try_bind_Ok.
  destruct (Hm _ _ _ Hs HP Hx) as (Hs1 & Hg1 & HQ & Hans).
  destruct (Hk _ _ Hs1 Hg1 HQ Hy) as (Hs' & Hg' & Hrest).
  split_and!; [done|by etrans|]. intros s'' im Hs'' Hg Hc.
  rewrite (Hans s'' im); [|done|by etrans|done]. simpl. eauto.
Qed.

(** Whatever a program computed over [RpcStorage], it computes again over any
    in-memory storage that covers the caches. *)
Lemma rpc_run_replays {A} (p : evm_prog A) known s r s' :
  asks_known known p → cached known s → cache_ok R s → rpc_run p s = Some (Ok r, s') →
  cache_ok R s' ∧ grows s s' ∧
  ∀ s'' im, cache_ok R s'' → grows s' s'' → covers im s'' → run_ref im p = Ok r.
Proof.
  revert known s r s'. induction p as [x|a k IH|h k IH|a i k IH|n k IH]; simpl; intros known s r s' Hask Hk Hs.
  - intros [= <- <-]. by split_and!.
  - apply (leaves_bind _ _ _ (λ x im, run_ref im (k x)) _ _ _ _ _ (rpc_basic_ref_leaves a) Hs I).
    intros x s1 Hs1 Hg1 Hcode Hx. refine (IH x _ _ _ _ (Hask x) _ Hs1 Hx).
    apply (cached_grows _ _ _ Hg1) in Hk. destruct x as [i|]; [|done]. simpl in Hcode.
    destruct (info_code i); [|done]. intros h [->%elem_of_singleton|?]%elem_of_union; [|by apply Hk].
    apply elem_of_dom, Hcode. eauto.
  - destruct Hask as [Hh Hask].
    apply (leaves_bind _ _ _ (λ x im, run_ref im (k x)) _ _ _ _ _ (rpc_code_by_hash_ref_leaves h) Hs).
    { by apply elem_of_dom, Hk. }
    intros x s1 Hs1 Hg1 _ Hx. exact (IH x _ _ _ _ (Hask x) (cached_grows _ _ _ Hg1 Hk) Hs1 Hx).
  - apply (leaves_bind _ _ _ (λ x im, run_ref im (k x)) _ _ _ _ _ (rpc_storage_leaves a i) Hs I).
    intros x s1 Hs1 Hg1 _ Hx. exact (IH x _ _ _ _ (Hask x) (cached_grows _ _ _ Hg1 Hk) Hs1 Hx).
  - apply (leaves_bind _ _ _ (λ x im, run_ref im (k x)) _ _ _ _ _ (rpc_block_hash_leaves n) Hs I).
    intros x s1 Hs1 Hg1 _ Hx. exact (IH x _ _ _ _ (Hask x) (cached_grows _ _ _ Hg1 Hk) Hs1 Hx).
Qed.
End rpc_programs.

(** ** The sequential executor over a storage *)

Section executor.
Context `{Revm} {C : Type} `{!PevmChain C}.
Abbreviation Error := (PevmError BlockSpecError TransactionParsingError) (only parsing).

(** revm's [CacheDB] and the EVM over it, as a program over the database
    below the cache. *)
Class CacheEvm : Type := {
  CacheDB : Type;
  cache_new : CacheDB;
  transact : CfgEnv EvmSpecId → BlockEnv → CacheDB → EvmTx
    → evm_prog (result string (ExecutionResult * EvmState * CacheDB));
  commit : EvmState → CacheDB → CacheDB;
}.
Context `{CacheEvm}.

(** [execute_revm_sequential] with the queries left open. *)
Fixpoint sequential_prog (cfg : CfgEnv EvmSpecId) (benv : BlockEnv) (eip_161 : bool) (db : CacheDB)
    (cumulative_gas_used : N) (txs : list EvmTx)
    : evm_prog (option (result Error (list PevmTxExecutionResult))) :=
  match txs with
  | [] => EvmDone (Some (Ok []))
  | tx :: txs' => evm_bind (transact cfg benv db tx) (λ r,
      match r with
      | Err message => EvmDone (Some (Err (PevmExecutionError (EvmOther message))))
      | Ok (r, state, db) =>
          match state_transitions_from_revm eip_161 state with
          | None => EvmDone None
          | Some transitions =>
              let gas := saturating_add u64_max cumulative_gas_used r.(tx_gas_used) in
              let result := set_cumulative_gas gas
                (mkTxResult _ (receipt_from_revm r) (list_to_map (rev transitions))) in
              evm_bind (sequential_prog cfg benv eip_161 (commit state db) gas txs') (λ rs,
                EvmDone match rs with
                        | Some (Ok results) => Some (Ok (result :: results))
                        | r => r
                        end)
          end
      end)
  end.

(** The EVM over a storage; an error of the storage is printed. *)
Definition transact_on {S} `{!Storage S} (st : S) (cfg : CfgEnv EvmSpecId) (benv : BlockEnv)
    (db : CacheDB) (tx : EvmTx) : result string (ExecutionResult * EvmState * CacheDB) :=
  match run_ref st (transact cfg benv db tx) with
  | Ok r => r
  | Err e => Err (error_to_string e)
  end.

(** Run on a storage that answers, the program is the sequential executor. *)
Lemma sequential_prog_run (st : InMemoryStorage) cfg benv eip_161 db gas txs :
  run_ref st (sequential_prog cfg benv eip_161 db gas txs)
  = Ok (sequential_from CacheDB (transact_on st cfg benv) commit eip_161 db gas txs).
Proof.
  revert db gas. induction txs as [|tx txs IH]; intros db gas; [done|]. simpl.
  rewrite run_ref_bind. unfold transact_on at 1.
  destruct (run_ref st (transact cfg benv db tx)) as [[[[r state] db']|m]|[]]; [|done]. simpl.
  destruct (state_transitions_from_revm eip_161 state) as [tr|]; [|done].
  rewrite run_ref_bind, IH. simpl. by destruct (sequential_from _ _ _ _ _ _ _) as [[?|?]|].
Qed.
End executor.
Arguments CacheEvm {_} C {_}.

(** ** The data directory *)

(** [{data_dir}/bytecodes.bincode.gz], [{data_dir}/block_hashes.bincode],
    [{data_dir}/blocks/{n}/block.json], [{data_dir}/blocks/{n}/pre_state.json] *)
Inductive file : Type :=
  | BytecodesGz
  | BlockHashesBincode
  | BlockJson (n : N)
  | PreStateJson (n : N).

#[export] Instance file_eq_dec : EqDecision file.
Proof. solve_decision. Defined.

#[export] Instance file_countable : Countable file.
Proof.
  refine (inj_countable' (λ f, match f with
    | BytecodesGz => inl true | BlockHashesBincode => inl false
    | BlockJson n => inr (inl n) | PreStateJson n => inr (inr n) end)
  (λ x, match x with
    | inl true => BytecodesGz | inl false => BlockHashesBincode
    | inr (inl n) => BlockJson n | inr (inr n) => PreStateJson n end) _). by intros [].
Defined.

(** A file of a data directory. *)
Abbreviation path := (string * file)%type (only parsing).

Section fetch.
Context `{Revm, SpecOrder} {C : Type} `{!PevmChain C, !CacheEvm C}.
Abbreviation Error := (PevmError BlockSpecError TransactionParsingError) (only parsing).

Record Block : Type := mkBlock {
  block_header : Header;
  (** [None]: hashes only *)
  block_transactions : option (list Transaction);
}.

(** serde, bincode and gzip *)
Class Serde : Type := {
  Data : Type;
  bytecodes_to : Bytecodes → Data;
  bytecodes_from : Data → option Bytecodes;
  hashes_to : BlockHashes → Data;
  hashes_from : Data → option BlockHashes;
  block_to : Block → Data;
  block_from : Data → option Block;
  state_to : ChainState → Data;
  state_from : Data → option ChainState;
}.
Context `{Serde}.
Abbreviation Disk := (gmap path Data) (only parsing).

(** Which file operations work; an interrupted write leaves something. *)
Record FileSystem : Type := mkFileSystem {
  can_mkdir : string → N → bool;
  can_open : path → bool;
  can_create : path → bool;
  can_write : path → bool;
  partial_write : path → Data → Data;
}.

(** The node, at any block. *)
Class Node {BlockId : Type} : Type := {
  get_block : BlockId → result unit (option Block);
  provider_at : SpecId → N → Provider;
}.
Context {BlockId : Type} `{!Node (BlockId:=BlockId)}.

(** One constructor per [context] and [eyre!] of [run]. *)
Inductive FetchError : Type :=
  | FetchFailed
  | NoBlock
  | SpecFailed (e : BlockSpecError)
  | ExecuteFailed
  | MkdirFailed
  | CreateFailed (f : file)
  | WriteFailed (f : file)
  | DeserializeFailed (f : file)
  | NoCodeHash (address : Address).

Variable fs : FileSystem.

Definition create_dir_all (data_dir : string) (n : N) : stm Disk (result FetchError unit) :=
  if fs.(can_mkdir) data_dir n then try_ret tt else throw MkdirFailed.

(** [File::create] truncates; then the writer runs. *)
Definition write_file (p : path) (x : Data) : stm Disk (result FetchError unit) := λ disk,
  if fs.(can_create) p then
    if fs.(can_write) p then Some (Ok tt, <[p := x]> disk)
    else Some (Err (WriteFailed p.2), <[p := fs.(partial_write) p x]> disk)
  else Some (Err (CreateFailed p.2), disk).

Definition open_file (p : path) (disk : Disk) : option Data :=
  if fs.(can_open) p then disk !! p else None.

(** An accumulated map; a file that cannot be opened counts as empty. *)
Definition read_map {M} `{Empty M} (p : path) (from : Data → option M)
    : stm Disk (result FetchError M) := λ disk,
  match open_file p disk with
  | Some x => match from x with
              | Some m => Some (Ok m, disk)
              | None => Some (Err (DeserializeFailed p.2), disk)
              end
  | None => Some (Ok ∅, disk)
  end.

(** [for (address, mut account) in chainstate]; [assert_ne!] panics. *)
Fixpoint collect_state (chainstate : list (Address * EvmAccount)) (state : ChainState)
    (bytecodes : Bytecodes) : stm Disk (result FetchError (ChainState * Bytecodes)) :=
  match chainstate with
  | [] => try_ret (state, bytecodes)
  | (address, account) :: rest =>
      match account.(ea_code) with
      | Some code =>
          match account.(ea_code_hash) with
          | None => throw (NoCodeHash address)
          | Some code_hash =>
              if decide (code_hash = KECCAK_EMPTY) then stm_stuck
              else collect_state rest
                (<[address := mkEvmAccount _ account.(ea_balance) account.(ea_nonce)
                    account.(ea_code_hash) None account.(ea_storage)]> state)
                (<[code_hash := code]> bytecodes)
          end
      | None => collect_state rest (<[address := account]> state) bytecodes
      end
  end.

(** [run] once the block has been executed; [extend] prefers the new
    entries. *)
Definition write_snapshot (data_dir : string) (block : Block) (storage : RpcStorage)
    : stm Disk (result FetchError unit) :=
  let n := block.(block_header).(h_number) in
  try? _ := create_dir_all data_dir n in
  try? _ := write_file (data_dir, BlockJson n) (block_to block) in
  try? bytecodes := read_map (data_dir, BytecodesGz) bytecodes_from in
  let '(chainstate, cached_bytecodes, cached_block_hashes) := into_snapshot storage in
  try? x := collect_state (map_to_list chainstate) ∅ (cached_bytecodes ∪ bytecodes) in
  let '(state, bytecodes) := x in
  try? _ := write_file (data_dir, BytecodesGz) (bytecodes_to bytecodes) in
  try? _ := write_file (data_dir, PreStateJson n) (state_to state) in
  try? block_hashes := read_map (data_dir, BlockHashesBincode) hashes_from in
  let block_hashes := cached_block_hashes ∪ block_hashes in
  if decide (block_hashes = ∅) then try_ret tt
  else write_file (data_dir, BlockHashesBincode) (hashes_to block_hashes).

(** [Pevm::execute] with one worker and [force_sequential], over
    [RpcStorage]. *)
Definition rpc_execute (p : Provider) (chain : C) (block : Block)
    : stm RpcStorage (result TransportError (option (result Error (list PevmTxExecutionResult)))) :=
  match dispatch chain block.(block_header) block.(block_transactions) 1 true with
  | Err e => try_ret (Some (Err e))
  | Ok (RunSequential spec_id benv txs) => rpc_run
      (sequential_prog (build_cfg chain spec_id) benv (is_eip_161_enabled chain spec_id) cache_new 0 txs)
  | Ok (RunParallel _ _ _) => stm_stuck
  end.

Definition run (chain : C) (block_id : BlockId) (data_dir : string)
    : stm Disk (result FetchError unit) :=
  match get_block block_id with
  | Err _ => throw FetchFailed
  | Ok None => throw NoBlock
  | Ok (Some block) =>
      match get_block_spec chain block.(block_header) with
      | Err e => throw (SpecFailed e)
      | Ok spec_id =>
          let n := block.(block_header).(h_number) in
          (* [block.header.number - 1] *)
          if (n =? 0)%N then stm_stuck else
          match rpc_execute (provider_at (into_spec_id spec_id) (n - 1)) chain block Rpc.new with
          | Some (Ok (Some (Ok _)), storage) => write_snapshot data_dir block storage
          | Some (Ok (Some (Err _)), _) | Some (Err _, _) => throw ExecuteFailed
          | Some (Ok None, _) | None => stm_stuck
          end
      end
  end.

(** ** What [run] does *)

Implicit Types (dir : string) (block : Block) (storage : RpcStorage) (disk : Disk) (e : FetchError).

Lemma write_file_inv (p : path) (x : Data) (disk : Disk) (r : result FetchError unit) (disk' : Disk) :
  write_file p x disk = Some (r, disk') →
  (r = Ok tt ∧ disk' = <[p := x]> disk) ∨
  (r = Err (CreateFailed p.2) ∧ disk' = disk) ∨
  (r = Err (WriteFailed p.2) ∧ ∃ y, disk' = <[p := y]> disk).
Proof.
  unfold write_file. destruct (can_create fs p), (can_write fs p); intros [= <- <-]; eauto 7.
Qed.

(** What an accumulated file holds. *)
Definition held {M} `{Empty M} (p : path) (from : Data → option M) (disk : Disk) : option M :=
  match open_file p disk with Some x => from x | None => Some ∅ end.

Lemma read_map_inv {M} `{Empty M} (p : path) (from : Data → option M) (disk : Disk)
    (r : result FetchError M) (disk' : Disk) :
  read_map p from disk = Some (r, disk') →
  disk' = disk ∧ match r with
                 | Ok m => held p from disk = Some m
                 | Err e => e = DeserializeFailed p.2 ∧ held p from disk = None
                 end.
Proof.
  unfold read_map, held. destruct (open_file p disk) as [x|]; [|by intros [= <- <-]].
  destruct (from x) eqn:Hx; by intros [= <- <-].
Qed.

Lemma collect_state_no_inline (l : list (Address * EvmAccount)) (state : ChainState) (codes : Bytecodes) (disk : Disk) :
  (∀ a account, (a, account) ∈ l → account.(ea_code) = None) →
  collect_state l state codes disk
  = Some (Ok (foldl (λ m '(a, account), <[a := account]> m) state l, codes), disk).
Proof.
  revert state. induction l as [|[a account] l IH]; intros state Hl; [done|]. simpl.
  rewrite (Hl a account) by (by left). apply IH. intros a' account' ?. apply (Hl a'). by right.
Qed.

Lemma foldl_insert_list_to_map (l : list (Address * EvmAccount)) (m : ChainState) :
  NoDup l.*1 → foldl (λ m '(a, account), <[a := account]> m) m l = list_to_map l ∪ m.
Proof.
  revert m. induction l as [|[a account] l IH]; intros m; csimpl; [by rewrite (left_id_L ∅ _)|].
  intros [Ha Hnd]%NoDup_cons. rewrite IH by done.
  rewrite <-insert_union_l, insert_union_r; [done|]. by apply not_elem_of_list_to_map_1.
Qed.

Lemma collect_state_map (m : ChainState) (codes : Bytecodes) (disk : Disk) :
  (∀ a account, m !! a = Some account → account.(ea_code) = None) →
  collect_state (map_to_list m) ∅ codes disk = Some (Ok (m, codes), disk).
Proof.
  intros Hm. rewrite collect_state_no_inline.
  - rewrite foldl_insert_list_to_map by apply NoDup_fst_map_to_list.
    by rewrite list_to_map_to_list, (right_id_L ∅ _).
  - intros a account Ha%elem_of_map_to_list. eauto.
Qed.

(** The data directory after a successful run. *)
Definition snapshot_disk (dir : string) (block : Block) (storage : RpcStorage) (codes : Bytecodes)
    (hashes : BlockHashes) (disk : Disk) : Disk :=
  let n := block.(block_header).(h_number) in
  let hashes := storage.(cache_block_hashes) ∪ hashes in
  let disk := <[(dir, PreStateJson n) := state_to storage.(cache_accounts)]>
    (<[(dir, BytecodesGz) := bytecodes_to (storage.(cache_bytecodes) ∪ codes)]>
      (<[(dir, BlockJson n) := block_to block]> disk)) in
  if decide (hashes = ∅) then disk else <[(dir, BlockHashesBincode) := hashes_to hashes]> disk.

(** What a failed run leaves alone: all files of other blocks and
    directories, and the accumulated files unless writing them failed. *)
Record intact (dir : string) (block : Block) (storage : RpcStorage) (e : FetchError)
    (disk disk' : Disk) : Prop := {
  in_other p : p.1 ≠ dir ∨ (∃ n, n ≠ block.(block_header).(h_number) ∧
      (p.2 = BlockJson n ∨ p.2 = PreStateJson n)) → disk' !! p = disk !! p;
  in_codes : disk' !! (dir, BytecodesGz) = disk !! (dir, BytecodesGz) ∨ e = WriteFailed BytecodesGz ∨
    ∃ codes, held (dir, BytecodesGz) bytecodes_from disk = Some codes ∧
      disk' !! (dir, BytecodesGz) = Some (bytecodes_to (storage.(cache_bytecodes) ∪ codes));
  in_hashes : disk' !! (dir, BlockHashesBincode) = disk !! (dir, BlockHashesBincode) ∨
    e = WriteFailed BlockHashesBincode;
  in_code_hash a : e ≠ NoCodeHash a;
}.

(** A write to a file of the block, or to the accumulated files. *)
Lemma intact_refl dir block storage e disk :
  (∀ a, e ≠ NoCodeHash a) → intact dir block storage e disk disk.
Proof. by split; auto. Qed.

Lemma held_insert_ne {M} `{Empty M} (p q : path) (x : Data) (from : Data → option M) (disk : Disk) :
  p ≠ q → held p from (<[q := x]> disk) = held p from disk.
Proof. intros Hne. unfold held, open_file. by rewrite lookup_insert_ne by done. Qed.

(** Simplify lookups in a disk with concrete files. *)
Ltac disk_simpl := repeat (rewrite lookup_insert_eq || (rewrite lookup_insert_ne by naive_solver)).

Ltac intact_solve :=
  split; [intros [? ?] [?|(? & ? & [?|?])]; simplify_eq/=; disk_simpl; done
         |disk_simpl; eauto 6|disk_simpl; eauto|done].

Lemma write_snapshot_inv dir block storage (disk : Disk) (r : result FetchError unit) (disk' : Disk) :
  no_inline storage → write_snapshot dir block storage disk = Some (r, disk') →
  match r with
  | Ok _ => ∃ codes hashes, held (dir, BytecodesGz) bytecodes_from disk = Some codes ∧
      held (dir, BlockHashesBincode) hashes_from disk = Some hashes ∧
      disk' = snapshot_disk dir block storage codes hashes disk
  | Err e => intact dir block storage e disk disk'
  end.
Proof.
  intros Hn. unfold write_snapshot, create_dir_all. set (n := h_number (block_header block)).
  unfold try_bind at 1. destruct (can_mkdir fs dir n); [|intros [= <- <-]; by apply intact_refl]. simpl.
  unfold try_bind at 1. destruct (write_file (dir, BlockJson n) _ _) as [[w1 d1]|] eqn:Hw1; [|done].
  apply write_file_inv in Hw1 as [[-> ->]|[[-> ->]|[-> [y ->]]]]; [|intros [= <- <-]; intact_solve..].
  unfold try_bind at 1. destruct (read_map (dir, BytecodesGz) _ _) as [[[codes|e] d2]|] eqn:Hr2; [..|done].
  2: { apply read_map_inv in Hr2 as [-> [-> _]]. intros [= <- <-]. intact_solve. }
  apply read_map_inv in Hr2 as [-> Hr2]. rewrite held_insert_ne in Hr2 by done.
  unfold try_bind at 1. simpl. rewrite collect_state_map by done.
  unfold try_bind at 1. destruct (write_file (dir, BytecodesGz) _ _) as [[w3 d3]|] eqn:Hw3; [|done].
  apply write_file_inv in Hw3 as [[-> ->]|[[-> ->]|[-> [y ->]]]]; [|intros [= <- <-]; intact_solve..].
  unfold try_bind at 1. destruct (write_file (dir, PreStateJson n) _ _) as [[w4 d4]|] eqn:Hw4; [|done].
  apply write_file_inv in Hw4 as [[-> ->]|[[-> ->]|[-> [y ->]]]]; [|intros [= <- <-]; intact_solve..].
  unfold try_bind at 1.
  destruct (read_map (dir, BlockHashesBincode) _ _) as [[[hashes|e] d5]|] eqn:Hr5; [..|done].
  2: { apply read_map_inv in Hr5 as [-> [-> _]]. intros [= <- <-]. intact_solve. }
  apply read_map_inv in Hr5 as [-> Hr5]. rewrite !held_insert_ne in Hr5 by done.
  assert (∀ d, d = snapshot_disk dir block storage codes hashes disk →
    ∃ codes hashes, held (dir, BytecodesGz) bytecodes_from disk = Some codes ∧
      held (dir, BlockHashesBincode) hashes_from disk = Some hashes ∧
      d = snapshot_disk dir block storage codes hashes disk) as Hok by eauto.
  unfold snapshot_disk in Hok at 1. fold n in Hok. cbv zeta in Hok.
  destruct (decide (cache_block_hashes storage ∪ hashes = ∅)) as [Hz|].
  { intros [= <- <-]. apply Hok. done. }
  intros Hw6. apply write_file_inv in Hw6 as [[-> ->]|[[-> ->]|[-> [y ->]]]];
    [by apply Hok|intact_solve..].
Qed.

Lemma write_snapshot_total dir block storage codes hashes disk :
  no_inline storage → held (dir, BytecodesGz) bytecodes_from disk = Some codes →
  held (dir, BlockHashesBincode) hashes_from disk = Some hashes →
  fs.(can_mkdir) dir block.(block_header).(h_number) = true →
  (∀ p, fs.(can_create) p = true ∧ fs.(can_write) p = true) →
  write_snapshot dir block storage disk
  = Some (Ok tt, snapshot_disk dir block storage codes hashes disk).
Proof.
  intros Hn Hc Hh Hm Hok. set (n := h_number (block_header block)) in *.
  assert (∀ p x d, write_file p x d = Some (Ok tt, <[p := x]> d)) as Hw.
  { intros p x d. unfold write_file. by destruct (Hok p) as [-> ->]. }
  assert (∀ M (E : Empty M) p (from : Data → option M) d m, held p from d = Some m →
    read_map p from d = Some (Ok m, d)) as Hr.
  { intros M E p from d m. unfold held, read_map. destruct (open_file p d); [by intros ->|by intros [= ->]]. }
  unfold write_snapshot, create_dir_all, try_bind. fold n. rewrite Hm. simpl. rewrite Hw.
  rewrite (Hr _ _ _ _ _ codes) by (by rewrite held_insert_ne). simpl.
  rewrite collect_state_map by done. rewrite !Hw.
  rewrite (Hr _ _ _ _ _ hashes) by (by rewrite !held_insert_ne). unfold snapshot_disk. cbv zeta.
  destruct (decide _); [done|]. by rewrite Hw.
Qed.

Lemma rpc_execute_no_inline p chain block r storage :
  rpc_execute p chain block Rpc.new = Some (r, storage) → no_inline storage.
Proof.
  intros Hx. refine (_ : no_inline storage).
  assert (keeps (rpc_execute p chain block)) as Hk.
  { unfold rpc_execute. destruct (dispatch _ _ _ _ _) as [[]|]; [apply keeps_run|by intros ???|apply keeps_ret]. }
  by apply (Hk _ _ _ Hx).
Qed.

(** The inputs of a run that gets as far as writing. *)
Record executed (chain : C) (block_id : BlockId) (block : Block)
    (results : list PevmTxExecutionResult) (storage : RpcStorage) : Prop := {
  ex_block : get_block block_id = Ok (Some block);
  ex_number : block.(block_header).(h_number) ≠ 0%N;
  ex_run : ∃ spec_id, get_block_spec chain block.(block_header) = Ok spec_id ∧
    rpc_execute (provider_at (into_spec_id spec_id) (block.(block_header).(h_number) - 1)) chain block
      Rpc.new = Some (Ok (Some (Ok results)), storage);
}.

Lemma run_executed chain block_id dir block results storage :
  executed chain block_id block results storage →
  run chain block_id dir = write_snapshot dir block storage.
Proof.
  intros [Hb Hn%N.eqb_neq (spec & Hs & Hx)]. unfold run. by rewrite Hb, Hs, Hn, Hx.
Qed.

Lemma run_inv chain block_id dir disk (r : result FetchError unit) disk' :
  run chain block_id dir disk = Some (r, disk') →
  (∃ e, r = Err e ∧ disk' = disk ∧
    (e = FetchFailed ∨ e = NoBlock ∨ (∃ x, e = SpecFailed x) ∨ e = ExecuteFailed)) ∨
  ∃ block results storage, executed chain block_id block results storage ∧
    write_snapshot dir block storage disk = Some (r, disk').
Proof.
  assert (∀ e, Some (Err e, disk) = Some (r, disk') →
    (e = FetchFailed ∨ e = NoBlock ∨ (∃ x, e = SpecFailed x) ∨ e = ExecuteFailed) → ∃ e, r = Err e ∧ disk' = disk ∧
    (e = FetchFailed ∨ e = NoBlock ∨ (∃ x, e = SpecFailed x) ∨ e = ExecuteFailed)) as Herr.
  { intros e [= <- <-] He. eauto. }
  unfold run. destruct (get_block block_id) as [[block|]|] eqn:Hb; [|intros Hr; left; apply (Herr _ Hr); eauto..].
  destruct (get_block_spec _ _) as [spec|] eqn:Hs; [|intros Hr; left; apply (Herr _ Hr); eauto].
  destruct (N.eqb_spec block.(block_header).(h_number) 0); [done|].
  destruct (rpc_execute _ _ _ _) as [[[[[rs|]|]|] storage]|] eqn:Hx;
    [|intros Hr; left; apply (Herr _ Hr); eauto|done|intros Hr; left; apply (Herr _ Hr); eauto|done].
  intros Hw. right. exists block, rs, storage. split; [|done]. split; eauto.
Qed.


(** ** Reading the data back *)

(** [for_each_block_from_disk] of tests/common/mod.rs, for one block. *)
Definition load (dir : string) (n : N) (disk : Disk) : option (Block * InMemoryStorage) :=
  bytecodes ← open_file (dir, BytecodesGz) disk ≫= bytecodes_from;
  block_hashes ← held (dir, BlockHashesBincode) hashes_from disk;
  block ← open_file (dir, BlockJson n) disk ≫= block_from;
  accounts ← open_file (dir, PreStateJson n) disk ≫= state_from;
  Some (block, mkInMemoryStorage _ accounts bytecodes block_hashes).

(** [Pevm::execute] as in [rpc_execute], over a storage in memory. *)
Definition execute_in_memory (st : InMemoryStorage) (chain : C) (block : Block)
    : option (result Error (list PevmTxExecutionResult)) :=
  match dispatch chain block.(block_header) block.(block_transactions) 1 true with
  | Err e => Some (Err e)
  | Ok (RunSequential spec_id benv txs) => execute_revm_sequential CacheDB
      (transact_on st (build_cfg chain spec_id) benv) commit chain spec_id cache_new txs
  | Ok (RunParallel _ _ _) => None
  end.

(** What is written is read back. *)
Class SerdeLaws : Prop := {
  bytecodes_roundtrip m : bytecodes_from (bytecodes_to m) = Some m;
  hashes_roundtrip m : hashes_from (hashes_to m) = Some m;
  block_roundtrip b : block_from (block_to b) = Some b;
  state_roundtrip m : state_from (state_to m) = Some m;
}.

(** The node answers from one chain, on which accounts that do not exist have
    no storage; code hashes do not collide; the EVM asks for a code by hash
    only when it has seen an account with that code. *)
Class NodeLaws (R : SpecId → N → Remote) : Prop := {
  node_honest spec n : @Honest _ (provider_at spec n) (R spec n);
  node_no_storage spec n a i :
    @remote_basic _ (provider_at spec n) (R spec n) a = None → (R spec n).(r_slot) a i = 0%N;
  node_hash spec n : Inj (=) (=) (@hash_slow _ (provider_at spec n));
  evm_asks cfg benv eip_161 txs :
    asks_known ∅ (sequential_prog cfg benv eip_161 cache_new 0 txs);
}.

Lemma load_snapshot `{!SerdeLaws} dir block storage codes hashes disk :
  (∀ p, fs.(can_open) p = true) → held (dir, BlockHashesBincode) hashes_from disk = Some hashes →
  ∃ im, load dir block.(block_header).(h_number) (snapshot_disk dir block storage codes hashes disk)
    = Some (block, im) ∧ covers im storage.
Proof.
  intros Ho Hh. unfold load, held, open_file in *. rewrite !Ho in *. unfold snapshot_disk. cbv zeta.
  exists (mkInMemoryStorage _ storage.(cache_accounts) (storage.(cache_bytecodes) ∪ codes)
    (storage.(cache_block_hashes) ∪ hashes)).
  split; [|split; [done|apply map_union_subseteq_l..]].
  destruct (decide (cache_block_hashes storage ∪ hashes = ∅)) as [Hz|].
  - disk_simpl. simpl. rewrite bytecodes_roundtrip, block_roundtrip, state_roundtrip. simpl.
    rewrite Hh. simpl. rewrite (map_positive_l _ _ Hz). by rewrite (left_id_L ∅ _).
  - disk_simpl. simpl. by rewrite bytecodes_roundtrip, hashes_roundtrip, block_roundtrip, state_roundtrip.
Qed.

Lemma rpc_execute_replays (p : Provider) (R : Remote) chain block results storage im :
  Honest R → BytecodeLaws → (∀ a i, remote_basic R a = None → R.(r_slot) a i = 0%N) →
  Inj (=) (=) hash_slow →
  (∀ cfg benv eip_161 txs, asks_known ∅ (sequential_prog cfg benv eip_161 cache_new 0 txs)) →
  rpc_execute p chain block Rpc.new = Some (Ok (Some (Ok results)), storage) →
  covers im storage → execute_in_memory im chain block = Some (Ok results).
Proof.
  intros Hh Hb Hz Hi Ha Hx Hc. unfold rpc_execute, execute_in_memory in *.
  destruct (dispatch _ _ _ _ _) as [[spec benv txs|]|]; [|done..].
  destruct (rpc_run_replays R Hz Hi _ _ _ _ _ (Ha _ _ _ _) (empty_subseteq _) (cache_ok_new R) Hx)
    as (Hs & _ & Hrun).
  specialize (Hrun storage im Hs (reflexivity _) Hc). rewrite sequential_prog_run in Hrun.
  by injection Hrun.
Qed.

End fetch.

(** ** A concrete fetch

    The node of [RpcDemo], a block with one call of account 7, and a toy EVM
    that reads both accounts, a slot and a block hash. *)

Module FetchDemo.
#[local] Existing Instances demo_revm demo_alloy demo_order demo_revm_laws RpcDemo.provider.

#[export] Instance evm : CacheEvm PevmEthereum := {|
  CacheDB := unit;
  cache_new := tt;
  transact cfg benv db tx :=
    EvmBasic tx.(caller) (λ acc,
      match tx.(tx_kind) with
      | Call to => EvmBasic to (λ acc', EvmStorage to 3 (λ x, EvmBlockHash 5 (λ h,
          EvmDone (Ok (mkExecutionResult _ (bool_decide (is_Some acc')) (21000 + x) [h], ∅, tt)))))
      | Create => EvmDone (Err EmptyString)
      end);
  commit _ db := db;
|}.

Inductive content : Type :=
  | CBytecodes (m : gmap B256 EvmCode)
  | CHashes (m : gmap N B256)
  | CBlock (b : Block (C:=PevmEthereum))
  | CState (m : gmap Address EvmAccount).

#[export] Instance serde : Serde (C:=PevmEthereum) := {|
  Data := content;
  bytecodes_to := CBytecodes;
  bytecodes_from x := match x with CBytecodes m => Some m | _ => None end;
  hashes_to := CHashes;
  hashes_from x := match x with CHashes m => Some m | _ => None end;
  block_to := CBlock;
  block_from x := match x with CBlock b => Some b | _ => None end;
  state_to := CState;
  state_from x := match x with CState m => Some m | _ => None end;
|}.

#[export] Instance serde_laws : SerdeLaws (C:=PevmEthereum).
Proof. by split. Qed.

Definition tx : RpcTx TxType :=
  mkRpcTx _ TyLegacy 1 21000 (Some 7%N) 7 None (Call 7) 0 [] 0 None None None None None.
Definition block : Block (C:=PevmEthereum) :=
  mkBlock (mkHeader 13000000 0 50 30000000 42000 (Some 1%N) 0 0 None) (Some [tx]).

#[export] Instance node : Node (C:=PevmEthereum) (BlockId:=N) := {|
  get_block id := if decide (id = 13000000)%N then Ok (Some block) else Ok None;
  provider_at _ _ := RpcDemo.provider;
|}.

Definition fs : FileSystem (C:=PevmEthereum) :=
  mkFileSystem (λ _ _, true) (λ _, true) (λ _, true) (λ _, true) (λ _ x, x).

(** An earlier fetch left a code. *)
Definition disk0 : gmap (string * file) content :=
  {[ ("data/ethereum"%string, BytecodesGz) := CBytecodes {[ 4%N := Eip7702 6 ]} ]}.

Lemma asks (cfg : CfgEnv SpecId) benv eip_161 (txs : list TxEnv) known gas :
  asks_known known (sequential_prog (C:=PevmEthereum) cfg benv eip_161 tt gas txs).
Proof.
  revert known gas. induction txs as [|t txs IH]; intros known gas; [exact I|].
  cbn [sequential_prog]. apply asks_known_bind.
  - cbn [transact evm asks_known]. intros x. by destruct (tx_kind t).
  - intros [[[r state] []]|m] known' _; [|exact I].
    destruct (state_transitions_from_revm eip_161 state); [|exact I].
    apply asks_known_bind; [apply IH|]. by intros.
Qed.

Lemma node_laws : NodeLaws (C:=PevmEthereum) (λ _ _, RpcDemo.chain).
Proof.
  split; intros.
  - apply RpcDemo.chain_honest.
  - by apply RpcDemo.chain_no_storage.
  - apply RpcDemo.code_id_inj.
  - apply asks.
Qed.

Section outcome.
Context {E D : Type} `{Empty D}.
Definition disk_of (o : option (result E unit * D)) : D :=
  match o with Some (_, d) => d | None => ∅ end.
Definition succeeded (o : option (result E unit * D)) : bool :=
  match o with Some (Ok _, _) => true | _ => false end.
Lemma succeeded_eq o : succeeded o = true → o = Some (Ok tt, disk_of o).
Proof. by destruct o as [[[[]|] d]|]. Qed.
End outcome.

Definition fetched : option (result (FetchError (C:=PevmEthereum)) unit * gmap (string * file) content) :=
  run fs mainnet 13000000%N "data/ethereum"%string disk0.
Definition disk1 : gmap (string * file) content := disk_of fetched.

Lemma fetched_ok : run fs mainnet 13000000%N "data/ethereum"%string disk0 = Some (Ok tt, disk1).
Proof. apply (succeeded_eq fetched). vm_compute. reflexivity. Qed.
End FetchDemo.

#[local] Existing Instances demo_revm demo_alloy demo_order demo_revm_laws RpcDemo.provider FetchDemo.evm
  FetchDemo.serde FetchDemo.serde_laws FetchDemo.node.


